(** * The interned-string table of HotSpot (classfile/stringTable.cpp)

    A shallow embedding of [StringTable]: the archived (shared) table that is
    probed first, the concurrent hash table behind it, the weak handles of its
    nodes, and the policy that decides between growing, cleaning and
    rehashing.  Statics of the C++ file are fields of one record that every
    operation takes and returns. *)

From Stdlib Require Import ZArith Bool List Lia.
From Stdlib Require Import Floats.SpecFloat.
From stdpp Require Import base option list gmap.

Local Open Scope Z_scope.

(** ** IEEE 754 binary64, the C++ [double] *)

Module Double.

Definition prec : Z := 53.
Definition emax : Z := 1024.

(** [double(n)] for an unsigned integer [n]: round to nearest, ties to even. *)
Definition of_size_t (n : Z) : spec_float := binary_normalize prec emax n 0 false.

Definition div (x y : spec_float) : spec_float := SFdiv prec emax x y.

(** The C++ operator [x > y] on doubles; false as soon as one side is a NaN. *)
Definition gt (x y : spec_float) : bool := SFltb y x.
Definition le (x y : spec_float) : bool := SFleb x y.
Definition eq (x y : spec_float) : bool := SFeqb x y.

(** 2^52, the mantissa of a power of two. *)
Definition pow52 : positive := 4503599627370496.

(** The literals [2.0] and [0.5]. *)
Definition two : spec_float := S754_finite false pow52 (-51).
Definition half : spec_float := S754_finite false pow52 (-53).

(** The value of a non-negative double times 2^1100, an integer for every
    double that is zero or normal with an exponent of at least -1100. *)
Definition scaled (f : spec_float) : Z :=
  match f with
  | S754_finite false m e => Zpos m * 2 ^ (e + 1100)
  | _ => 0
  end.

Definition normal_or_zero (f : spec_float) : Prop :=
  f = S754_zero false
  \/ exists m e, f = S754_finite false m e /\ Zpos (digits2_pos m) = 53 /\ -1100 <= e.

End Double.

(** ** Constants of the file *)

(** We prefer short chains of avg 2 *)
Definition PREF_AVG_LIST_LEN : spec_float := Double.two.
(** 2^24 is max size *)
Definition END_SIZE : nat := 24.
(** If a chain gets to 100 something might be wrong *)
Definition REHASH_LEN : nat := 100.
(** If we have as many dead items as 50% of the number of bucket *)
Definition CLEAN_DEAD_HIGH_WATER_MARK : spec_float := Double.half.

(** [size_t] arithmetic wraps at 2^64; [unsigned int] at 2^32. *)
Definition size_t_max : Z := 2 ^ 64.
Definition wrap_size_t (z : Z) : Z := z mod size_t_max.
Definition wrap_uint (z : Z) : Z := z mod 2 ^ 32.

(** ** Heap values and weak handles *)

Definition jchar := Z.

(** A [java.lang.String] instance: where it lives and the UTF-16 units it
    holds.  [nullptr] is [None] of [option oop]. *)
Record oop := mk_oop { oop_addr : nat; oop_value : list jchar }.

(** [java_lang_String::equals(oop, const jchar*, int)] and
    [java_lang_String::equals(oop, oop)] compare the contents. *)
Definition String_equals_chars (o : oop) (str : list jchar) : bool :=
  bool_decide (oop_value o = str).
Definition String_equals (a b : oop) : bool :=
  bool_decide (oop_value a = oop_value b).

(** A [WeakHandle] is the address of its cell in the [OopStorage]. *)
Definition WeakHandle := nat.

(** Modelled from the spec: the collector's weak storage (gc/shared/oopStorage)
    is not part of the sources; the spec gives [acquire], [peek], [resolve] and
    [release].  A cell holds [Some o] while its referent is alive and [None]
    once the collector has cleared it; a released cell leaves the map, and
    every release is logged. *)
Record OopStorage := mk_storage {
  cells : gmap nat (option oop);
  next_cell : nat;
  release_log : list WeakHandle
}.

(** Modelled from the spec: [acquire] of the weak storage, as the constructor
    [WeakHandle(OopStorage*, Handle)] uses it; the next free cell is taken. *)
Definition storage_allocate (obj : oop) (s : OopStorage) : WeakHandle * OopStorage :=
  (next_cell s,
   mk_storage (<[next_cell s := Some obj]> (cells s)) (S (next_cell s)) (release_log s)).

(** Modelled from the spec: [WeakHandle::peek] and [WeakHandle::resolve]; a
    cleared or released cell gives [nullptr]. *)
Definition storage_peek (s : OopStorage) (wh : WeakHandle) : option oop :=
  match cells s !! wh with
  | Some (Some o) => Some o
  | _ => None
  end.

(** Modelled from the spec: [WeakHandle::release] returns the
    cell to the storage. *)
Definition storage_release (wh : WeakHandle) (s : OopStorage) : OopStorage :=
  mk_storage (delete wh (cells s)) (next_cell s) (wh :: release_log s).

(** Modelled from the spec: the collector finds the referent of a cell dead
    and clears the cell. *)
Definition storage_clear (wh : WeakHandle) (s : OopStorage) : OopStorage :=
  mk_storage (alter (fun _ => None) wh (cells s)) (next_cell s) (release_log s).

(** ** The two tables *)

(** Modelled from the spec: [CompactHashtable] (classfile/compactHashtable.hpp)
    is not part of the sources.  The archived table is a read-only sequence of
    entries [{hash, reference}]; the reference is kept as the string that
    [read_string_from_compact_hashtable] decodes it to. *)
Definition SharedStringTable := list (Z * oop).

(** Modelled from the spec: [CompactHashtable::lookup(key, hash, len)]
    answers with the first entry of that hash whose string has the contents
    asked for. *)
Definition shared_lookup (t : SharedStringTable) (name : list jchar) (hash : Z) : option oop :=
  snd <$> find (fun e => (fst e =? hash) && String_equals_chars (snd e) name) t.

(** Modelled from the spec: [ConcurrentHashTable]
    (utilities/concurrentHashTable.inline.hpp) is not part of the sources.
    Buckets are chains of weak handles, newest first; the bucket count is
    [2 ^ size_log2].  [resize_lock_owner] says that a structural task holds
    the table (it stays set while such a task is paused); [resize_lock_held]
    says that the resize mutex itself is taken at this instant. *)
Record StringTableHash := mk_table {
  size_log2 : nat;
  buckets : gmap Z (list WeakHandle);
  resize_lock_owner : bool;
  resize_lock_held : bool
}.

(** Modelled from the spec: a fresh [ConcurrentHashTable] of [2 ^ log2]
    empty buckets that no task holds. *)
Definition new_table (log2 : nat) : StringTableHash := mk_table log2 ∅ false false.

(** Modelled from the spec: the bucket a hash selects, [hash & (size - 1)]. *)
Definition bucket_index (log2 : nat) (hash : Z) : Z :=
  Z.land hash (Z.ones (Z.of_nat log2)).

(** Modelled from the spec: the chain of a bucket; a bucket without an entry
    in the map is empty. *)
Definition get_bucket (t : StringTableHash) (i : Z) : list WeakHandle :=
  default [] (buckets t !! i).

(** Modelled from the spec: the table with the chain of one bucket replaced. *)
Definition set_bucket (i : Z) (chain : list WeakHandle) (t : StringTableHash) : StringTableHash :=
  mk_table (size_log2 t) (<[i := chain]> (buckets t)) (resize_lock_owner t) (resize_lock_held t).

(** Modelled from the spec: [ConcurrentHashTable::is_max_size_reached]; the
    table was built with [END_SIZE] as the limit of [size_log2]. *)
Definition is_max_size_reached (t : StringTableHash) : bool :=
  bool_decide (END_SIZE ≤ size_log2 t)%nat.

(** Modelled from the spec: [ConcurrentHashTable::is_safepoint_safe]; the
    table is not in the middle of a structural task. *)
Definition is_safepoint_safe (t : StringTableHash) : bool :=
  negb (resize_lock_owner t).

(** Modelled from the spec: a structural task can start when the mutex is
    free and no other task holds the table. *)
Definition try_resize_lock (t : StringTableHash) : bool :=
  negb (resize_lock_held t) && negb (resize_lock_owner t).

(** ** What the table asks of its collaborators, in call order *)

Inductive event :=
| EvSharedLookup (hash : Z) (name : list jchar)   (* _shared_table.lookup *)
| EvLocalGet (hash : Z) (name : list jchar)        (* _local_table->get *)
| EvLocalInsert (hash : Z) (wh : WeakHandle)       (* _local_table->insert *)
| EvNotifyAll                                      (* Service_lock->notify_all *)
| EvMoveNodes (moved : bool)                       (* _local_table->try_move_nodes_to *)
| EvDedupNotify (string : oop).                    (* StringDedup::notify_intern *)

(** ** The statics of stringTable.cpp and the thread that runs the call *)

Record StringTable := mk_st {
  shared_table : SharedStringTable;   (* _shared_table *)
  local_table : StringTableHash;      (* *_local_table *)
  has_work : bool;                    (* StringTable::_has_work *)
  needs_rehashing : bool;             (* StringTable::_needs_rehashing *)
  oop_storage : OopStorage;           (* *StringTable::_oop_storage *)
  current_size : Z;                   (* _current_size *)
  items_count : Z;                    (* _items_count *)
  alt_hash : bool;                    (* _alt_hash *)
  alt_hash_seed : Z;                  (* _alt_hash_seed *)
  rehashed : bool;                    (* the static of rehash_table *)
  heap_top : nat;                     (* next address of the Java heap *)
  alloc_budget : option nat;          (* allocations left before one fails *)
  pending_exception : bool;           (* THREAD->has_pending_exception() *)
  vm_exited : bool;                   (* vm_exit_during_initialization ran *)
  trace : list event
}.

Definition set_shared_table v '(mk_st _ b c d e f g h i j k l m n o) := mk_st v b c d e f g h i j k l m n o.
Definition set_local_table v '(mk_st a _ c d e f g h i j k l m n o) := mk_st a v c d e f g h i j k l m n o.
Definition set_has_work v '(mk_st a b _ d e f g h i j k l m n o) := mk_st a b v d e f g h i j k l m n o.
Definition set_needs_rehashing v '(mk_st a b c _ e f g h i j k l m n o) := mk_st a b c v e f g h i j k l m n o.
Definition set_oop_storage v '(mk_st a b c d _ f g h i j k l m n o) := mk_st a b c d v f g h i j k l m n o.
Definition set_current_size v '(mk_st a b c d e _ g h i j k l m n o) := mk_st a b c d e v g h i j k l m n o.
Definition set_items_count v '(mk_st a b c d e f _ h i j k l m n o) := mk_st a b c d e f v h i j k l m n o.
Definition set_alt_hash v '(mk_st a b c d e f g _ i j k l m n o) := mk_st a b c d e f g v i j k l m n o.
Definition set_alt_hash_seed v '(mk_st a b c d e f g h _ j k l m n o) := mk_st a b c d e f g h v j k l m n o.
Definition set_rehashed v '(mk_st a b c d e f g h i _ k l m n o) := mk_st a b c d e f g h i v k l m n o.
Definition set_heap_top v '(mk_st a b c d e f g h i j _ l m n o) := mk_st a b c d e f g h i j v l m n o.
Definition set_alloc_budget v '(mk_st a b c d e f g h i j k _ m n o) := mk_st a b c d e f g h i j k v m n o.
Definition set_pending_exception v '(mk_st a b c d e f g h i j k l _ n o) := mk_st a b c d e f g h i j k l v n o.
Definition set_vm_exited v '(mk_st a b c d e f g h i j k l m _ o) := mk_st a b c d e f g h i j k l m v o.
Definition set_trace v '(mk_st a b c d e f g h i j k l m n _) := mk_st a b c d e f g h i j k l m n v.

Definition log_event (e : event) (st : StringTable) : StringTable :=
  set_trace (trace st ++ [e]) st.

(** ** Counters and factors *)

Definition item_added (st : StringTable) : StringTable :=
  set_items_count (wrap_size_t (items_count st + 1)) st.

Definition item_removed (st : StringTable) : StringTable :=
  set_items_count (wrap_size_t (items_count st + (size_t_max - 1))) st.

Definition get_load_factor (st : StringTable) : spec_float :=
  Double.div (Double.of_size_t (items_count st)) (Double.of_size_t (current_size st)).

Definition get_dead_factor (st : StringTable) (num_dead : Z) : spec_float :=
  Double.div (Double.of_size_t num_dead) (Double.of_size_t (current_size st)).

Definition trigger_concurrent_work (st : StringTable) : StringTable :=
  log_event EvNotifyAll (set_has_work true st).

Definition gc_notification (num_dead : Z) (st : StringTable) : StringTable :=
  if has_work st then st
  else
    let load_factor := get_load_factor st in
    let dead_factor := get_dead_factor st num_dead in
    if Double.gt dead_factor load_factor
       || Double.gt load_factor PREF_AVG_LIST_LEN
       || Double.gt dead_factor CLEAN_DEAD_HIGH_WATER_MARK
    then trigger_concurrent_work st
    else st.

(** ** Collaborators outside the file

    The hash functions, the string conversions and the deduplication switch
    are owned by other parts of the VM; the table only calls them. *)

Definition Symbol := list Z.

Class Collaborators := {
  (* java_lang_String::hash_code(const jchar*, int), an unsigned int *)
  String_hash_code : list jchar -> Z;
  (* AltHashing::halfsiphash_32(seed, const uint16_t*, int) *)
  halfsiphash_32 : Z -> list jchar -> Z;
  (* Symbol::as_unicode(int&) *)
  Symbol_as_unicode : Symbol -> list jchar;
  (* UTF8::unicode_length with UTF8::convert_to_unicode *)
  UTF8_convert_to_unicode : list Z -> list jchar;
  (* StringDedup::is_enabled() *)
  StringDedup_is_enabled : bool
}.

(** The two shapes of key the concurrent table is probed with. *)
Inductive LookupFunc :=
| StringTableLookupJchar (hash : Z) (str : list jchar)
| StringTableLookupOop (hash : Z) (find : oop).

Definition lookup_get_hash (lk : LookupFunc) : Z :=
  match lk with
  | StringTableLookupJchar hash _ => hash
  | StringTableLookupOop hash _ => hash
  end.

Definition lookup_chars (lk : LookupFunc) : list jchar :=
  match lk with
  | StringTableLookupJchar _ str => str
  | StringTableLookupOop _ find => oop_value find
  end.

(** [equals(WeakHandle*, bool* is_dead)]: a cleared handle is reported dead
    and is no match. *)
Definition lookup_equals (s : OopStorage) (lk : LookupFunc) (wh : WeakHandle) : bool :=
  match storage_peek s wh with
  | None => false
  | Some val_oop =>
      match lk with
      | StringTableLookupJchar _ str => String_equals_chars val_oop str
      | StringTableLookupOop _ find => String_equals find val_oop
      end
  end.

(** Modelled from the spec: the walk of one chain with a lookup functor; the
    second component counts the nodes visited. *)
Fixpoint get_node (s : OopStorage) (lk : LookupFunc) (chain : list WeakHandle)
    (loops : nat) : option WeakHandle * nat :=
  match chain with
  | [] => (None, loops)
  | wh :: rest =>
      if lookup_equals s lk wh then (Some wh, S loops)
      else get_node s lk rest (S loops)
  end.

(** Modelled from the spec: the indices of the buckets, in the order the
    structural tasks visit them, and all nodes of a table in that order. *)
Definition bucket_indices (log2 : nat) : list Z :=
  Z.of_nat <$> seq 0 (2 ^ log2)%nat.

(** Modelled from the spec: every node of the table, bucket by bucket. *)
Definition all_nodes (t : StringTableHash) : list WeakHandle :=
  concat (get_bucket t <$> bucket_indices (size_log2 t)).

(** [StringTable::table_size] *)
Definition table_size (st : StringTable) : Z :=
  Z.shiftl 1 (Z.of_nat (size_log2 (local_table st))).

Section Operations.
Context `{Collaborators}.

(** [hash_string(const jchar*, int, bool useAlt)] *)
Definition hash_string (s : list jchar) (useAlt : bool) (st : StringTable) : Z :=
  if useAlt then halfsiphash_32 (alt_hash_seed st) s else String_hash_code s.

(** *** StringTableConfig *)

(** [StringTableConfig::get_hash].  A cleared handle is dead; a live one is
    hashed as unicode with the hash in use.  The third outcome of the source,
    [vm_exit_out_of_memory] when the resource array of
    [as_unicode_string_or_null] is refused, ends the process and is left
    out: the array is taken to be granted. *)
Definition get_hash (wh : WeakHandle) (st : StringTable) : Z * bool :=
  match storage_peek (oop_storage st) wh with
  | None => (0, true)
  | Some val_oop => (hash_string (oop_value val_oop) (alt_hash st) st, false)
  end.

(** [StringTableConfig::allocate_node] and [StringTableConfig::free_node]:
    the default allocation, but counted; freeing releases the weak handle. *)
Definition allocate_node (st : StringTable) : StringTable := item_added st.

Definition free_node (wh : WeakHandle) (st : StringTable) : StringTable :=
  item_removed (set_oop_storage (storage_release wh (oop_storage st)) st).

(** *** The calls into the concurrent table *)

(** Modelled from the spec: [ConcurrentHashTable::get].  The result is what
    [StringTableGet] resolves; the flag is the chain-length alarm. *)
Definition table_get (lk : LookupFunc) (st : StringTable)
    : option oop * bool * StringTable :=
  let t := local_table st in
  let i := bucket_index (size_log2 t) (lookup_get_hash lk) in
  let '(node, loops) := get_node (oop_storage st) lk (get_bucket t i) 0 in
  (node ≫= storage_peek (oop_storage st),
   bool_decide (REHASH_LEN < loops)%nat,
   log_event (EvLocalGet (lookup_get_hash lk) (lookup_chars lk)) st).

(** Modelled from the spec: [ConcurrentHashTable::insert].  The node is
    allocated first (which counts it); an equal live value in the bucket
    makes the insert fail and the node is freed again, otherwise the node
    becomes the head of the chain. *)
Definition table_insert (lk : LookupFunc) (wh : WeakHandle) (st : StringTable)
    : bool * bool * StringTable :=
  let st := log_event (EvLocalInsert (lookup_get_hash lk) wh) st in
  let st := allocate_node st in
  let t := local_table st in
  let i := bucket_index (size_log2 t) (lookup_get_hash lk) in
  let '(node, loops) := get_node (oop_storage st) lk (get_bucket t i) 0 in
  let warn := bool_decide (REHASH_LEN < loops)%nat in
  match node with
  | None => (true, warn, set_local_table (set_bucket i (wh :: get_bucket t i) t) st)
  | Some _ => (false, warn, free_node wh st)
  end.

(** Modelled from the spec: [StringTable::update_needs_rehash] of the header
    raises the rehash-needed flag on a chain-length alarm. *)
Definition update_needs_rehash (rehash : bool) (st : StringTable) : StringTable :=
  if rehash then set_needs_rehashing true st else st.

(** *** Fallible allocations of the calling thread *)

(** Modelled from the spec: an allocation on behalf of the calling thread
    (java_lang_String of classfile/javaClasses is not part of the sources).
    It succeeds while the budget lasts; when it fails, an
    [OutOfMemoryError] is pending in the thread. *)
Definition try_allocate (st : StringTable) : bool * StringTable :=
  match alloc_budget st with
  | None => (true, st)
  | Some O => (false, set_pending_exception true st)
  | Some (S n) => (true, set_alloc_budget (Some n) st)
  end.

(** Modelled from the spec: [java_lang_String::as_unicode_string(oop, int&,
    TRAPS)] copies the contents into a resource array, or raises. *)
Definition as_unicode_string (string : oop) (st : StringTable)
    : list jchar * StringTable :=
  let '(ok, st) := try_allocate st in
  (if ok then oop_value string else [], st).

(** Modelled from the spec: [java_lang_String::create_from_unicode(const
    jchar*, int, TRAPS)] allocates a new string with these contents at the
    top of the heap, or raises. *)
Definition create_from_unicode (name : list jchar) (st : StringTable)
    : option oop * StringTable :=
  let '(ok, st) := try_allocate st in
  if ok then (Some (mk_oop (heap_top st) name), set_heap_top (S (heap_top st)) st)
  else (None, st).

(** *** Probing *)

(** [StringTable::lookup_shared(const jchar*, int, unsigned int)] *)
Definition lookup_shared (name : list jchar) (hash : Z) (st : StringTable)
    : option oop * StringTable :=
  (shared_lookup (shared_table st) name hash, log_event (EvSharedLookup hash name) st).

(** [StringTable::do_lookup] *)
Definition do_lookup (name : list jchar) (hash : Z) (st : StringTable)
    : option oop * StringTable :=
  let '(res, rehash_warning, st) := table_get (StringTableLookupJchar hash name) st in
  (res, update_needs_rehash rehash_warning st).

(** [StringTable::lookup(const jchar*, int)] *)
Definition lookup (name : list jchar) (st : StringTable) : option oop * StringTable :=
  let hash := String_hash_code name in
  let '(string, st) := lookup_shared name hash st in
  match string with
  | Some s => (Some s, st)
  | None =>
      let hash := if alt_hash st then wrap_uint (hash_string name true st) else hash in
      do_lookup name hash st
  end.

(** [StringTable::lookup] on a [Symbol] *)
Definition lookup_symbol (symbol : Symbol) (st : StringTable) : option oop * StringTable :=
  lookup (Symbol_as_unicode symbol) st.

(** *** Interning *)

(** The [do ... while(true)] of [do_intern]; [None] when the fuel is spent. *)
Fixpoint do_intern_loop (fuel : nat) (lk : LookupFunc) (string_h : oop)
    (st : StringTable) : option (option oop * StringTable) :=
  match fuel with
  | O => None
  | S fuel =>
      let '(wh, storage) := storage_allocate string_h (oop_storage st) in
      let st := set_oop_storage storage st in
      let '(inserted, rehash_warning, st) := table_insert lk wh st in
      if inserted then
        let st := update_needs_rehash rehash_warning st in
        Some (storage_peek (oop_storage st) wh, st)
      else
        let '(found, rehash_warning, st) := table_get lk st in
        match found with
        | Some res => Some (Some res, update_needs_rehash rehash_warning st)
        | None => do_intern_loop fuel lk string_h st
        end
  end.

Definition notify_intern (string_h : oop) (st : StringTable) : StringTable :=
  if StringDedup_is_enabled then log_event (EvDedupNotify string_h) st else st.

(** [StringTable::do_intern] *)
Definition do_intern (fuel : nat) (string_or_null_h : option oop)
    (name : list jchar) (hash : Z) (st : StringTable)
    : option (option oop * StringTable) :=
  let body string_h st :=
    let st := notify_intern string_h st in
    do_intern_loop fuel (StringTableLookupOop hash string_h) string_h st in
  match string_or_null_h with
  | Some string_h => body string_h st
  | None =>
      let '(created, st) := create_from_unicode name st in
      if pending_exception st then Some (None, st)        (* CHECK_NULL *)
      else match created with
           | Some string_h => body string_h st
           | None => Some (None, st)
           end
  end.

(** [StringTable::intern(Handle, const jchar*, int, TRAPS)] *)
Definition intern (fuel : nat) (string_or_null_h : option oop)
    (name : list jchar) (st : StringTable) : option (option oop * StringTable) :=
  (* shared table always uses java_lang_String::hash_code *)
  let hash := String_hash_code name in
  let '(found_string, st) := lookup_shared name hash st in
  match found_string with
  | Some s => Some (Some s, st)
  | None =>
      let hash := if alt_hash st then wrap_uint (hash_string name true st) else hash in
      let '(found_string, st) := do_lookup name hash st in
      match found_string with
      | Some s => Some (Some s, st)
      | None => do_intern fuel string_or_null_h name hash st
      end
  end.

(** The [CHECK_NULL] after a call: a pending exception turns the result
    into [nullptr]. *)
Definition check_null (r : option (option oop * StringTable))
    : option (option oop * StringTable) :=
  match r with
  | Some (res, st) => Some (if pending_exception st then None else res, st)
  | None => None
  end.

(** [StringTable::intern(Symbol*, TRAPS)] *)
Definition intern_symbol (fuel : nat) (symbol : option Symbol) (st : StringTable)
    : option (option oop * StringTable) :=
  match symbol with
  | None => Some (None, st)
  | Some sym => check_null (intern fuel None (Symbol_as_unicode sym) st)
  end.

(** [StringTable::intern(oop, TRAPS)] *)
Definition intern_oop (fuel : nat) (string : option oop) (st : StringTable)
    : option (option oop * StringTable) :=
  match string with
  | None => Some (None, st)
  | Some s =>
      let '(chars, st) := as_unicode_string s st in
      if pending_exception st then Some (None, st)          (* CHECK_NULL *)
      else check_null (intern fuel (Some s) chars st)
  end.

(** [StringTable::intern(const char*, TRAPS)] *)
Definition intern_utf8 (fuel : nat) (utf8_string : option (list Z)) (st : StringTable)
    : option (option oop * StringTable) :=
  match utf8_string with
  | None => Some (None, st)
  | Some u => check_null (intern fuel None (UTF8_convert_to_unicode u) st)
  end.

(** *** Concurrent work *)

(** Modelled from the spec: the migration step shared by the grow task and
    by [try_move_nodes_to].  A node whose referent is gone is destroyed; a
    live one is linked into the bucket its hash selects in the target. *)
Fixpoint move_nodes (nodes : list WeakHandle) (to : StringTableHash)
    (st : StringTable) : StringTableHash * StringTable :=
  match nodes with
  | [] => (to, st)
  | wh :: rest =>
      let '(hash, dead) := get_hash wh st in
      if dead then move_nodes rest to (free_node wh st)
      else
        let i := bucket_index (size_log2 to) hash in
        move_nodes rest (set_bucket i (wh :: get_bucket to i) to) st
  end.

(** Modelled from the spec: [GrowTask].  [prepare] refuses when another
    task holds the table or the table is at its largest; each [do_task]
    migrates one bucket; [done] publishes the doubled table. *)
Definition grow_prepare (t : StringTableHash) : bool :=
  try_resize_lock t && negb (is_max_size_reached t).

Fixpoint grow_do_tasks (chunks : list Z) (old to : StringTableHash)
    (st : StringTable) : StringTableHash * StringTable :=
  match chunks with
  | [] => (to, st)
  | i :: rest =>
      let '(to, st) := move_nodes (get_bucket old i) to st in
      (* gt.pause; ThreadBlockInVM; gt.cont *)
      grow_do_tasks rest old to st
  end.

(** [StringTable::grow] *)
Definition grow (st : StringTable) : StringTable :=
  let t := local_table st in
  if negb (grow_prepare t) then st
  else
    let '(to, st) :=
      grow_do_tasks (bucket_indices (size_log2 t)) t (new_table (S (size_log2 t))) st in
    let st := set_local_table to st in
    set_current_size (table_size st) st.

(** [StringTableDeleteCheck]: true on a node whose referent is gone. *)
Definition StringTableDeleteCheck (wh : WeakHandle) (st : StringTable) : bool :=
  match storage_peek (oop_storage st) wh with
  | None => true
  | Some _ => false
  end.

(** Modelled from the spec: [BulkDeleteTask].  Every node the check selects
    is unlinked and destroyed. *)
Fixpoint delete_in_chain (chain : list WeakHandle) (st : StringTable)
    : list WeakHandle * StringTable :=
  match chain with
  | [] => ([], st)
  | wh :: rest =>
      if StringTableDeleteCheck wh st then delete_in_chain rest (free_node wh st)
      else let '(kept, st) := delete_in_chain rest st in (wh :: kept, st)
  end.

Fixpoint bulk_delete_do_tasks (chunks : list Z) (st : StringTable) : StringTable :=
  match chunks with
  | [] => st
  | i :: rest =>
      let '(kept, st) := delete_in_chain (get_bucket (local_table st) i) st in
      (* bdt.pause; ThreadBlockInVM; bdt.cont *)
      bulk_delete_do_tasks rest (set_local_table (set_bucket i kept (local_table st)) st)
  end.

(** [StringTable::clean_dead_entries] *)
Definition clean_dead_entries (st : StringTable) : StringTable :=
  if negb (try_resize_lock (local_table st)) then st
  else bulk_delete_do_tasks (bucket_indices (size_log2 (local_table st))) st.

(** [StringTable::do_concurrent_work] *)
Definition do_concurrent_work (st : StringTable) : StringTable :=
  let load_factor := get_load_factor st in
  (* We prefer growing, since that also removes dead items *)
  let st :=
    if Double.gt load_factor PREF_AVG_LIST_LEN
       && negb (is_max_size_reached (local_table st))
    then grow st
    else clean_dead_entries st in
  set_has_work false st.

(** *** Rehash *)

(** Modelled from the spec: [ConcurrentHashTable::try_move_nodes_to] gives
    up when it cannot take the resize lock and otherwise moves every node. *)
Definition try_move_nodes_to (to : StringTableHash) (st : StringTable)
    : option StringTableHash * StringTable :=
  if negb (try_resize_lock (local_table st)) then (None, log_event (EvMoveNodes false) st)
  else
    let '(to, st) := move_nodes (all_nodes (local_table st)) to st in
    (Some to, log_event (EvMoveNodes true) st).

(** [StringTable::do_rehash] *)
Definition do_rehash (st : StringTable) : bool * StringTable :=
  if negb (is_safepoint_safe (local_table st)) then (false, st)
  else
    (* We use current size, not max size. *)
    let new_size := size_log2 (local_table st) in
    let new_tab := new_table new_size in
    (* Use alt hash from now on *)
    let st := set_alt_hash true st in
    match try_move_nodes_to new_tab st with
    | (None, st) => (false, set_alt_hash false st)
    | (Some moved, st) => (true, set_local_table moved st)
    end.

(** [StringTable::rehash_table]; [seed] is what [AltHashing::compute_seed]
    returns should the call get that far. *)
Definition rehash_table (seed : Z) (st : StringTable) : StringTable :=
  (* Grow instead of rehash. *)
  if Double.gt (get_load_factor st) PREF_AVG_LIST_LEN
     && negb (is_max_size_reached (local_table st))
  then set_needs_rehashing false (trigger_concurrent_work st)
  (* Already rehashed. *)
  else if rehashed st
  then set_needs_rehashing false (trigger_concurrent_work st)
  else
    let st := set_alt_hash_seed seed st in
    let '(ok, st) := do_rehash st in
    let st := if ok then set_rehashed true st else st in
    set_needs_rehashing false st.

(** *** Sharing *)

(** [SharedStringTransfer::do_value] *)
Definition SharedStringTransfer_do_value (fuel : nat) (string : oop)
    (st : StringTable) : option StringTable :=
  match intern_oop fuel (Some string) st with
  | None => None
  | Some (_, st) =>
      Some (if pending_exception st then set_vm_exited true st else st)
  end.

(** [CompactHashtable::iterate] with that closure; nothing runs once the VM
    has exited. *)
Fixpoint shared_iterate (fuel : nat) (entries : SharedStringTable)
    (st : StringTable) : option StringTable :=
  match entries with
  | [] => Some st
  | e :: rest =>
      match SharedStringTransfer_do_value fuel (snd e) st with
      | None => None
      | Some st => if vm_exited st then Some st else shared_iterate fuel rest st
      end
  end.

(** [StringTable::transfer_shared_strings_to_local_table] *)
Definition transfer_shared_strings_to_local_table (fuel : nat) (st : StringTable)
    : option StringTable :=
  let shared_table_copy := shared_table st in
  let st := set_shared_table [] st in
  shared_iterate fuel shared_table_copy st.

End Operations.

(** ** Start of the VM *)

(** The statics as their initialisers leave them; the archived table is
    mapped and the Java heap ends at [top].  [_local_table] is a null pointer
    until [create_table]; the record holds an empty table in its place. *)
Definition static_init (archived : SharedStringTable) (top : nat)
    (budget : option nat) : StringTable :=
  mk_st archived (new_table 0) false false (mk_storage ∅ 0 []) 0 0 false 0 false
        top budget false false [].

(** [StringTable::create_table] *)
Definition create_table (StringTableSize : Z) (st : StringTable) : StringTable :=
  let start_size_log_2 := Z.to_nat (Z.log2_up StringTableSize) in
  let st := set_current_size (Z.shiftl 1 (Z.of_nat start_size_log_2)) st in
  let st := set_local_table (new_table start_size_log_2) st in
  set_oop_storage (mk_storage ∅ 0 []) st.

(** ** Histories

    What can happen to the table, one call at a time: the entry points of the
    file, the collector clearing a referent, and another thread taking or
    dropping the resize lock. *)
Inductive op :=
| OpLookup (name : list jchar)
| OpInternSymbol (fuel : nat) (symbol : option Symbol)
| OpInternOop (fuel : nat) (string : option oop)
| OpInternUtf8 (fuel : nat) (utf8_string : option (list Z))
| OpGcNotification (num_dead : Z)
| OpDoConcurrentWork
| OpRehashTable (seed : Z)
| OpTransferShared (fuel : nat)
| OpCollect (wh : WeakHandle)
| OpResizeLock (owner held : bool).

(** Modelled from the spec: the table after another thread changed who holds
    it. *)
Definition set_resize_lock (owner held : bool) (t : StringTableHash) : StringTableHash :=
  mk_table (size_log2 t) (buckets t) owner held.

Section Histories.
Context `{Collaborators}.

Definition exec (o : op) (st : StringTable) : option StringTable :=
  match o with
  | OpLookup name => Some (snd (lookup name st))
  | OpInternSymbol fuel symbol => snd <$> intern_symbol fuel symbol st
  | OpInternOop fuel string => snd <$> intern_oop fuel string st
  | OpInternUtf8 fuel utf8_string => snd <$> intern_utf8 fuel utf8_string st
  | OpGcNotification num_dead => Some (gc_notification num_dead st)
  | OpDoConcurrentWork => Some (do_concurrent_work st)
  | OpRehashTable seed => Some (rehash_table seed st)
  | OpTransferShared fuel => transfer_shared_strings_to_local_table fuel st
  | OpCollect wh => Some (set_oop_storage (storage_clear wh (oop_storage st)) st)
  | OpResizeLock owner held =>
      Some (set_local_table (set_resize_lock owner held (local_table st)) st)
  end.

Fixpoint run (ops : list op) (st : StringTable) : option StringTable :=
  match ops with
  | [] => Some st
  | o :: rest =>
      match exec o st with
      | Some st => run rest st
      | None => None
      end
  end.
End Histories.

(** The number of completed migrations to a rehashed table. *)
Definition is_rehash (e : event) : bool :=
  match e with
  | EvMoveNodes true => true
  | _ => false
  end.

Definition rehashes_done (st : StringTable) : nat :=
  length (filter (fun e => is_rehash e = true) (trace st)).

(** An event is in order for a call that probes the concurrent table with
    [hash]: it is a probe of the concurrent table that carries [hash], or the
    word to the deduplication; the archived table is not probed. *)
Definition probes_with (hash : Z) (e : event) : Prop :=
  match e with
  | EvLocalGet h _ => h = hash
  | EvLocalInsert h _ => h = hash
  | EvDedupNotify _ => True
  | _ => False
  end.

(** The branch of [rehash_table] and of [do_concurrent_work] that grows. *)
Definition growth_preferred (st : StringTable) : bool :=
  Double.gt (get_load_factor st) PREF_AVG_LIST_LEN
  && negb (is_max_size_reached (local_table st)).

(** The hash that selects the bucket of the concurrent table. *)
Definition local_hash `{Collaborators} (name : list jchar) (st : StringTable) : Z :=
  if alt_hash st then wrap_uint (halfsiphash_32 (alt_hash_seed st) name)
  else String_hash_code name.

(** ** What a call leaves alone *)

(** The structural tasks touch the buckets, the weak storage and the two
    counters, nothing else. *)
Definition maintenance_frame (st st' : StringTable) : Prop :=
  shared_table st' = shared_table st
  /\ has_work st' = has_work st
  /\ needs_rehashing st' = needs_rehashing st
  /\ alt_hash st' = alt_hash st
  /\ alt_hash_seed st' = alt_hash_seed st
  /\ rehashed st' = rehashed st
  /\ heap_top st' = heap_top st
  /\ alloc_budget st' = alloc_budget st
  /\ pending_exception st' = pending_exception st
  /\ vm_exited st' = vm_exited st
  /\ trace st' = trace st.

(** Probing and interning leave the policy statics, the hash in use and the
    shape of the table alone, and complete no rehash. *)
Definition intern_frame (st st' : StringTable) : Prop :=
  shared_table st' = shared_table st
  /\ has_work st' = has_work st
  /\ alt_hash st' = alt_hash st
  /\ alt_hash_seed st' = alt_hash_seed st
  /\ rehashed st' = rehashed st
  /\ current_size st' = current_size st
  /\ vm_exited st' = vm_exited st
  /\ size_log2 (local_table st') = size_log2 (local_table st)
  /\ rehashes_done st' = rehashes_done st.

(** The static [rehashed] and the migrations on record agree. *)
Definition rehash_accounted (st : StringTable) : Prop :=
  rehashes_done st = (if rehashed st then 1 else 0)%nat.

(** The alternate hash is in use only after a rehash has completed. *)
Definition epoch_consistent (st : StringTable) : Prop :=
  rehashed st = false -> alt_hash st = false.

(** ** Well-formed states *)

(** Every handle the table or the release log mentions was handed out by the
    storage, and the item counter is a [size_t]. *)
Definition handles_allocated (st : StringTable) : Prop :=
  (forall i wh, wh ∈ get_bucket (local_table st) i -> (wh < next_cell (oop_storage st))%nat)
  /\ (forall wh, wh ∈ release_log (oop_storage st) -> (wh < next_cell (oop_storage st))%nat)
  /\ (forall wh, is_Some (cells (oop_storage st) !! wh) -> (wh < next_cell (oop_storage st))%nat)
  /\ 0 <= items_count st < size_t_max.

(** A handle is linked when some bucket holds it. *)
Definition linked (st : StringTable) (wh : WeakHandle) : Prop :=
  exists i, wh ∈ get_bucket (local_table st) i.

(** The table holds a live value with these contents in the bucket that
    [hash] selects. *)
Definition resident (st : StringTable) (hash : Z) (chars : list jchar) : Prop :=
  exists wh o,
    wh ∈ get_bucket (local_table st) (bucket_index (size_log2 (local_table st)) hash)
    /\ storage_peek (oop_storage st) wh = Some o
    /\ oop_value o = chars.

(** Between two states the table and the storage only gained entries. *)
Definition table_extends (st st' : StringTable) : Prop :=
  size_log2 (local_table st') = size_log2 (local_table st)
  /\ (forall i wh, wh ∈ get_bucket (local_table st) i -> wh ∈ get_bucket (local_table st') i)
  /\ (forall wh, (wh < next_cell (oop_storage st))%nat ->
        storage_peek (oop_storage st') wh = storage_peek (oop_storage st) wh)
  /\ (next_cell (oop_storage st) <= next_cell (oop_storage st'))%nat.

(** What the calling thread carries is untouched. *)
Definition thread_frame (st st' : StringTable) : Prop :=
  alloc_budget st' = alloc_budget st
  /\ pending_exception st' = pending_exception st
  /\ heap_top st' = heap_top st.

(** The allocation budget lasts for [n] more allocations. *)
Definition budget_covers (budget : option nat) (n : nat) : bool :=
  match budget with
  | None => true
  | Some k => (n <=? k)%nat
  end.

(** ** An instance to evaluate with

    Java's polynomial hash for the default seed and a seeded variant of it
    for the alternate one; one UTF-16 unit per byte. *)
Definition example_hash_code (s : list jchar) : Z :=
  fold_left (fun h c => wrap_uint (31 * h + c)) s 0.

Definition example_collaborators : Collaborators := {|
  String_hash_code := example_hash_code;
  halfsiphash_32 := fun seed s => wrap_uint (example_hash_code s + seed);
  Symbol_as_unicode := fun s => s;
  UTF8_convert_to_unicode := fun s => s;
  StringDedup_is_enabled := false
|}.

(** "hi", "yo" and "ab" as UTF-16. *)
Definition chars_hi : list jchar := [104; 105].
Definition chars_yo : list jchar := [121; 111].
Definition chars_ab : list jchar := [97; 98].

Definition archived_hi : oop := mk_oop 1 chars_hi.
Definition archived_yo : oop := mk_oop 2 chars_yo.

Definition example_archive : SharedStringTable :=
  [(example_hash_code chars_hi, archived_hi); (example_hash_code chars_yo, archived_yo)].

(** A VM with two archived strings and a table of two buckets. *)
Definition example_start : StringTable :=
  create_table 2 (static_init example_archive 10 None).

(** The same VM without an archive. *)
Definition example_plain : StringTable :=
  create_table 2 (static_init [] 10 None).

(** A structural task of another thread is paused: it still owns the table. *)
Definition example_busy : StringTable :=
  set_local_table (set_resize_lock true false (local_table example_plain)) example_plain.


(** Five items in two buckets: the load factor is 2.5. *)
Definition example_crowded : StringTable := set_items_count 5 example_plain.

(** A string "ab" on the Java heap. *)
Definition heap_ab : oop := mk_oop 11 chars_ab.

(** "abc", "abd" and "abe" as UTF-16, and a table of one bucket. *)
Definition chars_abc : list jchar := [97; 98; 99].
Definition chars_abd : list jchar := [97; 98; 100].
Definition chars_abe : list jchar := [97; 98; 101].
Definition example_single : StringTable := create_table 1 (static_init [] 10 None).

(** The archive of two strings and an allocation budget of one. *)
Definition example_tight : StringTable :=
  create_table 2 (static_init example_archive 10 (Some 1%nat)).

(** The state of a finished call, or the state it started from when the fuel
    ran out. *)
Definition state_after (start : StringTable) (r : option (option oop * StringTable))
    : StringTable :=
  match r with
  | Some (_, st) => st
  | None => start
  end.

(** A table of two buckets holding four items: the load factor is exactly 2. *)
Definition example_full : StringTable := set_items_count 4 example_plain.


(** ** Verification of the table *)

(** The strings the table holds alive, in scan order. *)
Definition live_contents (st : StringTable) : list (list jchar) :=
  omap (fun wh => oop_value <$> storage_peek (oop_storage st) wh)
       (all_nodes (local_table st)).



(** ** Invariants of the concurrent table *)

(** Every live node sits in the bucket that the hash in use selects for its
    contents. *)
Definition placed `{Collaborators} (st : StringTable) : Prop :=
  forall i wh o,
    wh ∈ get_bucket (local_table st) i ->
    storage_peek (oop_storage st) wh = Some o ->
    i = bucket_index (size_log2 (local_table st)) (local_hash (oop_value o) st).

(** The item counter is the number of nodes, live or dead. *)
Definition counted (st : StringTable) : Prop :=
  items_count st = wrap_size_t (Z.of_nat (length (all_nodes (local_table st)))).

(** [_current_size] is the bucket count of the table, and the table is no
    larger than its limit. *)
Definition sized (st : StringTable) : Prop :=
  current_size st = 2 ^ Z.of_nat (size_log2 (local_table st))
  /\ (size_log2 (local_table st) <= END_SIZE)%nat.

(** No bucket outside the table holds a node. *)
Definition in_range (st : StringTable) : Prop :=
  forall i wh, wh ∈ get_bucket (local_table st) i ->
    0 <= i < 2 ^ Z.of_nat (size_log2 (local_table st)).

(** The states the entry points keep the table in: handles come from the
    storage, nodes are in range and where their hash says, the two counters
    are right, the alternate hash is in use only after a rehash, and no two
    live nodes hold the same contents. *)
Definition well_formed `{Collaborators} (st : StringTable) : Prop :=
  handles_allocated st
  /\ in_range st
  /\ placed st
  /\ counted st
  /\ sized st
  /\ epoch_consistent st
  /\ NoDup (live_contents st).

(** ** What one call of [intern] does to the table *)

(** The call links one fresh node, holding the string it returns, at the
    head of the bucket of the hash, which held no live node of these
    contents. *)
Definition intern_links (hash : Z) (name : list jchar) (st : StringTable)
    (r : option oop) (st' : StringTable) : Prop :=
  let t := local_table st in
  let i := bucket_index (size_log2 t) hash in
  let wh := next_cell (oop_storage st) in
  exists s, r = Some s /\ oop_value s = name
    /\ (forall wh0 o, wh0 ∈ get_bucket t i ->
          storage_peek (oop_storage st) wh0 = Some o -> oop_value o <> name)
    /\ local_table st' = set_bucket i (wh :: get_bucket t i) t
    /\ storage_peek (oop_storage st') wh = Some s
    /\ (forall wh', (wh' < wh)%nat ->
          storage_peek (oop_storage st') wh' = storage_peek (oop_storage st) wh')
    /\ items_count st' = wrap_size_t (items_count st + 1).

(** The call leaves buckets, cells and counter alone. *)
Definition intern_keeps (st st' : StringTable) : Prop :=
  local_table st' = local_table st
  /\ cells (oop_storage st') = cells (oop_storage st)
  /\ items_count st' = items_count st.

(** ** What a structural task does to the storage

    A walk over [nodes] that destroys the nodes whose string is gone: the
    buckets are not touched by the destruction itself, no handle resolves
    differently, the release log gains exactly the dead nodes, and the item
    counter went down once for each of them. *)
Definition reclaimed (nodes : list WeakHandle) (st st' : StringTable) : Prop :=
  let live wh := is_Some (storage_peek (oop_storage st) wh) in
  local_table st' = local_table st
  /\ (forall wh, storage_peek (oop_storage st') wh = storage_peek (oop_storage st) wh)
  /\ next_cell (oop_storage st') = next_cell (oop_storage st)
  /\ release_log (oop_storage st')
     = rev (filter (fun wh => ~ live wh) nodes) ++ release_log (oop_storage st)
  /\ (forall wh, is_Some (cells (oop_storage st') !! wh) ->
        is_Some (cells (oop_storage st) !! wh))
  /\ (exists k, items_count st' + Z.of_nat (length nodes)
                = items_count st + Z.of_nat (length (filter live nodes)) + k * size_t_max)
  /\ (0 <= items_count st < size_t_max -> 0 <= items_count st' < size_t_max)
  /\ current_size st' = current_size st
  /\ maintenance_frame st st'.

(** Two states hold the same strings: the archived table is the same, and
    the same nodes are linked and alive, with the same strings. *)
Definition same_strings (st st' : StringTable) : Prop :=
  shared_table st' = shared_table st
  /\ forall wh o,
       linked st wh /\ storage_peek (oop_storage st) wh = Some o <->
       linked st' wh /\ storage_peek (oop_storage st') wh = Some o.

(** ** More states to evaluate with *)

(** The table after "ab" was interned from the heap. *)
Definition example_interned : StringTable :=
  state_after example_plain (@intern_oop example_collaborators 1 (Some heap_ab) example_plain).

(** The same table once the collector has cleared the node of "ab". *)
Definition example_collected : StringTable :=
  set_oop_storage (storage_clear 0%nat (oop_storage example_interned)) example_interned.

(** A history: two strings are interned, one is looked up, the collector
    reports and clears one node, the service thread works, and a
    chain-length alarm asks for a rehash. *)
Definition example_history : list op :=
  [OpInternOop 1 (Some heap_ab); OpInternSymbol 1 (Some chars_abc); OpLookup chars_ab;
   OpCollect 0%nat; OpGcNotification 1; OpDoConcurrentWork; OpRehashTable 7].

(** ** The two tables together *)

(** Every entry of the archived table is filed under the default hash of
    its contents, as [EncodeSharedStringsAsOffsets::do_entry] writes it. *)
Definition archive_hashed `{Collaborators} (t : SharedStringTable) : Prop :=
  forall e, e ∈ t -> fst e = String_hash_code (oop_value (snd e)).

(** No string is alive in both tables: the archived table does not answer
    for the contents of a live node of the concurrent table. *)
Definition archive_disjoint `{Collaborators} (st : StringTable) : Prop :=
  forall wh o,
    linked st wh -> storage_peek (oop_storage st) wh = Some o ->
    shared_lookup (shared_table st) (oop_value o) (String_hash_code (oop_value o)) = None.

(** ** The life of a weak handle *)

(** No handle went back to the storage twice, no handle is linked twice, and
    a handle that went back is neither linked nor resolved any more. *)
Definition release_safe (st : StringTable) : Prop :=
  NoDup (release_log (oop_storage st))
  /\ NoDup (all_nodes (local_table st))
  /\ forall wh, wh ∈ release_log (oop_storage st) ->
        ~ linked st wh /\ storage_peek (oop_storage st) wh = None.

(** ** Archived strings as offsets *)

(** A pointer difference in an [intx]: 64 bits, two's complement. *)
Definition wrap_intx (z : Z) : Z := (z + 2 ^ 63) mod 2 ^ 64 - 2 ^ 63.

(** [EncodeSharedStringsAsOffsets::compute_delta]: the offset of the string
    at address [s] from [start], the start of the reserved heap, which
    [G1CollectedHeap] owns; [None] is [fatal("too large")].  The assert
    that the offset is not negative is compiled into debug builds only. *)
Definition compute_delta (start s : Z) : option Z :=
  let offset := wrap_intx (s - start) in
  if 4294967295 <? offset then None else Some (wrap_uint offset).

(** [read_string_from_compact_hashtable]: the address at run time of the
    string archived under [offset].  Without compressed oops it is the
    offset moved by the start of the heap that the header of the archive
    records and by the relocation of the mapped heap; with compressed oops
    the offset is a narrow oop that [ArchiveHeapLoader], a collaborator,
    decodes. *)
Definition read_string_from_compact_hashtable
    (UseCompressedOops : bool) (decode_from_archive : Z -> Z)
    (heap_begin mapped_heap_delta : Z) (offset : Z) : Z :=
  if UseCompressedOops then decode_from_archive offset
  else wrap_size_t (wrap_intx (wrap_intx (offset + heap_begin) + mapped_heap_delta)).

(** ** Calls that get at least one turn of the retry loop *)

(** The fuel of an interning call is the number of turns its
    [do ... while(true)] may take. *)
Definition positive_fuel (o : op) : bool :=
  match o with
  | OpInternSymbol fuel _ | OpInternOop fuel _ | OpInternUtf8 fuel _
  | OpTransferShared fuel => negb (fuel =? 0)%nat
  | _ => true
  end.

(** ** Histories in which the collector clears nothing *)

(** The one step of a history that makes a string go away. *)
Definition is_collect (o : op) : bool :=
  match o with
  | OpCollect _ => true
  | _ => false
  end.
(** * Properties *)

(** ** Projections of the updates *)

Ltac st_crush := intros; repeat match goal with st : StringTable |- _ => destruct st end;
  simpl in *; try reflexivity; try congruence.

Lemma trace_log_event e st : trace (log_event e st) = trace st ++ [e].
Proof. st_crush. Qed.

Lemma log_event_neq e st : log_event e st <> st.
Proof.
  intros Heq. apply (f_equal trace) in Heq. rewrite trace_log_event in Heq.
  apply (f_equal length) in Heq. rewrite length_app in Heq. simpl in Heq. lia.
Qed.

Lemma trigger_concurrent_work_neq st : trigger_concurrent_work st <> st.
Proof.
  intros Heq. apply (f_equal trace) in Heq. unfold trigger_concurrent_work in Heq.
  rewrite trace_log_event in Heq. apply (f_equal length) in Heq.
  rewrite length_app in Heq. destruct st; simpl in Heq. lia.
Qed.

(** ** Comparisons of doubles *)

Lemma SFcompare_swap x y : SFcompare y x = CompOpp <$> SFcompare x y.
Proof.
  destruct x as [sx|sx| |sx mx ex], y as [sy|sy| |sy my ey]; simpl;
    try reflexivity; try (destruct sx; reflexivity); try (destruct sy; reflexivity);
    try (destruct sx, sy; reflexivity).
  destruct sx, sy; simpl; try reflexivity;
    rewrite (Z.compare_antisym ey ex); destruct (ey ?= ex)%Z; simpl; try reflexivity;
    change (Pos.compare_cont Eq my mx) with (Pos.compare my mx);
    change (Pos.compare_cont Eq mx my) with (Pos.compare mx my);
    rewrite (Pos.compare_antisym my mx); destruct (my ?= mx)%positive; reflexivity.
Qed.

Lemma double_eq_not_gt x y : Double.eq x y = true -> Double.gt x y = false.
Proof.
  unfold Double.eq, Double.gt, SFeqb, SFltb. rewrite (SFcompare_swap x y).
  destruct (SFcompare x y) as [[]|]; simpl; congruence.
Qed.

Lemma double_le_not_gt x y : Double.le x y = true -> Double.gt x y = false.
Proof.
  unfold Double.le, Double.gt, SFleb, SFltb. rewrite (SFcompare_swap x y).
  destruct (SFcompare x y) as [[]|]; simpl; congruence.
Qed.

Lemma digits2_pos_size p : digits2_pos p = Pos.size p.
Proof. induction p; simpl; congruence. Qed.

Lemma digits2_bounds p :
  2 ^ (Zpos (digits2_pos p) - 1) <= Zpos p < 2 ^ Zpos (digits2_pos p).
Proof.
  rewrite digits2_pos_size. split.
  - pose proof (Pos.size_le p) as Hle.
    assert (H2 : (2 ^ Zpos (Pos.size p) <= 2 * Zpos p)).
    { change (2 * Zpos p) with (Zpos p~0). rewrite <- Pos2Z.inj_pow. apply Pos2Z.pos_le_pos. exact Hle. }
    replace (Zpos (Pos.size p)) with (Zpos (Pos.size p) - 1 + 1) in H2 by lia.
    rewrite Z.pow_add_r in H2 by lia. lia.
  - pose proof (Pos.size_gt p) as Hgt. rewrite <- Pos2Z.inj_pow. apply Pos2Z.pos_lt_pos. exact Hgt.
Qed.

Lemma digits2_iter_xO p q : digits2_pos (Pos.iter xO p q) = (digits2_pos p + q)%positive.
Proof.
  revert p. induction q using Pos.peano_ind; intros p.
  - simpl. lia.
  - rewrite Pos.iter_succ. simpl. rewrite IHq. lia.
Qed.

Lemma iter_xO_value p q : Zpos (Pos.iter xO p q) = Zpos p * 2 ^ Zpos q.
Proof.
  revert p. induction q using Pos.peano_ind; intros p.
  - simpl. lia.
  - rewrite Pos.iter_succ. rewrite Pos2Z.inj_xO, IHq, Pos2Z.inj_succ, Z.pow_succ_r by lia. ring.
Qed.

Lemma round_aux_normal m e :
  Zpos (digits2_pos m) = 53 -> -1021 <= e <= 971 ->
  binary_round_aux 53 1024 false (Zpos m) e loc_Exact = S754_finite false m e.
Proof.
  intros Hd He. unfold binary_round_aux, shr_fexp. 
  cbn [Zdigits2 shr_record_of_loc]. rewrite Hd.
  assert (H0 : fexp 53 1024 (53 + e) - e = 0) by (unfold fexp, emin; lia).
  rewrite H0. cbn [shr shr_m loc_of_shr_record round_nearest_even Zdigits2]. rewrite Hd, H0.
  cbn [shr shr_m].
  assert (Hle : (e <=? 1024 - 53) = true) by (apply Z.leb_le; lia).
  rewrite Hle. reflexivity.
Qed.

(** Conversion of a positive integer below 2^53 is exact. *)
Lemma of_size_t_pos p :
  Zpos p < 2 ^ 53 ->
  exists m, Double.of_size_t (Zpos p) = S754_finite false m (Zpos (digits2_pos p) - 53)
            /\ Zpos (digits2_pos m) = 53
            /\ Zpos m = Zpos p * 2 ^ (53 - Zpos (digits2_pos p)).
Proof.
  intros Hlt. pose proof (digits2_bounds p) as [Hlo Hhi].
  assert (Hd : Zpos (digits2_pos p) <= 53).
  { destruct (Z_le_gt_dec (Zpos (digits2_pos p)) 53) as [|Hgt]; [assumption|].
    assert (2 ^ 53 <= 2 ^ (Zpos (digits2_pos p) - 1)) by (apply Z.pow_le_mono_r; lia). lia. }
  unfold Double.of_size_t, Double.prec, Double.emax, binary_normalize, binary_round, shl_align.
  assert (Hf : fexp 53 1024 (Zpos (digits2_pos p) + 0) - 0 = Zpos (digits2_pos p) - 53)
    by (unfold fexp, emin; lia).
  assert (Hf' : fexp 53 1024 (Zpos (digits2_pos p) + 0) = Zpos (digits2_pos p) - 53)
    by (unfold fexp, emin; lia).
  rewrite Hf, Hf'.
  destruct (Zpos (digits2_pos p) - 53) as [|q|q] eqn:Hq; [| lia |].
  - exists p. rewrite round_aux_normal by lia.
    split; [reflexivity|]. split; [lia|]. replace (53 - Zpos (digits2_pos p)) with 0 by lia. lia.
  - exists (Pos.iter xO p q).
    assert (Hdm : Zpos (digits2_pos (Pos.iter xO p q)) = 53)
      by (rewrite digits2_iter_xO; lia).
    rewrite round_aux_normal by lia.
    split; [reflexivity|]. split; [exact Hdm|].
    rewrite iter_xO_value. f_equal. f_equal. lia.
Qed.

Lemma of_size_t_pow2 k : 0 <= k <= 52 ->
  Double.of_size_t (2 ^ k) = S754_finite false Double.pow52 (k - 52).
Proof.
  intros Hk.
  assert (Hpos : exists p, 2 ^ k = Zpos p).
  { pose proof (Z.pow_pos_nonneg 2 k ltac:(lia) ltac:(lia)). destruct (2 ^ k); try lia. eauto. }
  destruct Hpos as [p Hp]. rewrite Hp.
  assert (Hlt : Zpos p < 2 ^ 53) by (rewrite <- Hp; apply Z.pow_lt_mono_r; lia).
  destruct (of_size_t_pos p Hlt) as (m & Hm & Hdm & Hval).
  pose proof (digits2_bounds p) as [Hlo Hhi]. rewrite <- Hp in Hlo, Hhi.
  assert (Hd : Zpos (digits2_pos p) = k + 1).
  { apply Z.pow_le_mono_r_iff in Hlo; [|lia|lia]. apply Z.pow_lt_mono_r_iff in Hhi; lia. }
  rewrite Hm, Hd. f_equal; [|lia].
  apply Pos2Z.inj. rewrite Hval, <- Hp, Hd, <- Z.pow_add_r by lia.
  replace (k + (53 - (k + 1))) with 52 by lia. reflexivity.
Qed.

Lemma div_pow2 m e k :
  Zpos (digits2_pos m) = 53 -> -52 <= e <= 0 -> 0 <= k <= 52 ->
  Double.div (S754_finite false m e) (S754_finite false Double.pow52 (k - 52)) = S754_finite false m (e - k).
Proof.
  intros Hd He Hk. unfold Double.div, Double.prec, Double.emax, SFdiv, SFdiv_core_binary.
  cbn [Zdigits2 xorb]. rewrite Hd.
  change (Zpos (digits2_pos Double.pow52)) with 53.
  assert (He' : Z.min (fexp 53 1024 (53 + e - (53 + (k - 52)))) (e - (k - 52)) = e - k - 1)
    by (unfold fexp, emin; lia).
  rewrite He'.
  replace (e - (k - 52) - (e - k - 1)) with 53 by lia.
  assert (Hdiv : Z.div_eucl (Z.shiftl (Zpos m) 53) (Zpos Double.pow52) = (Zpos m~0, 0)).
  { rewrite Z.shiftl_mul_pow2 by lia.
    replace (Zpos m * 2 ^ 53) with (Zpos m~0 * Zpos Double.pow52)
      by (change (2 ^ 53) with (2 * Zpos Double.pow52); rewrite (Pos2Z.inj_xO m); ring).
    rewrite (surjective_pairing (Z.div_eucl _ _)).
    change (fst (Z.div_eucl ?a ?b)) with (a / b).
    change (snd (Z.div_eucl ?a ?b)) with (a mod b).
    rewrite Z_div_mult by reflexivity. rewrite Z_mod_mult. reflexivity. }
  rewrite Hdiv.
  change (new_location (Zpos Double.pow52) 0) with loc_Exact.
  unfold binary_round_aux, shr_fexp. cbn [Zdigits2 shr_record_of_loc digits2_pos].
  assert (Hs : Zpos (PosDef.Pos.succ (digits2_pos m)) = 54).
  { change (Zpos (Pos.succ (digits2_pos m)) = 54). lia. }
  rewrite Hs.
  replace (fexp 53 1024 (54 + (e - k - 1)) - (e - k - 1)) with 1
    by (unfold fexp, emin; lia).
  cbn [shr].
  change (SpecFloat.iter_pos shr_1 1 ?x) with (shr_1 x).
  cbn [shr_1 shr_m loc_of_shr_record round_nearest_even orb Zdigits2].
  rewrite Hd.
  replace (fexp 53 1024 (53 + (e - k - 1 + 1)) - (e - k - 1 + 1)) with 0
    by (unfold fexp, emin; lia).
  cbn [shr shr_m].
  assert (Hle : (e - k - 1 + 1 <=? 1024 - 53) = true) by (apply Z.leb_le; lia).
  rewrite Hle. f_equal. lia.
Qed.

Lemma SFltb_scaled f1 f2 :
  Double.normal_or_zero f1 -> Double.normal_or_zero f2 -> SFltb f1 f2 = (Double.scaled f1 <? Double.scaled f2).
Proof.
  intros [->|(m1 & e1 & -> & Hd1 & He1)] [->|(m2 & e2 & -> & Hd2 & He2)].
  - reflexivity.
  - unfold SFltb. cbn [SFcompare Double.scaled]. symmetry. apply Z.ltb_lt.
    pose proof (Z.pow_pos_nonneg 2 (e2 + 1100) ltac:(lia) ltac:(lia)). nia.
  - unfold SFltb. cbn [SFcompare Double.scaled]. symmetry. apply Z.ltb_ge.
    pose proof (Z.pow_pos_nonneg 2 (e1 + 1100) ltac:(lia) ltac:(lia)). nia.
  - pose proof (digits2_bounds m1) as [Hlo1 Hhi1]. rewrite Hd1 in Hlo1, Hhi1.
    pose proof (digits2_bounds m2) as [Hlo2 Hhi2]. rewrite Hd2 in Hlo2, Hhi2.
    change (2 ^ (53 - 1)) with 4503599627370496 in *.
    change (2 ^ 53) with 9007199254740992 in *.
    unfold SFltb. cbn [SFcompare Double.scaled].
    destruct (Z.compare_spec e1 e2) as [Heq|Hlt|Hgt].
    + subst e2. change (Pos.compare_cont Eq m1 m2) with (Pos.compare m1 m2).
      pose proof (Z.pow_pos_nonneg 2 (e1 + 1100) ltac:(lia) ltac:(lia)) as Hp.
      destruct (Pos.compare_spec m1 m2) as [Hm|Hm|Hm]; symmetry.
      * subst. apply Z.ltb_irrefl.
      * apply Z.ltb_lt. apply Z.mul_lt_mono_pos_r; [exact Hp | lia].
      * apply Z.ltb_ge. apply Z.mul_le_mono_nonneg_r; lia.
    + symmetry. apply Z.ltb_lt.
      replace (e2 + 1100) with ((e1 + 1100) + (e2 - e1)) by lia.
      rewrite (Z.pow_add_r 2 (e1 + 1100) (e2 - e1)) by lia.
      pose proof (Z.pow_pos_nonneg 2 (e1 + 1100) ltac:(lia) ltac:(lia)) as Hp.
      assert (Hq : 2 ^ 1 <= 2 ^ (e2 - e1)) by (apply Z.pow_le_mono_r; lia).
      change (2 ^ 1) with 2 in Hq.
      apply Z.lt_le_trans with (9007199254740992 * 2 ^ (e1 + 1100));
        [apply Z.mul_lt_mono_pos_r; lia|].
      change 9007199254740992 with (4503599627370496 * 2).
      rewrite <- Z.mul_assoc, (Z.mul_comm 2).
      apply Z.mul_le_mono_nonneg; [lia | lia | lia |].
      apply Z.mul_le_mono_nonneg_l; lia.
    + symmetry. apply Z.ltb_ge.
      replace (e1 + 1100) with ((e2 + 1100) + (e1 - e2)) by lia.
      rewrite (Z.pow_add_r 2 (e2 + 1100) (e1 - e2)) by lia.
      pose proof (Z.pow_pos_nonneg 2 (e2 + 1100) ltac:(lia) ltac:(lia)) as Hp.
      assert (Hq : 2 ^ 1 <= 2 ^ (e1 - e2)) by (apply Z.pow_le_mono_r; lia).
      change (2 ^ 1) with 2 in Hq.
      apply Z.le_trans with (9007199254740992 * 2 ^ (e2 + 1100));
        [apply Z.mul_le_mono_nonneg_r; lia|].
      change 9007199254740992 with (4503599627370496 * 2).
      rewrite <- Z.mul_assoc, (Z.mul_comm 2).
      apply Z.mul_le_mono_nonneg; [lia | lia | lia |].
      apply Z.mul_le_mono_nonneg_l; lia.
Qed.

Lemma factor_scaled n k :
  0 <= n < 2 ^ 53 -> 0 <= k <= 52 ->
  Double.normal_or_zero (Double.div (Double.of_size_t n) (Double.of_size_t (2 ^ k)))
  /\ Double.scaled (Double.div (Double.of_size_t n) (Double.of_size_t (2 ^ k))) = n * 2 ^ (1100 - k).
Proof.
  intros Hn Hk. rewrite of_size_t_pow2 by exact Hk.
  destruct n as [|p|p]; [| |lia].
  - split; [left; reflexivity | reflexivity].
  - destruct (of_size_t_pos p ltac:(lia)) as (m & Hm & Hdm & Hval).
    pose proof (digits2_bounds p) as [Hlo Hhi].
    assert (Hd : 1 <= Zpos (digits2_pos p) <= 53).
    { split; [lia|]. destruct (Z_le_gt_dec (Zpos (digits2_pos p)) 53) as [|Hgt]; [assumption|].
      assert (2 ^ 53 <= 2 ^ (Zpos (digits2_pos p) - 1)) by (apply Z.pow_le_mono_r; lia). lia. }
    rewrite Hm, div_pow2 by lia.
    split; [right; eexists _, _; split; [reflexivity|]; split; [exact Hdm | lia]|].
    cbn [Double.scaled]. rewrite Hval, <- Z.mul_assoc, <- Z.pow_add_r by lia.
    f_equal. f_equal. lia.
Qed.

(** In the range of a real table (a power-of-two bucket count, counters
    below 2^53) the three comparisons of doubles are comparisons of the
    integers. *)
Lemma double_factor_compare a b k :
  0 <= a < 2 ^ 53 -> 0 <= b < 2 ^ 53 -> 0 <= k <= 52 ->
  let fa := Double.div (Double.of_size_t a) (Double.of_size_t (2 ^ k)) in
  let fb := Double.div (Double.of_size_t b) (Double.of_size_t (2 ^ k)) in
  Double.gt fa fb = (b <? a)
  /\ Double.gt fa Double.two = (2 * 2 ^ k <? a)
  /\ Double.gt fa Double.half = (2 ^ k <? 2 * a).
Proof.
  intros Ha Hb Hk fa fb.
  destruct (factor_scaled a k Ha Hk) as [Hna Hsa].
  destruct (factor_scaled b k Hb Hk) as [Hnb Hsb].
  fold fa in Hna, Hsa. fold fb in Hnb, Hsb.
  assert (Hp : 0 < 2 ^ (1100 - k)) by (apply Z.pow_pos_nonneg; lia).
  assert (Hk2 : 2 ^ k * 2 ^ (1100 - k) = 2 ^ 1100)
    by (rewrite <- Z.pow_add_r by lia; f_equal; lia).
  assert (Htwo : Double.normal_or_zero Double.two)
    by (right; eexists _, _; split; [reflexivity|]; split; [reflexivity | lia]).
  assert (Hhalf : Double.normal_or_zero Double.half)
    by (right; eexists _, _; split; [reflexivity|]; split; [reflexivity | lia]).
  unfold Double.gt. rewrite !SFltb_scaled by assumption. rewrite Hsa, Hsb.
  change (Double.scaled Double.two) with (2 * 2 ^ 1100).
  change (Double.scaled Double.half) with (2 ^ 1099).
  rewrite <- Hk2.
  split; [|split].
  - destruct (Z.ltb_spec b a), (Z.ltb_spec (b * 2 ^ (1100 - k)) (a * 2 ^ (1100 - k)));
      try reflexivity; nia.
  - destruct (Z.ltb_spec (2 * 2 ^ k) a),
      (Z.ltb_spec (2 * (2 ^ k * 2 ^ (1100 - k))) (a * 2 ^ (1100 - k)));
      try reflexivity; nia.
  - assert (H99 : 2 * 2 ^ 1099 = 2 ^ k * 2 ^ (1100 - k)) by (rewrite Hk2; reflexivity).
    destruct (Z.ltb_spec (2 ^ k) (2 * a)), (Z.ltb_spec (2 ^ 1099) (a * 2 ^ (1100 - k)));
      try reflexivity; nia.
Qed.

(** ** The collector's notification *)

(** C1. A call [gc_notification(num_dead)] requests background work exactly
    when no request is outstanding and, with the load factor
    [items_count / size] and the dead factor [num_dead / size], the dead
    factor exceeds the load factor, or the load factor exceeds 2.0, or the
    dead factor exceeds 0.5.  Otherwise the call leaves every static as it
    was: so it does when the load factor equals 2.0 and the dead factor is at
    most the load factor and at most 0.5, and so it does whenever a request
    is outstanding.  The factors are the doubles the code computes; for a
    bucket count that is a power of two and counters below 2^53 the three
    tests are the tests [items_count < num_dead], [2 * size < items_count]
    and [size < 2 * num_dead] on the integers. *)
Theorem gc_notification_threshold (num_dead : Z) (st : StringTable) :
  let load_factor := get_load_factor st in
  let dead_factor := get_dead_factor st num_dead in
  (gc_notification num_dead st = trigger_concurrent_work st <->
     has_work st = false /\
     (Double.gt dead_factor load_factor = true
      \/ Double.gt load_factor Double.two = true
      \/ Double.gt dead_factor Double.half = true))
  /\ (gc_notification num_dead st <> trigger_concurrent_work st ->
      gc_notification num_dead st = st)
  /\ (Double.eq load_factor Double.two = true ->
      Double.le dead_factor load_factor = true ->
      Double.le dead_factor Double.half = true ->
      gc_notification num_dead st = st)
  /\ (has_work st = true -> gc_notification num_dead st = st)
  /\ (forall k,
        0 <= k <= 52 -> current_size st = 2 ^ k ->
        0 <= items_count st < 2 ^ 53 -> 0 <= num_dead < 2 ^ 53 ->
        (gc_notification num_dead st = trigger_concurrent_work st <->
           has_work st = false /\
           (items_count st < num_dead
            \/ 2 * current_size st < items_count st
            \/ current_size st < 2 * num_dead))).
Proof.
  intros load_factor dead_factor.
  assert (Hdef : gc_notification num_dead st =
                 if has_work st then st
                 else if Double.gt dead_factor load_factor
                         || Double.gt load_factor Double.two
                         || Double.gt dead_factor Double.half
                      then trigger_concurrent_work st else st) by reflexivity.
  pose proof (trigger_concurrent_work_neq st) as Hneq.
  assert (Hiff : gc_notification num_dead st = trigger_concurrent_work st <->
     has_work st = false /\
     (Double.gt dead_factor load_factor = true
      \/ Double.gt load_factor Double.two = true
      \/ Double.gt dead_factor Double.half = true)).
  { split.
    - intros Heq. rewrite Hdef in Heq. destruct (has_work st); [congruence|].
      split; [reflexivity|].
      destruct (Double.gt dead_factor load_factor); [tauto|].
      destruct (Double.gt load_factor Double.two); [tauto|].
      destruct (Double.gt dead_factor Double.half); [tauto|].
      simpl in Heq. congruence.
    - intros [Hw Hc]. rewrite Hdef, Hw.
      destruct Hc as [-> | [-> | ->]]; rewrite ?orb_true_r; reflexivity. }
  split; [exact Hiff|]. split; [|split; [|split]].
  - intros Hn. rewrite Hdef in *. destruct (has_work st); [reflexivity|].
    destruct (_ || _ || _); [congruence | reflexivity].
  - intros H2 Hl Hh. rewrite Hdef.
    rewrite (double_eq_not_gt _ _ H2), (double_le_not_gt _ _ Hl),
      (double_le_not_gt _ _ Hh).
    destruct (has_work st); reflexivity.
  - intros Hw. rewrite Hdef, Hw. reflexivity.
  - intros k Hk Hsize Hitems Hdead. rewrite Hiff.
    subst load_factor dead_factor. unfold get_load_factor, get_dead_factor.
    rewrite Hsize.
    destruct (double_factor_compare num_dead (items_count st) k Hdead Hitems Hk)
      as (Hdl & _ & Hdh).
    destruct (double_factor_compare (items_count st) num_dead k Hitems Hdead Hk)
      as (_ & Hlt & _).
    cbv zeta in Hdl, Hdh, Hlt. rewrite Hdl, Hlt, Hdh, !Z.ltb_lt. reflexivity.
Qed.

(** Four items in two buckets and one dead item: load factor 2.0, dead factor
    0.5, and the notification changes nothing. *)
Lemma gc_notification_threshold_witness :
  gc_notification 1 example_full = example_full.
Proof.
  apply (proj1 (proj2 (proj2 (gc_notification_threshold 1 example_full))));
    vm_compute; reflexivity.
Defined.

(** ** The archived table comes first *)

Lemma shared_lookup_present (t : SharedStringTable) (name : list jchar) (hash : Z) (o : oop) :
  (hash, o) ∈ t -> oop_value o = name ->
  exists s, shared_lookup t name hash = Some s /\ (hash, s) ∈ t /\ oop_value s = name.
Proof.
  intros Hin Hval. unfold shared_lookup.
  induction t as [|[h e] t IH]; [by apply elem_of_nil in Hin|].
  simpl. destruct (Z.eqb_spec h hash) as [->|Hne]; simpl.
  - unfold String_equals_chars. destruct (bool_decide_reflect (oop_value e = name)) as [He|He].
    + exists e. simpl. repeat split; [apply list_elem_of_here | exact He].
    + apply elem_of_cons in Hin as [Heq|Hin]; [congruence|].
      destruct (IH Hin) as (s & Hs & Hs1 & Hs2). exists s.
      repeat split; [exact Hs | by apply list_elem_of_further | exact Hs2].
  - apply elem_of_cons in Hin as [Heq|Hin]; [congruence|].
    destruct (IH Hin) as (s & Hs & Hs1 & Hs2). exists s.
    repeat split; [exact Hs | by apply list_elem_of_further | exact Hs2].
Qed.

Section Probing.
Context `{Collaborators}.

Lemma lookup_unfold name st :
  lookup name st =
  let st1 := log_event (EvSharedLookup (String_hash_code name) name) st in
  match shared_lookup (shared_table st) name (String_hash_code name) with
  | Some s => (Some s, st1)
  | None => do_lookup name (local_hash name st) st1
  end.
Proof. destruct st; reflexivity. Qed.

Lemma intern_unfold fuel h name st :
  intern fuel h name st =
  let st1 := log_event (EvSharedLookup (String_hash_code name) name) st in
  match shared_lookup (shared_table st) name (String_hash_code name) with
  | Some s => Some (Some s, st1)
  | None =>
      match do_lookup name (local_hash name st) st1 with
      | (Some s, st2) => Some (Some s, st2)
      | (None, st2) => do_intern fuel h name (local_hash name st) st2
      end
  end.
Proof.
  destruct st; unfold intern, lookup_shared; simpl.
  destruct (shared_lookup _ _ _); [reflexivity|].
  unfold local_hash, hash_string; simpl.
  destruct (do_lookup _ _ _) as [[s|] st2]; reflexivity.
Qed.

(** C2. When the archived table holds the contents asked for, [lookup] and
    [intern] return the archived string after the one probe of the archived
    table: the concurrent table is not probed, no node is created, and the
    item counter, the buckets and the weak storage are what they were.
    Only when the archived table misses does the call go on to the lookup
    in the concurrent table and, for [intern], to the insertion. *)
Theorem archived_hit_short_circuits
    (fuel : nat) (string_or_null_h : option oop) (name : list jchar) (st : StringTable) :
  let hash := String_hash_code name in
  let st1 := log_event (EvSharedLookup hash name) st in
  (forall o, (hash, o) ∈ shared_table st -> oop_value o = name ->
     exists s, (hash, s) ∈ shared_table st /\ oop_value s = name
       /\ lookup name st = (Some s, st1)
       /\ intern fuel string_or_null_h name st = Some (Some s, st1)
       /\ items_count st1 = items_count st
       /\ local_table st1 = local_table st
       /\ oop_storage st1 = oop_storage st
       /\ trace st1 = trace st ++ [EvSharedLookup hash name])
  /\ (shared_lookup (shared_table st) name hash = None ->
      lookup name st = do_lookup name (local_hash name st) st1
      /\ intern fuel string_or_null_h name st =
         match do_lookup name (local_hash name st) st1 with
         | (Some s, st2) => Some (Some s, st2)
         | (None, st2) => do_intern fuel string_or_null_h name (local_hash name st) st2
         end).
Proof.
  intros hash st1. split.
  - intros o Hin Hval.
    destruct (shared_lookup_present _ _ _ _ Hin Hval) as (s & Hs & Hs1 & Hs2).
    exists s. rewrite lookup_unfold, intern_unfold. fold hash. rewrite Hs.
    repeat split; try assumption; subst st1; destruct st; reflexivity.
  - intros Hmiss. rewrite lookup_unfold, intern_unfold. fold hash.
    rewrite Hmiss. split; reflexivity.
Qed.

(** C10. Each public [intern] returns null at once on a null argument; no
    table is probed and no static changes, the item counter included. *)
Theorem intern_null_is_null (fuel : nat) (st : StringTable) :
  intern_symbol fuel None st = Some (None, st)
  /\ intern_oop fuel None st = Some (None, st)
  /\ intern_utf8 fuel None st = Some (None, st).
Proof. repeat split. Qed.

(** *** The trace of a call *)

Lemma trace_update_needs_rehash b st :
  trace (update_needs_rehash b st) = trace st.
Proof. destruct b; st_crush. Qed.

Lemma table_get_state lk st :
  snd (table_get lk st) = log_event (EvLocalGet (lookup_get_hash lk) (lookup_chars lk)) st.
Proof. unfold table_get. destruct (get_node _ _ _ _). reflexivity. Qed.

Lemma do_lookup_trace name hash st :
  trace (snd (do_lookup name hash st)) = trace st ++ [EvLocalGet hash name].
Proof.
  unfold do_lookup. pose proof (table_get_state (StringTableLookupJchar hash name) st) as Hs.
  destruct (table_get _ _) as [[res w] st']. simpl in *. subst st'.
  rewrite trace_update_needs_rehash. apply trace_log_event.
Qed.

Lemma trace_free_node wh st : trace (free_node wh st) = trace st.
Proof. st_crush. Qed.

Lemma table_insert_trace lk wh st :
  trace (snd (table_insert lk wh st)) = trace st ++ [EvLocalInsert (lookup_get_hash lk) wh].
Proof.
  unfold table_insert. destruct (get_node _ _ _ _) as [[n|] loops]; simpl.
  - rewrite trace_free_node. st_crush.
  - st_crush.
Qed.

Lemma do_intern_loop_trace fuel lk string_h st r st' :
  do_intern_loop fuel lk string_h st = Some (r, st') ->
  exists rest, trace st' = trace st ++ rest
               /\ Forall (probes_with (lookup_get_hash lk)) rest.
Proof.
  revert st. induction fuel as [|fuel IH]; intros st Hrun; [discriminate|].
  simpl in Hrun.
  set (st0 := set_oop_storage _ st) in Hrun.
  assert (Ht0 : trace st0 = trace st) by (subst st0; st_crush).
  pose proof (table_insert_trace lk (next_cell (oop_storage st)) st0) as Hins.
  destruct (table_insert _ _ st0) as [[inserted w] st1]. simpl in Hins.
  destruct inserted.
  - inversion Hrun; subst. rewrite trace_update_needs_rehash, Hins, Ht0.
    eexists. split; [reflexivity|]. repeat constructor.
  - pose proof (table_get_state lk st1) as Hget.
    destruct (table_get lk st1) as [[found w'] st2]. simpl in Hget. subst st2.
    assert (Ht2 : trace (log_event (EvLocalGet (lookup_get_hash lk) (lookup_chars lk)) st1)
                  = trace st ++ [EvLocalInsert (lookup_get_hash lk) (next_cell (oop_storage st));
                                 EvLocalGet (lookup_get_hash lk) (lookup_chars lk)]).
    { rewrite trace_log_event, Hins, Ht0, <- app_assoc. reflexivity. }
    destruct found as [res|].
    + inversion Hrun; subst. rewrite trace_update_needs_rehash, Ht2.
      eexists. split; [reflexivity|]. repeat constructor.
    + destruct (IH _ Hrun) as (rest & Hrest & Hall). rewrite Hrest, Ht2, <- app_assoc.
      eexists. split; [reflexivity|]. simpl. repeat constructor. exact Hall.
Qed.

Lemma do_intern_trace fuel h name hash st r st' :
  do_intern fuel h name hash st = Some (r, st') ->
  exists rest, trace st' = trace st ++ rest /\ Forall (probes_with hash) rest.
Proof.
  assert (Hbody : forall s st0, trace st0 = trace st ->
    do_intern_loop fuel (StringTableLookupOop hash s) s (notify_intern s st0) = Some (r, st') ->
    exists rest, trace st' = trace st ++ rest /\ Forall (probes_with hash) rest).
  { intros s st0 Ht0 Hrun. apply do_intern_loop_trace in Hrun as (rest & Hrest & Hall).
    unfold notify_intern in Hrest. destruct StringDedup_is_enabled.
    - rewrite trace_log_event, Ht0, <- app_assoc in Hrest.
      eexists. split; [exact Hrest|]. simpl. constructor; [exact I | exact Hall].
    - rewrite Ht0 in Hrest. eexists. split; [exact Hrest | exact Hall]. }
  unfold do_intern. destruct h as [s|].
  - apply Hbody. reflexivity.
  - destruct (create_from_unicode name st) as [created st0] eqn:Hc.
    assert (Ht0 : trace st0 = trace st).
    { unfold create_from_unicode, try_allocate in Hc.
      destruct (alloc_budget st) as [[|n]|]; inversion Hc; subst; st_crush. }
    destruct (pending_exception st0).
    + intros Hr. inversion Hr; subst. exists []. rewrite app_nil_r. split; [exact Ht0 | constructor].
    + destruct created as [s|].
      * apply Hbody. exact Ht0.
      * intros Hr. inversion Hr; subst. exists []. rewrite app_nil_r.
        split; [exact Ht0 | constructor].
Qed.

End Probing.

(** "hi" is archived: interning it answers from the archive. *)
Lemma archived_hit_short_circuits_witness :
  exists s, (example_hash_code chars_hi, s) ∈ shared_table example_start
    /\ oop_value s = chars_hi
    /\ @intern example_collaborators 1 None chars_hi example_start
       = Some (Some s, log_event (EvSharedLookup (example_hash_code chars_hi) chars_hi)
                                 example_start).
Proof.
  destruct (proj1 (@archived_hit_short_circuits example_collaborators 1 None chars_hi
                     example_start) archived_hi) as (s & H1 & H2 & _ & H4 & _).
  - apply list_elem_of_here.
  - reflexivity.
  - exists s. repeat split; assumption.
Defined.

(** ** What probing and interning leave alone *)

Lemma probes_with_not_rehash hash e : probes_with hash e -> is_rehash e = false.
Proof. destruct e; simpl; try reflexivity. intros []. Qed.

Lemma rehashes_done_extend st st' rest :
  trace st' = trace st ++ rest -> Forall (fun e => is_rehash e = false) rest ->
  rehashes_done st' = rehashes_done st.
Proof.
  intros Ht Hall. unfold rehashes_done. rewrite Ht, filter_app, length_app.
  assert (Hnil : filter (fun e => is_rehash e = true) rest = []).
  { clear Ht. induction Hall as [|e rest He _ IH]; [reflexivity|].
    rewrite filter_cons. destruct (decide (is_rehash e = true)); [congruence | exact IH]. }
  rewrite Hnil. simpl. lia.
Qed.

Lemma rehashes_done_same_trace st st' :
  trace st' = trace st -> rehashes_done st' = rehashes_done st.
Proof. unfold rehashes_done. intros ->. reflexivity. Qed.

Section InternFrame.
Context `{Collaborators}.

Lemma intern_frame_refl st : intern_frame st st.
Proof. repeat split. Qed.

Lemma intern_frame_trans st1 st2 st3 :
  intern_frame st1 st2 -> intern_frame st2 st3 -> intern_frame st1 st3.
Proof. unfold intern_frame. intuition congruence. Qed.

Lemma intern_frame_log_event e st :
  is_rehash e = false -> intern_frame st (log_event e st).
Proof.
  intros He. assert (Hd : rehashes_done (log_event e st) = rehashes_done st).
  { apply (rehashes_done_extend st _ [e]); [apply trace_log_event|].
    constructor; [exact He | constructor]. }
  destruct st. repeat split. exact Hd.
Qed.

Lemma intern_frame_set_oop_storage s st : intern_frame st (set_oop_storage s st).
Proof. destruct st. repeat split. Qed.

Lemma intern_frame_allocate_node st : intern_frame st (allocate_node st).
Proof. destruct st. repeat split. Qed.

Lemma intern_frame_free_node wh st : intern_frame st (free_node wh st).
Proof. destruct st. repeat split. Qed.

Lemma intern_frame_set_bucket i chain st :
  intern_frame st (set_local_table (set_bucket i chain (local_table st)) st).
Proof. destruct st. repeat split. Qed.

Lemma intern_frame_update_needs_rehash b st : intern_frame st (update_needs_rehash b st).
Proof. destruct b, st; repeat split. Qed.

Lemma intern_frame_try_allocate st : intern_frame st (snd (try_allocate st)).
Proof.
  unfold try_allocate. destruct st as [? ? ? ? ? ? ? ? ? ? ? budget ? ? ?]. simpl.
  destruct budget as [[|n]|]; repeat split.
Qed.

Lemma intern_frame_set_heap_top n st : intern_frame st (set_heap_top n st).
Proof. destruct st. repeat split. Qed.

Lemma table_get_frame lk st : intern_frame st (snd (table_get lk st)).
Proof. rewrite table_get_state. apply intern_frame_log_event. reflexivity. Qed.

Lemma table_insert_frame lk wh st : intern_frame st (snd (table_insert lk wh st)).
Proof.
  unfold table_insert.
  set (st1 := allocate_node (log_event _ st)).
  assert (H1 : intern_frame st st1).
  { eapply intern_frame_trans;
      [apply (intern_frame_log_event (EvLocalInsert (lookup_get_hash lk) wh)); reflexivity|].
    apply intern_frame_allocate_node. }
  destruct (get_node _ _ _ _) as [[n|] loops]; simpl.
  - eapply intern_frame_trans; [exact H1 | apply intern_frame_free_node].
  - eapply intern_frame_trans; [exact H1 | apply intern_frame_set_bucket].
Qed.

Lemma do_lookup_frame name hash st : intern_frame st (snd (do_lookup name hash st)).
Proof.
  unfold do_lookup. pose proof (table_get_frame (StringTableLookupJchar hash name) st) as Hg.
  destruct (table_get _ _) as [[res w] st']. simpl in *.
  eapply intern_frame_trans; [exact Hg | apply intern_frame_update_needs_rehash].
Qed.

Lemma lookup_frame name st : intern_frame st (snd (lookup name st)).
Proof.
  rewrite lookup_unfold. cbv zeta.
  assert (H1 : intern_frame st (log_event (EvSharedLookup (String_hash_code name) name) st))
    by (apply intern_frame_log_event; reflexivity).
  destruct (shared_lookup _ _ _); simpl; [exact H1|].
  eapply intern_frame_trans; [exact H1 | apply do_lookup_frame].
Qed.

Lemma do_intern_loop_frame fuel lk string_h st r st' :
  do_intern_loop fuel lk string_h st = Some (r, st') -> intern_frame st st'.
Proof.
  revert st. induction fuel as [|fuel IH]; intros st Hrun; [discriminate|].
  simpl in Hrun.
  set (st0 := set_oop_storage _ st) in Hrun.
  assert (H0 : intern_frame st st0) by apply intern_frame_set_oop_storage.
  pose proof (table_insert_frame lk (next_cell (oop_storage st)) st0) as Hins.
  destruct (table_insert _ _ st0) as [[inserted w] st1]. simpl in Hins.
  assert (H1 : intern_frame st st1) by (eapply intern_frame_trans; eassumption).
  destruct inserted.
  - inversion Hrun; subst.
    eapply intern_frame_trans; [exact H1 | apply intern_frame_update_needs_rehash].
  - pose proof (table_get_frame lk st1) as Hget.
    destruct (table_get lk st1) as [[found w'] st2]. simpl in Hget.
    assert (H2 : intern_frame st st2) by (eapply intern_frame_trans; eassumption).
    destruct found as [res|].
    + inversion Hrun; subst.
      eapply intern_frame_trans; [exact H2 | apply intern_frame_update_needs_rehash].
    + eapply intern_frame_trans; [exact H2 | apply IH; exact Hrun].
Qed.

Lemma notify_intern_frame s st : intern_frame st (notify_intern s st).
Proof.
  unfold notify_intern. destruct StringDedup_is_enabled.
  - apply intern_frame_log_event. reflexivity.
  - apply intern_frame_refl.
Qed.

Lemma create_from_unicode_frame name st :
  intern_frame st (snd (create_from_unicode name st)).
Proof.
  unfold create_from_unicode. pose proof (intern_frame_try_allocate st) as Ha.
  destruct (try_allocate st) as [ok st0]. simpl in Ha. destruct ok; simpl; [|exact Ha].
  eapply intern_frame_trans; [exact Ha | apply intern_frame_set_heap_top].
Qed.

Lemma do_intern_frame fuel h name hash st r st' :
  do_intern fuel h name hash st = Some (r, st') -> intern_frame st st'.
Proof.
  assert (Hbody : forall s st0, intern_frame st st0 ->
    do_intern_loop fuel (StringTableLookupOop hash s) s (notify_intern s st0) = Some (r, st') ->
    intern_frame st st').
  { intros s st0 H0 Hrun. apply do_intern_loop_frame in Hrun.
    eapply intern_frame_trans; [exact H0|].
    eapply intern_frame_trans; [apply notify_intern_frame | exact Hrun]. }
  unfold do_intern. destruct h as [s|].
  - apply Hbody. apply intern_frame_refl.
  - pose proof (create_from_unicode_frame name st) as Hc.
    destruct (create_from_unicode name st) as [created st0]. simpl in Hc.
    destruct (pending_exception st0).
    + intros Hr. inversion Hr; subst. exact Hc.
    + destruct created as [s|].
      * apply Hbody. exact Hc.
      * intros Hr. inversion Hr; subst. exact Hc.
Qed.

Lemma intern_frame_intern fuel h name st r st' :
  intern fuel h name st = Some (r, st') -> intern_frame st st'.
Proof.
  rewrite intern_unfold. cbv zeta.
  assert (H1 : intern_frame st (log_event (EvSharedLookup (String_hash_code name) name) st))
    by (apply intern_frame_log_event; reflexivity).
  destruct (shared_lookup _ _ _).
  - intros Hr. inversion Hr; subst. exact H1.
  - pose proof (do_lookup_frame name (local_hash name st)
                  (log_event (EvSharedLookup (String_hash_code name) name) st)) as Hl.
    destruct (do_lookup _ _ _) as [[s|] st2]; simpl in Hl.
    + intros Hr. inversion Hr; subst. eapply intern_frame_trans; eassumption.
    + intros Hr. apply do_intern_frame in Hr.
      eapply intern_frame_trans; [exact H1|]. eapply intern_frame_trans; eassumption.
Qed.

Lemma check_null_state r res st' :
  check_null r = Some (res, st') -> exists res0, r = Some (res0, st').
Proof.
  destruct r as [[res0 st0]|]; simpl; [|discriminate].
  intros Hr. inversion Hr; subst. eauto.
Qed.

Lemma intern_symbol_frame fuel symbol st r st' :
  intern_symbol fuel symbol st = Some (r, st') -> intern_frame st st'.
Proof.
  destruct symbol as [sym|]; simpl.
  - intros Hr. apply check_null_state in Hr as [res0 Hr].
    eapply intern_frame_intern; exact Hr.
  - intros Hr. inversion Hr; subst. apply intern_frame_refl.
Qed.

Lemma intern_utf8_frame fuel u st r st' :
  intern_utf8 fuel u st = Some (r, st') -> intern_frame st st'.
Proof.
  destruct u as [u|]; simpl.
  - intros Hr. apply check_null_state in Hr as [res0 Hr].
    eapply intern_frame_intern; exact Hr.
  - intros Hr. inversion Hr; subst. apply intern_frame_refl.
Qed.

Lemma intern_oop_frame fuel string st r st' :
  intern_oop fuel string st = Some (r, st') -> intern_frame st st'.
Proof.
  destruct string as [s|]; simpl.
  - unfold as_unicode_string. pose proof (intern_frame_try_allocate st) as Ha.
    destruct (try_allocate st) as [ok st0]. simpl in Ha.
    destruct (pending_exception st0).
    + intros Hr. inversion Hr; subst. exact Ha.
    + intros Hr. apply check_null_state in Hr as [res0 Hr].
      apply intern_frame_intern in Hr. eapply intern_frame_trans; eassumption.
  - intros Hr. inversion Hr; subst. apply intern_frame_refl.
Qed.

End InternFrame.

(** ** Structural tasks *)

Section Maintenance.
Context `{Collaborators}.

Lemma maintenance_frame_refl st : maintenance_frame st st.
Proof. repeat split. Qed.

Lemma maintenance_frame_trans st1 st2 st3 :
  maintenance_frame st1 st2 -> maintenance_frame st2 st3 -> maintenance_frame st1 st3.
Proof. unfold maintenance_frame. intuition congruence. Qed.

Lemma maintenance_frame_free_node wh st : maintenance_frame st (free_node wh st).
Proof. destruct st. repeat split. Qed.

Lemma maintenance_frame_set_local_table t st : maintenance_frame st (set_local_table t st).
Proof. destruct st. repeat split. Qed.

Lemma maintenance_frame_set_current_size n st : maintenance_frame st (set_current_size n st).
Proof. destruct st. repeat split. Qed.

Lemma move_nodes_frame nodes to st :
  maintenance_frame st (snd (move_nodes nodes to st)).
Proof.
  revert to st. induction nodes as [|wh rest IH]; intros to st; simpl.
  - apply maintenance_frame_refl.
  - destruct (get_hash wh st) as [hash dead]. destruct dead.
    + eapply maintenance_frame_trans; [apply maintenance_frame_free_node | apply IH].
    + apply IH.
Qed.

Lemma grow_do_tasks_frame chunks old to st :
  maintenance_frame st (snd (grow_do_tasks chunks old to st)).
Proof.
  revert to st. induction chunks as [|i rest IH]; intros to st; simpl.
  - apply maintenance_frame_refl.
  - pose proof (move_nodes_frame (get_bucket old i) to st) as Hm.
    destruct (move_nodes _ _ _) as [to' st']. simpl in Hm.
    eapply maintenance_frame_trans; [exact Hm | apply IH].
Qed.

Lemma grow_frame st : maintenance_frame st (grow st).
Proof.
  unfold grow. destruct (grow_prepare _); simpl; [|apply maintenance_frame_refl].
  pose proof (grow_do_tasks_frame (bucket_indices (size_log2 (local_table st)))
                (local_table st) (new_table (S (size_log2 (local_table st)))) st) as Hg.
  destruct (grow_do_tasks _ _ _ _) as [to st']. simpl in Hg.
  eapply maintenance_frame_trans; [exact Hg|].
  eapply maintenance_frame_trans;
    [apply maintenance_frame_set_local_table | apply maintenance_frame_set_current_size].
Qed.

Lemma delete_in_chain_frame chain st :
  maintenance_frame st (snd (delete_in_chain chain st)).
Proof.
  revert st. induction chain as [|wh rest IH]; intros st; simpl.
  - apply maintenance_frame_refl.
  - destruct (StringTableDeleteCheck wh st).
    + eapply maintenance_frame_trans; [apply maintenance_frame_free_node | apply IH].
    + specialize (IH st). destruct (delete_in_chain rest st). exact IH.
Qed.

Lemma bulk_delete_do_tasks_frame chunks st :
  maintenance_frame st (bulk_delete_do_tasks chunks st).
Proof.
  revert st. induction chunks as [|i rest IH]; intros st; simpl.
  - apply maintenance_frame_refl.
  - pose proof (delete_in_chain_frame (get_bucket (local_table st) i) st) as Hd.
    destruct (delete_in_chain _ _) as [kept st']. simpl in Hd.
    eapply maintenance_frame_trans; [exact Hd|].
    eapply maintenance_frame_trans; [apply maintenance_frame_set_local_table | apply IH].
Qed.

Lemma clean_dead_entries_frame st : maintenance_frame st (clean_dead_entries st).
Proof.
  unfold clean_dead_entries. destruct (try_resize_lock _); simpl.
  - apply bulk_delete_do_tasks_frame.
  - apply maintenance_frame_refl.
Qed.

(** C4. The work routine runs the grow task when the load factor exceeds
    2.0 and the table is not at its largest, and the clean-up of dead
    entries in every other case.  Neither task touches the work flag; the
    routine clears it once the task has returned. *)
Theorem do_concurrent_work_selects (st : StringTable) :
  (Double.gt (get_load_factor st) Double.two = true ->
   is_max_size_reached (local_table st) = false ->
   do_concurrent_work st = set_has_work false (grow st))
  /\ (Double.gt (get_load_factor st) Double.two = false
      \/ is_max_size_reached (local_table st) = true ->
      do_concurrent_work st = set_has_work false (clean_dead_entries st))
  /\ has_work (grow st) = has_work st
  /\ has_work (clean_dead_entries st) = has_work st
  /\ has_work (do_concurrent_work st) = false.
Proof.
  assert (Hclear : forall st', has_work (set_has_work false st') = false) by st_crush.
  unfold do_concurrent_work, PREF_AVG_LIST_LEN.
  split; [|split; [|split; [|split]]].
  - intros -> ->. reflexivity.
  - intros [-> | ->]; [reflexivity|]. rewrite andb_false_r. reflexivity.
  - apply grow_frame.
  - apply clean_dead_entries_frame.
  - apply Hclear.
Qed.

End Maintenance.

(** Four items in two buckets: the routine cleans, it does not grow. *)
Lemma do_concurrent_work_selects_witness :
  @do_concurrent_work example_collaborators example_full
  = set_has_work false (clean_dead_entries example_full).
Proof.
  apply (proj1 (proj2 (@do_concurrent_work_selects example_collaborators example_full))).
  left. vm_compute. reflexivity.
Defined.

(** ** Buckets and cells *)

Lemma get_bucket_set_bucket_eq i chain t : get_bucket (set_bucket i chain t) i = chain.
Proof. unfold get_bucket, set_bucket. simpl. by rewrite lookup_insert_eq. Qed.

Lemma get_bucket_set_bucket_ne i j chain t :
  i <> j -> get_bucket (set_bucket i chain t) j = get_bucket t j.
Proof. intros Hne. unfold get_bucket, set_bucket. simpl. by rewrite lookup_insert_ne. Qed.

Lemma get_bucket_new_table n i : get_bucket (new_table n) i = [].
Proof. unfold get_bucket, new_table. simpl. by rewrite lookup_empty. Qed.

Lemma storage_peek_release_dead s wh wh' :
  storage_peek s wh = None ->
  storage_peek (storage_release wh s) wh' = storage_peek s wh'.
Proof.
  intros Hdead. unfold storage_peek, storage_release in *. simpl.
  destruct (decide (wh' = wh)) as [->|Hne].
  - rewrite lookup_delete_eq. destruct (cells s !! wh) as [[o|]|]; congruence.
  - by rewrite lookup_delete_ne.
Qed.

(** ** Rehash *)

Section Rehash.
Context `{Collaborators}.

Lemma do_rehash_unfold st :
  do_rehash st =
  let t := local_table st in
  let mv := move_nodes (all_nodes t) (new_table (size_log2 t)) (set_alt_hash true st) in
  if negb (is_safepoint_safe t) then (false, st)
  else if negb (try_resize_lock t)
  then (false, set_alt_hash false (log_event (EvMoveNodes false) (set_alt_hash true st)))
  else (true, set_local_table (fst mv) (log_event (EvMoveNodes true) (snd mv))).
Proof.
  unfold do_rehash, try_move_nodes_to. destruct st; simpl.
  destruct (negb (is_safepoint_safe _)); [reflexivity|].
  destruct (negb (try_resize_lock _)); [reflexivity|].
  destruct (move_nodes _ _ _). reflexivity.
Qed.

Lemma hash_string_frame s b st st' :
  alt_hash_seed st' = alt_hash_seed st -> hash_string s b st' = hash_string s b st.
Proof. unfold hash_string. intros ->. reflexivity. Qed.


(** C6. A chain-length alarm that finds the load factor above 2.0 and the
    table below its largest size requests background work and clears the
    rehash-needed flag.  It performs no rehash: the table, the hash in use
    and the stored seed are what they were. *)
Theorem rehash_table_prefers_growth (seed : Z) (st : StringTable) :
  Double.gt (get_load_factor st) Double.two = true ->
  is_max_size_reached (local_table st) = false ->
  let st' := rehash_table seed st in
  st' = set_needs_rehashing false (trigger_concurrent_work st)
  /\ has_work st' = true
  /\ needs_rehashing st' = false
  /\ trace st' = trace st ++ [EvNotifyAll]
  /\ rehashes_done st' = rehashes_done st
  /\ local_table st' = local_table st
  /\ alt_hash st' = alt_hash st
  /\ alt_hash_seed st' = alt_hash_seed st
  /\ rehashed st' = rehashed st.
Proof.
  intros Hload Hmax st'. subst st'. unfold rehash_table, PREF_AVG_LIST_LEN.
  rewrite Hload, Hmax. simpl.
  split; [reflexivity|].
  assert (Hd : rehashes_done (set_needs_rehashing false (trigger_concurrent_work st))
               = rehashes_done st).
  { apply (rehashes_done_extend st _ [EvNotifyAll]); [st_crush|].
    repeat constructor. }
  destruct st. repeat split. exact Hd.
Qed.

Lemma rehash_table_unfold seed st :
  rehashed st = false -> growth_preferred st = false ->
  rehash_table seed st =
  let r := do_rehash (set_alt_hash_seed seed st) in
  set_needs_rehashing false (if fst r then set_rehashed true (snd r) else snd r).
Proof.
  unfold rehash_table, growth_preferred. intros -> ->. cbv zeta.
  destruct (do_rehash _) as [ok st']. reflexivity.
Qed.


(** *** Histories *)

Lemma rehash_accounted_frame st st' :
  rehashed st' = rehashed st -> rehashes_done st' = rehashes_done st ->
  rehash_accounted st -> rehash_accounted st'.
Proof. unfold rehash_accounted. intros -> ->. auto. Qed.

Lemma rehash_accounted_intern_frame st st' :
  intern_frame st st' -> rehash_accounted st -> rehash_accounted st'.
Proof.
  intros (_ & _ & _ & _ & Hr & _ & _ & _ & Hd). by apply rehash_accounted_frame.
Qed.

Lemma rehash_accounted_maintenance_frame st st' :
  maintenance_frame st st' -> rehash_accounted st -> rehash_accounted st'.
Proof.
  intros (_ & _ & _ & _ & _ & Hr & _ & _ & _ & _ & Ht).
  apply rehash_accounted_frame; [exact Hr | by apply rehashes_done_same_trace].
Qed.

Lemma rehash_accounted_trigger st :
  rehash_accounted st -> rehash_accounted (trigger_concurrent_work st).
Proof.
  apply rehash_accounted_frame; [st_crush|].
  apply (rehashes_done_extend st _ [EvNotifyAll]); [st_crush | repeat constructor].
Qed.

Lemma rehash_accounted_rehash_table seed st :
  rehash_accounted st -> rehash_accounted (rehash_table seed st).
Proof.
  intros Hacc.
  assert (Hflag : forall st0, rehash_accounted st0 ->
                              rehash_accounted (set_needs_rehashing false st0)).
  { intros st0. apply rehash_accounted_frame; st_crush. }
  destruct (growth_preferred st) eqn:Hgrow.
  - unfold rehash_table. unfold growth_preferred in Hgrow. rewrite Hgrow.
    apply Hflag, rehash_accounted_trigger, Hacc.
  - destruct (rehashed st) eqn:Hre.
    + unfold rehash_table. unfold growth_preferred in Hgrow. rewrite Hgrow, Hre.
      apply Hflag, rehash_accounted_trigger, Hacc.
    + rewrite (rehash_table_unfold seed st Hre Hgrow). cbv zeta. apply Hflag.
      set (st1 := set_alt_hash_seed seed st).
      assert (Hacc1 : rehashes_done st1 = 0%nat /\ rehashed st1 = false).
      { unfold rehash_accounted in Hacc. rewrite Hre in Hacc.
        subst st1. destruct st; simpl in *. auto. }
      destruct Hacc1 as [Hd1 Hr1].
      rewrite (do_rehash_unfold st1). cbv zeta.
      destruct (negb (is_safepoint_safe _)); simpl.
      { unfold rehash_accounted. rewrite Hd1, Hr1. reflexivity. }
      destruct (negb (try_resize_lock _)); simpl.
      { unfold rehash_accounted.
        assert (Hd : rehashes_done (set_alt_hash false
                       (log_event (EvMoveNodes false) (set_alt_hash true st1))) = rehashes_done st1).
        { apply (rehashes_done_extend st1 _ [EvMoveNodes false]); [st_crush | repeat constructor]. }
        rewrite Hd, Hd1. destruct st1; simpl in *. rewrite Hr1. reflexivity. }
      pose proof (move_nodes_frame (all_nodes (local_table st1))
                    (new_table (size_log2 (local_table st1))) (set_alt_hash true st1)) as Hfr.
      destruct (move_nodes _ _ _) as [moved st2]. simpl in *.
      destruct Hfr as (_ & _ & _ & _ & _ & _ & _ & _ & _ & _ & Htr).
      unfold rehash_accounted.
      assert (Hd : rehashes_done (set_rehashed true (set_local_table moved
                      (log_event (EvMoveNodes true) st2))) = 1%nat).
      { unfold rehashes_done in *.
        assert (Ht : trace (set_rehashed true (set_local_table moved
                        (log_event (EvMoveNodes true) st2))) = trace st1 ++ [EvMoveNodes true]).
        { destruct st2, st1; simpl in *. congruence. }
        rewrite Ht, filter_app, length_app, Hd1. reflexivity. }
      rewrite Hd. destruct st2; reflexivity.
Qed.

Lemma shared_iterate_accounted fuel entries st st' :
  shared_iterate fuel entries st = Some st' ->
  rehash_accounted st -> rehash_accounted st'.
Proof.
  revert st. induction entries as [|e rest IH]; intros st; simpl.
  - intros Hr. inversion Hr; subst. auto.
  - unfold SharedStringTransfer_do_value.
    destruct (intern_oop fuel (Some e.2) st) as [[r st1]|] eqn:Hi; [|discriminate].
    apply intern_oop_frame in Hi. intros Hrun Hacc.
    pose proof (rehash_accounted_intern_frame _ _ Hi Hacc) as Hacc1.
    assert (Hacc2 : rehash_accounted (if pending_exception st1
                                      then set_vm_exited true st1 else st1)).
    { destruct (pending_exception st1); [|exact Hacc1].
      revert Hacc1. apply rehash_accounted_frame; st_crush. }
    destruct (vm_exited _).
    + inversion Hrun; subst. exact Hacc2.
    + exact (IH _ Hrun Hacc2).
Qed.

Lemma exec_accounted o st st' :
  exec o st = Some st' -> rehash_accounted st -> rehash_accounted st'.
Proof.
  destruct o; simpl.
  - intros Hr. inversion Hr; subst.
    apply rehash_accounted_intern_frame, lookup_frame.
  - destruct (intern_symbol _ _ _) as [[r st1]|] eqn:Hi; [|discriminate].
    intros Hr. inversion Hr; subst.
    eapply rehash_accounted_intern_frame, intern_symbol_frame, Hi.
  - destruct (intern_oop _ _ _) as [[r st1]|] eqn:Hi; [|discriminate].
    intros Hr. inversion Hr; subst.
    eapply rehash_accounted_intern_frame, intern_oop_frame, Hi.
  - destruct (intern_utf8 _ _ _) as [[r st1]|] eqn:Hi; [|discriminate].
    intros Hr. inversion Hr; subst.
    eapply rehash_accounted_intern_frame, intern_utf8_frame, Hi.
  - intros Hr. inversion Hr; subst. unfold gc_notification.
    destruct (has_work st); [auto|]. destruct (_ || _ || _); [|auto].
    apply rehash_accounted_trigger.
  - intros Hr. inversion Hr; subst. unfold do_concurrent_work. intros Hacc.
    assert (Hflag : forall st0, rehash_accounted st0 ->
                                rehash_accounted (set_has_work false st0)).
    { intros st0. apply rehash_accounted_frame; st_crush. }
    apply Hflag. destruct (_ && _).
    + eapply rehash_accounted_maintenance_frame; [apply grow_frame | exact Hacc].
    + eapply rehash_accounted_maintenance_frame; [apply clean_dead_entries_frame | exact Hacc].
  - intros Hr. inversion Hr; subst. apply rehash_accounted_rehash_table.
  - unfold transfer_shared_strings_to_local_table. intros Hrun Hacc.
    eapply shared_iterate_accounted; [exact Hrun|].
    revert Hacc. apply rehash_accounted_frame; st_crush.
  - intros Hr. inversion Hr; subst. apply rehash_accounted_frame; st_crush.
  - intros Hr. inversion Hr; subst. apply rehash_accounted_frame; st_crush.
Qed.

Lemma run_accounted ops st st' :
  run ops st = Some st' -> rehash_accounted st -> rehash_accounted st'.
Proof.
  revert st. induction ops as [|o rest IH]; intros st; simpl.
  - intros Hr. inversion Hr; subst. auto.
  - destruct (exec o st) as [st1|] eqn:He; [|discriminate].
    intros Hrun Hacc. eapply IH; [exact Hrun|]. eapply exec_accounted; eassumption.
Qed.

(** The alternate hash is never in use before a rehash has completed, so
    the alarm that attempts the rehash finds the default hash in use. *)
Lemma epoch_consistent_frame st st' :
  rehashed st' = rehashed st -> alt_hash st' = alt_hash st ->
  epoch_consistent st -> epoch_consistent st'.
Proof. unfold epoch_consistent. intros -> ->. auto. Qed.

Lemma epoch_consistent_intern_frame st st' :
  intern_frame st st' -> epoch_consistent st -> epoch_consistent st'.
Proof. intros (_ & _ & Ha & _ & Hr & _). by apply epoch_consistent_frame. Qed.

Lemma epoch_consistent_maintenance_frame st st' :
  maintenance_frame st st' -> epoch_consistent st -> epoch_consistent st'.
Proof. intros (_ & _ & _ & Ha & _ & Hr & _). by apply epoch_consistent_frame. Qed.

Lemma epoch_consistent_rehash_table seed st :
  epoch_consistent st -> epoch_consistent (rehash_table seed st).
Proof.
  intros Hep.
  destruct (growth_preferred st) eqn:Hgrow.
  - unfold rehash_table. unfold growth_preferred in Hgrow. rewrite Hgrow.
    revert Hep. apply epoch_consistent_frame; st_crush.
  - destruct (rehashed st) eqn:Hre.
    + unfold rehash_table. unfold growth_preferred in Hgrow. rewrite Hgrow, Hre.
      revert Hep. apply epoch_consistent_frame; st_crush.
    + rewrite (rehash_table_unfold seed st Hre Hgrow). cbv zeta.
      rewrite (do_rehash_unfold (set_alt_hash_seed seed st)). cbv zeta.
      specialize (Hep Hre).
      destruct (negb (is_safepoint_safe _)); cbn [fst snd].
      { unfold epoch_consistent. destruct st; simpl in *. auto. }
      destruct (negb (try_resize_lock _)); cbn [fst snd].
      { unfold epoch_consistent. destruct st; simpl in *. auto. }
      unfold epoch_consistent. destruct (snd (move_nodes _ _ _)); simpl. discriminate.
Qed.

Lemma shared_iterate_epoch_consistent fuel entries st st' :
  shared_iterate fuel entries st = Some st' ->
  epoch_consistent st -> epoch_consistent st'.
Proof.
  revert st. induction entries as [|e rest IH]; intros st; simpl.
  - intros Hr. inversion Hr; subst. auto.
  - unfold SharedStringTransfer_do_value.
    destruct (intern_oop fuel (Some e.2) st) as [[r st1]|] eqn:Hi; [|discriminate].
    apply intern_oop_frame in Hi. intros Hrun Hep.
    pose proof (epoch_consistent_intern_frame _ _ Hi Hep) as Hep1.
    assert (Hep2 : epoch_consistent (if pending_exception st1
                                     then set_vm_exited true st1 else st1)).
    { destruct (pending_exception st1); [|exact Hep1].
      revert Hep1. apply epoch_consistent_frame; st_crush. }
    destruct (vm_exited _).
    + inversion Hrun; subst. exact Hep2.
    + exact (IH _ Hrun Hep2).
Qed.

Lemma exec_epoch_consistent o st st' :
  exec o st = Some st' -> epoch_consistent st -> epoch_consistent st'.
Proof.
  destruct o; simpl.
  - intros Hr. inversion Hr; subst.
    apply epoch_consistent_intern_frame, lookup_frame.
  - destruct (intern_symbol _ _ _) as [[r st1]|] eqn:Hi; [|discriminate].
    intros Hr. inversion Hr; subst.
    eapply epoch_consistent_intern_frame, intern_symbol_frame, Hi.
  - destruct (intern_oop _ _ _) as [[r st1]|] eqn:Hi; [|discriminate].
    intros Hr. inversion Hr; subst.
    eapply epoch_consistent_intern_frame, intern_oop_frame, Hi.
  - destruct (intern_utf8 _ _ _) as [[r st1]|] eqn:Hi; [|discriminate].
    intros Hr. inversion Hr; subst.
    eapply epoch_consistent_intern_frame, intern_utf8_frame, Hi.
  - intros Hr. inversion Hr; subst. unfold gc_notification.
    destruct (has_work st); [auto|]. destruct (_ || _ || _); [|auto].
    apply epoch_consistent_frame; st_crush.
  - intros Hr. inversion Hr; subst. unfold do_concurrent_work. intros Hep.
    assert (Hflag : forall st0, epoch_consistent st0 ->
                                epoch_consistent (set_has_work false st0)).
    { intros st0. apply epoch_consistent_frame; st_crush. }
    apply Hflag. destruct (_ && _).
    + eapply epoch_consistent_maintenance_frame; [apply grow_frame | exact Hep].
    + eapply epoch_consistent_maintenance_frame; [apply clean_dead_entries_frame | exact Hep].
  - intros Hr. inversion Hr; subst. apply epoch_consistent_rehash_table.
  - unfold transfer_shared_strings_to_local_table. intros Hrun Hep.
    eapply shared_iterate_epoch_consistent; [exact Hrun|].
    revert Hep. apply epoch_consistent_frame; st_crush.
  - intros Hr. inversion Hr; subst. apply epoch_consistent_frame; st_crush.
  - intros Hr. inversion Hr; subst. apply epoch_consistent_frame; st_crush.
Qed.

Lemma run_epoch_consistent ops st st' :
  run ops st = Some st' -> epoch_consistent st -> epoch_consistent st'.
Proof.
  revert st. induction ops as [|o rest IH]; intros st; simpl.
  - intros Hr. inversion Hr; subst. auto.
  - destruct (exec o st) as [st1|] eqn:He; [|discriminate].
    intros Hrun Hep. eapply IH; [exact Hrun|]. eapply exec_epoch_consistent; eassumption.
Qed.

(** C5.  Over any history of the table that starts before a rehash, at most
    one full rehash completes.  A chain-length alarm with growth not
    preferred and no rehash completed so far starts one: it calls [do_rehash]
    under a fresh seed; the rehash completes when the resize lock can be
    taken, and otherwise nothing is migrated and [rehashed] stays unset.
    Once a rehash has completed, an alarm only requests background work and
    clears the rehash-needed flag; the table, the hash in use and the seed
    are what they were. *)
Theorem rehash_at_most_once :
  (forall ops st st',
      rehashed st = false -> rehashes_done st = 0%nat ->
      run ops st = Some st' -> (rehashes_done st' <= 1)%nat)
  /\ (forall seed st,
        rehashed st = false -> growth_preferred st = false ->
        let attempt := do_rehash (set_alt_hash_seed seed st) in
        let st' := rehash_table seed st in
        st' = set_needs_rehashing false
                (if fst attempt then set_rehashed true (snd attempt) else snd attempt)
        /\ (try_resize_lock (local_table st) = true ->
            fst attempt = true
            /\ rehashes_done st' = S (rehashes_done st) /\ rehashed st' = true)
        /\ (try_resize_lock (local_table st) = false ->
            fst attempt = false
            /\ rehashes_done st' = rehashes_done st /\ rehashed st' = false
            /\ local_table st' = local_table st))
  /\ (forall seed st,
        rehashed st = true ->
        let st' := rehash_table seed st in
        st' = set_needs_rehashing false (trigger_concurrent_work st)
        /\ has_work st' = true
        /\ needs_rehashing st' = false
        /\ rehashes_done st' = rehashes_done st
        /\ local_table st' = local_table st
        /\ alt_hash st' = alt_hash st
        /\ alt_hash_seed st' = alt_hash_seed st).
Proof.
  split; [|split].
  - intros ops st st' Hre Hd Hrun.
    assert (Hacc : rehash_accounted st) by (unfold rehash_accounted; rewrite Hre; exact Hd).
    pose proof (run_accounted _ _ _ Hrun Hacc) as Hacc'.
    unfold rehash_accounted in Hacc'. rewrite Hacc'. destruct (rehashed st'); lia.
  - intros seed st Hre Hgrow attempt st'. subst st' attempt.
    split; [apply (rehash_table_unfold seed st Hre Hgrow)|].
    rewrite (rehash_table_unfold seed st Hre Hgrow). cbv zeta.
    set (st1 := set_alt_hash_seed seed st).
    assert (Hd1 : rehashes_done st1 = rehashes_done st) by (subst st1; st_crush).
    assert (Hr1 : rehashed st1 = false) by (subst st1; destruct st; exact Hre).
    assert (Ht1 : local_table st1 = local_table st) by (subst st1; st_crush).
    rewrite (do_rehash_unfold st1). cbv zeta. rewrite Ht1.
    split.
    + intros Hlock.
      assert (Hsafe : is_safepoint_safe (local_table st) = true).
      { unfold try_resize_lock in Hlock. apply andb_true_iff in Hlock as [_ Ho]. exact Ho. }
      rewrite Hsafe, Hlock. simpl.
      pose proof (move_nodes_frame (all_nodes (local_table st))
                    (new_table (size_log2 (local_table st))) (set_alt_hash true st1)) as Hfr.
      destruct (move_nodes _ _ _) as [moved st2]. simpl in *.
      destruct Hfr as (_ & _ & _ & _ & _ & _ & _ & _ & _ & _ & Htr).
      split; [reflexivity|].
      split; [|destruct st2; reflexivity].
      rewrite <- Hd1. unfold rehashes_done.
      assert (Ht : trace (set_needs_rehashing false (set_rehashed true (set_local_table moved
                      (log_event (EvMoveNodes true) st2)))) = trace st1 ++ [EvMoveNodes true]).
      { destruct st2, st1; simpl in *. congruence. }
      rewrite Ht, filter_app, length_app. simpl. lia.
    + intros Hlock. rewrite Hlock.
      destruct (negb (is_safepoint_safe _)); simpl.
      * subst st1. destruct st; simpl in *. auto.
      * split; [reflexivity|]. split; [|subst st1; destruct st; simpl in *; auto].
        rewrite <- Hd1.
        apply (rehashes_done_extend st1 _ [EvMoveNodes false]); [st_crush | repeat constructor].
  - intros seed st Hre st'. subst st'. unfold rehash_table. rewrite Hre.
    assert (Hsame : (if growth_preferred st
                     then set_needs_rehashing false (trigger_concurrent_work st)
                     else set_needs_rehashing false (trigger_concurrent_work st))
                    = set_needs_rehashing false (trigger_concurrent_work st))
      by (destruct (growth_preferred st); reflexivity).
    unfold growth_preferred in Hsame. rewrite Hsame.
    split; [reflexivity|].
    assert (Hd : rehashes_done (set_needs_rehashing false (trigger_concurrent_work st))
                 = rehashes_done st).
    { apply (rehashes_done_extend st _ [EvNotifyAll]); [st_crush | repeat constructor]. }
    destruct st. repeat split. exact Hd.
Qed.

End Rehash.

(** ** Interning *)

Lemma lookup_equals_spec s lk wh :
  lookup_equals s lk wh = true <->
  exists o, storage_peek s wh = Some o /\ oop_value o = lookup_chars lk.
Proof.
  unfold lookup_equals. destruct (storage_peek s wh) as [o|].
  - destruct lk as [hash str|hash find]; simpl;
      unfold String_equals_chars, String_equals; rewrite bool_decide_eq_true.
    + split; [eauto | intros (o' & Ho & Hv); congruence].
    + split; [eauto | intros (o' & Ho & Hv); congruence].
  - split; [discriminate | intros (o & Ho & _); discriminate].
Qed.

Lemma get_node_ext s1 s2 lk chain n :
  (forall wh, wh ∈ chain -> storage_peek s1 wh = storage_peek s2 wh) ->
  get_node s1 lk chain n = get_node s2 lk chain n.
Proof.
  revert n. induction chain as [|wh rest IH]; intros n Hsame; [reflexivity|].
  simpl. unfold lookup_equals. rewrite (Hsame wh) by apply list_elem_of_here.
  rewrite IH; [reflexivity|]. intros wh' Hin. apply Hsame. by apply list_elem_of_further.
Qed.

Lemma get_node_found s lk chain n wh0 loops :
  get_node s lk chain n = (Some wh0, loops) ->
  wh0 ∈ chain /\ lookup_equals s lk wh0 = true.
Proof.
  revert n. induction chain as [|wh rest IH]; intros n; simpl; [discriminate|].
  destruct (lookup_equals s lk wh) eqn:Heq.
  - intros Hr. inversion Hr; subst. split; [apply list_elem_of_here | exact Heq].
  - intros Hr. destruct (IH _ Hr) as [Hin Hl]. split; [by apply list_elem_of_further | exact Hl].
Qed.

Lemma get_node_none s lk chain n loops :
  get_node s lk chain n = (None, loops) ->
  forall wh, wh ∈ chain -> lookup_equals s lk wh = false.
Proof.
  revert n. induction chain as [|wh rest IH]; intros n; simpl.
  - intros _ wh Hin. by apply elem_of_nil in Hin.
  - destruct (lookup_equals s lk wh) eqn:Heq; [discriminate|].
    intros Hr wh' Hin. apply elem_of_cons in Hin as [->|Hin]; [exact Heq|].
    exact (IH _ Hr _ Hin).
Qed.

Lemma storage_peek_allocate_old o s wh :
  (wh < next_cell s)%nat ->
  storage_peek (snd (storage_allocate o s)) wh = storage_peek s wh.
Proof.
  intros Hlt. unfold storage_peek, storage_allocate. simpl.
  rewrite lookup_insert_ne by lia. reflexivity.
Qed.

Lemma storage_peek_allocate_new o s :
  storage_peek (snd (storage_allocate o s)) (next_cell s) = Some o.
Proof. unfold storage_peek, storage_allocate. simpl. by rewrite lookup_insert_eq. Qed.

Lemma storage_peek_release_other s wh wh' :
  wh' <> wh -> storage_peek (storage_release wh s) wh' = storage_peek s wh'.
Proof.
  intros Hne. unfold storage_peek, storage_release. simpl.
  by rewrite lookup_delete_ne.
Qed.

Lemma wrap_size_t_range z : 0 <= wrap_size_t z < size_t_max.
Proof. unfold wrap_size_t. apply Z.mod_pos_bound. reflexivity. Qed.

Lemma wrap_size_t_add_remove z :
  0 <= z < size_t_max -> wrap_size_t (wrap_size_t (z + 1) + (size_t_max - 1)) = z.
Proof.
  intros Hz. unfold wrap_size_t.
  rewrite Zplus_mod_idemp_l.
  replace (z + 1 + (size_t_max - 1)) with (z + 1 * size_t_max) by ring.
  rewrite Z_mod_plus_full. apply Z.mod_small. exact Hz.
Qed.

Section Interning.
Context `{Collaborators}.

Lemma table_insert_unfold lk wh st :
  table_insert lk wh st =
  let st1 := allocate_node (log_event (EvLocalInsert (lookup_get_hash lk) wh) st) in
  let t := local_table st in
  let i := bucket_index (size_log2 t) (lookup_get_hash lk) in
  let found := get_node (oop_storage st) lk (get_bucket t i) 0 in
  let warn := bool_decide (REHASH_LEN < snd found)%nat in
  match fst found with
  | None => (true, warn, set_local_table (set_bucket i (wh :: get_bucket t i) t) st1)
  | Some _ => (false, warn, free_node wh st1)
  end.
Proof.
  destruct st. unfold table_insert. simpl.
  destruct (get_node _ _ _ _) as [[n|] loops]; reflexivity.
Qed.

Lemma table_get_unfold lk st :
  table_get lk st =
  let t := local_table st in
  let i := bucket_index (size_log2 t) (lookup_get_hash lk) in
  let found := get_node (oop_storage st) lk (get_bucket t i) 0 in
  (fst found ≫= storage_peek (oop_storage st),
   bool_decide (REHASH_LEN < snd found)%nat,
   log_event (EvLocalGet (lookup_get_hash lk) (lookup_chars lk)) st).
Proof. unfold table_get. destruct (get_node _ _ _ _). reflexivity. Qed.

Lemma do_intern_loop_unfold fuel lk string_h st :
  do_intern_loop (S fuel) lk string_h st =
  let wh := next_cell (oop_storage st) in
  let ins := table_insert lk wh
               (set_oop_storage (snd (storage_allocate string_h (oop_storage st))) st) in
  if fst (fst ins) then
    let st2 := update_needs_rehash (snd (fst ins)) (snd ins) in
    Some (storage_peek (oop_storage st2) wh, st2)
  else
    let got := table_get lk (snd ins) in
    match fst (fst got) with
    | Some res => Some (Some res, update_needs_rehash (snd (fst got)) (snd got))
    | None => do_intern_loop fuel lk string_h (snd got)
    end.
Proof.
  cbn [do_intern_loop]. unfold storage_allocate. cbv zeta. cbn [fst snd].
  destruct (table_insert _ _ _) as [[[] w] st1]; cbn [fst snd]; [reflexivity|].
  destruct (table_get lk st1) as [[[res|] w'] st2]; reflexivity.
Qed.

Lemma oop_storage_update_needs_rehash b st :
  oop_storage (update_needs_rehash b st) = oop_storage st.
Proof. destruct b; st_crush. Qed.

(** One turn of the loop of [do_intern] from a well-formed state: either no
    equal live value is in the bucket and the candidate is linked, or one
    is there, the candidate is freed and the value found is the result. *)
Lemma do_intern_loop_step fuel lk string_h st :
  handles_allocated st ->
  let t := local_table st in
  let i := bucket_index (size_log2 t) (lookup_get_hash lk) in
  let wh := next_cell (oop_storage st) in
  let found := get_node (oop_storage st) lk (get_bucket t i) 0 in
  let warn := bool_decide (REHASH_LEN < snd found)%nat in
  let st1 := allocate_node (log_event (EvLocalInsert (lookup_get_hash lk) wh)
               (set_oop_storage (snd (storage_allocate string_h (oop_storage st))) st)) in
  match fst found with
  | None =>
      do_intern_loop (S fuel) lk string_h st =
      Some (Some string_h,
            update_needs_rehash warn
              (set_local_table (set_bucket i (wh :: get_bucket t i) t) st1))
  | Some wh0 =>
      wh0 ∈ get_bucket t i
      /\ lookup_equals (oop_storage st) lk wh0 = true
      /\ do_intern_loop (S fuel) lk string_h st =
         Some (storage_peek (oop_storage st) wh0,
               update_needs_rehash warn
                 (log_event (EvLocalGet (lookup_get_hash lk) (lookup_chars lk))
                    (free_node wh st1)))
  end.
Proof.
  intros (Hbuckets & Hlog & Hcells & Hitems). cbv zeta.
  rewrite do_intern_loop_unfold. cbv zeta.
  set (s1 := snd (storage_allocate string_h (oop_storage st))).
  set (wh := next_cell (oop_storage st)).
  set (i := bucket_index (size_log2 (local_table st)) (lookup_get_hash lk)).
  assert (Hsame1 : get_node s1 lk (get_bucket (local_table st) i) 0
                   = get_node (oop_storage st) lk (get_bucket (local_table st) i) 0).
  { apply get_node_ext. intros wh' Hin. apply storage_peek_allocate_old.
    exact (Hbuckets _ _ Hin). }
  rewrite table_insert_unfold. cbv zeta.
  assert (Hs0 : oop_storage (set_oop_storage s1 st) = s1) by st_crush.
  assert (Ht0 : local_table (set_oop_storage s1 st) = local_table st) by st_crush.
  rewrite Hs0, Ht0. fold i. rewrite Hsame1.
  destruct (get_node (oop_storage st) lk (get_bucket (local_table st) i) 0)
    as [[wh0|] loops] eqn:Hfound; cbn [fst snd].
  - destruct (get_node_found _ _ _ _ _ _ Hfound) as [Hin Heq].
    split; [exact Hin|]. split; [exact Heq|].
    rewrite table_get_unfold. cbv zeta.
    set (st3 := free_node wh _).
    assert (Hs3 : oop_storage st3 = storage_release wh s1) by (subst st3; st_crush).
    assert (Ht3 : local_table st3 = local_table st) by (subst st3; st_crush).
    rewrite Hs3, Ht3. fold i.
    assert (Hold : forall wh', wh' ∈ get_bucket (local_table st) i ->
              storage_peek (storage_release wh s1) wh' = storage_peek (oop_storage st) wh').
    { intros wh' Hin'. pose proof (Hbuckets _ _ Hin') as Hlt.
      rewrite storage_peek_release_other by (subst wh; lia).
      apply storage_peek_allocate_old. exact Hlt. }
    rewrite (get_node_ext _ (oop_storage st) lk _ 0 Hold), Hfound.
    cbn [fst snd mbind option_bind].
    rewrite (Hold _ Hin).
    apply lookup_equals_spec in Heq as (o & Ho & _). rewrite Ho. reflexivity.
  - rewrite oop_storage_update_needs_rehash.
    replace (oop_storage (set_local_table _ _)) with s1 by st_crush.
    subst s1 wh. rewrite storage_peek_allocate_new. reflexivity.
Qed.

(** What one call of the loop achieves, in terms of the table and the
    storage. *)
Lemma do_intern_loop_spec fuel lk string_h st :
  handles_allocated st ->
  let t := local_table st in
  let i := bucket_index (size_log2 t) (lookup_get_hash lk) in
  let wh := next_cell (oop_storage st) in
  exists r st',
    do_intern_loop (S fuel) lk string_h st = Some (r, st')
    /\ handles_allocated st'
    /\ table_extends st st'
    /\ thread_frame st st'
    /\ match fst (get_node (oop_storage st) lk (get_bucket t i) 0) with
       | None =>
           r = Some string_h
           /\ local_table st' = set_bucket i (wh :: get_bucket t i) t
           /\ storage_peek (oop_storage st') wh = Some string_h
           /\ release_log (oop_storage st') = release_log (oop_storage st)
           /\ items_count st' = wrap_size_t (items_count st + 1)
           /\ trace st' = trace st ++ [EvLocalInsert (lookup_get_hash lk) wh]
       | Some wh0 =>
           wh0 ∈ get_bucket t i
           /\ lookup_equals (oop_storage st) lk wh0 = true
           /\ r = storage_peek (oop_storage st) wh0
           /\ local_table st' = t
           /\ cells (oop_storage st') = cells (oop_storage st)
           /\ release_log (oop_storage st') = wh :: release_log (oop_storage st)
           /\ items_count st' = items_count st
           /\ trace st' = trace st ++ [EvLocalInsert (lookup_get_hash lk) wh;
                                       EvLocalGet (lookup_get_hash lk) (lookup_chars lk)]
       end.
Proof.
  intros Hwf. pose proof (do_intern_loop_step fuel lk string_h st Hwf) as Hstep.
  destruct Hwf as (Hbuckets & Hlog & Hcells & Hitems). cbv zeta in *.
  set (t := local_table st) in *.
  set (i := bucket_index (size_log2 t) (lookup_get_hash lk)) in *.
  set (wh := next_cell (oop_storage st)) in *.
  set (s1 := snd (storage_allocate string_h (oop_storage st))) in *.
  assert (Hfresh : cells (oop_storage st) !! wh = None).
  { destruct (cells (oop_storage st) !! wh) eqn:Hc; [|reflexivity].
    assert (wh < wh)%nat by (apply Hcells; eauto). lia. }
  destruct (get_node (oop_storage st) lk (get_bucket t i) 0) as [[wh0|] loops];
    cbn [fst snd] in *.
  - destruct Hstep as (Hin & Heq & Hrun).
    eexists _, _. split; [exact Hrun|].
    set (st' := update_needs_rehash _ _).
    assert (Ht' : local_table st' = t)
      by (subst st' t; destruct (bool_decide _); st_crush).
    assert (Hs' : oop_storage st' = storage_release wh s1)
      by (subst st'; destruct (bool_decide _); st_crush).
    assert (Hi' : items_count st'
                  = wrap_size_t (wrap_size_t (items_count st + 1) + (size_t_max - 1)))
      by (subst st'; destruct (bool_decide _); st_crush).
    assert (Hth : thread_frame st st')
      by (subst st'; destruct (bool_decide _); destruct st; repeat split).
    rewrite wrap_size_t_add_remove in Hi' by exact Hitems.
    assert (Hc' : cells (oop_storage st') = cells (oop_storage st)).
    { rewrite Hs'. subst s1. simpl. apply delete_insert_id. exact Hfresh. }
    assert (Hpeek : forall wh', (wh' < wh)%nat ->
              storage_peek (oop_storage st') wh' = storage_peek (oop_storage st) wh').
    { intros wh' Hlt. unfold storage_peek. rewrite Hc'. reflexivity. }
    assert (Hn' : next_cell (oop_storage st') = S wh) by (rewrite Hs'; reflexivity).
    assert (Hl' : release_log (oop_storage st') = wh :: release_log (oop_storage st))
      by (rewrite Hs'; reflexivity).
    assert (Htr : trace st' = trace st ++ [EvLocalInsert (lookup_get_hash lk) wh;
                                     EvLocalGet (lookup_get_hash lk) (lookup_chars lk)])
      by (subst st'; destruct (bool_decide _); destruct st; simpl; rewrite <- app_assoc;
          reflexivity).
    split; [|split; [|split; [exact Hth|]]].
    + unfold handles_allocated. rewrite Ht', Hn', Hl', Hc', Hi'.
      split; [intros j wh' Hj; specialize (Hbuckets _ _ Hj); fold wh in Hbuckets; lia|].
      split; [intros wh' Hj; apply elem_of_cons in Hj as [->|Hj];
              [lia | specialize (Hlog _ Hj); fold wh in Hlog; lia]|].
      split; [intros wh' Hj; specialize (Hcells _ Hj); fold wh in Hcells; lia | exact Hitems].
    + unfold table_extends. rewrite Ht', Hn'. fold t wh.
      split; [reflexivity|]. split; [auto|]. split; [exact Hpeek | lia].
    + repeat split; assumption.
  - eexists _, _. split; [exact Hstep|].
    set (st' := update_needs_rehash _ _).
    assert (Ht' : local_table st' = set_bucket i (wh :: get_bucket t i) t)
      by (subst st' t; destruct (bool_decide _); st_crush).
    assert (Hs' : oop_storage st' = s1)
      by (subst st'; destruct (bool_decide _); st_crush).
    assert (Hi' : items_count st' = wrap_size_t (items_count st + 1))
      by (subst st'; destruct (bool_decide _); st_crush).
    assert (Hth : thread_frame st st')
      by (subst st'; destruct (bool_decide _); destruct st; repeat split).
    assert (Hn' : next_cell (oop_storage st') = S wh) by (rewrite Hs'; reflexivity).
    assert (Htr : trace st' = trace st ++ [EvLocalInsert (lookup_get_hash lk) wh])
      by (subst st'; destruct (bool_decide _); destruct st; reflexivity).
    split; [|split; [|split; [exact Hth|]]].
    + unfold handles_allocated. rewrite Ht', Hn', Hs', Hi'.
      split.
      { intros j wh' Hj. destruct (decide (i = j)) as [<-|Hne].
        - rewrite get_bucket_set_bucket_eq in Hj.
          apply elem_of_cons in Hj as [->|Hj]; [lia|].
          specialize (Hbuckets _ _ Hj). fold wh in Hbuckets. lia.
        - rewrite get_bucket_set_bucket_ne in Hj by exact Hne.
          specialize (Hbuckets _ _ Hj). fold wh in Hbuckets. lia. }
      split; [intros wh' Hj; specialize (Hlog _ Hj); fold wh in Hlog; lia|].
      split; [|apply wrap_size_t_range].
      intros wh' Hj. subst s1. simpl in Hj.
      apply lookup_insert_is_Some' in Hj as [<-|Hj]; [lia|].
      specialize (Hcells _ Hj). fold wh in Hcells. lia.
    + unfold table_extends. rewrite Ht', Hn', Hs'. fold t wh.
      split; [reflexivity|].
      split.
      { intros j wh' Hj. destruct (decide (i = j)) as [<-|Hne].
        - rewrite get_bucket_set_bucket_eq. by apply list_elem_of_further.
        - by rewrite get_bucket_set_bucket_ne. }
      split; [|lia]. intros wh' Hlt. apply storage_peek_allocate_old. exact Hlt.
    + rewrite Hs'. split; [reflexivity|]. split; [exact Ht'|].
      split; [apply storage_peek_allocate_new|]. split; [reflexivity|].
      split; [exact Hi' | exact Htr].
Qed.

Lemma notify_intern_fields s st :
  local_table (notify_intern s st) = local_table st
  /\ oop_storage (notify_intern s st) = oop_storage st
  /\ items_count (notify_intern s st) = items_count st.
Proof. unfold notify_intern. destruct StringDedup_is_enabled; st_crush; auto. Qed.

Lemma handles_allocated_fields st st' :
  local_table st' = local_table st -> oop_storage st' = oop_storage st ->
  items_count st' = items_count st ->
  handles_allocated st -> handles_allocated st'.
Proof. unfold handles_allocated. intros -> -> ->. auto. Qed.

(** C3. [do_intern] hands its candidate weak handle to the table, whether
    or not the insert succeeds.  When no equal live value is in the bucket
    the candidate is linked and the string it refers to is returned.  When
    an equal live value is there, the insert is followed by a lookup and
    that value is returned, the candidate is not linked, and its cell went
    back to the storage through [free_node] once: the release log gained
    the candidate and nothing else, the candidate was not in it before, its
    cell is gone, and the item counter is what it was.  Without a string to intern the call first creates
    one; if that raises, no candidate exists. *)
Theorem do_intern_owns_candidate
    (fuel : nat) (string_h : oop) (name : list jchar) (hash : Z) (st : StringTable) :
  handles_allocated st ->
  let t := local_table st in
  let i := bucket_index (size_log2 t) hash in
  let wh := next_cell (oop_storage st) in
  let lk := StringTableLookupOop hash string_h in
  (exists r st',
      do_intern (S fuel) (Some string_h) name hash st = Some (r, st')
      /\ (linked st' wh \/ (wh ∈ release_log (oop_storage st')))
      /\ match fst (get_node (oop_storage st) lk (get_bucket t i) 0) with
         | None =>
             r = Some string_h
             /\ wh ∈ get_bucket (local_table st') i
             /\ storage_peek (oop_storage st') wh = Some string_h
             /\ release_log (oop_storage st') = release_log (oop_storage st)
             /\ items_count st' = wrap_size_t (items_count st + 1)
             /\ trace st' = trace (notify_intern string_h st) ++ [EvLocalInsert hash wh]
         | Some wh0 =>
             exists o,
               storage_peek (oop_storage st) wh0 = Some o
               /\ String_equals string_h o = true
               /\ r = Some o
               /\ wh0 ∈ get_bucket (local_table st') i
               /\ (~ linked st' wh)
               /\ release_log (oop_storage st') = wh :: release_log (oop_storage st)
               /\ (wh ∉ release_log (oop_storage st))
               /\ cells (oop_storage st') !! wh = None
               /\ items_count st' = items_count st
               /\ trace st' = trace (notify_intern string_h st)
                              ++ [EvLocalInsert hash wh; EvLocalGet hash (oop_value string_h)]
         end)
  /\ (pending_exception st = false -> fst (try_allocate st) = true ->
      handles_allocated (snd (create_from_unicode name st))
      /\ do_intern (S fuel) None name hash st
         = do_intern (S fuel) (Some (mk_oop (heap_top st) name)) name hash
             (snd (create_from_unicode name st)))
  /\ (fst (try_allocate st) = false ->
      do_intern (S fuel) None name hash st = Some (None, set_pending_exception true st)).
Proof.
  intros Hwf t i wh lk. split; [|split].
  - destruct (notify_intern_fields string_h st) as (Ht0 & Hs0 & Hi0).
    assert (Hwf0 : handles_allocated (notify_intern string_h st))
      by (eapply handles_allocated_fields; eassumption).
    destruct (do_intern_loop_spec fuel lk string_h _ Hwf0)
      as (r & st' & Hrun & Hwf' & Hext & _ & Hcase).
    rewrite Ht0, Hs0, Hi0 in Hcase. cbn [lookup_get_hash lk] in Hcase.
    fold t i wh in Hcase.
    destruct Hwf as (Hbuckets & Hlog & Hcells & Hitems).
    exists r, st'. split; [exact Hrun|].
    destruct (get_node (oop_storage st) lk (get_bucket t i) 0) as [[wh0|] loops];
      cbn [fst] in *.
    + destruct Hcase as (Hin & Heq & Hr & Ht' & Hc' & Hl' & Hi' & Htr).
      split; [right; rewrite Hl'; apply list_elem_of_here|].
      unfold lookup_equals in Heq.
      destruct (storage_peek (oop_storage st) wh0) as [o|] eqn:Hpeek; [|discriminate].
      exists o. split; [reflexivity|]. split; [exact Heq|]. split; [exact Hr|].
      split; [rewrite Ht'; exact Hin|].
      split; [intros [j Hj]; rewrite Ht' in Hj; specialize (Hbuckets _ _ Hj);
              fold wh in Hbuckets; lia|].
      split; [exact Hl'|].
      split; [intros Hj; specialize (Hlog _ Hj); fold wh in Hlog; lia|].
      split; [|split; [exact Hi' | exact Htr]]. rewrite Hc'.
      destruct (cells (oop_storage st) !! wh) eqn:Hc; [|reflexivity].
      assert (wh < wh)%nat by (apply Hcells; eauto). lia.
    + destruct Hcase as (Hr & Ht' & Hp' & Hl' & Hi' & Htr).
      assert (Hlinked : wh ∈ get_bucket (local_table st') i).
      { rewrite Ht', get_bucket_set_bucket_eq. apply list_elem_of_here. }
      split; [left; exists i; exact Hlinked|].
      repeat split; assumption.
  - intros Hpend Halloc. unfold do_intern, create_from_unicode.
    destruct (try_allocate st) as [ok st0] eqn:Hta. simpl in Halloc. subst ok.
    assert (Hst0 : local_table st0 = local_table st /\ oop_storage st0 = oop_storage st
                   /\ items_count st0 = items_count st /\ pending_exception st0 = false
                   /\ heap_top st0 = heap_top st).
    { unfold try_allocate in Hta. destruct st as [? ? ? ? ? ? ? ? ? ? ? budget ? ? ?].
      simpl in *. destruct budget as [[|n]|]; inversion Hta; subst; simpl; auto. }
    destruct Hst0 as (Ht0 & Hs0 & Hi0 & Hp0 & Hh0). cbn [fst snd].
    assert (Hp1 : pending_exception (set_heap_top (S (heap_top st0)) st0) = false)
      by (destruct st0; exact Hp0).
    rewrite Hp1, Hh0. split; [|reflexivity].
    eapply handles_allocated_fields; [| | |exact Hwf]; destruct st0; assumption.
  - intros Halloc. unfold do_intern, create_from_unicode.
    destruct (try_allocate st) as [ok st0] eqn:Hta. simpl in Halloc. subst ok.
    assert (Hst0 : st0 = set_pending_exception true st).
    { unfold try_allocate in Hta. destruct (alloc_budget st) as [[|n]|];
        inversion Hta; reflexivity. }
    subst st0. replace (pending_exception (set_pending_exception true st)) with true
      by (destruct st; reflexivity).
    reflexivity.
Qed.

(** *** Values that are in the table are found *)

Lemma get_node_member s lk chain n wh :
  wh ∈ chain -> lookup_equals s lk wh = true ->
  exists wh0 loops, get_node s lk chain n = (Some wh0, loops).
Proof.
  revert n. induction chain as [|x rest IH]; intros n Hin Heq.
  - by apply elem_of_nil in Hin.
  - simpl. destruct (lookup_equals s lk x) eqn:Hx; [eauto|].
    apply elem_of_cons in Hin as [->|Hin]; [congruence|].
    exact (IH _ Hin Heq).
Qed.

Lemma resident_extends st st' hash chars :
  handles_allocated st -> table_extends st st' ->
  resident st hash chars -> resident st' hash chars.
Proof.
  intros (Hbuckets & _) (Hsz & Hmem & Hpeek & _) (wh & o & Hin & Hlive & Hval).
  exists wh, o. rewrite Hsz. split; [apply Hmem; exact Hin|].
  split; [|exact Hval]. rewrite Hpeek; [exact Hlive|]. exact (Hbuckets _ _ Hin).
Qed.

Lemma table_extends_refl st : table_extends st st.
Proof. repeat split; auto. Qed.

Lemma table_extends_trans st1 st2 st3 :
  table_extends st1 st2 -> table_extends st2 st3 -> table_extends st1 st3.
Proof.
  intros (Hsz1 & Hmem1 & Hpeek1 & Hn1) (Hsz2 & Hmem2 & Hpeek2 & Hn2).
  split; [congruence|]. split; [auto|]. split; [|lia].
  intros wh Hlt. rewrite Hpeek2 by lia. apply Hpeek1. exact Hlt.
Qed.

Lemma table_extends_fields st st' :
  local_table st' = local_table st -> oop_storage st' = oop_storage st ->
  table_extends st st'.
Proof. unfold table_extends. intros -> ->. repeat split; auto. Qed.

Lemma do_lookup_unfold name hash st :
  do_lookup name hash st =
  let got := table_get (StringTableLookupJchar hash name) st in
  (fst (fst got),
   update_needs_rehash (snd (fst got)) (log_event (EvLocalGet hash name) st)).
Proof.
  unfold do_lookup. pose proof (table_get_state (StringTableLookupJchar hash name) st) as Hs.
  destruct (table_get _ _) as [[res w] st']. simpl in *. subst st'. reflexivity.
Qed.

Lemma do_lookup_fields name hash st :
  let st' := snd (do_lookup name hash st) in
  local_table st' = local_table st
  /\ oop_storage st' = oop_storage st
  /\ items_count st' = items_count st
  /\ thread_frame st st'.
Proof.
  rewrite do_lookup_unfold. cbv zeta. cbn [snd].
  destruct (snd (fst _)); destruct st; repeat split.
Qed.

(** A probe of the concurrent table for contents that are resident answers
    with a string of those contents. *)
Lemma do_lookup_resident name hash st :
  resident st hash name ->
  exists o, fst (do_lookup name hash st) = Some o /\ oop_value o = name.
Proof.
  intros (wh & o & Hin & Hlive & Hval).
  rewrite do_lookup_unfold, table_get_unfold. cbv zeta. cbn [fst snd lookup_get_hash].
  assert (Heq : lookup_equals (oop_storage st) (StringTableLookupJchar hash name) wh = true)
    by (apply lookup_equals_spec; eauto).
  destruct (get_node_member _ _ _ 0%nat _ Hin Heq) as (wh0 & loops & Hfound).
  rewrite Hfound. cbn [fst mbind option_bind].
  apply get_node_found in Hfound as [_ Heq0].
  apply lookup_equals_spec in Heq0 as (o0 & Ho0 & Hv0). exists o0.
  rewrite Ho0. split; [reflexivity | exact Hv0].
Qed.

Lemma do_lookup_found name hash st o :
  fst (do_lookup name hash st) = Some o ->
  oop_value o = name /\ resident st hash name.
Proof.
  rewrite do_lookup_unfold, table_get_unfold. cbv zeta. cbn [fst snd lookup_get_hash].
  destruct (get_node _ _ _ _) as [[wh0|] loops] eqn:Hfound; cbn [fst mbind option_bind];
    [|discriminate].
  intros Hpeek. apply get_node_found in Hfound as [Hin Heq].
  apply lookup_equals_spec in Heq as (o0 & Ho0 & Hv0).
  assert (o0 = o) by congruence. subst o0. cbn [lookup_chars] in Hv0.
  split; [exact Hv0|]. exists wh0, o. auto.
Qed.

(** Interning a string that the archived table does not answer for leaves
    its contents resident in the concurrent table. *)
Lemma intern_handle_spec fuel string_h st :
  handles_allocated st ->
  shared_lookup (shared_table st) (oop_value string_h)
    (String_hash_code (oop_value string_h)) = None ->
  exists r st',
    intern (S fuel) (Some string_h) (oop_value string_h) st = Some (r, st')
    /\ handles_allocated st'
    /\ table_extends st st'
    /\ thread_frame st st'
    /\ resident st' (local_hash (oop_value string_h) st) (oop_value string_h).
Proof.
  intros Hwf Hmiss. rewrite intern_unfold. cbv zeta. rewrite Hmiss.
  set (name := oop_value string_h). set (hash := local_hash name st).
  set (st1 := log_event (EvSharedLookup (String_hash_code name) name) st).
  assert (Hf1 : local_table st1 = local_table st /\ oop_storage st1 = oop_storage st
                /\ items_count st1 = items_count st /\ thread_frame st st1)
    by (subst st1; destruct st; repeat split).
  destruct Hf1 as (Ht1 & Hs1 & Hi1 & Hth1).
  destruct (do_lookup_fields name hash st1) as (Ht2 & Hs2 & Hi2 & Hth2).
  cbv zeta in *.
  pose proof (do_lookup_found name hash st1) as Hfound.
  destruct (do_lookup name hash st1) as [[o|] st2]; cbn [fst snd] in *.
  - destruct (Hfound o eq_refl) as [Hval Hres].
    assert (Hext : table_extends st st2)
      by (apply table_extends_fields; congruence).
    exists (Some o), st2. split; [reflexivity|].
    split; [eapply handles_allocated_fields; [| | |exact Hwf]; congruence|].
    split; [exact Hext|].
    split; [unfold thread_frame in *; intuition congruence|].
    destruct Hres as (wh & o' & Hin & Hlive & Hv).
    exists wh, o'. rewrite Ht2, Hs2. auto.
  - clear Hfound.
    destruct (notify_intern_fields string_h st2) as (Ht3 & Hs3 & Hi3).
    assert (Hth3 : thread_frame st2 (notify_intern string_h st2)).
    { unfold notify_intern. destruct StringDedup_is_enabled; destruct st2; repeat split. }
    set (st3 := notify_intern string_h st2) in *.
    assert (Hwf3 : handles_allocated st3)
      by (eapply handles_allocated_fields; [| | |exact Hwf]; congruence).
    destruct (do_intern_loop_spec fuel (StringTableLookupOop hash string_h) string_h st3 Hwf3)
      as (r & st' & Hrun & Hwf' & Hext & Hth & Hcase).
    exists r, st'. unfold do_intern. fold st3. split; [exact Hrun|].
    split; [exact Hwf'|].
    assert (Hext3 : table_extends st st3) by (apply table_extends_fields; congruence).
    split; [eapply table_extends_trans; eassumption|].
    split; [unfold thread_frame in *; intuition congruence|].
    destruct Hext as (Hsz & Hmem & Hpeek & Hn). cbn [lookup_get_hash] in Hcase.
    destruct (get_node _ _ _ _) as [[wh0|] loops]; cbn [fst] in Hcase.
    + destruct Hcase as (Hin & Heq & _ & Ht' & Hc' & _).
      apply lookup_equals_spec in Heq as (o & Ho & Hv). cbn [lookup_chars] in Hv.
      exists wh0, o. rewrite Ht'.
      split; [exact Hin|]. split; [|exact Hv].
      unfold storage_peek in *. rewrite Hc'. exact Ho.
    + destruct Hcase as (_ & Ht' & Hp' & _).
      exists (next_cell (oop_storage st3)), string_h. rewrite Ht'. cbn [size_log2 set_bucket].
      split; [rewrite get_bucket_set_bucket_eq; apply list_elem_of_here|].
      split; [exact Hp' | reflexivity].
Qed.

(** *** The forced drain of the archived table *)

Lemma try_allocate_cases st :
  (fst (try_allocate st) = false
   /\ alloc_budget st = Some 0%nat
   /\ snd (try_allocate st) = set_pending_exception true st)
  \/ (fst (try_allocate st) = true
      /\ (forall n, budget_covers (alloc_budget st) (S n)
                    = budget_covers (alloc_budget (snd (try_allocate st))) n)
      /\ budget_covers (alloc_budget st) 1 = true
      /\ local_table (snd (try_allocate st)) = local_table st
      /\ oop_storage (snd (try_allocate st)) = oop_storage st
      /\ items_count (snd (try_allocate st)) = items_count st
      /\ pending_exception (snd (try_allocate st)) = pending_exception st
      /\ intern_frame st (snd (try_allocate st))).
Proof.
  pose proof (intern_frame_try_allocate st) as Hfr. unfold try_allocate in *.
  destruct (alloc_budget st) as [[|k]|] eqn:Hb; simpl in *.
  - left. auto.
  - right. split; [reflexivity|]. split; [|split; [reflexivity|]].
    + intros n. destruct st; simpl. destruct n; reflexivity.
    + destruct st; repeat split; exact Hfr.
  - right. split; [reflexivity|]. split; [|split; [reflexivity|]].
    + intros n. rewrite Hb. reflexivity.
    + repeat split; exact Hfr.
Qed.

(** From a well-formed state one turn of the loop is enough: [intern]
    returns for every fuel of at least one. *)
Lemma intern_total fuel h name st :
  handles_allocated st ->
  exists r st', intern (S fuel) h name st = Some (r, st').
Proof.
  intros Hwf. rewrite intern_unfold. cbv zeta.
  destruct (shared_lookup _ _ _); [eauto|].
  set (st1 := log_event _ st).
  destruct (do_lookup_fields name (local_hash name st) st1) as (Ht2 & Hs2 & Hi2 & _).
  cbv zeta in *.
  destruct (do_lookup name (local_hash name st) st1) as [[o|] st2]; [eauto|].
  cbn [snd] in *.
  assert (Hwf2 : handles_allocated st2).
  { eapply handles_allocated_fields; [| | |exact Hwf]; subst st1; destruct st;
      simpl in *; congruence. }
  assert (Hbody : forall s st0, handles_allocated st0 ->
            exists r st',
              do_intern_loop (S fuel) (StringTableLookupOop (local_hash name st) s) s
                (notify_intern s st0) = Some (r, st')).
  { intros s st0 Hwf0. destruct (notify_intern_fields s st0) as (Ht & Hs & Hi).
    assert (Hwf' : handles_allocated (notify_intern s st0))
      by (eapply handles_allocated_fields; eassumption).
    destruct (do_intern_loop_spec fuel (StringTableLookupOop (local_hash name st) s) s _ Hwf')
      as (r & st' & Hrun & _). eauto. }
  unfold do_intern. destruct h as [s|]; [apply Hbody; exact Hwf2|].
  unfold create_from_unicode.
  destruct (try_allocate_cases st2)
    as [(Hok & _ & Hst) | (Hok & _ & _ & Ht0 & Hs0 & Hi0 & _)];
    destruct (try_allocate st2) as [ok st0]; cbn [fst snd] in *; subst ok.
  - destruct (pending_exception st0); eauto.
  - destruct (pending_exception (set_heap_top (S (heap_top st0)) st0)); [eauto|].
    apply Hbody. eapply handles_allocated_fields; [| | |exact Hwf2]; destruct st0; assumption.
Qed.

(** C9. [lookup] and [intern] probe the archived table with the default
    hash [java_lang_String::hash_code], whether or not the alternate hash
    is in use.  Only after a miss there is the concurrent table probed, and
    then with the alternate hash under the current seed if the alternate
    hash is in use and with the default hash otherwise; the archived table
    is not probed again.  From a well-formed state [intern] returns. *)
Theorem archived_probe_uses_default_hash
    (fuel : nat) (string_or_null_h : option oop) (name : list jchar) (st : StringTable) :
  let default_hash := String_hash_code name in
  let archived := shared_lookup (shared_table st) name default_hash in
  (alt_hash st = true ->
     local_hash name st = wrap_uint (halfsiphash_32 (alt_hash_seed st) name))
  /\ (alt_hash st = false -> local_hash name st = default_hash)
  /\ (exists rest,
        trace (snd (lookup name st)) = trace st ++ EvSharedLookup default_hash name :: rest
        /\ (is_Some archived -> rest = [])
        /\ (archived = None -> rest = [EvLocalGet (local_hash name st) name]))
  /\ (forall r st', intern fuel string_or_null_h name st = Some (r, st') ->
        exists rest,
          trace st' = trace st ++ EvSharedLookup default_hash name :: rest
          /\ Forall (probes_with (local_hash name st)) rest
          /\ (is_Some archived -> rest = [])
          /\ (archived = None ->
              exists rest', rest = EvLocalGet (local_hash name st) name :: rest'))
  /\ (handles_allocated st ->
      exists r st', intern (S fuel) string_or_null_h name st = Some (r, st')).
Proof.
  intros default_hash archived.
  split; [unfold local_hash; intros ->; reflexivity|].
  split; [unfold local_hash; intros ->; reflexivity|].
  split; [|split; [|apply intern_total]].
  - rewrite lookup_unfold. fold default_hash archived. cbv zeta.
    destruct archived as [s|]; simpl.
    + exists []. rewrite trace_log_event.
      split; [reflexivity|]. split; [reflexivity | discriminate].
    + eexists. rewrite do_lookup_trace, trace_log_event, <- app_assoc.
      split; [reflexivity|]. split; [intros [? ?]; discriminate | reflexivity].
  - intros r st'. rewrite intern_unfold. fold default_hash archived. cbv zeta.
    destruct archived as [s|].
    + intros Hr. inversion Hr; subst. exists []. rewrite trace_log_event.
      split; [reflexivity|]. split; [constructor|].
      split; [reflexivity | discriminate].
    + pose proof (do_lookup_trace name (local_hash name st)
                    (log_event (EvSharedLookup default_hash name) st)) as Hl.
      destruct (do_lookup _ _ _) as [[s|] st2]; simpl in Hl;
        rewrite trace_log_event, <- app_assoc in Hl.
      * intros Hr. inversion Hr; subst. eexists. split; [exact Hl|].
        split; [repeat constructor|]. split; [intros [? ?]; discriminate | eauto].
      * intros Hr. apply do_intern_trace in Hr as (rest & Hrest & Hall).
        rewrite Hl, <- app_assoc in Hrest. eexists. split; [exact Hrest|].
        split; [constructor; [reflexivity | exact Hall]|].
        split; [intros [? ?]; discriminate | eauto].
Qed.


Lemma intern_oop_drain fuel string st :
  handles_allocated st -> shared_table st = [] -> pending_exception st = false ->
  (fst (try_allocate st) = false
   /\ intern_oop (S fuel) (Some string) st = Some (None, set_pending_exception true st))
  \/ (fst (try_allocate st) = true
      /\ exists r st',
          intern_oop (S fuel) (Some string) st = Some (r, st')
          /\ pending_exception st' = false
          /\ handles_allocated st'
          /\ table_extends st st'
          /\ intern_frame st st'
          /\ (forall n, budget_covers (alloc_budget st) (S n)
                        = budget_covers (alloc_budget st') n)
          /\ resident st' (local_hash (oop_value string) st) (oop_value string)).
Proof.
  intros Hwf Hshared Hpend.
  destruct (try_allocate_cases st)
    as [(Hok & Hb & Hst) | (Hok & Hcov & _ & Ht0 & Hs0 & Hi0 & Hp0 & Hfr0)].
  - left. split; [exact Hok|]. cbn [intern_oop]. unfold as_unicode_string.
    destruct (try_allocate st) as [ok st0]. cbn [fst snd] in *. subst ok st0.
    replace (pending_exception (set_pending_exception true st)) with true
      by (destruct st; reflexivity).
    reflexivity.
  - right. split; [exact Hok|].
    pose proof (intern_oop_frame (S fuel) (Some string) st) as Hframe.
    cbn [intern_oop] in *. unfold as_unicode_string in *.
    destruct (try_allocate st) as [ok st0]. cbn [fst snd] in *. subst ok.
    rewrite Hp0, Hpend in *.
    assert (Hwf0 : handles_allocated st0)
      by (eapply handles_allocated_fields; eassumption).
    assert (Hmiss : shared_lookup (shared_table st0) (oop_value string)
                      (String_hash_code (oop_value string)) = None).
    { destruct Hfr0 as (Hsh & _). rewrite Hsh, Hshared. reflexivity. }
    destruct (intern_handle_spec fuel string st0 Hwf0 Hmiss)
      as (r & st' & Hrun & Hwf' & Hext & Hth & Hres).
    rewrite Hrun in *. cbn [check_null] in *.
    destruct Hth as (Hb' & Hp' & _).
    eexists _, st'. split; [reflexivity|].
    split; [congruence|]. split; [exact Hwf'|].
    split; [eapply table_extends_trans; [apply table_extends_fields|]; eassumption|].
    split; [eapply Hframe; reflexivity|].
    split; [intros n; rewrite Hcov, Hb'; reflexivity|].
    replace (local_hash (oop_value string) st) with (local_hash (oop_value string) st0);
      [exact Hres|].
    destruct Hfr0 as (_ & _ & Ha & Hs & _). unfold local_hash. rewrite Ha, Hs. reflexivity.
Qed.

Lemma local_hash_frame name st st' :
  intern_frame st st' -> local_hash name st' = local_hash name st.
Proof. intros (_ & _ & Ha & Hs & _). unfold local_hash. rewrite Ha, Hs. reflexivity. Qed.

Lemma shared_iterate_spec fuel entries st :
  handles_allocated st -> shared_table st = [] ->
  pending_exception st = false -> vm_exited st = false ->
  exists st',
    shared_iterate (S fuel) entries st = Some st'
    /\ shared_table st' = []
    /\ alt_hash st' = alt_hash st /\ alt_hash_seed st' = alt_hash_seed st
    /\ handles_allocated st'
    /\ table_extends st st'
    /\ vm_exited st' = negb (budget_covers (alloc_budget st) (length entries))
    /\ (vm_exited st' = false ->
        pending_exception st' = false
        /\ forall e, e ∈ entries ->
             resident st' (local_hash (oop_value (snd e)) st') (oop_value (snd e))).
Proof.
  revert st. induction entries as [|e rest IH]; intros st Hwf Hshared Hpend Hexit.
  - exists st. cbn [shared_iterate length].
    split; [reflexivity|]. split; [exact Hshared|]. split; [reflexivity|].
    split; [reflexivity|]. split; [exact Hwf|]. split; [apply table_extends_refl|].
    split; [rewrite Hexit; destruct (alloc_budget st); reflexivity|].
    intros _. split; [exact Hpend|]. intros e He. by apply elem_of_nil in He.
  - cbn [shared_iterate length]. unfold SharedStringTransfer_do_value.
    destruct (intern_oop_drain fuel (snd e) st Hwf Hshared Hpend)
      as [(Hok & Hrun) | (Hok & r & st1 & Hrun & Hp1 & Hwf1 & Hext1 & Hfr1 & Hcov & Hres)].
    + rewrite Hrun.
      replace (pending_exception (set_pending_exception true st)) with true
        by (destruct st; reflexivity).
      replace (vm_exited (set_vm_exited true (set_pending_exception true st))) with true
        by (destruct st; reflexivity).
      eexists. split; [reflexivity|].
      split; [destruct st; exact Hshared|].
      split; [destruct st; reflexivity|]. split; [destruct st; reflexivity|].
      split; [eapply handles_allocated_fields; [| | |exact Hwf]; destruct st; reflexivity|].
      split; [apply table_extends_fields; destruct st; reflexivity|].
      split.
      * replace (vm_exited (set_vm_exited true (set_pending_exception true st))) with true
          by (destruct st; reflexivity).
        destruct (try_allocate_cases st) as [(_ & Hb & _) | (Hok' & _)]; [|congruence].
        rewrite Hb. reflexivity.
      * replace (vm_exited (set_vm_exited true (set_pending_exception true st))) with true
          by (destruct st; reflexivity).
        discriminate.
    + rewrite Hrun, Hp1.
      pose proof Hfr1 as (Hsh1 & _ & Ha1 & Hs1 & _ & _ & Hv1 & _).
      rewrite Hv1, Hexit.
      destruct (IH st1 Hwf1 ltac:(congruence) Hp1 ltac:(congruence))
        as (st' & Hrun' & Hsh' & Ha' & Hs' & Hwf' & Hext' & Hv' & Hdone).
      exists st'. split; [exact Hrun'|]. split; [exact Hsh'|].
      split; [congruence|]. split; [congruence|]. split; [exact Hwf'|].
      split; [eapply table_extends_trans; eassumption|].
      split; [rewrite Hv', Hcov; reflexivity|].
      intros Hv. destruct (Hdone Hv) as [Hp' Hall]. split; [exact Hp'|].
      intros e' He'. apply elem_of_cons in He' as [->|He']; [|exact (Hall _ He')].
      assert (Hh : local_hash (oop_value (snd e)) st' = local_hash (oop_value (snd e)) st)
        by (unfold local_hash; rewrite Ha', Hs', Ha1, Hs1; reflexivity).
      rewrite Hh. exact (resident_extends st1 st' _ _ Hwf1 Hext' Hres).
Qed.

Lemma resident_fields st st' hash chars :
  local_table st' = local_table st -> oop_storage st' = oop_storage st ->
  resident st hash chars -> resident st' hash chars.
Proof. unfold resident. intros -> ->. auto. Qed.

(** C8. The forced drain empties the archived table and interns each of
    its entries into the concurrent table.  If no intern raises, every
    entry has a live node in the bucket its hash selects, the archived
    table stays empty, and a later [lookup] or [intern] of those contents
    misses the archived table and is answered by the concurrent table
    without a new node.  If an intern raises, which happens exactly when the
    allocation budget is smaller than the number of entries, the VM exits. *)
Theorem transfer_drains_archive (fuel : nat) (st : StringTable) :
  handles_allocated st -> pending_exception st = false -> vm_exited st = false ->
  exists st',
    transfer_shared_strings_to_local_table (S fuel) st = Some st'
    /\ shared_table st' = []
    /\ vm_exited st' = negb (budget_covers (alloc_budget st) (length (shared_table st)))
    /\ (vm_exited st' = false ->
        forall e, e ∈ shared_table st ->
          let chars := oop_value (snd e) in
          resident st' (local_hash chars st') chars
          /\ exists o,
              oop_value o = chars
              /\ fst (lookup chars st') = Some o
              /\ trace (snd (lookup chars st'))
                 = trace st' ++ [EvSharedLookup (String_hash_code chars) chars;
                                 EvLocalGet (local_hash chars st') chars]
              /\ forall fuel' h,
                   exists st'', intern fuel' h chars st' = Some (Some o, st'')
                                /\ items_count st'' = items_count st'
                                /\ local_table st'' = local_table st'
                                /\ shared_table st'' = [])
    /\ (forall string st0 r st1,
          intern_oop (S fuel) (Some string) st0 = Some (r, st1) ->
          pending_exception st1 = true ->
          SharedStringTransfer_do_value (S fuel) string st0 = Some (set_vm_exited true st1)
          /\ vm_exited (set_vm_exited true st1) = true).
Proof.
  intros Hwf Hpend Hexit. unfold transfer_shared_strings_to_local_table.
  set (st0 := set_shared_table [] st).
  assert (Hwf0 : handles_allocated st0)
    by (eapply handles_allocated_fields; [| | |exact Hwf]; subst st0; destruct st; reflexivity).
  assert (Hb0 : alloc_budget st0 = alloc_budget st) by (subst st0; destruct st; reflexivity).
  destruct (shared_iterate_spec fuel (shared_table st) st0 Hwf0)
    as (st' & Hrun & Hsh' & _ & _ & Hwf' & _ & Hv' & Hdone);
    try (subst st0; destruct st; simpl in *; congruence).
  exists st'. split; [exact Hrun|]. split; [exact Hsh'|].
  split; [rewrite Hv', Hb0; reflexivity|]. split.
  - intros Hv e He. cbv zeta. set (chars := oop_value (snd e)).
    destruct (Hdone Hv) as [_ Hall].
    pose proof (Hall e He) as Hres. fold chars in Hres.
    split; [exact Hres|].
    set (st1 := log_event (EvSharedLookup (String_hash_code chars) chars) st').
    assert (Hres1 : resident st1 (local_hash chars st') chars)
      by (eapply resident_fields; [| |exact Hres]; subst st1; destruct st'; reflexivity).
    destruct (do_lookup_resident _ _ _ Hres1) as (o & Ho & Hval).
    exists o. split; [exact Hval|].
    rewrite lookup_unfold. cbv zeta. rewrite Hsh'. cbn [shared_lookup find fmap option_fmap option_map].
    fold st1. split; [exact Ho|].
    split; [rewrite do_lookup_trace; subst st1; rewrite trace_log_event, <- app_assoc;
            reflexivity|].
    intros fuel' h. rewrite intern_unfold. cbv zeta. rewrite Hsh'.
    cbn [shared_lookup find fmap option_fmap option_map]. fold st1.
    destruct (do_lookup_fields chars (local_hash chars st') st1) as (Ht2 & _ & Hi2 & _).
    pose proof (do_lookup_frame chars (local_hash chars st') st1) as (Hsh2 & _).
    destruct (do_lookup chars (local_hash chars st') st1) as [found st2].
    cbn [fst snd] in *. subst found. exists st2. split; [reflexivity|].
    split; [rewrite Hi2; subst st1; destruct st'; reflexivity|].
    split; [rewrite Ht2; subst st1; destruct st'; reflexivity|].
    rewrite Hsh2. subst st1. destruct st'; exact Hsh'.
  - intros string st2 r st1 Hrun1 Hp1. unfold SharedStringTransfer_do_value.
    rewrite Hrun1, Hp1. split; [reflexivity | destruct st1; reflexivity].
Qed.

End Interning.

(** ** The properties at work *)

Lemma example_plain_allocated : handles_allocated example_plain.
Proof.
  unfold handles_allocated. change (local_table example_plain) with (new_table 1).
  change (oop_storage example_plain) with (mk_storage ∅ 0 []).
  split; [intros i wh Hin; rewrite get_bucket_new_table in Hin; by apply elem_of_nil in Hin|].
  split; [intros wh Hin; by apply elem_of_nil in Hin|].
  split; [intros wh [x Hx]; cbn [cells] in Hx; rewrite lookup_empty in Hx; discriminate|].
  change (items_count example_plain) with 0. unfold size_t_max. lia.
Qed.

Lemma example_start_allocated : handles_allocated example_start.
Proof.
  unfold handles_allocated. change (local_table example_start) with (new_table 1).
  change (oop_storage example_start) with (mk_storage ∅ 0 []).
  split; [intros i wh Hin; rewrite get_bucket_new_table in Hin; by apply elem_of_nil in Hin|].
  split; [intros wh Hin; by apply elem_of_nil in Hin|].
  split; [intros wh [x Hx]; cbn [cells] in Hx; rewrite lookup_empty in Hx; discriminate|].
  change (items_count example_start) with 0. unfold size_t_max. lia.
Qed.

(** "ab" is not archived: the probe of the archived table carries the default
    hash and is followed by one probe of the concurrent table. *)
Lemma archived_probe_uses_default_hash_witness :
  exists rest,
    trace (snd (@lookup example_collaborators chars_ab example_start))
    = trace example_start ++ EvSharedLookup (example_hash_code chars_ab) chars_ab :: rest
    /\ rest = [EvLocalGet (@local_hash example_collaborators chars_ab example_start) chars_ab].
Proof.
  destruct (proj1 (proj2 (proj2 (@archived_probe_uses_default_hash example_collaborators
                                   1 None chars_ab example_start))))
    as (rest & Htrace & _ & Hmiss).
  exists rest. split; [exact Htrace|]. apply Hmiss. reflexivity.
Defined.

(** Interning "ab" into the empty table links the first cell. *)
Lemma do_intern_owns_candidate_witness :
  exists r st',
    @do_intern example_collaborators 1 (Some heap_ab) chars_ab
      (example_hash_code chars_ab) example_plain = Some (r, st')
    /\ (linked st' 0%nat \/ (0%nat ∈ release_log (oop_storage st'))).
Proof.
  destruct (proj1 (@do_intern_owns_candidate example_collaborators 0 heap_ab chars_ab
                     (example_hash_code chars_ab) example_plain example_plain_allocated))
    as (r & st' & Hrun & Hown & _).
  exists r, st'. split; assumption.
Defined.

(** With the table owned by a paused task an alarm migrates nothing:
    [rehashed] stays unset and the hash in use is the default one. *)
Example alarm_on_busy_table :
  rehashed example_busy = false
  /\ growth_preferred example_busy = false
  /\ rehashes_done (@rehash_table example_collaborators 7 example_busy) = 0%nat
  /\ rehashed (@rehash_table example_collaborators 7 example_busy) = false
  /\ alt_hash (@rehash_table example_collaborators 7 example_busy) = false
  /\ local_table (@rehash_table example_collaborators 7 example_busy)
     = local_table example_busy.
Proof. vm_compute. repeat split. Qed.

(** Two alarms in a row on a free table: one rehash. *)
Lemma rehash_at_most_once_witness :
  exists st',
    @run example_collaborators [OpRehashTable 7; OpRehashTable 8] example_plain = Some st'
    /\ (rehashes_done st' <= 1)%nat.
Proof.
  eexists. split; [reflexivity|].
  apply (proj1 (@rehash_at_most_once example_collaborators)
           [OpRehashTable 7; OpRehashTable 8] example_plain); reflexivity.
Defined.

(** An alarm on the crowded table asks for growth. *)
Lemma rehash_table_prefers_growth_witness :
  @rehash_table example_collaborators 7 example_crowded
  = set_needs_rehashing false (trigger_concurrent_work example_crowded).
Proof.
  apply (@rehash_table_prefers_growth example_collaborators 7 example_crowded);
    vm_compute; reflexivity.
Defined.


(** Draining the archive of two strings. *)
Lemma transfer_drains_archive_witness :
  exists st',
    @transfer_shared_strings_to_local_table example_collaborators 1 example_start = Some st'
    /\ shared_table st' = []
    /\ vm_exited st' = false.
Proof.
  destruct (@transfer_drains_archive example_collaborators 0 example_start
              example_start_allocated eq_refl eq_refl)
    as (st' & Hrun & Hsh & Hv & _).
  exists st'. split; [exact Hrun|]. split; [exact Hsh|]. rewrite Hv. reflexivity.
Defined.

(** ** Scenarios *)

(** At a load factor of exactly 2.0 nothing is requested, and one more item
    requests the work; at a dead factor of exactly 0.5 nothing is requested,
    and one more dead item requests the work. *)
Example threshold_is_strict :
  has_work (gc_notification 0 example_full) = false
  /\ has_work (gc_notification 0 example_crowded) = true
  /\ has_work (gc_notification 1 example_full) = false
  /\ has_work (gc_notification 2 example_full) = true.
Proof. vm_compute. repeat split. Qed.

(** The archive answers for "hi" and the concurrent table stays empty; after
    the drain the archive is empty, both strings are counted in the
    concurrent table, and "hi" is answered by the same string. *)
Example archive_then_drain :
  let ex := example_collaborators in
  @intern ex 1 None chars_hi example_start
  = Some (Some archived_hi,
          log_event (EvSharedLookup (example_hash_code chars_hi) chars_hi) example_start)
  /\ match @transfer_shared_strings_to_local_table ex 1 example_start with
     | Some drained =>
         shared_table drained = []
         /\ items_count drained = 2
         /\ vm_exited drained = false
         /\ fst (@lookup ex chars_hi drained) = Some archived_hi
         /\ items_count (snd (@lookup ex chars_hi drained)) = 2
     | None => False
     end.
Proof. vm_compute. repeat split. Qed.

(** One bucket, three strings: the load factor is 3.0, the notification asks
    for work, the work grows the table to two buckets, and the three strings
    are still found. *)
Example three_strings_grow :
  let ex := example_collaborators in
  let st1 := state_after example_single (@intern ex 1 None chars_abc example_single) in
  let st2 := state_after st1 (@intern ex 1 None chars_abd st1) in
  let st3 := state_after st2 (@intern ex 1 None chars_abe st2) in
  let st4 := gc_notification 0 st3 in
  let st5 := @do_concurrent_work ex st4 in
  items_count st3 = 3 /\ current_size st3 = 1
  /\ has_work st4 = true
  /\ has_work st5 = false /\ current_size st5 = 2 /\ items_count st5 = 3
  /\ (oop_value <$> fst (@lookup ex chars_abc st5)) = Some chars_abc
  /\ (oop_value <$> fst (@lookup ex chars_abd st5)) = Some chars_abd
  /\ (oop_value <$> fst (@lookup ex chars_abe st5)) = Some chars_abe.
Proof. vm_compute. repeat split. Qed.

(** Two candidates for the same contents: the first is linked, the second is
    released once and the first string is the answer to both. *)
Example second_candidate_is_released :
  let ex := example_collaborators in
  let h := example_hash_code chars_ab in
  let first := @do_intern ex 1 (Some heap_ab) chars_ab h example_plain in
  let st1 := state_after example_plain first in
  let second := @do_intern ex 1 (Some (mk_oop 12 chars_ab)) chars_ab h st1 in
  let st2 := state_after st1 second in
  (fst <$> first) = Some (Some heap_ab)
  /\ (fst <$> second) = Some (Some heap_ab)
  /\ release_log (oop_storage st1) = []
  /\ release_log (oop_storage st2) = [1%nat]
  /\ all_nodes (local_table st2) = [0%nat]
  /\ items_count st2 = 1.
Proof. vm_compute. repeat split. Qed.

(** A budget of one allocation for an archive of two: the second intern
    raises and the VM exits. *)
Example drain_out_of_memory :
  (vm_exited <$> @transfer_shared_strings_to_local_table example_collaborators 1 example_tight)
  = Some true.
Proof. vm_compute. reflexivity. Qed.

(** * Further properties of the table *)

(** ** Interning and then looking up *)

Lemma shared_lookup_some (t : SharedStringTable) (name : list jchar) (hash : Z) (s : oop) :
  shared_lookup t name hash = Some s -> oop_value s = name /\ (hash, s) ∈ t.
Proof.
  unfold shared_lookup. induction t as [|[h e] t IH]; simpl; [discriminate|].
  destruct (Z.eqb_spec h hash) as [->|Hne]; simpl.
  - unfold String_equals_chars. destruct (bool_decide_reflect (oop_value e = name)) as [He|He].
    + simpl. intros Hs. inversion Hs; subst. split; [reflexivity | apply list_elem_of_here].
    + intros Hs. destruct (IH Hs) as [Hv Hin]. split; [exact Hv | by apply list_elem_of_further].
  - intros Hs. destruct (IH Hs) as [Hv Hin]. split; [exact Hv | by apply list_elem_of_further].
Qed.

Lemma get_node_fst_ext s1 s2 lk1 lk2 chain n m :
  (forall wh, wh ∈ chain -> lookup_equals s1 lk1 wh = lookup_equals s2 lk2 wh) ->
  fst (get_node s1 lk1 chain n) = fst (get_node s2 lk2 chain m).
Proof.
  revert n m. induction chain as [|wh rest IH]; intros n m Hsame; [reflexivity|].
  simpl. rewrite (Hsame wh) by apply list_elem_of_here.
  destruct (lookup_equals s2 lk2 wh); [reflexivity|].
  apply IH. intros wh' Hin. apply Hsame. by apply list_elem_of_further.
Qed.

Lemma lookup_equals_chars s lk1 lk2 wh :
  lookup_chars lk1 = lookup_chars lk2 -> lookup_equals s lk1 wh = lookup_equals s lk2 wh.
Proof.
  intros Hc. destruct (lookup_equals s lk2 wh) eqn:H2.
  - apply lookup_equals_spec. apply lookup_equals_spec in H2. rewrite Hc. exact H2.
  - destruct (lookup_equals s lk1 wh) eqn:H1; [|reflexivity].
    apply lookup_equals_spec in H1. rewrite Hc in H1. apply lookup_equals_spec in H1. congruence.
Qed.

Lemma lookup_equals_peek s1 s2 lk wh :
  storage_peek s1 wh = storage_peek s2 wh -> lookup_equals s1 lk wh = lookup_equals s2 lk wh.
Proof. unfold lookup_equals. intros ->. reflexivity. Qed.

Section RoundTrip.
Context `{Collaborators}.

Lemma do_lookup_result name hash st :
  fst (do_lookup name hash st) =
  fst (get_node (oop_storage st) (StringTableLookupJchar hash name)
         (get_bucket (local_table st) (bucket_index (size_log2 (local_table st)) hash)) 0)
  ≫= storage_peek (oop_storage st).
Proof. rewrite do_lookup_unfold, table_get_unfold. reflexivity. Qed.

Lemma do_lookup_same_tables name hash st1 st2 :
  local_table st1 = local_table st2 -> oop_storage st1 = oop_storage st2 ->
  fst (do_lookup name hash st1) = fst (do_lookup name hash st2).
Proof. intros Ht Hs. rewrite !do_lookup_result, Ht, Hs. reflexivity. Qed.

(** The loop of [do_intern] ends with the string it returns at the front of
    what a lookup of the same contents finds. *)
Lemma do_intern_loop_finds fuel lk string_h st r st' :
  handles_allocated st -> oop_value string_h = lookup_chars lk ->
  do_intern_loop (S fuel) lk string_h st = Some (r, st') ->
  exists o, r = Some o /\ oop_value o = lookup_chars lk
    /\ fst (do_lookup (lookup_chars lk) (lookup_get_hash lk) st') = Some o
    /\ handles_allocated st' /\ table_extends st st' /\ thread_frame st st'.
Proof.
  intros Hwf Hval Hrun.
  destruct (do_intern_loop_spec fuel lk string_h st Hwf)
    as (r0 & st0 & Hrun0 & Hwf' & Hext & Hth & Hcase).
  rewrite Hrun in Hrun0. inversion Hrun0; subst r0 st0. clear Hrun0.
  rewrite do_lookup_result.
  set (jk := StringTableLookupJchar (lookup_get_hash lk) (lookup_chars lk)).
  destruct (get_node (oop_storage st) lk _ 0) as [[wh0|] loops] eqn:Hfound; cbn [fst] in Hcase.
  - destruct Hcase as (Hin & Heq & Hr & Ht' & Hc' & _).
    assert (Hpeek : forall wh, storage_peek (oop_storage st') wh = storage_peek (oop_storage st) wh)
      by (intros wh; unfold storage_peek; rewrite Hc'; reflexivity).
    pose proof Heq as Heq'. apply lookup_equals_spec in Heq' as (o & Ho & Hv).
    exists o. split; [congruence|]. split; [exact Hv|]. split; [|auto].
    rewrite Ht'.
    assert (Hfst : fst (get_node (oop_storage st') jk
                     (get_bucket (local_table st)
                        (bucket_index (size_log2 (local_table st)) (lookup_get_hash lk))) 0)
                   = Some wh0).
    { rewrite (get_node_fst_ext _ (oop_storage st) jk lk _ 0%nat 0%nat), Hfound; [reflexivity|].
      intros wh Hwh. rewrite (lookup_equals_peek _ (oop_storage st)) by apply Hpeek.
      apply lookup_equals_chars. reflexivity. }
    rewrite Hfst. cbn [mbind option_bind]. rewrite Hpeek. exact Ho.
  - destruct Hcase as (Hr & Ht' & Hp' & _).
    exists string_h. split; [exact Hr|]. split; [exact Hval|]. split; [|auto].
    rewrite Ht'. cbn [size_log2 set_bucket]. rewrite get_bucket_set_bucket_eq.
    cbn [get_node].
    assert (Heq : lookup_equals (oop_storage st') jk (next_cell (oop_storage st)) = true).
    { apply lookup_equals_spec. exists string_h. split; [exact Hp' | exact Hval]. }
    rewrite Heq. cbn [fst mbind option_bind]. exact Hp'.
Qed.

End RoundTrip.

(** ** Buckets and the scan order *)

Lemma bucket_index_range n h : 0 <= bucket_index n h < 2 ^ Z.of_nat n.
Proof.
  unfold bucket_index. rewrite Z.land_ones by lia. apply Z.mod_pos_bound.
  apply Z.pow_pos_nonneg; lia.
Qed.

Lemma bucket_index_wrap_uint n h :
  (n <= 32)%nat -> bucket_index n (wrap_uint h) = bucket_index n h.
Proof.
  intros Hn. unfold bucket_index, wrap_uint. rewrite !Z.land_ones by lia.
  replace 32 with (Z.of_nat n + (32 - Z.of_nat n)) by lia.
  rewrite Z.pow_add_r by lia.
  assert (0 < 2 ^ Z.of_nat n) by (apply Z.pow_pos_nonneg; lia).
  assert (0 < 2 ^ (32 - Z.of_nat n)) by (apply Z.pow_pos_nonneg; lia).
  rewrite Z.rem_mul_r by lia.
  rewrite (Z.mul_comm (2 ^ Z.of_nat n)), Z_mod_plus_full. apply Z.mod_mod. lia.
Qed.

Lemma elem_of_bucket_indices n i :
  i ∈ bucket_indices n <-> 0 <= i < 2 ^ Z.of_nat n.
Proof.
  assert (Hpow : Z.of_nat (2 ^ n) = 2 ^ Z.of_nat n)
    by (rewrite Nat2Z.inj_pow; reflexivity).
  unfold bucket_indices. rewrite list_elem_of_fmap. split.
  - intros (k & -> & Hk). apply elem_of_seq in Hk. lia.
  - intros Hi. exists (Z.to_nat i). split; [lia|]. apply elem_of_seq. lia.
Qed.

Lemma NoDup_bucket_indices n : NoDup (bucket_indices n).
Proof.
  unfold bucket_indices. apply NoDup_fmap_2; [|apply NoDup_seq].
  intros x y Hxy. lia.
Qed.

Lemma elem_of_concat {A} (x : A) (ls : list (list A)) :
  x ∈ concat ls <-> exists l, x ∈ l /\ l ∈ ls.
Proof.
  induction ls as [|l0 ls IH]; cbn [concat].
  - split; [intros Hx; by apply elem_of_nil in Hx|].
    intros (l & _ & Hl). by apply elem_of_nil in Hl.
  - rewrite elem_of_app, IH. split.
    + intros [Hx|(l & Hx & Hl)].
      * exists l0. split; [exact Hx | apply list_elem_of_here].
      * exists l. split; [exact Hx | by apply list_elem_of_further].
    + intros (l & Hx & Hl). apply elem_of_cons in Hl as [->|Hl]; [by left|].
      right. eauto.
Qed.

Lemma elem_of_all_nodes t wh :
  wh ∈ all_nodes t <->
  exists i, 0 <= i < 2 ^ Z.of_nat (size_log2 t) /\ wh ∈ get_bucket t i.
Proof.
  unfold all_nodes. rewrite elem_of_concat. split.
  - intros (l & Hwh & Hl). apply list_elem_of_fmap in Hl as (i & -> & Hi).
    exists i. split; [by apply elem_of_bucket_indices | exact Hwh].
  - intros (i & Hi & Hwh). exists (get_bucket t i). split; [exact Hwh|].
    apply list_elem_of_fmap. exists i. split; [reflexivity | by apply elem_of_bucket_indices].
Qed.

Lemma concat_buckets_ext t1 t2 l :
  (forall i, i ∈ l -> get_bucket t1 i = get_bucket t2 i) ->
  concat (get_bucket t1 <$> l) = concat (get_bucket t2 <$> l).
Proof.
  induction l as [|i l IH]; intros Hsame; [reflexivity|].
  cbn [fmap list_fmap concat]. rewrite (Hsame i) by apply list_elem_of_here.
  rewrite IH; [reflexivity|]. intros j Hj. apply Hsame. by apply list_elem_of_further.
Qed.

(** Replacing the chain of one bucket in range replaces one segment of the
    scan order. *)
Lemma all_nodes_set_bucket i chain t :
  0 <= i < 2 ^ Z.of_nat (size_log2 t) ->
  exists before after,
    all_nodes t = before ++ get_bucket t i ++ after
    /\ all_nodes (set_bucket i chain t) = before ++ chain ++ after.
Proof.
  intros Hi. apply elem_of_bucket_indices in Hi.
  pose proof (NoDup_bucket_indices (size_log2 t)) as Hnd.
  unfold all_nodes. cbn [size_log2 set_bucket].
  destruct (list_elem_of_split _ _ Hi) as (l1 & l2 & Hl). rewrite Hl in *.
  apply NoDup_app in Hnd as (_ & Hl1 & Hnd2). apply NoDup_cons in Hnd2 as [Hl2 _].
  exists (concat (get_bucket t <$> l1)), (concat (get_bucket t <$> l2)).
  rewrite !fmap_app, !concat_app. cbn [fmap list_fmap concat].
  split; [reflexivity|]. rewrite get_bucket_set_bucket_eq.
  rewrite (concat_buckets_ext (set_bucket i chain t) t l1),
          (concat_buckets_ext (set_bucket i chain t) t l2); [reflexivity| |].
  - intros j Hj. apply get_bucket_set_bucket_ne. intros ->. contradiction.
  - intros j Hj. apply get_bucket_set_bucket_ne. intros ->.
    apply (Hl1 j Hj). apply list_elem_of_here.
Qed.

Lemma all_nodes_link i wh t :
  0 <= i < 2 ^ Z.of_nat (size_log2 t) ->
  all_nodes (set_bucket i (wh :: get_bucket t i) t) ≡ₚ wh :: all_nodes t.
Proof.
  intros Hi. destruct (all_nodes_set_bucket i (wh :: get_bucket t i) t Hi)
    as (before & after & -> & ->).
  cbn [app]. symmetry. apply Permutation_middle.
Qed.

Lemma all_nodes_new_table n : all_nodes (new_table n) = [].
Proof.
  unfold all_nodes. cbn [size_log2 new_table].
  induction (bucket_indices n) as [|i l IH]; [reflexivity|].
  cbn [fmap list_fmap concat]. rewrite get_bucket_new_table. exact IH.
Qed.

Lemma all_nodes_ext t1 t2 :
  size_log2 t1 = size_log2 t2 -> (forall i, get_bucket t1 i = get_bucket t2 i) ->
  all_nodes t1 = all_nodes t2.
Proof.
  intros Hsz Hb. unfold all_nodes. rewrite Hsz. apply concat_buckets_ext. auto.
Qed.

(** ** What one call of [intern] does to the table *)

Section InternEffect.
Context `{Collaborators}.

Lemma intern_keeps_fields st st' :
  local_table st' = local_table st -> oop_storage st' = oop_storage st ->
  items_count st' = items_count st -> intern_keeps st st'.
Proof. unfold intern_keeps. intros -> -> ->. auto. Qed.

Lemma do_intern_body_effect fuel hash s st r st' :
  handles_allocated st ->
  do_intern_loop fuel (StringTableLookupOop hash s) s (notify_intern s st) = Some (r, st') ->
  handles_allocated st'
  /\ (intern_keeps st st' \/ intern_links hash (oop_value s) st r st').
Proof.
  intros Hwf Hrun. destruct fuel as [|fuel]; [discriminate|].
  destruct (notify_intern_fields s st) as (Ht & Hs & Hi).
  assert (Hwf0 : handles_allocated (notify_intern s st))
    by (eapply handles_allocated_fields; eassumption).
  destruct (do_intern_loop_spec fuel (StringTableLookupOop hash s) s _ Hwf0)
    as (r0 & st0 & Hrun0 & Hwf' & Hext & Hth & Hcase).
  rewrite Hrun in Hrun0. inversion Hrun0; subst r0 st0. clear Hrun0.
  split; [exact Hwf'|]. cbn [lookup_get_hash] in Hcase.
  rewrite Ht, Hs, Hi in Hcase.
  destruct (get_node (oop_storage st) (StringTableLookupOop hash s)
              (get_bucket (local_table st) (bucket_index (size_log2 (local_table st)) hash)) 0)
    as [[wh0|] loops] eqn:Hfound; cbn [fst] in Hcase.
  - left. destruct Hcase as (_ & _ & _ & Ht' & Hc' & _ & Hi' & _). split; [|split]; assumption.
  - right. destruct Hcase as (Hr & Ht' & Hp' & _ & Hi' & _).
    exists s. split; [exact Hr|]. split; [reflexivity|].
    split; [|split; [exact Ht'|split; [exact Hp'|split; [|exact Hi']]]].
    + intros wh0 o Hin Ho Hv.
      pose proof (get_node_none _ _ _ _ _ Hfound wh0 Hin) as Hne.
      assert (Heq : lookup_equals (oop_storage st) (StringTableLookupOop hash s) wh0 = true)
        by (apply lookup_equals_spec; eauto).
      congruence.
    + intros wh' Hlt. destruct Hext as (_ & _ & Hpeek & _).
      rewrite Hpeek by (rewrite Hs; exact Hlt). rewrite Hs. reflexivity.
Qed.

Lemma do_intern_effect fuel h name hash st r st' :
  handles_allocated st -> (forall s, h = Some s -> oop_value s = name) ->
  do_intern fuel h name hash st = Some (r, st') ->
  handles_allocated st' /\ (intern_keeps st st' \/ intern_links hash name st r st').
Proof.
  intros Hwf Hh. unfold do_intern. destruct h as [s|].
  - rewrite <- (Hh s eq_refl). apply do_intern_body_effect. exact Hwf.
  - unfold create_from_unicode.
    destruct (try_allocate_cases st)
      as [(Hok & _ & Hst) | (Hok & _ & _ & Ht0 & Hs0 & Hi0 & _)];
      destruct (try_allocate st) as [ok st0]; cbn [fst snd] in *; subst ok.
    + assert (Hk : intern_keeps st st0) by (subst st0; destruct st; repeat split).
      assert (Hwf0 : handles_allocated st0)
        by (subst st0; eapply handles_allocated_fields; [| | |exact Hwf]; destruct st; reflexivity).
      destruct (pending_exception st0); intros Hr; inversion Hr; subst; auto.
    + set (st1 := set_heap_top (S (heap_top st0)) st0).
      assert (Hf : local_table st1 = local_table st /\ oop_storage st1 = oop_storage st
                   /\ items_count st1 = items_count st)
        by (subst st1; destruct st0; cbn in *; auto).
      destruct Hf as (Ht1 & Hs1 & Hi1).
      assert (Hwf1 : handles_allocated st1) by (eapply handles_allocated_fields; eassumption).
      destruct (pending_exception st1).
      * intros Hr. inversion Hr; subst. split; [exact Hwf1|]. left.
        apply intern_keeps_fields; assumption.
      * intros Hrun.
        destruct (do_intern_body_effect _ _ _ _ _ _ Hwf1 Hrun) as [Hwf' [Hk|Hl]].
        -- split; [exact Hwf'|]. left. unfold intern_keeps in *. rewrite <- Ht1, <- Hs1, <- Hi1.
           exact Hk.
        -- split; [exact Hwf'|]. right. unfold intern_links in *. cbv zeta in *.
           rewrite <- Ht1, <- Hs1, <- Hi1. exact Hl.
Qed.

Lemma intern_effect fuel h name st r st' :
  handles_allocated st -> (forall s, h = Some s -> oop_value s = name) ->
  intern fuel h name st = Some (r, st') ->
  handles_allocated st'
  /\ (intern_keeps st st' \/ intern_links (local_hash name st) name st r st').
Proof.
  intros Hwf Hh. rewrite intern_unfold. cbv zeta.
  set (st1 := log_event (EvSharedLookup (String_hash_code name) name) st).
  assert (Hf1 : local_table st1 = local_table st /\ oop_storage st1 = oop_storage st
                /\ items_count st1 = items_count st)
    by (subst st1; destruct st; repeat split).
  destruct Hf1 as (Ht1 & Hs1 & Hi1).
  destruct (shared_lookup _ _ _).
  - intros Hr. inversion Hr; subst.
    split; [eapply handles_allocated_fields; eassumption|].
    left. apply intern_keeps_fields; assumption.
  - destruct (do_lookup_fields name (local_hash name st) st1) as (Ht2 & Hs2 & Hi2 & _).
    cbv zeta in *.
    destruct (do_lookup name (local_hash name st) st1) as [[o|] st2]; cbn [snd] in *.
    + intros Hr. inversion Hr; subst.
      split; [eapply handles_allocated_fields; [| | |exact Hwf]; congruence|].
      left. apply intern_keeps_fields; congruence.
    + intros Hrun.
      assert (Hwf2 : handles_allocated st2)
        by (eapply handles_allocated_fields; [| | |exact Hwf]; congruence).
      destruct (do_intern_effect _ _ _ _ _ _ _ Hwf2 Hh Hrun) as [Hwf' [Hk|Hl]].
      * split; [exact Hwf'|]. left. unfold intern_keeps in *.
        rewrite <- Ht1, <- Hs1, <- Hi1, <- Ht2, <- Hs2, <- Hi2. exact Hk.
      * split; [exact Hwf'|]. right. unfold intern_links in *. cbv zeta in *.
        rewrite <- Ht1, <- Hs1, <- Hi1, <- Ht2, <- Hs2, <- Hi2. exact Hl.
Qed.

End InternEffect.

(** ** Well-formed states *)

Lemma live_contents_ext st st' :
  all_nodes (local_table st') = all_nodes (local_table st) ->
  (forall wh, wh ∈ all_nodes (local_table st) ->
     storage_peek (oop_storage st') wh = storage_peek (oop_storage st) wh) ->
  live_contents st' = live_contents st.
Proof.
  unfold live_contents. intros -> Hsame.
  induction (all_nodes (local_table st)) as [|wh l IH]; [reflexivity|].
  cbn [omap list_omap]. rewrite (Hsame wh) by apply list_elem_of_here.
  rewrite IH; [reflexivity|]. intros wh' Hin. apply Hsame. by apply list_elem_of_further.
Qed.

Lemma omap_NoDup_inj {A B} (f : A -> option B) (l : list A) x y c :
  NoDup (omap f l) -> x ∈ l -> y ∈ l -> f x = Some c -> f y = Some c -> x = y.
Proof.
  induction l as [|a l IH]; intros Hnd Hx Hy Hfx Hfy; [by apply elem_of_nil in Hx|].
  cbn [omap list_omap] in Hnd.
  apply elem_of_cons in Hx as [->|Hx]; apply elem_of_cons in Hy as [->|Hy].
  - reflexivity.
  - rewrite Hfx in Hnd. apply NoDup_cons in Hnd as [Hnot _]. exfalso. apply Hnot.
    apply list_elem_of_omap. eauto.
  - rewrite Hfy in Hnd. apply NoDup_cons in Hnd as [Hnot _]. exfalso. apply Hnot.
    apply list_elem_of_omap. eauto.
  - apply IH; try assumption. destruct (f a); [by apply NoDup_cons in Hnd as [_ ?]|exact Hnd].
Qed.

Lemma wrap_size_t_unique z c k :
  0 <= c < size_t_max -> z = c + k * size_t_max -> wrap_size_t z = c.
Proof.
  intros Hc ->. unfold wrap_size_t. rewrite Z_mod_plus_full. apply Z.mod_small. exact Hc.
Qed.

Lemma wrap_size_t_congr z : exists k, wrap_size_t z = z + k * size_t_max.
Proof.
  exists (- (z / size_t_max)). unfold wrap_size_t.
  rewrite Z.mod_eq by (unfold size_t_max; lia). ring.
Qed.

Section WellFormed.
Context `{Collaborators}.

Lemma linked_all_nodes st wh :
  in_range st -> (linked st wh <-> wh ∈ all_nodes (local_table st)).
Proof.
  intros Hr. rewrite elem_of_all_nodes. unfold linked. split.
  - intros (i & Hin). exists i. split; [exact (Hr _ _ Hin) | exact Hin].
  - intros (i & _ & Hin). eauto.
Qed.

(** Well-formedness looks at the chains, at what the handles resolve to, at
    the counters and at the hash in use, and at nothing else. *)
Lemma well_formed_transfer st st' :
  size_log2 (local_table st') = size_log2 (local_table st) ->
  (forall i, get_bucket (local_table st') i = get_bucket (local_table st) i) ->
  (forall wh, storage_peek (oop_storage st') wh = storage_peek (oop_storage st) wh) ->
  handles_allocated st' ->
  items_count st' = items_count st -> current_size st' = current_size st ->
  (forall name, local_hash name st' = local_hash name st) ->
  epoch_consistent st' ->
  well_formed st -> well_formed st'.
Proof.
  intros Hsz Hb Hpk Hwf' Hi Hc Hh He (_ & Hr & Hp & Hcnt & Hsd & _ & Hnd).
  assert (Hall : all_nodes (local_table st') = all_nodes (local_table st))
    by (apply all_nodes_ext; assumption).
  split; [exact Hwf'|]. split; [|split; [|split; [|split; [|split; [exact He|]]]]].
  - intros i wh. rewrite Hb, Hsz. apply Hr.
  - intros i wh o. rewrite Hb, Hpk, Hsz, Hh. apply Hp.
  - unfold counted in *. rewrite Hi, Hall. exact Hcnt.
  - unfold sized in *. rewrite Hc, Hsz. exact Hsd.
  - rewrite (live_contents_ext st st'); [exact Hnd | exact Hall | auto].
Qed.

Lemma well_formed_fields st st' :
  local_table st' = local_table st -> oop_storage st' = oop_storage st ->
  items_count st' = items_count st -> current_size st' = current_size st ->
  alt_hash st' = alt_hash st -> alt_hash_seed st' = alt_hash_seed st ->
  rehashed st' = rehashed st ->
  well_formed st -> well_formed st'.
Proof.
  intros Ht Hs Hi Hc Ha Hsd Hr Hwf. pose proof Hwf as (Hha & _ & _ & _ & _ & He & _).
  apply (well_formed_transfer st st'); try assumption.
  - rewrite Ht. reflexivity.
  - intros i. rewrite Ht. reflexivity.
  - intros wh. rewrite Hs. reflexivity.
  - eapply handles_allocated_fields; eassumption.
  - intros name. unfold local_hash. rewrite Ha, Hsd. reflexivity.
  - unfold epoch_consistent in *. rewrite Ha, Hr. exact He.
Qed.

(** A live node of given contents is in the bucket a probe for these
    contents walks, and it is the only live node of these contents. *)
Lemma well_formed_resident st wh o :
  well_formed st -> linked st wh -> storage_peek (oop_storage st) wh = Some o ->
  wh ∈ get_bucket (local_table st)
         (bucket_index (size_log2 (local_table st)) (local_hash (oop_value o) st)).
Proof.
  intros (_ & _ & Hp & _) (i & Hin) Ho. rewrite <- (Hp i wh o Hin Ho). exact Hin.
Qed.

Lemma well_formed_unique st wh1 wh2 o1 o2 :
  well_formed st -> linked st wh1 -> linked st wh2 ->
  storage_peek (oop_storage st) wh1 = Some o1 ->
  storage_peek (oop_storage st) wh2 = Some o2 ->
  oop_value o1 = oop_value o2 -> wh1 = wh2.
Proof.
  intros (_ & Hr & _ & _ & _ & _ & Hnd) Hl1 Hl2 Ho1 Ho2 Hv.
  apply (linked_all_nodes st _ Hr) in Hl1, Hl2.
  apply (omap_NoDup_inj _ _ wh1 wh2 (oop_value o1) Hnd Hl1 Hl2).
  - rewrite Ho1. reflexivity.
  - rewrite Ho2, Hv. reflexivity.
Qed.

End WellFormed.

Section WellFormedIntern.
Context `{Collaborators}.

Lemma counted_link st st' i wh :
  0 <= i < 2 ^ Z.of_nat (size_log2 (local_table st)) ->
  local_table st' = set_bucket i (wh :: get_bucket (local_table st) i) (local_table st) ->
  items_count st' = wrap_size_t (items_count st + 1) ->
  counted st -> counted st'.
Proof.
  unfold counted. intros Hi Ht Hc Hcnt. rewrite Hc, Ht, Hcnt.
  rewrite (Permutation_length (all_nodes_link i wh _ Hi)). cbn [length].
  unfold wrap_size_t. rewrite Zplus_mod_idemp_l. f_equal. lia.
Qed.

Lemma well_formed_links hash name st r st' :
  well_formed st -> handles_allocated st' -> intern_frame st st' ->
  hash = local_hash name st ->
  intern_links hash name st r st' -> well_formed st'.
Proof.
  intros Hwf Hha' Hfr -> (s & Hr & Hv & Hfresh & Ht' & Hnew & Hold & Hcount).
  pose proof Hwf as (Hha & Hrg & Hpl & Hcnt & Hsd & Hep & Hnd).
  pose proof Hfr as (_ & _ & Ha & Hseed & Hre & Hcs & _ & Hsz & _).
  set (t := local_table st) in *.
  set (i := bucket_index (size_log2 t) (local_hash name st)) in *.
  set (wh := next_cell (oop_storage st)) in *.
  assert (Hi : 0 <= i < 2 ^ Z.of_nat (size_log2 t)) by apply bucket_index_range.
  assert (Hlt : forall j wh0, wh0 ∈ get_bucket t j -> (wh0 < wh)%nat)
    by (destruct Hha as (Hb & _); exact Hb).
  assert (Hmem : forall j wh0, wh0 ∈ get_bucket (local_table st') j ->
            (j = i /\ wh0 = wh) \/ wh0 ∈ get_bucket t j).
  { intros j wh0. rewrite Ht'. destruct (decide (i = j)) as [<-|Hne].
    - rewrite get_bucket_set_bucket_eq. intros Hin.
      apply elem_of_cons in Hin as [->|Hin]; auto.
    - rewrite get_bucket_set_bucket_ne by exact Hne. auto. }
  assert (Hh : forall n, local_hash n st' = local_hash n st)
    by (intros n; unfold local_hash; rewrite Ha, Hseed; reflexivity).
  split; [exact Hha'|]. split; [|split; [|split; [|split; [|split]]]].
  - intros j wh0 Hin. rewrite Hsz. destruct (Hmem j wh0 Hin) as [[-> _]|Hin0]; [exact Hi|].
    exact (Hrg _ _ Hin0).
  - intros j wh0 o Hin Ho. rewrite Hsz, Hh.
    destruct (Hmem j wh0 Hin) as [[-> ->]|Hin0].
    + rewrite Hnew in Ho. inversion Ho; subst o. rewrite Hv. reflexivity.
    + rewrite Hold in Ho by exact (Hlt _ _ Hin0). exact (Hpl _ _ _ Hin0 Ho).
  - exact (counted_link st st' i wh Hi Ht' Hcount Hcnt).
  - unfold sized in *. rewrite Hcs, Hsz. exact Hsd.
  - unfold epoch_consistent in *. rewrite Ha, Hre. exact Hep.
  - unfold live_contents. rewrite Ht'.
    rewrite (all_nodes_link i wh t Hi). cbn [omap list_omap]. rewrite Hnew. cbn [fmap option_fmap option_map].
    assert (Hsame : omap (fun wh0 => oop_value <$> storage_peek (oop_storage st') wh0) (all_nodes t)
                    = live_contents st).
    { unfold live_contents. fold t.
      assert (Hall : forall wh0, wh0 ∈ all_nodes t -> (wh0 < wh)%nat).
      { intros wh0 Hin. apply elem_of_all_nodes in Hin as (j & _ & Hin). exact (Hlt _ _ Hin). }
      induction (all_nodes t) as [|a l IH]; [reflexivity|].
      cbn [omap list_omap]. rewrite Hold by (apply Hall, list_elem_of_here).
      rewrite IH; [reflexivity|]. intros wh0 Hin. apply Hall. by apply list_elem_of_further. }
    rewrite Hsame, Hv. apply NoDup_cons. split; [|exact Hnd].
    intros Hin. apply list_elem_of_omap in Hin as (wh0 & Hin & Hf).
    destruct (storage_peek (oop_storage st) wh0) as [o|] eqn:Ho; [|discriminate].
    cbn in Hf. inversion Hf as [Hvo].
    assert (Hl : linked st wh0) by (apply linked_all_nodes; assumption).
    pose proof (well_formed_resident st wh0 o Hwf Hl Ho) as Hres.
    rewrite Hvo in Hres. exact (Hfresh wh0 o Hres Ho Hvo).
Qed.

Lemma well_formed_keeps st st' :
  well_formed st -> handles_allocated st' -> intern_frame st st' ->
  intern_keeps st st' -> well_formed st'.
Proof.
  intros Hwf Hha' Hfr (Ht & Hc & Hi).
  pose proof Hfr as (_ & _ & Ha & Hseed & Hre & Hcs & _ & Hsz & _).
  pose proof Hwf as (_ & _ & _ & _ & _ & Hep & _).
  apply (well_formed_transfer st st'); try assumption.
  - intros i. rewrite Ht. reflexivity.
  - intros wh. unfold storage_peek. rewrite Hc. reflexivity.
  - intros n. unfold local_hash. rewrite Ha, Hseed. reflexivity.
  - unfold epoch_consistent in *. rewrite Ha, Hre. exact Hep.
Qed.

Lemma well_formed_intern fuel h name st r st' :
  well_formed st -> (forall s, h = Some s -> oop_value s = name) ->
  intern fuel h name st = Some (r, st') -> well_formed st'.
Proof.
  intros Hwf Hh Hrun. pose proof Hwf as (Hha & _).
  pose proof (intern_frame_intern _ _ _ _ _ _ Hrun) as Hfr.
  destruct (intern_effect _ _ _ _ _ _ Hha Hh Hrun) as [Hha' [Hk|Hl]].
  - exact (well_formed_keeps st st' Hwf Hha' Hfr Hk).
  - exact (well_formed_links _ name st r st' Hwf Hha' Hfr eq_refl Hl).
Qed.

End WellFormedIntern.

Section WellFormedEntryPoints.
Context `{Collaborators}.

Lemma well_formed_try_allocate st :
  well_formed st -> well_formed (snd (try_allocate st)).
Proof.
  intros Hwf. unfold try_allocate. destruct (alloc_budget st) as [[|k]|]; cbn [snd];
    [| |exact Hwf]; (eapply well_formed_fields; [..|exact Hwf]; destruct st; reflexivity).
Qed.

Lemma well_formed_intern_symbol fuel symbol st r st' :
  well_formed st -> intern_symbol fuel symbol st = Some (r, st') -> well_formed st'.
Proof.
  intros Hwf. destruct symbol as [sym|]; simpl.
  - intros Hr. apply check_null_state in Hr as [res0 Hr].
    eapply well_formed_intern; [exact Hwf| |exact Hr]. discriminate.
  - intros Hr. inversion Hr; subst. exact Hwf.
Qed.

Lemma well_formed_intern_utf8 fuel u st r st' :
  well_formed st -> intern_utf8 fuel u st = Some (r, st') -> well_formed st'.
Proof.
  intros Hwf. destruct u as [u|]; simpl.
  - intros Hr. apply check_null_state in Hr as [res0 Hr].
    eapply well_formed_intern; [exact Hwf| |exact Hr]. discriminate.
  - intros Hr. inversion Hr; subst. exact Hwf.
Qed.

Lemma well_formed_intern_oop fuel string st r st' :
  well_formed st -> intern_oop fuel string st = Some (r, st') -> well_formed st'.
Proof.
  intros Hwf. destruct string as [s|]; simpl.
  - unfold as_unicode_string. pose proof (well_formed_try_allocate st Hwf) as Hwf0.
    destruct (try_allocate st) as [ok st0] eqn:Hta. cbn [snd] in Hwf0.
    destruct (pending_exception st0) eqn:Hp.
    + intros Hr. inversion Hr; subst. exact Hwf0.
    + intros Hr. apply check_null_state in Hr as [res0 Hr].
      assert (Hok : ok = true).
      { destruct (try_allocate_cases st) as [(_ & _ & Hst)|(Hok & _)];
          rewrite Hta in *; cbn [fst snd] in *; [|exact Hok].
        subst st0. destruct st; discriminate. }
      subst ok. eapply well_formed_intern; [exact Hwf0| |exact Hr].
      intros s0 Hs0. inversion Hs0; subst. reflexivity.
  - intros Hr. inversion Hr; subst. exact Hwf.
Qed.

Lemma well_formed_shared_iterate fuel entries st st' :
  well_formed st -> shared_iterate fuel entries st = Some st' -> well_formed st'.
Proof.
  revert st. induction entries as [|e rest IH]; intros st Hwf; cbn [shared_iterate].
  - intros Hr. inversion Hr; subst. exact Hwf.
  - unfold SharedStringTransfer_do_value.
    destruct (intern_oop fuel (Some (snd e)) st) as [[r st1]|] eqn:Hrun; [|discriminate].
    pose proof (well_formed_intern_oop _ _ _ _ _ Hwf Hrun) as Hwf1.
    set (st2 := if pending_exception st1 then set_vm_exited true st1 else st1).
    assert (Hwf2 : well_formed st2).
    { subst st2. destruct (pending_exception st1); [|exact Hwf1].
      eapply well_formed_fields; [..|exact Hwf1]; destruct st1; reflexivity. }
    destruct (vm_exited st2).
    + intros Hr. inversion Hr; subst. exact Hwf2.
    + apply IH. exact Hwf2.
Qed.

Lemma well_formed_transfer_shared fuel st st' :
  well_formed st -> transfer_shared_strings_to_local_table fuel st = Some st' ->
  well_formed st'.
Proof.
  intros Hwf. unfold transfer_shared_strings_to_local_table.
  apply well_formed_shared_iterate.
  eapply well_formed_fields; [..|exact Hwf]; destruct st; reflexivity.
Qed.

Lemma well_formed_lookup name st : well_formed st -> well_formed (snd (lookup name st)).
Proof.
  intros Hwf. rewrite lookup_unfold. cbv zeta.
  set (st1 := log_event _ st).
  assert (Hwf1 : well_formed st1)
    by (eapply well_formed_fields; [..|exact Hwf]; subst st1; destruct st; reflexivity).
  destruct (shared_lookup _ _ _); [exact Hwf1|].
  destruct (do_lookup_fields name (local_hash name st) st1) as (Ht & Hs & Hi & _).
  pose proof (do_lookup_frame name (local_hash name st) st1)
    as (_ & _ & Ha & Hseed & Hre & Hcs & _).
  eapply well_formed_fields; [..|exact Hwf1]; assumption.
Qed.

Lemma well_formed_gc_notification n st :
  well_formed st -> well_formed (gc_notification n st).
Proof.
  intros Hwf. unfold gc_notification, trigger_concurrent_work.
  destruct (has_work st); [exact Hwf|].
  destruct (_ || _); [|exact Hwf].
  eapply well_formed_fields; [..|exact Hwf]; destruct st; reflexivity.
Qed.

End WellFormedEntryPoints.

(** ** Structural tasks *)

Section Reclaim.
Context `{Collaborators}.

Lemma reclaimed_nil st : reclaimed [] st st.
Proof.
  unfold reclaimed. cbv zeta. split; [reflexivity|]. split; [reflexivity|].
  split; [reflexivity|]. split; [reflexivity|]. split; [auto|].
  split; [exists 0; cbn; lia|]. split; [auto|].
  split; [reflexivity | apply maintenance_frame_refl].
Qed.

Lemma filter_peek_ext (s1 s2 : OopStorage) (l : list WeakHandle) :
  (forall wh, storage_peek s2 wh = storage_peek s1 wh) ->
  filter (fun wh => is_Some (storage_peek s2 wh)) l
  = filter (fun wh => is_Some (storage_peek s1 wh)) l
  /\ filter (fun wh => ~ is_Some (storage_peek s2 wh)) l
     = filter (fun wh => ~ is_Some (storage_peek s1 wh)) l.
Proof.
  intros Hsame. split; apply list_filter_iff; intros wh; rewrite Hsame; reflexivity.
Qed.

Lemma reclaimed_live wh rest st st' :
  is_Some (storage_peek (oop_storage st) wh) ->
  reclaimed rest st st' -> reclaimed (wh :: rest) st st'.
Proof.
  unfold reclaimed. cbv zeta.
  intros Hlive (Ht & Hpk & Hn & Hlog & Hc & (k & Hk) & Hrange & Hcs & Hfr).
  split; [exact Ht|]. split; [exact Hpk|]. split; [exact Hn|].
  split; [rewrite filter_cons_False by tauto; exact Hlog|].
  split; [exact Hc|].
  split; [|split; [|split]; assumption].
  exists k. rewrite filter_cons_True by exact Hlive. cbn [length]. lia.
Qed.

Lemma reclaimed_dead wh rest st st' :
  storage_peek (oop_storage st) wh = None ->
  reclaimed rest (free_node wh st) st' -> reclaimed (wh :: rest) st st'.
Proof.
  unfold reclaimed. cbv zeta.
  intros Hdead (Ht & Hpk & Hn & Hlog & Hc & (k & Hk) & Hrange & Hcs & Hfr).
  assert (Hs : oop_storage (free_node wh st) = storage_release wh (oop_storage st))
    by (destruct st; reflexivity).
  assert (Hi : items_count (free_node wh st) = wrap_size_t (items_count st + (size_t_max - 1)))
    by (destruct st; reflexivity).
  assert (Hsame : forall wh', storage_peek (oop_storage (free_node wh st)) wh'
                              = storage_peek (oop_storage st) wh').
  { intros wh'. rewrite Hs. apply storage_peek_release_dead. exact Hdead. }
  destruct (filter_peek_ext (oop_storage st) (oop_storage (free_node wh st)) rest Hsame)
    as [Hfl Hfd].
  assert (Hnot : ~ is_Some (storage_peek (oop_storage st) wh))
    by (rewrite Hdead; intros [? ?]; discriminate).
  split; [rewrite Ht; destruct st; reflexivity|].
  split; [intros wh'; rewrite Hpk; apply Hsame|].
  split; [rewrite Hn, Hs; reflexivity|].
  split.
  { rewrite Hlog, Hfd, Hs. rewrite filter_cons_True by exact Hnot.
    cbn [rev storage_release release_log]. rewrite <- app_assoc. reflexivity. }
  split.
  { intros wh' Hsome. apply Hc in Hsome. rewrite Hs in Hsome.
    unfold storage_release in Hsome. cbn [cells] in Hsome.
    destruct (decide (wh' = wh)) as [->|Hne].
    - rewrite lookup_delete_eq in Hsome. destruct Hsome; discriminate.
    - rewrite lookup_delete_ne in Hsome by congruence. exact Hsome. }
  split.
  { rewrite Hfl, Hi in Hk. destruct (wrap_size_t_congr (items_count st + (size_t_max - 1)))
      as [k' Hk']. rewrite Hk' in Hk.
    exists (k + k' + 1). rewrite filter_cons_False by exact Hnot. cbn [length]. lia. }
  split.
  { intros _. apply Hrange. rewrite Hi. apply wrap_size_t_range. }
  split; [rewrite Hcs; destruct st; reflexivity|].
  eapply maintenance_frame_trans; [apply maintenance_frame_free_node | exact Hfr].
Qed.

Lemma reclaimed_app a b st st1 st2 :
  reclaimed a st st1 -> reclaimed b st1 st2 -> reclaimed (a ++ b) st st2.
Proof.
  unfold reclaimed. cbv zeta.
  intros (Ht & Hpk & Hn & Hlog & Hc & (k & Hk) & Hrange & Hcs & Hfr)
         (Ht' & Hpk' & Hn' & Hlog' & Hc' & (k' & Hk') & Hrange' & Hcs' & Hfr').
  destruct (filter_peek_ext (oop_storage st) (oop_storage st1) b Hpk) as [Hfl Hfd].
  split; [congruence|]. split; [intros wh; rewrite Hpk'; apply Hpk|].
  split; [congruence|].
  split; [rewrite Hlog', Hlog, Hfd, filter_app, rev_app_distr, <- app_assoc; reflexivity|].
  split; [auto|].
  split; [|split; [auto | split; [congruence | eapply maintenance_frame_trans; eassumption]]].
  exists (k + k'). rewrite Hfl in Hk'. rewrite filter_app, !length_app. lia.
Qed.

Lemma free_node_hash wh st s b :
  hash_string s (alt_hash (free_node wh st)) (free_node wh st) = hash_string s (alt_hash st) st
  /\ hash_string s b (free_node wh st) = hash_string s b st.
Proof. destruct st; split; reflexivity. Qed.

(** Migration: the nodes walked are reclaimed, and the target gained the
    live ones, each in the bucket its hash selects. *)
Lemma move_nodes_spec nodes to st :
  let to' := fst (move_nodes nodes to st) in
  let st' := snd (move_nodes nodes to st) in
  let live wh := is_Some (storage_peek (oop_storage st) wh) in
  reclaimed nodes st st'
  /\ all_nodes to' ≡ₚ filter live nodes ++ all_nodes to
  /\ (forall i wh, wh ∈ get_bucket to' i <->
        wh ∈ get_bucket to i
        \/ (wh ∈ nodes /\ exists o, storage_peek (oop_storage st) wh = Some o
             /\ i = bucket_index (size_log2 to)
                      (hash_string (oop_value o) (alt_hash st) st)))
  /\ size_log2 to' = size_log2 to.
Proof.
  revert to st. induction nodes as [|wh rest IH]; intros to st; cbv zeta.
  - cbn [move_nodes fst snd]. split; [apply reclaimed_nil|].
    split; [reflexivity|]. split; [|reflexivity].
    intros i wh. split; [auto|]. intros [Hin|(Hin & _)]; [exact Hin|].
    by apply elem_of_nil in Hin.
  - cbn [move_nodes]. unfold get_hash.
    destruct (storage_peek (oop_storage st) wh) as [o0|] eqn:Hpeek.
    + set (i0 := bucket_index (size_log2 to) (hash_string (oop_value o0) (alt_hash st) st)).
      set (to1 := set_bucket i0 (wh :: get_bucket to i0) to).
      destruct (IH to1 st) as (Hrec & Hperm & Hmem & Hsz).
      assert (Hlive : is_Some (storage_peek (oop_storage st) wh)) by (rewrite Hpeek; eauto).
      split; [apply reclaimed_live; assumption|].
      split; [|split; [|exact Hsz]].
      * rewrite Hperm. rewrite filter_cons_True by exact Hlive.
        subst to1. rewrite (all_nodes_link i0 wh to) by apply bucket_index_range.
        cbn [app]. symmetry. apply Permutation_middle.
      * intros i wh'. rewrite Hmem. subst to1. cbn [size_log2 set_bucket].
        destruct (decide (i0 = i)) as [<-|Hne].
        -- rewrite get_bucket_set_bucket_eq, !elem_of_cons. split.
           ++ intros [[->|Hin]|(Hin & o & Ho & Hi)]; [right|left; exact Hin|right].
              ** split; [by left|]. exists o0. split; [exact Hpeek | reflexivity].
              ** split; [by right|]. eauto.
           ++ intros [Hin|([->|Hin] & o & Ho & Hi)]; [left; by right|left; by left|right].
              split; [exact Hin|]. eauto.
        -- rewrite get_bucket_set_bucket_ne by exact Hne. rewrite elem_of_cons. split.
           ++ intros [Hin|(Hin & o & Ho & Hi)]; [by left|right]. split; [by right|]. eauto.
           ++ intros [Hin|([->|Hin] & o & Ho & Hi)]; [by left| |right].
              ** exfalso. apply Hne. rewrite Hpeek in Ho. inversion Ho; subst o.
                 subst i0. symmetry. exact Hi.
              ** split; [exact Hin|]. eauto.
    + destruct (IH to (free_node wh st)) as (Hrec & Hperm & Hmem & Hsz).
      assert (Hs : oop_storage (free_node wh st) = storage_release wh (oop_storage st))
        by (destruct st; reflexivity).
      assert (Hsame : forall wh', storage_peek (oop_storage (free_node wh st)) wh'
                                  = storage_peek (oop_storage st) wh').
      { intros wh'. rewrite Hs. apply storage_peek_release_dead. exact Hpeek. }
      destruct (filter_peek_ext (oop_storage st) (oop_storage (free_node wh st)) rest Hsame)
        as [Hfl _].
      assert (Hnot : ~ is_Some (storage_peek (oop_storage st) wh))
        by (rewrite Hpeek; intros [? ?]; discriminate).
      split; [apply reclaimed_dead; assumption|].
      split; [|split; [|exact Hsz]].
      * rewrite Hperm, Hfl. rewrite filter_cons_False by exact Hnot. reflexivity.
      * intros i wh'. rewrite Hmem. rewrite elem_of_cons. split.
        -- intros [Hin|(Hin & o & Ho & Hi)]; [by left|right]. split; [by right|].
           exists o. rewrite <- Hsame. split; [exact Ho|].
           rewrite Hi. f_equal. apply free_node_hash. exact true.
        -- intros [Hin|([->|Hin] & o & Ho & Hi)]; [by left|congruence|right].
           split; [exact Hin|]. exists o. rewrite Hsame. split; [exact Ho|].
           rewrite Hi. f_equal. symmetry. apply free_node_hash. exact true.
Qed.

Lemma move_nodes_app a b to st :
  move_nodes (a ++ b) to st
  = move_nodes b (fst (move_nodes a to st)) (snd (move_nodes a to st)).
Proof.
  revert to st. induction a as [|wh rest IH]; intros to st; [reflexivity|].
  cbn [app move_nodes]. destruct (get_hash wh st) as [hash dead].
  destruct dead; apply IH.
Qed.

Lemma grow_do_tasks_move chunks old to st :
  grow_do_tasks chunks old to st = move_nodes (concat (get_bucket old <$> chunks)) to st.
Proof.
  revert to st. induction chunks as [|i rest IH]; intros to st; [reflexivity|].
  cbn [grow_do_tasks fmap list_fmap concat]. rewrite move_nodes_app.
  destruct (move_nodes (get_bucket old i) to st) as [to1 st1]. apply IH.
Qed.

End Reclaim.

Lemma elem_of_rev {A} (x : A) (l : list A) : x ∈ rev l <-> x ∈ l.
Proof.
  induction l as [|a l IH]; [reflexivity|].
  cbn [rev]. rewrite elem_of_app, IH, !elem_of_cons, elem_of_nil. tauto.
Qed.

Lemma omap_filter {A B} (f : A -> option B) (P : A -> Prop) `{!forall x, Decision (P x)}
    (l : list A) :
  (forall x, ~ P x -> f x = None) -> omap f (filter P l) = omap f l.
Proof.
  intros Hnone. induction l as [|a l IH]; [reflexivity|].
  destruct (decide (P a)) as [Hp|Hp].
  - rewrite filter_cons_True by exact Hp. cbn [omap list_omap]. rewrite IH. reflexivity.
  - rewrite filter_cons_False by exact Hp. cbn [omap list_omap].
    rewrite (Hnone a Hp). exact IH.
Qed.

Section MoveAll.
Context `{Collaborators}.

(** The parts of well-formedness that do not depend on where the nodes
    sit. *)
Lemma consistent_transfer st st' :
  size_log2 (local_table st') = size_log2 (local_table st) ->
  (forall i, get_bucket (local_table st') i = get_bucket (local_table st) i) ->
  (forall wh, storage_peek (oop_storage st') wh = storage_peek (oop_storage st) wh) ->
  items_count st' = items_count st ->
  (in_range st /\ counted st /\ NoDup (live_contents st)) ->
  in_range st' /\ counted st' /\ NoDup (live_contents st').
Proof.
  intros Hsz Hb Hpk Hi (Hr & Hcnt & Hnd).
  assert (Hall : all_nodes (local_table st') = all_nodes (local_table st))
    by (apply all_nodes_ext; assumption).
  split; [|split].
  - intros i wh. rewrite Hb, Hsz. apply Hr.
  - unfold counted in *. rewrite Hi, Hall. exact Hcnt.
  - rewrite (live_contents_ext st st'); [exact Hnd | exact Hall | auto].
Qed.

Lemma move_all_spec n st :
  (n <= 32)%nat ->
  handles_allocated st -> in_range st -> counted st -> NoDup (live_contents st) ->
  let mv := move_nodes (all_nodes (local_table st)) (new_table n) st in
  let st' := set_local_table (fst mv) (snd mv) in
  handles_allocated st' /\ in_range st' /\ placed st' /\ counted st'
  /\ NoDup (live_contents st')
  /\ size_log2 (local_table st') = n
  /\ reclaimed (all_nodes (local_table st)) st (snd mv)
  /\ oop_storage st' = oop_storage (snd mv)
  /\ (forall wh, is_Some (storage_peek (oop_storage st) wh) ->
        (linked st' wh <-> linked st wh)).
Proof.
  intros Hn Hha Hrg Hcnt Hnd. cbv zeta.
  destruct (move_nodes_spec (all_nodes (local_table st)) (new_table n) st)
    as (Hrec & Hperm & Hmem & Hsz).
  set (mv := move_nodes (all_nodes (local_table st)) (new_table n) st) in *.
  set (st' := set_local_table (fst mv) (snd mv)).
  assert (Hlt : local_table st' = fst mv) by (subst st'; destruct (snd mv); reflexivity).
  assert (Hos : oop_storage st' = oop_storage (snd mv))
    by (subst st'; destruct (snd mv); reflexivity).
  assert (Hic : items_count st' = items_count (snd mv))
    by (subst st'; destruct (snd mv); reflexivity).
  assert (Hah : alt_hash st' = alt_hash (snd mv) /\ alt_hash_seed st' = alt_hash_seed (snd mv))
    by (subst st'; destruct (snd mv); split; reflexivity).
  pose proof Hrec as (_ & Hpk & Hnc & Hlog & Hcells & (k & Hk) & Hrange & _ & Hfr).
  cbv zeta in Hlog, Hk.
  pose proof Hfr as (_ & _ & _ & Ha & Hseed & _).
  destruct Hha as (Hb & Hl & Hc & Hi).
  rewrite all_nodes_new_table, app_nil_r in Hperm.
  cbn [size_log2 new_table] in Hmem, Hsz.
  assert (Hmem' : forall i wh, wh ∈ get_bucket (fst mv) i <->
            wh ∈ all_nodes (local_table st)
            /\ exists o, storage_peek (oop_storage st) wh = Some o
               /\ i = bucket_index n (hash_string (oop_value o) (alt_hash st) st)).
  { intros i wh. rewrite Hmem, get_bucket_new_table. split; [|auto].
    intros [Hnil|Hin]; [by apply elem_of_nil in Hnil | exact Hin]. }
  assert (Hnodes : forall wh, wh ∈ all_nodes (local_table st) ->
            (wh < next_cell (oop_storage st))%nat).
  { intros wh Hin. apply elem_of_all_nodes in Hin as (i & _ & Hin). exact (Hb _ _ Hin). }
  split; [|split; [|split; [|split; [|split; [|split; [|split; [exact Hrec|split; [exact Hos|]]]]]]]].
  - split; [|split; [|split]].
    + intros i wh. rewrite Hlt, Hos, Hnc. intros Hin. apply Hmem' in Hin as [Hin _]. auto.
    + intros wh. rewrite Hos, Hnc, Hlog. intros Hin. apply elem_of_app in Hin as [Hin|Hin].
      * apply elem_of_rev, list_elem_of_filter in Hin as [_ Hin]. auto.
      * auto.
    + intros wh. rewrite Hos, Hnc. intros Hsome. auto.
    + rewrite Hic. auto.
  - intros i wh. rewrite Hlt, Hsz. intros Hin. apply Hmem' in Hin as (_ & o & _ & ->).
    apply bucket_index_range.
  - intros i wh o. rewrite Hlt, Hos, Hpk, Hsz. intros Hin Ho.
    apply Hmem' in Hin as (_ & o' & Ho' & ->).
    assert (o' = o) by congruence. subst o'.
    unfold local_hash, hash_string. destruct Hah as [-> ->]. rewrite Ha, Hseed.
    destruct (alt_hash st); [|reflexivity].
    symmetry. apply bucket_index_wrap_uint. exact Hn.
  - unfold counted in *. rewrite Hlt, Hic. symmetry.
    rewrite (Permutation_length Hperm).
    destruct (wrap_size_t_congr (Z.of_nat (length (all_nodes (local_table st))))) as [k2 Hk2].
    apply (wrap_size_t_unique _ _ (- (k + k2))); [auto|]. lia.
  - unfold live_contents. rewrite Hlt, Hperm.
    assert (Hf : forall l : list WeakHandle,
              omap (fun wh => oop_value <$> storage_peek (oop_storage st') wh) l
                      = omap (fun wh => oop_value <$> storage_peek (oop_storage st) wh) l).
    { intros l. induction l as [|a l IH]; [reflexivity|].
      cbn [omap list_omap]. rewrite Hos, Hpk, <- Hos, IH. reflexivity. }
    rewrite Hf, omap_filter; [exact Hnd|].
    intros wh Hnot. destruct (storage_peek (oop_storage st) wh); [|reflexivity].
    exfalso. apply Hnot. eauto.
  - rewrite Hlt. exact Hsz.
  - intros wh [o Ho]. rewrite (linked_all_nodes st wh Hrg). unfold linked. rewrite Hlt. split.
    + intros (i & Hin). apply Hmem' in Hin as [Hin _]. exact Hin.
    + intros Hin. eexists. apply Hmem'. split; [exact Hin|]. eauto.
Qed.

End MoveAll.

Lemma filter_concat {A} (P : A -> Prop) `{!forall x, Decision (P x)} (ls : list (list A)) :
  filter P (concat ls) = concat (filter P <$> ls).
Proof.
  induction ls as [|l ls IH]; [reflexivity|].
  cbn [concat fmap list_fmap]. rewrite filter_app, IH. reflexivity.
Qed.

Section BulkDelete.
Context `{Collaborators}.

Lemma reclaimed_retable nodes t st st' :
  reclaimed nodes (set_local_table t st) (set_local_table t st') ->
  reclaimed nodes st (set_local_table (local_table st) st').
Proof. unfold reclaimed, maintenance_frame. destruct st, st'. cbn. tauto. Qed.

Lemma delete_in_chain_spec chain st :
  fst (delete_in_chain chain st)
  = filter (fun wh => is_Some (storage_peek (oop_storage st) wh)) chain
  /\ reclaimed chain st (snd (delete_in_chain chain st)).
Proof.
  revert st. induction chain as [|wh rest IH]; intros st.
  - split; [reflexivity | apply reclaimed_nil].
  - cbn [delete_in_chain]. unfold StringTableDeleteCheck.
    destruct (storage_peek (oop_storage st) wh) as [o|] eqn:Hpeek.
    + destruct (IH st) as [Hk Hrec]. destruct (delete_in_chain rest st) as [kept st1].
      cbn [fst snd] in *.
      assert (Hlive : is_Some (storage_peek (oop_storage st) wh)) by (rewrite Hpeek; eauto).
      split; [rewrite filter_cons_True by exact Hlive; rewrite Hk; reflexivity|].
      apply reclaimed_live; assumption.
    + destruct (IH (free_node wh st)) as [Hk Hrec].
      assert (Hs : oop_storage (free_node wh st) = storage_release wh (oop_storage st))
        by (destruct st; reflexivity).
      assert (Hsame : forall wh', storage_peek (oop_storage (free_node wh st)) wh'
                                  = storage_peek (oop_storage st) wh').
      { intros wh'. rewrite Hs. apply storage_peek_release_dead. exact Hpeek. }
      destruct (filter_peek_ext (oop_storage st) (oop_storage (free_node wh st)) rest Hsame)
        as [Hfl _].
      assert (Hnot : ~ is_Some (storage_peek (oop_storage st) wh))
        by (rewrite Hpeek; intros [? ?]; discriminate).
      split; [rewrite filter_cons_False by exact Hnot; rewrite Hk, Hfl; reflexivity|].
      apply reclaimed_dead; assumption.
Qed.

(** The bulk delete visits each bucket once: the chain of a visited bucket
    keeps its live nodes in order, the other buckets are not touched. *)
Lemma bulk_delete_spec chunks st :
  NoDup chunks ->
  let st' := bulk_delete_do_tasks chunks st in
  let live wh := is_Some (storage_peek (oop_storage st) wh) in
  size_log2 (local_table st') = size_log2 (local_table st)
  /\ resize_lock_owner (local_table st') = resize_lock_owner (local_table st)
  /\ resize_lock_held (local_table st') = resize_lock_held (local_table st)
  /\ (forall i, i ∈ chunks ->
        get_bucket (local_table st') i = filter live (get_bucket (local_table st) i))
  /\ (forall i, i ∉ chunks -> get_bucket (local_table st') i = get_bucket (local_table st) i)
  /\ reclaimed (concat (get_bucket (local_table st) <$> chunks)) st
               (set_local_table (local_table st) st').
Proof.
  revert st. induction chunks as [|i rest IH]; intros st Hnd; cbv zeta.
  - cbn [bulk_delete_do_tasks fmap list_fmap concat].
    split; [reflexivity|]. split; [reflexivity|]. split; [reflexivity|].
    split; [intros i Hi; by apply elem_of_nil in Hi|]. split; [reflexivity|].
    replace (set_local_table (local_table st) st) with st by (destruct st; reflexivity).
    apply reclaimed_nil.
  - apply NoDup_cons in Hnd as [Hi Hnd].
    cbn [bulk_delete_do_tasks fmap list_fmap concat].
    destruct (delete_in_chain_spec (get_bucket (local_table st) i) st) as [Hk Hrec].
    destruct (delete_in_chain (get_bucket (local_table st) i) st) as [kept st1].
    cbn [fst snd] in *.
    pose proof Hrec as (Ht1 & Hpk1 & _).
    set (t2 := set_bucket i kept (local_table st1)).
    set (st2 := set_local_table t2 st1).
    assert (Hlt2 : local_table st2 = t2) by (subst st2; destruct st1; reflexivity).
    assert (Hos2 : oop_storage st2 = oop_storage st1) by (subst st2; destruct st1; reflexivity).
    destruct (IH st2 Hnd) as (Hsz & Hown & Hheld & Hin & Hout & Hrec2).
    rewrite Hlt2 in Hsz, Hown, Hheld, Hin, Hout, Hrec2.
    assert (Hpk2 : forall wh, storage_peek (oop_storage st2) wh
                              = storage_peek (oop_storage st) wh)
      by (intros wh; rewrite Hos2; apply Hpk1).
    assert (Hfl : forall l, filter (fun wh => is_Some (storage_peek (oop_storage st2) wh)) l
                            = filter (fun wh => is_Some (storage_peek (oop_storage st) wh)) l)
      by (intros l; apply (filter_peek_ext _ _ l Hpk2)).
    split; [rewrite Hsz; subst t2; cbn [size_log2 set_bucket]; rewrite Ht1; reflexivity|].
    split; [rewrite Hown; subst t2; cbn; rewrite Ht1; reflexivity|].
    split; [rewrite Hheld; subst t2; cbn; rewrite Ht1; reflexivity|].
    split; [|split].
    + intros j Hj. apply elem_of_cons in Hj as [->|Hj].
      * rewrite (Hout i Hi). subst t2. rewrite get_bucket_set_bucket_eq. exact Hk.
      * rewrite (Hin j Hj), Hfl. subst t2.
        rewrite get_bucket_set_bucket_ne by (intros ->; contradiction).
        rewrite Ht1. reflexivity.
    + intros j Hj. rewrite not_elem_of_cons in Hj. destruct Hj as [Hne Hj].
      rewrite (Hout j Hj). subst t2. rewrite get_bucket_set_bucket_ne by congruence.
      rewrite Ht1. reflexivity.
    + apply (reclaimed_app _ _ st st1); [exact Hrec|].
      rewrite <- Ht1.
      rewrite (concat_buckets_ext (local_table st1) t2 rest).
      * apply (reclaimed_retable _ t2). fold st2.
        replace (set_local_table t2 (bulk_delete_do_tasks rest st2))
          with (set_local_table (local_table st2) (bulk_delete_do_tasks rest st2))
          by (rewrite Hlt2; reflexivity).
        rewrite Hlt2. exact Hrec2.
      * intros j Hj. subst t2. symmetry. apply get_bucket_set_bucket_ne.
        intros ->. contradiction.
Qed.

End BulkDelete.

Section WellFormedMaintenance.
Context `{Collaborators}.

Lemma clean_dead_entries_spec st :
  in_range st -> try_resize_lock (local_table st) = true ->
  let st' := clean_dead_entries st in
  let live wh := is_Some (storage_peek (oop_storage st) wh) in
  size_log2 (local_table st') = size_log2 (local_table st)
  /\ resize_lock_owner (local_table st') = resize_lock_owner (local_table st)
  /\ resize_lock_held (local_table st') = resize_lock_held (local_table st)
  /\ (forall i, get_bucket (local_table st') i = filter live (get_bucket (local_table st) i))
  /\ all_nodes (local_table st') = filter live (all_nodes (local_table st))
  /\ reclaimed (all_nodes (local_table st)) st (set_local_table (local_table st) st').
Proof.
  intros Hrg Hlock. cbv zeta. unfold clean_dead_entries. rewrite Hlock. cbn [negb].
  destruct (bulk_delete_spec (bucket_indices (size_log2 (local_table st))) st
              (NoDup_bucket_indices _)) as (Hsz & Hown & Hheld & Hin & Hout & Hrec).
  set (st' := bulk_delete_do_tasks _ st) in *.
  assert (Hb : forall i, get_bucket (local_table st') i
                 = filter (fun wh => is_Some (storage_peek (oop_storage st) wh))
                     (get_bucket (local_table st) i)).
  { intros i. destruct (decide (i ∈ bucket_indices (size_log2 (local_table st)))) as [Hi|Hi].
    - exact (Hin i Hi).
    - rewrite (Hout i Hi).
      destruct (get_bucket (local_table st) i) as [|wh l] eqn:Hbk; [reflexivity|].
      exfalso. apply Hi. apply elem_of_bucket_indices. apply (Hrg i wh).
      rewrite Hbk. apply list_elem_of_here. }
  split; [exact Hsz|]. split; [exact Hown|]. split; [exact Hheld|].
  split; [exact Hb|]. split; [|exact Hrec].
  unfold all_nodes. rewrite Hsz, filter_concat, <- list_fmap_compose.
  f_equal. apply list_fmap_ext. intros _ i _. apply Hb.
Qed.

Lemma well_formed_reclaim st st' :
  well_formed st ->
  size_log2 (local_table st') = size_log2 (local_table st) ->
  (forall i, get_bucket (local_table st') i
             = filter (fun wh => is_Some (storage_peek (oop_storage st) wh))
                 (get_bucket (local_table st) i)) ->
  all_nodes (local_table st')
  = filter (fun wh => is_Some (storage_peek (oop_storage st) wh)) (all_nodes (local_table st)) ->
  reclaimed (all_nodes (local_table st)) st (set_local_table (local_table st) st') ->
  well_formed st'.
Proof.
  intros (Hha & Hrg & Hpl & Hcnt & Hsd & Hep & Hnd) Hsz Hb Hall Hrec.
  assert (Hf : oop_storage (set_local_table (local_table st) st') = oop_storage st'
               /\ items_count (set_local_table (local_table st) st') = items_count st'
               /\ current_size (set_local_table (local_table st) st') = current_size st'
               /\ alt_hash (set_local_table (local_table st) st') = alt_hash st'
               /\ alt_hash_seed (set_local_table (local_table st) st') = alt_hash_seed st'
               /\ rehashed (set_local_table (local_table st) st') = rehashed st')
    by (destruct st'; cbn; auto 10).
  destruct Hf as (Hfs & Hfi & Hfc & Hfa & Hfd & Hfr).
  destruct Hrec as (_ & Hpk & Hnc & Hlog & Hcells & (k & Hk) & Hrange & Hcs & Hfr').
  cbv zeta in Hlog, Hk.
  destruct Hfr' as (_ & _ & _ & Ha & Hseed & Hre & _).
  rewrite Hfs in Hpk, Hnc, Hlog, Hcells. rewrite Hfi in Hk, Hrange. rewrite Hfc in Hcs.
  rewrite Hfa in Ha. rewrite Hfd in Hseed. rewrite Hfr in Hre.
  destruct Hha as (Hbk & Hl & Hc & Hi).
  assert (Hnodes : forall wh, wh ∈ all_nodes (local_table st) ->
            (wh < next_cell (oop_storage st))%nat).
  { intros wh Hin. apply elem_of_all_nodes in Hin as (i & _ & Hin). exact (Hbk _ _ Hin). }
  assert (Hsub : forall i wh, wh ∈ get_bucket (local_table st') i ->
            wh ∈ get_bucket (local_table st) i).
  { intros i wh. rewrite Hb. intros Hin. apply list_elem_of_filter in Hin as [_ Hin]. exact Hin. }
  split; [|split; [|split; [|split; [|split; [|split]]]]].
  - split; [|split; [|split]].
    + intros i wh Hin. rewrite Hnc. exact (Hbk _ _ (Hsub _ _ Hin)).
    + intros wh. rewrite Hnc, Hlog. intros Hin. apply elem_of_app in Hin as [Hin|Hin].
      * apply elem_of_rev, list_elem_of_filter in Hin as [_ Hin]. auto.
      * auto.
    + intros wh. rewrite Hnc. auto.
    + auto.
  - intros i wh Hin. rewrite Hsz. exact (Hrg _ _ (Hsub _ _ Hin)).
  - intros i wh o Hin. rewrite Hpk, Hsz. intros Ho.
    unfold local_hash. rewrite Ha, Hseed. exact (Hpl _ _ _ (Hsub _ _ Hin) Ho).
  - unfold counted in *. rewrite Hall. symmetry.
    destruct (wrap_size_t_congr (Z.of_nat (length (all_nodes (local_table st))))) as [k2 Hk2].
    apply (wrap_size_t_unique _ _ (- (k + k2))); [auto|]. lia.
  - unfold sized in *. rewrite Hcs, Hsz. exact Hsd.
  - unfold epoch_consistent in *. rewrite Ha, Hre. exact Hep.
  - unfold live_contents. rewrite Hall.
    assert (Hf : forall l : list WeakHandle,
              omap (fun wh => oop_value <$> storage_peek (oop_storage st') wh) l
              = omap (fun wh => oop_value <$> storage_peek (oop_storage st) wh) l).
    { intros l. induction l as [|a l IH]; [reflexivity|].
      cbn [omap list_omap]. rewrite Hpk, IH. reflexivity. }
    rewrite Hf, omap_filter; [exact Hnd|].
    intros wh Hnot. destruct (storage_peek (oop_storage st) wh); [|reflexivity].
    exfalso. apply Hnot. eauto.
Qed.

Lemma well_formed_clean_dead_entries st :
  well_formed st -> well_formed (clean_dead_entries st).
Proof.
  intros Hwf. destruct (try_resize_lock (local_table st)) eqn:Hlock.
  - pose proof Hwf as (_ & Hrg & _).
    destruct (clean_dead_entries_spec st Hrg Hlock) as (Hsz & _ & _ & Hb & Hall & Hrec).
    exact (well_formed_reclaim st _ Hwf Hsz Hb Hall Hrec).
  - unfold clean_dead_entries. rewrite Hlock. exact Hwf.
Qed.

Lemma grow_unfold st :
  grow st =
  let t := local_table st in
  let mv := move_nodes (all_nodes t) (new_table (S (size_log2 t))) st in
  if grow_prepare t
  then set_current_size (2 ^ Z.of_nat (S (size_log2 t))) (set_local_table (fst mv) (snd mv))
  else st.
Proof.
  unfold grow. cbv zeta. destruct (grow_prepare (local_table st)); [|reflexivity].
  cbn [negb]. rewrite grow_do_tasks_move.
  change (concat (get_bucket (local_table st) <$> bucket_indices (size_log2 (local_table st))))
    with (all_nodes (local_table st)).
  destruct (move_nodes_spec (all_nodes (local_table st))
              (new_table (S (size_log2 (local_table st)))) st) as (_ & _ & _ & Hsz).
  destruct (move_nodes _ _ _) as [to st1]. cbn [fst snd] in *.
  unfold table_size. replace (local_table (set_local_table to st1)) with to
    by (destruct st1; reflexivity).
  rewrite Hsz. cbn [size_log2 new_table]. rewrite Z.shiftl_1_l. reflexivity.
Qed.

Lemma well_formed_grow st : well_formed st -> well_formed (grow st).
Proof.
  intros Hwf. rewrite grow_unfold. cbv zeta.
  destruct (grow_prepare (local_table st)) eqn:Hprep; [|exact Hwf].
  pose proof Hwf as (Hha & Hrg & Hpl & Hcnt & Hsd & Hep & Hnd).
  assert (Hmax : (S (size_log2 (local_table st)) <= END_SIZE)%nat).
  { unfold grow_prepare, is_max_size_reached in Hprep.
    apply andb_true_iff in Hprep as [_ Hm]. apply negb_true_iff in Hm.
    apply bool_decide_eq_false in Hm. lia. }
  destruct (move_all_spec (S (size_log2 (local_table st))) st
              ltac:(unfold END_SIZE in Hmax; lia) Hha Hrg Hcnt Hnd)
    as (Hha' & Hrg' & Hpl' & Hcnt' & Hnd' & Hsz' & Hrec & Hos & _).
  cbv zeta in *.
  set (mv := move_nodes _ _ st) in *.
  set (st1 := set_local_table (fst mv) (snd mv)) in *.
  set (st2 := set_current_size _ st1).
  assert (Hf : local_table st2 = local_table st1 /\ oop_storage st2 = oop_storage st1
               /\ items_count st2 = items_count st1 /\ alt_hash st2 = alt_hash st1
               /\ alt_hash_seed st2 = alt_hash_seed st1 /\ rehashed st2 = rehashed st1
               /\ current_size st2 = 2 ^ Z.of_nat (S (size_log2 (local_table st))))
    by (subst st2; destruct st1; cbn; auto 10).
  destruct Hf as (Ht & Hs & Hi & Ha & Hseed & Hre & Hcs).
  assert (Hf1 : alt_hash st1 = alt_hash st /\ rehashed st1 = rehashed st).
  { destruct Hrec as (_ & _ & _ & _ & _ & _ & _ & _ & Hfr).
    destruct Hfr as (_ & _ & _ & Ha1 & _ & Hre1 & _).
    subst st1. destruct (snd mv); cbn in *; auto. }
  destruct Hf1 as [Ha1 Hre1].
  destruct (consistent_transfer st1 st2) as (Hrg2 & Hcnt2 & Hnd2);
    [rewrite Ht; reflexivity | intros i; rewrite Ht; reflexivity
     | intros wh; rewrite Hs; reflexivity | exact Hi | auto |].
  split; [eapply handles_allocated_fields; eassumption|].
  split; [exact Hrg2|]. split; [|split; [exact Hcnt2|split; [|split; [|exact Hnd2]]]].
  - intros i wh o. rewrite Ht, Hs. unfold local_hash. rewrite Ha, Hseed. apply Hpl'.
  - unfold sized. rewrite Hcs, Ht, Hsz'. split; [reflexivity | exact Hmax].
  - unfold epoch_consistent in *. rewrite Ha, Hre, Ha1, Hre1. exact Hep.
Qed.

Lemma well_formed_do_concurrent_work st :
  well_formed st -> well_formed (do_concurrent_work st).
Proof.
  intros Hwf. unfold do_concurrent_work. cbv zeta.
  destruct (_ && _).
  - eapply well_formed_fields; [..|exact (well_formed_grow st Hwf)];
      destruct (grow st); reflexivity.
  - eapply well_formed_fields; [..|exact (well_formed_clean_dead_entries st Hwf)];
      destruct (clean_dead_entries st); reflexivity.
Qed.

End WellFormedMaintenance.

Section WellFormedRehash.
Context `{Collaborators}.

Lemma well_formed_same_hash st st' :
  local_table st' = local_table st -> oop_storage st' = oop_storage st ->
  items_count st' = items_count st -> current_size st' = current_size st ->
  alt_hash st = false -> alt_hash st' = false ->
  well_formed st -> well_formed st'.
Proof.
  intros Ht Hs Hi Hc Ha Ha' Hwf. pose proof Hwf as (Hha & _).
  apply (well_formed_transfer st st'); try assumption.
  - rewrite Ht. reflexivity.
  - intros i. rewrite Ht. reflexivity.
  - intros wh. rewrite Hs. reflexivity.
  - eapply handles_allocated_fields; eassumption.
  - intros name. unfold local_hash. rewrite Ha, Ha'. reflexivity.
  - intros _. exact Ha'.
Qed.

Lemma well_formed_rehash_table seed st :
  well_formed st -> well_formed (rehash_table seed st).
Proof.
  intros Hwf.
  destruct (growth_preferred st) eqn:Hgrow.
  { unfold rehash_table. unfold growth_preferred in Hgrow. rewrite Hgrow.
    eapply well_formed_fields; [..|exact Hwf]; destruct st; reflexivity. }
  destruct (rehashed st) eqn:Hre.
  { unfold rehash_table. unfold growth_preferred in Hgrow. rewrite Hgrow, Hre.
    eapply well_formed_fields; [..|exact Hwf]; destruct st; reflexivity. }
  rewrite (rehash_table_unfold seed st Hre Hgrow). cbv zeta.
  rewrite (do_rehash_unfold (set_alt_hash_seed seed st)). cbv zeta.
  pose proof Hwf as (Hha & Hrg & Hpl & Hcnt & Hsd & Hep & Hnd).
  pose proof (Hep Hre) as Halt.
  destruct (negb (is_safepoint_safe _)); cbn [fst snd].
  { apply (well_formed_same_hash st); try exact Hwf; try exact Halt;
      destruct st; cbn in *; auto. }
  destruct (negb (try_resize_lock _)); cbn [fst snd].
  { apply (well_formed_same_hash st); try exact Hwf; try exact Halt;
      destruct st; cbn in *; auto. }
  set (st2 := set_alt_hash true (set_alt_hash_seed seed st)).
  assert (Hf2 : local_table st2 = local_table st /\ oop_storage st2 = oop_storage st
                /\ items_count st2 = items_count st /\ current_size st2 = current_size st)
    by (subst st2; destruct st; cbn; auto).
  destruct Hf2 as (Ht2 & Hs2 & Hi2 & Hc2).
  replace (local_table (set_alt_hash_seed seed st)) with (local_table st2)
    by (subst st2; destruct st; reflexivity).
  destruct (consistent_transfer st st2) as (Hrg2 & Hcnt2 & Hnd2);
    [rewrite Ht2; reflexivity | intros i; rewrite Ht2; reflexivity
     | intros wh; rewrite Hs2; reflexivity | exact Hi2 | auto |].
  assert (Hha2 : handles_allocated st2) by (eapply handles_allocated_fields; eassumption).
  assert (Hn : (size_log2 (local_table st2) <= 32)%nat).
  { rewrite Ht2. destruct Hsd as [_ Hle]. unfold END_SIZE in Hle. lia. }
  destruct (move_all_spec (size_log2 (local_table st2)) st2 Hn Hha2 Hrg2 Hcnt2 Hnd2)
    as (Hha3 & Hrg3 & Hpl3 & Hcnt3 & Hnd3 & Hsz3 & Hrec & Hos3 & _).
  cbv zeta in *.
  set (mv := move_nodes _ _ st2) in *.
  set (st3 := set_local_table (fst mv) (snd mv)) in *.
  set (st4 := set_needs_rehashing false _).
  assert (Hf : local_table st4 = local_table st3 /\ oop_storage st4 = oop_storage st3
               /\ items_count st4 = items_count st3 /\ alt_hash st4 = alt_hash st3
               /\ alt_hash_seed st4 = alt_hash_seed st3 /\ rehashed st4 = true
               /\ current_size st4 = current_size (snd mv))
    by (subst st4 st3; destruct (snd mv); cbn; auto 10).
  destruct Hf as (Ht & Hs & Hi & Ha & Hseed & Hre4 & Hcs).
  destruct (consistent_transfer st3 st4) as (Hrg4 & Hcnt4 & Hnd4);
    [rewrite Ht; reflexivity | intros i; rewrite Ht; reflexivity
     | intros wh; rewrite Hs; reflexivity | exact Hi | auto |].
  split; [eapply handles_allocated_fields; eassumption|].
  split; [exact Hrg4|]. split; [|split; [exact Hcnt4|split; [|split; [|exact Hnd4]]]].
  - intros i wh o. rewrite Ht, Hs. unfold local_hash. rewrite Ha, Hseed. apply Hpl3.
  - unfold sized in *. rewrite Hcs, Ht, Hsz3, Ht2.
    destruct Hrec as (_ & _ & _ & _ & _ & _ & _ & Hcs' & _). rewrite Hcs', Hc2. exact Hsd.
  - intros Hno. congruence.
Qed.

Lemma well_formed_collect wh st :
  well_formed st -> well_formed (set_oop_storage (storage_clear wh (oop_storage st)) st).
Proof.
  intros (Hha & Hrg & Hpl & Hcnt & Hsd & Hep & Hnd).
  set (st' := set_oop_storage _ st).
  assert (Hf : local_table st' = local_table st /\ items_count st' = items_count st
               /\ current_size st' = current_size st /\ alt_hash st' = alt_hash st
               /\ alt_hash_seed st' = alt_hash_seed st /\ rehashed st' = rehashed st
               /\ oop_storage st' = storage_clear wh (oop_storage st))
    by (subst st'; destruct st; cbn; auto 10).
  destruct Hf as (Ht & Hi & Hc & Ha & Hseed & Hre & Hs).
  assert (Hpk : forall wh' o, storage_peek (oop_storage st') wh' = Some o ->
                  storage_peek (oop_storage st) wh' = Some o).
  { intros wh' o. rewrite Hs. unfold storage_peek, storage_clear. cbn [cells].
    destruct (decide (wh' = wh)) as [->|Hne].
    - rewrite lookup_alter_eq. destruct (cells (oop_storage st) !! wh); simpl; discriminate.
    - rewrite lookup_alter_ne by congruence. auto. }
  destruct Hha as (Hbk & Hl & Hcl & Hir).
  split; [|split; [|split; [|split; [|split; [|split]]]]].
  - split; [|split; [|split]].
    + intros i wh'. rewrite Ht, Hs. exact (Hbk i wh').
    + intros wh'. rewrite Hs. exact (Hl wh').
    + intros wh'. rewrite Hs. unfold storage_clear. cbn [cells next_cell].
      intros Hsome. apply Hcl.
      destruct (decide (wh' = wh)) as [->|Hne].
      * rewrite lookup_alter_eq in Hsome. apply fmap_is_Some in Hsome. exact Hsome.
      * rewrite lookup_alter_ne in Hsome by congruence. exact Hsome.
    + rewrite Hi. exact Hir.
  - intros i wh'. rewrite Ht. apply Hrg.
  - intros i wh' o. rewrite Ht. intros Hin Ho. unfold local_hash. rewrite Ha, Hseed.
    exact (Hpl _ _ _ Hin (Hpk _ _ Ho)).
  - unfold counted in *. rewrite Hi, Ht. exact Hcnt.
  - unfold sized in *. rewrite Hc, Ht. exact Hsd.
  - unfold epoch_consistent in *. rewrite Ha, Hre. exact Hep.
  - unfold live_contents in *. rewrite Ht.
    refine (sublist_NoDup _ _ Hnd _).
    clear Hnd. induction (all_nodes (local_table st)) as [|a l IH]; [constructor|].
    cbn [omap list_omap].
    destruct (storage_peek (oop_storage st') a) as [o|] eqn:Ho.
    + rewrite (Hpk _ _ Ho). cbn. apply sublist_skip. exact IH.
    + cbn. destruct (storage_peek (oop_storage st) a); cbn; [apply sublist_cons|]; exact IH.
Qed.

Lemma well_formed_resize_lock owner held st :
  well_formed st ->
  well_formed (set_local_table (set_resize_lock owner held (local_table st)) st).
Proof.
  intros Hwf. pose proof Hwf as (Hha & _ & _ & _ & _ & Hep & _).
  apply (well_formed_transfer st); try exact Hwf; try (destruct st; reflexivity).
  - destruct st as [a t]; destruct t; cbn in *. exact Hha.
  - destruct st; exact Hep.
Qed.

End WellFormedRehash.

(** ** Histories keep the table well-formed *)

Section WellFormedHistories.
Context `{Collaborators}.

Lemma exec_well_formed o st st' :
  exec o st = Some st' -> well_formed st -> well_formed st'.
Proof.
  destruct o; cbn [exec].
  - intros Hr. inversion Hr; subst. apply well_formed_lookup.
  - destruct (intern_symbol _ _ _) as [[r st1]|] eqn:Hi; [|discriminate].
    intros Hr Hwf. inversion Hr; subst. eapply well_formed_intern_symbol; eassumption.
  - destruct (intern_oop _ _ _) as [[r st1]|] eqn:Hi; [|discriminate].
    intros Hr Hwf. inversion Hr; subst. eapply well_formed_intern_oop; eassumption.
  - destruct (intern_utf8 _ _ _) as [[r st1]|] eqn:Hi; [|discriminate].
    intros Hr Hwf. inversion Hr; subst. eapply well_formed_intern_utf8; eassumption.
  - intros Hr. inversion Hr; subst. apply well_formed_gc_notification.
  - intros Hr. inversion Hr; subst. apply well_formed_do_concurrent_work.
  - intros Hr. inversion Hr; subst. apply well_formed_rehash_table.
  - intros Hr Hwf. eapply well_formed_transfer_shared; eassumption.
  - intros Hr. inversion Hr; subst. apply well_formed_collect.
  - intros Hr. inversion Hr; subst. apply well_formed_resize_lock.
Qed.

Lemma run_well_formed ops st st' :
  run ops st = Some st' -> well_formed st -> well_formed st'.
Proof.
  revert st. induction ops as [|o rest IH]; intros st; cbn [run].
  - intros Hr. inversion Hr; subst. auto.
  - destruct (exec o st) as [st1|] eqn:He; [|discriminate].
    intros Hrun Hwf. eapply IH; [exact Hrun|]. eapply exec_well_formed; eassumption.
Qed.

Lemma create_table_well_formed n archived top budget :
  n <= 2 ^ Z.of_nat END_SIZE ->
  well_formed (create_table n (static_init archived top budget)).
Proof.
  intros Hn.
  set (k := Z.to_nat (Z.log2_up n)).
  set (st0 := create_table n (static_init archived top budget)).
  assert (Hk : (k <= END_SIZE)%nat).
  { subst k. destruct (Z.le_gt_cases n 1) as [Hle|Hgt].
    - rewrite Z.log2_up_eqn0 by exact Hle. cbn. lia.
    - assert (Z.log2_up n <= Z.of_nat END_SIZE)
        by (apply Z.log2_up_le_pow2; [lia | exact Hn]).
      lia. }
  assert (Hf : local_table st0 = new_table k /\ oop_storage st0 = mk_storage ∅ 0 []
               /\ items_count st0 = 0 /\ current_size st0 = Z.shiftl 1 (Z.of_nat k)
               /\ alt_hash st0 = false)
    by (repeat split).
  destruct Hf as (Ht & Hs & Hi & Hc & Ha).
  unfold well_formed, handles_allocated, in_range, placed, counted, sized, epoch_consistent,
    live_contents.
  rewrite Ht, Hs, Hi, Hc, Ha, all_nodes_new_table.
  split; [|split; [|split; [|split; [|split; [|split]]]]].
  - split; [|split; [|split]].
    + intros i wh. rewrite get_bucket_new_table. intros Hin. by apply elem_of_nil in Hin.
    + intros wh Hin. by apply elem_of_nil in Hin.
    + intros wh [x Hx]. cbn in Hx. rewrite lookup_empty in Hx. discriminate.
    + unfold size_t_max. lia.
  - intros i wh. rewrite get_bucket_new_table. intros Hin. by apply elem_of_nil in Hin.
  - intros i wh o. rewrite get_bucket_new_table. intros Hin. by apply elem_of_nil in Hin.
  - reflexivity.
  - split; [|exact Hk]. cbn [size_log2 new_table]. rewrite Z.shiftl_1_l. reflexivity.
  - reflexivity.
  - constructor.
Qed.

End WellFormedHistories.

(** ** What a probe answers *)

Section Lookups.
Context `{Collaborators}.

Lemma lookup_result name st :
  fst (lookup name st) =
  match shared_lookup (shared_table st) name (String_hash_code name) with
  | Some s => Some s
  | None => fst (do_lookup name (local_hash name st) st)
  end.
Proof.
  rewrite lookup_unfold. cbv zeta. destruct (shared_lookup _ _ _); [reflexivity|].
  apply do_lookup_same_tables; destruct st; reflexivity.
Qed.

Lemma do_lookup_found_handle name hash st o :
  fst (do_lookup name hash st) = Some o ->
  oop_value o = name
  /\ exists wh,
       wh ∈ get_bucket (local_table st) (bucket_index (size_log2 (local_table st)) hash)
       /\ storage_peek (oop_storage st) wh = Some o.
Proof.
  rewrite do_lookup_result.
  destruct (get_node _ _ _ _) as [[wh0|] loops] eqn:Hfound; cbn [fst mbind option_bind];
    [|discriminate].
  intros Hpeek. apply get_node_found in Hfound as [Hin Heq].
  apply lookup_equals_spec in Heq as (o0 & Ho0 & Hv0).
  assert (o0 = o) by congruence. subst o0. cbn [lookup_chars] in Hv0.
  split; [exact Hv0|]. eauto.
Qed.

Lemma do_lookup_miss name hash st :
  fst (do_lookup name hash st) = None ->
  forall wh o,
    wh ∈ get_bucket (local_table st) (bucket_index (size_log2 (local_table st)) hash) ->
    storage_peek (oop_storage st) wh = Some o -> oop_value o <> name.
Proof.
  intros Hmiss wh o Hin Ho Hv.
  destruct (do_lookup_resident name hash st) as (o' & Hf & _); [|congruence].
  exists wh, o. auto.
Qed.

(** In a well-formed table the probe for some contents answers with the
    one live node of these contents, wherever it was linked. *)
Lemma lookup_local_iff st name o :
  well_formed st ->
  (fst (do_lookup name (local_hash name st) st) = Some o <->
   oop_value o = name
   /\ exists wh, linked st wh /\ storage_peek (oop_storage st) wh = Some o).
Proof.
  intros Hwf. split.
  - intros Hf. apply do_lookup_found_handle in Hf as (Hv & wh & Hin & Ho).
    split; [exact Hv|]. exists wh. split; [eexists; exact Hin | exact Ho].
  - intros (Hv & wh & Hl & Ho).
    pose proof (well_formed_resident st wh o Hwf Hl Ho) as Hin. rewrite Hv in Hin.
    destruct (do_lookup_resident name (local_hash name st) st) as (o' & Hf & Hv').
    { exists wh, o. auto. }
    rewrite Hf. f_equal.
    apply do_lookup_found_handle in Hf as (_ & wh' & Hin' & Ho').
    assert (wh' = wh).
    { apply (well_formed_unique st wh' wh o' o Hwf); try assumption; [eexists; exact Hin'|].
      congruence. }
    subst wh'. congruence.
Qed.

Lemma lookup_determined st1 st2 :
  well_formed st1 -> well_formed st2 ->
  shared_table st2 = shared_table st1 ->
  (forall wh o, linked st1 wh /\ storage_peek (oop_storage st1) wh = Some o <->
                linked st2 wh /\ storage_peek (oop_storage st2) wh = Some o) ->
  forall name, fst (lookup name st2) = fst (lookup name st1).
Proof.
  intros Hwf1 Hwf2 Hsh Hsame name. rewrite !lookup_result, Hsh.
  destruct (shared_lookup _ _ _); [reflexivity|].
  apply option_eq. intros o.
  rewrite (lookup_local_iff st1 name o Hwf1), (lookup_local_iff st2 name o Hwf2).
  split; intros (Hv & wh & Hl); (split; [exact Hv|]); exists wh; apply Hsame; exact Hl.
Qed.

Lemma do_intern_finds fuel h name hash st o st' :
  handles_allocated st -> (forall s, h = Some s -> oop_value s = name) ->
  do_intern fuel h name hash st = Some (Some o, st') ->
  oop_value o = name /\ fst (do_lookup name hash st') = Some o.
Proof.
  intros Hwf Hh.
  assert (Hbody : forall s st0, handles_allocated st0 -> oop_value s = name ->
            do_intern_loop fuel (StringTableLookupOop hash s) s (notify_intern s st0)
              = Some (Some o, st') ->
            oop_value o = name /\ fst (do_lookup name hash st') = Some o).
  { intros s st0 Hwf0 Hv Hrun. destruct fuel as [|fuel]; [discriminate|].
    destruct (notify_intern_fields s st0) as (Ht & Hs & Hi).
    assert (Hwf1 : handles_allocated (notify_intern s st0))
      by (eapply handles_allocated_fields; eassumption).
    destruct (do_intern_loop_finds fuel (StringTableLookupOop hash s) s _ _ _ Hwf1 eq_refl Hrun)
      as (o' & Ho' & Hv' & Hf & _).
    cbn [lookup_chars lookup_get_hash] in *. inversion Ho'; subst o'.
    rewrite Hv in *. auto. }
  unfold do_intern. destruct h as [s|].
  - apply Hbody; auto.
  - unfold create_from_unicode.
    destruct (try_allocate_cases st)
      as [(Hok & _ & Hst) | (Hok & _ & _ & Ht0 & Hs0 & Hi0 & _)];
      destruct (try_allocate st) as [ok st0]; cbn [fst snd] in *; subst ok.
    + destruct (pending_exception st0); discriminate.
    + destruct (pending_exception (set_heap_top (S (heap_top st0)) st0)); [discriminate|].
      apply Hbody; [|reflexivity].
      eapply handles_allocated_fields; [| | |exact Hwf]; destruct st0; assumption.
Qed.

(** A string that [intern] returns has the contents asked for and is what
    [lookup] answers afterwards. *)
Lemma intern_finds fuel h name st o st' :
  handles_allocated st -> (forall s, h = Some s -> oop_value s = name) ->
  intern fuel h name st = Some (Some o, st') ->
  oop_value o = name /\ fst (lookup name st') = Some o.
Proof.
  intros Hwf Hh Hrun. pose proof (intern_frame_intern _ _ _ _ _ _ Hrun) as Hfr.
  pose proof Hfr as (Hsh & _).
  rewrite lookup_result, Hsh, (local_hash_frame name st st' Hfr).
  revert Hrun. rewrite intern_unfold. cbv zeta.
  set (st1 := log_event (EvSharedLookup (String_hash_code name) name) st).
  assert (Hf1 : local_table st1 = local_table st /\ oop_storage st1 = oop_storage st
                /\ items_count st1 = items_count st)
    by (subst st1; destruct st; repeat split).
  destruct Hf1 as (Ht1 & Hs1 & Hi1).
  destruct (shared_lookup _ _ _) as [s|] eqn:Hshared.
  - intros Hr. inversion Hr; subst. split; [|reflexivity].
    apply shared_lookup_some in Hshared as [Hv _]. exact Hv.
  - destruct (do_lookup_fields name (local_hash name st) st1) as (Ht2 & Hs2 & Hi2 & _).
    cbv zeta in *.
    destruct (do_lookup name (local_hash name st) st1) as [[s|] st2] eqn:Hlook; cbn [snd] in *.
    + intros Hr. inversion Hr; subst.
      assert (Hf : fst (do_lookup name (local_hash name st) st1) = Some o)
        by (rewrite Hlook; reflexivity).
      split; [apply do_lookup_found_handle in Hf as [Hv _]; exact Hv|].
      rewrite <- Hf. apply do_lookup_same_tables; assumption.
    + apply do_intern_finds; [|exact Hh].
      eapply handles_allocated_fields; [| | |exact Hwf]; congruence.
Qed.

(** X1. Interning and then looking up is a round trip: the string that
    [intern] returns has the contents asked for, and a [lookup] of these
    contents in the state that [intern] leaves answers with that very
    string.  A string offered with the call has the contents passed with
    it, as [do_intern] asserts. *)
Theorem intern_then_lookup
    (fuel : nat) (string_or_null_h : option oop) (name : list jchar)
    (st st' : StringTable) (r : oop) :
  handles_allocated st ->
  (forall s, string_or_null_h = Some s -> oop_value s = name) ->
  intern fuel string_or_null_h name st = Some (Some r, st') ->
  oop_value r = name /\ fst (lookup name st') = Some r.
Proof. apply intern_finds. Qed.

(** A hit of [lookup] is what [intern] returns, without a node allocated. *)
Lemma lookup_hit_intern fuel h name st o :
  fst (lookup name st) = Some o ->
  exists st', intern fuel h name st = Some (Some o, st')
    /\ local_table st' = local_table st /\ oop_storage st' = oop_storage st
    /\ items_count st' = items_count st /\ thread_frame st st'.
Proof.
  rewrite lookup_result, intern_unfold. cbv zeta.
  set (st1 := log_event (EvSharedLookup (String_hash_code name) name) st).
  assert (Hf1 : local_table st1 = local_table st /\ oop_storage st1 = oop_storage st
                /\ items_count st1 = items_count st /\ thread_frame st st1)
    by (subst st1; destruct st; repeat split).
  destruct Hf1 as (Ht1 & Hs1 & Hi1 & Hth1).
  destruct (shared_lookup _ _ _) as [s|].
  - intros Hr. inversion Hr; subst. exists st1. auto.
  - intros Hf. rewrite <- (do_lookup_same_tables name _ st1 st Ht1 Hs1) in Hf.
    destruct (do_lookup_fields name (local_hash name st) st1) as (Ht2 & Hs2 & Hi2 & Hth2).
    cbv zeta in *.
    destruct (do_lookup name (local_hash name st) st1) as [[s|] st2]; cbn [fst snd] in *;
      [|discriminate].
    inversion Hf; subst. exists st2. split; [reflexivity|].
    split; [congruence|]. split; [congruence|]. split; [congruence|].
    unfold thread_frame in *. intuition congruence.
Qed.

(** X2. Interned strings are canonical: once [intern] has returned a string
    for some contents, every later [intern] of the same contents, whatever
    string is offered with it, returns that same string, and it neither
    links a node nor touches the weak storage, the item counter or the
    heap. *)
Theorem intern_is_canonical
    (fuel fuel2 : nat) (h h2 : option oop) (name : list jchar)
    (st st' : StringTable) (r : oop) :
  handles_allocated st ->
  (forall s, h = Some s -> oop_value s = name) ->
  intern fuel h name st = Some (Some r, st') ->
  exists st'',
    intern fuel2 h2 name st' = Some (Some r, st'')
    /\ local_table st'' = local_table st'
    /\ oop_storage st'' = oop_storage st'
    /\ items_count st'' = items_count st'
    /\ heap_top st'' = heap_top st'
    /\ alloc_budget st'' = alloc_budget st'.
Proof.
  intros Hwf Hh Hrun.
  destruct (intern_finds _ _ _ _ _ _ Hwf Hh Hrun) as [_ Hf].
  destruct (lookup_hit_intern fuel2 h2 name st' r Hf)
    as (st'' & Hrun2 & Ht & Hs & Hi & Hb & _ & Htop).
  exists st''. auto 10.
Qed.

Lemma lookup_tables_unchanged name st :
  shared_table (snd (lookup name st)) = shared_table st
  /\ local_table (snd (lookup name st)) = local_table st
  /\ oop_storage (snd (lookup name st)) = oop_storage st.
Proof.
  pose proof (lookup_frame name st) as (Hsh & _). split; [exact Hsh|].
  rewrite lookup_unfold. cbv zeta.
  set (st1 := log_event (EvSharedLookup (String_hash_code name) name) st).
  assert (Hf1 : local_table st1 = local_table st /\ oop_storage st1 = oop_storage st)
    by (subst st1; destruct st; repeat split).
  destruct Hf1 as (Ht1 & Hs1).
  destruct (shared_lookup _ _ _); cbn [snd]; [auto|].
  destruct (do_lookup_fields name (local_hash name st) st1) as (Ht2 & Hs2 & _).
  cbv zeta in *. split; congruence.
Qed.

End Lookups.

(** ** Interning contents the table does not hold *)

Section InternMiss.
Context `{Collaborators}.

Lemma do_lookup_none_get_node name hash st lk :
  fst (do_lookup name hash st) = None -> lookup_chars lk = name ->
  fst (get_node (oop_storage st) lk
         (get_bucket (local_table st) (bucket_index (size_log2 (local_table st)) hash)) 0)
  = None.
Proof.
  intros Hmiss Hlk.
  destruct (get_node (oop_storage st) lk _ 0) as [[wh0|] loops] eqn:Hfound; [|reflexivity].
  exfalso. apply get_node_found in Hfound as [Hin Heq].
  apply lookup_equals_spec in Heq as (o & Ho & Hv).
  apply (do_lookup_miss name hash st Hmiss wh0 o Hin Ho). congruence.
Qed.

Lemma do_intern_body_miss fuel hash s st :
  handles_allocated st ->
  fst (do_lookup (oop_value s) hash st) = None ->
  exists st',
    do_intern_loop (S fuel) (StringTableLookupOop hash s) s (notify_intern s st)
      = Some (Some s, st')
    /\ handles_allocated st'
    /\ thread_frame st st'
    /\ intern_links hash (oop_value s) st (Some s) st'.
Proof.
  intros Hwf Hmiss.
  destruct (notify_intern_fields s st) as (Ht & Hs & Hi).
  assert (Hth0 : thread_frame st (notify_intern s st)).
  { unfold notify_intern. destruct StringDedup_is_enabled; destruct st; repeat split. }
  assert (Hwf0 : handles_allocated (notify_intern s st))
    by (eapply handles_allocated_fields; eassumption).
  destruct (do_intern_loop_spec fuel (StringTableLookupOop hash s) s _ Hwf0)
    as (r & st' & Hrun & Hwf' & Hext & Hth & Hcase).
  cbn [lookup_get_hash] in Hcase. rewrite Ht, Hs, Hi in Hcase.
  rewrite (do_lookup_none_get_node (oop_value s) hash st (StringTableLookupOop hash s)
             Hmiss eq_refl) in Hcase.
  destruct Hcase as (Hr & Ht' & Hp' & _ & Hi' & _). subst r.
  exists st'. split; [exact Hrun|]. split; [exact Hwf'|].
  split; [unfold thread_frame in *; intuition congruence|].
  exists s. split; [reflexivity|]. split; [reflexivity|].
  split; [|split; [exact Ht'|split; [exact Hp'|split; [|exact Hi']]]].
  - intros wh0 o Hin Ho. exact (do_lookup_miss _ _ _ Hmiss wh0 o Hin Ho).
  - intros wh' Hlt. destruct Hext as (_ & _ & Hpeek & _).
    rewrite Hpeek by (rewrite Hs; exact Hlt). rewrite Hs. reflexivity.
Qed.

Lemma intern_links_fields hash name st0 st r st' :
  local_table st0 = local_table st -> oop_storage st0 = oop_storage st ->
  items_count st0 = items_count st ->
  intern_links hash name st0 r st' -> intern_links hash name st r st'.
Proof. unfold intern_links. intros -> -> ->. auto. Qed.

(** With the contents in neither table, [intern] links one node for the
    string offered, or for a string it creates; it returns [nullptr] only
    when that creation fails. *)
Lemma intern_miss_spec fuel h name st :
  handles_allocated st -> pending_exception st = false ->
  (forall s, h = Some s -> oop_value s = name) ->
  fst (lookup name st) = None ->
  (h = None /\ alloc_budget st = Some 0%nat
   /\ exists st', intern (S fuel) h name st = Some (None, st')
        /\ pending_exception st' = true /\ intern_keeps st st')
  \/ ((h <> None \/ alloc_budget st <> Some 0%nat)
      /\ exists st',
           intern (S fuel) h name st
             = Some (Some (default (mk_oop (heap_top st) name) h), st')
           /\ handles_allocated st'
           /\ pending_exception st' = false
           /\ intern_links (local_hash name st) name st
                (Some (default (mk_oop (heap_top st) name) h)) st').
Proof.
  intros Hwf Hpend Hh. rewrite lookup_result, intern_unfold. cbv zeta.
  set (st1 := log_event (EvSharedLookup (String_hash_code name) name) st).
  assert (Hf1 : local_table st1 = local_table st /\ oop_storage st1 = oop_storage st
                /\ items_count st1 = items_count st /\ thread_frame st st1)
    by (subst st1; destruct st; repeat split).
  destruct Hf1 as (Ht1 & Hs1 & Hi1 & Hth1).
  destruct (shared_lookup _ _ _) as [s|]; [discriminate|].
  intros Hmiss. rewrite <- (do_lookup_same_tables name _ st1 st Ht1 Hs1) in Hmiss.
  destruct (do_lookup_fields name (local_hash name st) st1) as (Ht2 & Hs2 & Hi2 & Hth2).
  cbv zeta in *.
  destruct (do_lookup name (local_hash name st) st1) as [[s|] st2] eqn:Hlook;
    cbn [fst snd] in *; [discriminate|].
  assert (Hta : local_table st2 = local_table st) by congruence.
  assert (Hsa : oop_storage st2 = oop_storage st) by congruence.
  assert (Hia : items_count st2 = items_count st) by congruence.
  assert (Hth : thread_frame st st2) by (unfold thread_frame in *; intuition congruence).
  destruct Hth as (Hb2 & Hp2 & Htop2).
  assert (Hwf2 : handles_allocated st2) by (eapply handles_allocated_fields; eassumption).
  assert (Hmiss2 : fst (do_lookup name (local_hash name st) st2) = None).
  { rewrite (do_lookup_same_tables name _ st2 st1 Ht2 Hs2), Hlook. reflexivity. }
  unfold do_intern. destruct h as [s|].
  - right. split; [left; discriminate|]. cbn [default].
    pose proof (Hh s eq_refl) as Hv. subst name.
    destruct (do_intern_body_miss fuel (local_hash (oop_value s) st) s st2 Hwf2 Hmiss2)
      as (st' & Hrun & Hwf' & (_ & Hp' & _) & Hl).
    exists st'. split; [exact Hrun|]. split; [exact Hwf'|]. split; [congruence|].
    eapply intern_links_fields; [| | |exact Hl]; congruence.
  - unfold create_from_unicode.
    destruct (try_allocate_cases st2)
      as [(Hok & Hbz & Hst) | (Hok & _ & Hcov & Ht0 & Hs0 & Hi0 & Hp0 & _)];
      destruct (try_allocate st2) as [ok st0] eqn:Hta2; cbn [fst snd] in *; subst ok.
    + left. split; [reflexivity|]. split; [congruence|].
      subst st0. exists (set_pending_exception true st2).
      replace (pending_exception (set_pending_exception true st2)) with true
        by (destruct st2; reflexivity).
      split; [reflexivity|]. split; [reflexivity|].
      apply intern_keeps_fields; destruct st2; assumption.
    + right. split.
      { right. intros Hz. rewrite Hb2, Hz in Hcov. discriminate. }
      set (st3 := set_heap_top (S (heap_top st0)) st0).
      assert (Htop0 : heap_top st0 = heap_top st).
      { rewrite <- Htop2. clear -Hta2. unfold try_allocate in Hta2.
        destruct (alloc_budget st2) as [[|k]|]; [discriminate| |];
          injection Hta2 as <-; destruct st2; reflexivity. }
      assert (Hf3 : local_table st3 = local_table st /\ oop_storage st3 = oop_storage st
                    /\ items_count st3 = items_count st
                    /\ pending_exception st3 = false)
        by (subst st3; destruct st0; cbn in *; repeat split; congruence).
      destruct Hf3 as (Ht3 & Hs3 & Hi3 & Hp3).
      rewrite Hp3. cbn [default]. rewrite <- Htop0.
      assert (Hwf3 : handles_allocated st3) by (eapply handles_allocated_fields; eassumption).
      assert (Hmiss3 : fst (do_lookup name (local_hash name st) st3) = None).
      { rewrite (do_lookup_same_tables name _ st3 st2), Hmiss2; [reflexivity| |]; congruence. }
      destruct (do_intern_body_miss fuel (local_hash name st)
                  (mk_oop (heap_top st0) name) st3 Hwf3 Hmiss3)
        as (st' & Hrun & Hwf' & (_ & Hp' & _) & Hl).
      exists st'. split; [exact Hrun|]. split; [exact Hwf'|]. split; [congruence|].
      eapply intern_links_fields; [| | |exact Hl]; congruence.
Qed.

End InternMiss.

(** ** Maintenance is invisible to probes *)

Section SameStrings.
Context `{Collaborators}.

Lemma same_strings_refl st : same_strings st st.
Proof. split; [reflexivity | tauto]. Qed.

Lemma same_strings_trans st1 st2 st3 :
  same_strings st1 st2 -> same_strings st2 st3 -> same_strings st1 st3.
Proof.
  intros [Hs1 H1] [Hs2 H2]. split; [congruence|].
  intros wh o. rewrite H1. apply H2.
Qed.

Lemma same_strings_fields st st' :
  shared_table st' = shared_table st ->
  (forall i, get_bucket (local_table st') i = get_bucket (local_table st) i) ->
  (forall wh, storage_peek (oop_storage st') wh = storage_peek (oop_storage st) wh) ->
  same_strings st st'.
Proof.
  intros Hsh Hb Hpk. split; [exact Hsh|]. intros wh o. unfold linked. rewrite Hpk.
  split; intros [(i & Hin) Ho]; (split; [|exact Ho]); exists i;
    [rewrite Hb | rewrite <- Hb]; exact Hin.
Qed.

Lemma same_strings_lookup st st' name :
  well_formed st -> well_formed st' -> same_strings st st' ->
  fst (lookup name st') = fst (lookup name st).
Proof.
  intros Hwf Hwf' [Hsh Hsame]. apply lookup_determined; assumption.
Qed.

Lemma same_strings_clean_dead_entries st :
  in_range st -> same_strings st (clean_dead_entries st).
Proof.
  intros Hrg. destruct (try_resize_lock (local_table st)) eqn:Hlock.
  - destruct (clean_dead_entries_spec st Hrg Hlock) as (_ & _ & _ & Hb & _ & Hrec).
    destruct Hrec as (_ & Hpk & _ & _ & _ & _ & _ & _ & Hfr).
    destruct Hfr as (Hsh & _).
    set (st' := clean_dead_entries st) in *.
    assert (Hf : shared_table (set_local_table (local_table st) st') = shared_table st'
                 /\ oop_storage (set_local_table (local_table st) st') = oop_storage st')
      by (destruct st'; split; reflexivity).
    destruct Hf as [Hf1 Hf2]. rewrite Hf1 in Hsh. rewrite Hf2 in Hpk.
    split; [exact Hsh|]. intros wh o. unfold linked. rewrite Hpk. split.
    + intros [(i & Hin) Ho]. split; [|exact Ho]. exists i. rewrite Hb.
      apply list_elem_of_filter. split; [rewrite Ho; eauto | exact Hin].
    + intros [(i & Hin) Ho]. split; [|exact Ho]. exists i. rewrite Hb in Hin.
      apply list_elem_of_filter in Hin as [_ Hin]. exact Hin.
  - unfold clean_dead_entries. rewrite Hlock. apply same_strings_refl.
Qed.

Lemma same_strings_move_all n st :
  (n <= 32)%nat ->
  handles_allocated st -> in_range st -> counted st -> NoDup (live_contents st) ->
  let mv := move_nodes (all_nodes (local_table st)) (new_table n) st in
  same_strings st (set_local_table (fst mv) (snd mv)).
Proof.
  intros Hn Hha Hrg Hcnt Hnd. cbv zeta.
  destruct (move_all_spec n st Hn Hha Hrg Hcnt Hnd)
    as (_ & _ & _ & _ & _ & _ & Hrec & Hos & Hlinked).
  cbv zeta in *. set (mv := move_nodes _ _ st) in *.
  destruct Hrec as (_ & Hpk & _ & _ & _ & _ & _ & _ & Hfr). destruct Hfr as (Hsh & _).
  split; [destruct (snd mv); exact Hsh|].
  intros wh o. rewrite Hos, Hpk. split; intros [Hl Ho]; (split; [|exact Ho]);
    apply (Hlinked wh); try exact Hl; rewrite Ho; eauto.
Qed.

Lemma same_strings_grow st : well_formed st -> same_strings st (grow st).
Proof.
  intros (Hha & Hrg & Hpl & Hcnt & Hsd & Hep & Hnd). rewrite grow_unfold. cbv zeta.
  destruct (grow_prepare (local_table st)) eqn:Hprep; [|apply same_strings_refl].
  assert (Hmax : (S (size_log2 (local_table st)) <= 32)%nat).
  { destruct Hsd as [_ Hle]. unfold END_SIZE in Hle. lia. }
  pose proof (same_strings_move_all _ st Hmax Hha Hrg Hcnt Hnd) as Hsame. cbv zeta in Hsame.
  eapply same_strings_trans; [exact Hsame|].
  set (st1 := set_local_table _ _).
  apply same_strings_fields; intros; destruct st1; reflexivity.
Qed.

Lemma same_strings_do_concurrent_work st :
  well_formed st -> same_strings st (do_concurrent_work st).
Proof.
  intros Hwf. unfold do_concurrent_work. cbv zeta.
  destruct (_ && _).
  - eapply same_strings_trans; [apply same_strings_grow; exact Hwf|].
    apply same_strings_fields; intros; destruct (grow st); reflexivity.
  - eapply same_strings_trans;
      [apply same_strings_clean_dead_entries; destruct Hwf as (_ & Hrg & _); exact Hrg|].
    apply same_strings_fields; intros; destruct (clean_dead_entries st); reflexivity.
Qed.

Lemma same_strings_rehash_table seed st :
  well_formed st -> same_strings st (rehash_table seed st).
Proof.
  intros Hwf.
  destruct (growth_preferred st) eqn:Hgrow.
  { unfold rehash_table. unfold growth_preferred in Hgrow. rewrite Hgrow.
    apply same_strings_fields; intros; destruct st; reflexivity. }
  destruct (rehashed st) eqn:Hre.
  { unfold rehash_table. unfold growth_preferred in Hgrow. rewrite Hgrow, Hre.
    apply same_strings_fields; intros; destruct st; reflexivity. }
  rewrite (rehash_table_unfold seed st Hre Hgrow). cbv zeta.
  rewrite (do_rehash_unfold (set_alt_hash_seed seed st)). cbv zeta.
  pose proof Hwf as (Hha & Hrg & Hpl & Hcnt & Hsd & Hep & Hnd).
  destruct (negb (is_safepoint_safe _)); cbn [fst snd].
  { apply same_strings_fields; intros; destruct st; reflexivity. }
  destruct (negb (try_resize_lock _)); cbn [fst snd].
  { apply same_strings_fields; intros; destruct st; reflexivity. }
  set (st2 := set_alt_hash true (set_alt_hash_seed seed st)).
  assert (Hf2 : local_table st2 = local_table st /\ oop_storage st2 = oop_storage st
                /\ items_count st2 = items_count st /\ shared_table st2 = shared_table st)
    by (subst st2; destruct st; cbn; auto).
  destruct Hf2 as (Ht2 & Hs2 & Hi2 & Hsh2).
  replace (local_table (set_alt_hash_seed seed st)) with (local_table st2)
    by (subst st2; destruct st; reflexivity).
  destruct (consistent_transfer st st2) as (Hrg2 & Hcnt2 & Hnd2);
    [rewrite Ht2; reflexivity | intros i; rewrite Ht2; reflexivity
     | intros wh; rewrite Hs2; reflexivity | exact Hi2 | auto |].
  assert (Hha2 : handles_allocated st2) by (eapply handles_allocated_fields; eassumption).
  assert (Hn : (size_log2 (local_table st2) <= 32)%nat).
  { rewrite Ht2. destruct Hsd as [_ Hle]. unfold END_SIZE in Hle. lia. }
  pose proof (same_strings_move_all _ st2 Hn Hha2 Hrg2 Hcnt2 Hnd2) as Hsame.
  cbv zeta in Hsame.
  eapply same_strings_trans;
    [apply (same_strings_fields st st2); [exact Hsh2 | intros; rewrite Ht2; reflexivity
                                          | intros; rewrite Hs2; reflexivity]|].
  eapply same_strings_trans; [exact Hsame|].
  set (mv := move_nodes _ _ st2).
  apply same_strings_fields; intros; destruct (snd mv); reflexivity.
Qed.

End SameStrings.

(** ** Verification *)



(** ** Properties of the entry points *)

Lemma storage_peek_clear s wh wh' :
  storage_peek (storage_clear wh s) wh'
  = if decide (wh' = wh) then None else storage_peek s wh'.
Proof.
  unfold storage_peek, storage_clear. cbn [cells].
  destruct (decide (wh' = wh)) as [->|Hne].
  - rewrite lookup_alter_eq. destruct (cells s !! wh); reflexivity.
  - rewrite lookup_alter_ne by congruence. reflexivity.
Qed.

Section EntryPoints.
Context `{Collaborators}.

(** X4. [intern] returns [nullptr] exactly when it has to create the
    string itself and the allocation fails: no string was offered, neither
    table holds the contents, and the allocation budget of the thread is
    used up.  The exception is then pending, and the buckets, the cells of
    the weak storage and the item counter are what they were.  From a
    well-formed state with no exception pending the call returns. *)
Theorem intern_null_iff_allocation_fails
    (fuel : nat) (h : option oop) (name : list jchar) (st : StringTable) :
  handles_allocated st -> pending_exception st = false ->
  (forall s, h = Some s -> oop_value s = name) ->
  exists r st',
    intern (S fuel) h name st = Some (r, st')
    /\ (r = None <->
        h = None /\ fst (lookup name st) = None /\ alloc_budget st = Some 0%nat)
    /\ (r = None -> pending_exception st' = true /\ intern_keeps st st').
Proof.
  intros Hwf Hpend Hh.
  destruct (fst (lookup name st)) as [o|] eqn:Hlook.
  - destruct (lookup_hit_intern (S fuel) h name st o Hlook) as (st' & Hrun & _).
    exists (Some o), st'. split; [exact Hrun|].
    split; [split; [discriminate | intros (_ & Hn & _); discriminate]|discriminate].
  - destruct (intern_miss_spec fuel h name st Hwf Hpend Hh Hlook)
      as [(Hn & Hb & st' & Hrun & Hp & Hk) | (Hsome & st' & Hrun & _)].
    + exists None, st'. split; [exact Hrun|]. split; [|auto]. split; auto.
    + eexists _, st'. split; [exact Hrun|].
      split; [|discriminate]. split; [discriminate|].
      intros (Hn & _ & Hb). destruct Hsome; contradiction.
Qed.

(** X5. When neither table holds the contents, [intern] makes the string
    offered the interned one, or the string it creates at the top of the
    heap when none is offered and the allocation succeeds: that string is
    returned, one fresh node for it is linked at the head of the bucket its
    hash selects, the item counter goes up by one, and no other handle
    resolves differently. *)
Theorem intern_miss_links_one_node
    (fuel : nat) (h : option oop) (name : list jchar) (st : StringTable) :
  handles_allocated st -> pending_exception st = false ->
  (forall s, h = Some s -> oop_value s = name) ->
  fst (lookup name st) = None ->
  h <> None \/ alloc_budget st <> Some 0%nat ->
  exists st',
    intern (S fuel) h name st = Some (Some (default (mk_oop (heap_top st) name) h), st')
    /\ intern_links (local_hash name st) name st
         (Some (default (mk_oop (heap_top st) name) h)) st'
    /\ pending_exception st' = false.
Proof.
  intros Hwf Hpend Hh Hlook Hcan.
  destruct (intern_miss_spec fuel h name st Hwf Hpend Hh Hlook)
    as [(Hn & Hb & _) | (_ & st' & Hrun & _ & Hp & Hl)].
  - destruct Hcan; contradiction.
  - exists st'. auto.
Qed.

(** X6. [lookup] only reads the tables: the archived table, the buckets,
    the weak storage and the item counter are what they were, the
    rehash-needed flag is at most raised, and a lookup made afterwards, for
    any contents, answers what it would have answered before. *)
Theorem lookup_is_read_only (name name' : list jchar) (st : StringTable) :
  let st' := snd (lookup name st) in
  shared_table st' = shared_table st
  /\ local_table st' = local_table st
  /\ oop_storage st' = oop_storage st
  /\ items_count st' = items_count st
  /\ (needs_rehashing st = true -> needs_rehashing st' = true)
  /\ fst (lookup name' st') = fst (lookup name' st).
Proof.
  cbv zeta. pose proof (lookup_frame name st) as Hfr.
  assert (Hf : local_table (snd (lookup name st)) = local_table st
               /\ oop_storage (snd (lookup name st)) = oop_storage st
               /\ items_count (snd (lookup name st)) = items_count st
               /\ (needs_rehashing st = true ->
                   needs_rehashing (snd (lookup name st)) = true)).
  { rewrite lookup_unfold. cbv zeta.
    set (st1 := log_event (EvSharedLookup (String_hash_code name) name) st).
    assert (Hf1 : local_table st1 = local_table st /\ oop_storage st1 = oop_storage st
                  /\ items_count st1 = items_count st
                  /\ needs_rehashing st1 = needs_rehashing st)
      by (subst st1; destruct st; repeat split).
    destruct Hf1 as (Ht1 & Hs1 & Hi1 & Hn1).
    destruct (shared_lookup _ _ _); cbn [snd]; [rewrite Hn1; auto|].
    destruct (do_lookup_fields name (local_hash name st) st1) as (Ht2 & Hs2 & Hi2 & _).
    cbv zeta in *. split; [congruence|]. split; [congruence|]. split; [congruence|].
    rewrite do_lookup_unfold. cbv zeta. cbn [snd].
    destruct (snd (fst _)); cbn [update_needs_rehash].
    - intros _. destruct st1; reflexivity.
    - intros Hn. rewrite <- Hn1 in Hn. destruct st1; exact Hn. }
  destruct Hf as (Ht & Hs & Hi & Hn). pose proof Hfr as (Hsh & _).
  split; [exact Hsh|]. split; [exact Ht|]. split; [exact Hs|]. split; [exact Hi|].
  split; [exact Hn|].
  rewrite !lookup_result, Hsh, (local_hash_frame name' _ _ Hfr).
  destruct (shared_lookup _ _ _); [reflexivity|].
  apply do_lookup_same_tables; assumption.
Qed.

(** X7. Every state the entry points can reach from the start of the VM is
    well-formed.  After [create_table] with a size of at most [2 ^ 24], and
    after any history of lookups, interns, collector notifications,
    concurrent work, rehashes, drains of the archived table, cleared
    referents and changes of the resize lock: every handle in a bucket, in
    the release log or in a cell was handed out by the storage; every node
    is in a bucket of the table, and every live node in the bucket the hash
    in use selects for its contents; [_items_count] is the number of nodes;
    [_current_size] is the bucket count, at most [2 ^ 24]; the alternate
    hash is in use only after a rehash; no two live nodes hold equal
    contents. *)
Theorem reachable_states_well_formed
    (ops : list op) (StringTableSize : Z) (archived : SharedStringTable)
    (top : nat) (budget : option nat) (st' : StringTable) :
  StringTableSize <= 2 ^ Z.of_nat END_SIZE ->
  run ops (create_table StringTableSize (static_init archived top budget)) = Some st' ->
  well_formed st'.
Proof.
  intros Hn Hrun. eapply run_well_formed; [exact Hrun|].
  apply create_table_well_formed. exact Hn.
Qed.


(** X9. A well-formed table finds every live string it holds: if a linked
    node resolves to a string and the archived table has no entry for its
    contents, [lookup] of these contents answers with that string. *)
Theorem lookup_finds_live_node (st : StringTable) (wh : WeakHandle) (o : oop) :
  well_formed st -> linked st wh -> storage_peek (oop_storage st) wh = Some o ->
  shared_lookup (shared_table st) (oop_value o) (String_hash_code (oop_value o)) = None ->
  fst (lookup (oop_value o) st) = Some o.
Proof.
  intros Hwf Hl Ho Hmiss. rewrite lookup_result, Hmiss.
  apply lookup_local_iff; [exact Hwf|]. split; [reflexivity|]. eauto.
Qed.

(** X10. The concurrent work is invisible to lookups: whether it grows the
    table, cleans dead entries or finds the table held by another task, a
    [lookup] of any contents answers afterwards what it answered before. *)
Theorem concurrent_work_keeps_lookups (st : StringTable) (name : list jchar) :
  well_formed st ->
  fst (lookup name (do_concurrent_work st)) = fst (lookup name st).
Proof.
  intros Hwf. apply same_strings_lookup; [exact Hwf| |].
  - apply well_formed_do_concurrent_work. exact Hwf.
  - apply same_strings_do_concurrent_work. exact Hwf.
Qed.

(** X11. A rehash is invisible to lookups: after [rehash_table], whether it
    rehashed under the new seed, asked for growth instead or gave up, a
    [lookup] of any contents answers what it answered before, although the
    hash in use and the bucket of every node may have changed. *)
Theorem rehash_table_keeps_lookups (seed : Z) (st : StringTable) (name : list jchar) :
  well_formed st ->
  fst (lookup name (rehash_table seed st)) = fst (lookup name st).
Proof.
  intros Hwf. apply same_strings_lookup; [exact Hwf| |].
  - apply well_formed_rehash_table. exact Hwf.
  - apply same_strings_rehash_table. exact Hwf.
Qed.

End EntryPoints.

Lemma length_filter_complement {A} (P : A -> Prop) `{!forall x, Decision (P x)} (l : list A) :
  (length (filter P l) + length (filter (fun x => ~ P x) l) = length l)%nat.
Proof.
  rewrite <- length_app. apply Permutation_length. apply filter_app_complement.
Qed.

Lemma reclaimed_items nodes st st' :
  reclaimed nodes st st' -> 0 <= items_count st < size_t_max ->
  items_count st'
  = wrap_size_t (items_count st
                 - Z.of_nat (length (filter
                     (fun wh => ~ is_Some (storage_peek (oop_storage st) wh)) nodes))).
Proof.
  intros (_ & _ & _ & _ & _ & (k & Hk) & Hrange & _) Hi. cbv zeta in Hk.
  pose proof (length_filter_complement
                (fun wh => is_Some (storage_peek (oop_storage st) wh)) nodes) as Hlen.
  symmetry. apply (wrap_size_t_unique _ _ (- k)); [auto|]. lia.
Qed.

Section Tasks.
Context `{Collaborators}.

(** X12. When it can take the resize lock, [clean_dead_entries] removes
    exactly the nodes whose string is gone: every chain keeps its live
    nodes, in their order; each dead node went back to the weak storage
    through [free_node] once, in scan order; the item counter went down by
    the number of dead nodes; and no handle resolves differently. *)
Theorem clean_dead_entries_removes_dead (st : StringTable) :
  in_range st -> 0 <= items_count st < size_t_max ->
  try_resize_lock (local_table st) = true ->
  let st' := clean_dead_entries st in
  let live wh := is_Some (storage_peek (oop_storage st) wh) in
  let dead := filter (fun wh => ~ live wh) (all_nodes (local_table st)) in
  (forall i, get_bucket (local_table st') i = filter live (get_bucket (local_table st) i))
  /\ (forall wh, storage_peek (oop_storage st') wh = storage_peek (oop_storage st) wh)
  /\ release_log (oop_storage st') = rev dead ++ release_log (oop_storage st)
  /\ items_count st' = wrap_size_t (items_count st - Z.of_nat (length dead))
  /\ size_log2 (local_table st') = size_log2 (local_table st).
Proof.
  intros Hrg Hi Hlock. cbv zeta.
  destruct (clean_dead_entries_spec st Hrg Hlock) as (Hsz & _ & _ & Hb & _ & Hrec).
  pose proof (reclaimed_items _ _ _ Hrec Hi) as Hitems.
  destruct Hrec as (_ & Hpk & _ & Hlog & _). cbv zeta in Hlog.
  set (st' := clean_dead_entries st) in *.
  assert (Hf : oop_storage (set_local_table (local_table st) st') = oop_storage st'
               /\ items_count (set_local_table (local_table st) st') = items_count st')
    by (destruct st'; split; reflexivity).
  destruct Hf as [Hf1 Hf2]. rewrite Hf1 in Hpk, Hlog. rewrite Hf2 in Hitems. auto.
Qed.

(** X13. When the grow task can start, [grow] doubles the table: the new
    table has twice the buckets, [_current_size] is the new bucket count,
    the nodes of the new table are the live nodes of the old one, the dead
    ones went back to the weak storage once each and were taken off the item
    counter, and no handle resolves differently.  When the task cannot
    start, nothing changes. *)
Theorem grow_doubles_table (st : StringTable) :
  0 <= items_count st < size_t_max ->
  let st' := grow st in
  let live wh := is_Some (storage_peek (oop_storage st) wh) in
  let dead := filter (fun wh => ~ live wh) (all_nodes (local_table st)) in
  (grow_prepare (local_table st) = false -> st' = st)
  /\ (grow_prepare (local_table st) = true ->
      size_log2 (local_table st') = S (size_log2 (local_table st))
      /\ current_size st' = 2 * 2 ^ Z.of_nat (size_log2 (local_table st))
      /\ table_size st' = current_size st'
      /\ all_nodes (local_table st') ≡ₚ filter live (all_nodes (local_table st))
      /\ (forall wh, storage_peek (oop_storage st') wh = storage_peek (oop_storage st) wh)
      /\ release_log (oop_storage st') = rev dead ++ release_log (oop_storage st)
      /\ items_count st' = wrap_size_t (items_count st - Z.of_nat (length dead))).
Proof.
  intros Hi. cbv zeta. rewrite grow_unfold. cbv zeta.
  split; [intros ->; reflexivity|]. intros ->.
  destruct (move_nodes_spec (all_nodes (local_table st))
              (new_table (S (size_log2 (local_table st)))) st) as (Hrec & Hperm & _ & Hsz).
  rewrite all_nodes_new_table, app_nil_r in Hperm. cbn [size_log2 new_table] in Hsz.
  pose proof (reclaimed_items _ _ _ Hrec Hi) as Hitems.
  destruct Hrec as (_ & Hpk & _ & Hlog & _). cbv zeta in Hlog.
  set (mv := move_nodes _ _ st) in *.
  set (st' := set_current_size _ _).
  assert (Hf : local_table st' = fst mv /\ oop_storage st' = oop_storage (snd mv)
               /\ items_count st' = items_count (snd mv)
               /\ current_size st' = 2 ^ Z.of_nat (S (size_log2 (local_table st))))
    by (subst st'; destruct (snd mv); cbn; auto).
  destruct Hf as (Ht & Hs & Hic & Hcs).
  assert (Hpow : 2 ^ Z.of_nat (S (size_log2 (local_table st)))
                 = 2 * 2 ^ Z.of_nat (size_log2 (local_table st)))
    by (rewrite Nat2Z.inj_succ, Z.pow_succ_r by lia; reflexivity).
  split; [rewrite Ht; exact Hsz|]. split; [rewrite Hcs; exact Hpow|].
  split; [unfold table_size; rewrite Ht, Hsz, Hcs, Z.shiftl_1_l; reflexivity|].
  split; [rewrite Ht; exact Hperm|]. split; [intros wh; rewrite Hs; apply Hpk|].
  split; [rewrite Hs; exact Hlog|]. rewrite Hic. exact Hitems.
Qed.

(** X14. Concurrent work leaves no dead entry behind.  When the resize lock
    can be taken, [do_concurrent_work] ends with every node of the table
    alive, whether it cleaned or grew ("we prefer growing, since that also
    removes dead items"), with the item counter at the number of live
    nodes, and with the work flag cleared. *)
Theorem concurrent_work_drops_dead (st : StringTable) :
  well_formed st -> try_resize_lock (local_table st) = true ->
  let st' := do_concurrent_work st in
  (forall wh, linked st' wh -> is_Some (storage_peek (oop_storage st') wh))
  /\ items_count st' = wrap_size_t (Z.of_nat (length (live_contents st')))
  /\ has_work st' = false.
Proof.
  intros Hwf Hlock. cbv zeta.
  pose proof (well_formed_do_concurrent_work st Hwf) as Hwf'.
  assert (Hlive : forall wh, wh ∈ all_nodes (local_table (do_concurrent_work st)) ->
            is_Some (storage_peek (oop_storage (do_concurrent_work st)) wh)).
  { pose proof Hwf as (Hha & Hrg & _ & Hcnt & _ & _ & Hnd).
    unfold do_concurrent_work. cbv zeta.
    destruct (Double.gt _ _ && negb (is_max_size_reached (local_table st))) eqn:Hbranch.
    - assert (Hprep : grow_prepare (local_table st) = true).
      { unfold grow_prepare. rewrite Hlock. apply andb_true_iff in Hbranch as [_ ->].
        reflexivity. }
      replace (local_table (set_has_work false (grow st))) with (local_table (grow st))
        by (destruct (grow st); reflexivity).
      replace (oop_storage (set_has_work false (grow st))) with (oop_storage (grow st))
        by (destruct (grow st); reflexivity).
      rewrite grow_unfold. cbv zeta. rewrite Hprep.
      destruct (move_nodes_spec (all_nodes (local_table st))
                  (new_table (S (size_log2 (local_table st)))) st)
        as ((_ & Hpk & _) & Hperm & _).
      rewrite all_nodes_new_table, app_nil_r in Hperm.
      set (mv := move_nodes _ _ st) in *.
      replace (local_table (set_current_size _ (set_local_table (fst mv) (snd mv))))
        with (fst mv) by (destruct (snd mv); reflexivity).
      replace (oop_storage (set_current_size _ (set_local_table (fst mv) (snd mv))))
        with (oop_storage (snd mv)) by (destruct (snd mv); reflexivity).
      intros wh Hin. rewrite Hperm in Hin. apply list_elem_of_filter in Hin as [Hl _].
      rewrite Hpk. exact Hl.
    - replace (local_table (set_has_work false (clean_dead_entries st)))
        with (local_table (clean_dead_entries st))
        by (destruct (clean_dead_entries st); reflexivity).
      replace (oop_storage (set_has_work false (clean_dead_entries st)))
        with (oop_storage (clean_dead_entries st))
        by (destruct (clean_dead_entries st); reflexivity).
      destruct (clean_dead_entries_spec st Hrg Hlock) as (_ & _ & _ & _ & Hall & Hrec).
      destruct Hrec as (_ & Hpk & _).
      replace (oop_storage (set_local_table (local_table st) (clean_dead_entries st)))
        with (oop_storage (clean_dead_entries st)) in Hpk
        by (destruct (clean_dead_entries st); reflexivity).
      intros wh Hin. rewrite Hall in Hin. apply list_elem_of_filter in Hin as [Hl _].
      rewrite Hpk. exact Hl. }
  destruct Hwf' as (_ & Hrg' & _ & Hcnt' & _).
  split; [|split].
  - intros wh Hl. apply Hlive. apply linked_all_nodes; assumption.
  - rewrite Hcnt'. f_equal. f_equal. unfold live_contents.
    induction (all_nodes (local_table (do_concurrent_work st))) as [|a l IH]; [reflexivity|].
    cbn [omap list_omap length].
    destruct (Hlive a (list_elem_of_here _ _)) as [o Ho]. rewrite Ho.
    cbn [fmap option_fmap option_map length]. f_equal. apply IH.
    intros wh Hin. apply Hlive. by apply list_elem_of_further.
  - unfold do_concurrent_work. cbv zeta. destruct (_ && _);
      [destruct (grow st) | destruct (clean_dead_entries st)]; reflexivity.
Qed.

End Tasks.

(** X15. Notifications of the collector are coalesced: over any run of
    [gc_notification] calls with no concurrent work in between, the service
    thread is notified at most once, by the first call whose counts ask for
    work, and not at all when work was already outstanding. *)
Theorem gc_notifications_coalesce (nums : list Z) (st : StringTable) :
  let st' := foldl (fun s num_dead => gc_notification num_dead s) st nums in
  (has_work st = true -> st' = st)
  /\ (st' = st \/ st' = trigger_concurrent_work st).
Proof.
  cbv zeta.
  assert (Hidle : forall l s, has_work s = true ->
            foldl (fun s num_dead => gc_notification num_dead s) s l = s).
  { induction l as [|n l IH]; intros s Hw; [reflexivity|].
    cbn [foldl]. unfold gc_notification at 2. rewrite Hw. apply IH. exact Hw. }
  split; [apply Hidle|].
  induction nums as [|n l IH] in st |- *; [left; reflexivity|].
  cbn [foldl]. unfold gc_notification at 2 4.
  destruct (has_work st) eqn:Hw.
  - left. apply Hidle. exact Hw.
  - destruct (_ || _).
    + right. apply Hidle. destruct st; reflexivity.
    + apply IH.
Qed.

Section Stability.
Context `{Collaborators}.

Lemma intern_strings fuel h name st r st' :
  handles_allocated st -> (forall s, h = Some s -> oop_value s = name) ->
  intern fuel h name st = Some (r, st') ->
  (forall wh o, linked st wh -> storage_peek (oop_storage st) wh = Some o ->
     linked st' wh /\ storage_peek (oop_storage st') wh = Some o)
  /\ (forall wh o, linked st' wh -> storage_peek (oop_storage st') wh = Some o ->
        (linked st wh /\ storage_peek (oop_storage st) wh = Some o) \/ oop_value o = name).
Proof.
  intros Hwf Hh Hrun.
  destruct (intern_effect _ _ _ _ _ _ Hwf Hh Hrun) as [_ [(Ht & Hc & _)|Hl]].
  - assert (Hpk : forall wh, storage_peek (oop_storage st') wh = storage_peek (oop_storage st) wh)
      by (intros wh; unfold storage_peek; rewrite Hc; reflexivity).
    unfold linked. rewrite Ht. split; intros wh o Hl Ho.
    + rewrite Hpk. auto.
    + left. rewrite Hpk in Ho. auto.
  - destruct Hl as (s & _ & Hv & _ & Ht' & Hnew & Hold & _).
    destruct Hwf as (Hbk & _).
    set (i := bucket_index (size_log2 (local_table st)) (local_hash name st)) in *.
    split; intros wh o [j Hin] Ho.
    + split.
      * exists j. rewrite Ht'. destruct (decide (i = j)) as [<-|Hne].
        -- rewrite get_bucket_set_bucket_eq. by apply list_elem_of_further.
        -- rewrite get_bucket_set_bucket_ne by exact Hne. exact Hin.
      * rewrite Hold by exact (Hbk _ _ Hin). exact Ho.
    + rewrite Ht' in Hin.
      assert (Hcase : wh = next_cell (oop_storage st) \/ wh ∈ get_bucket (local_table st) j).
      { destruct (decide (i = j)) as [<-|Hne].
        - rewrite get_bucket_set_bucket_eq in Hin. apply elem_of_cons in Hin. exact Hin.
        - rewrite get_bucket_set_bucket_ne in Hin by exact Hne. auto. }
      destruct Hcase as [->|Hin0].
      * right. rewrite Hnew in Ho. inversion Ho; subst o. exact Hv.
      * left. split; [exists j; exact Hin0|].
        rewrite Hold in Ho by exact (Hbk _ _ Hin0). exact Ho.
Qed.

Lemma intern_answers
    (fuel : nat) (h : option oop) (name name' : list jchar)
    (st st' : StringTable) (r : option oop) :
  well_formed st ->
  (forall s, h = Some s -> oop_value s = name) ->
  intern fuel h name st = Some (r, st') ->
  (forall o, fst (lookup name' st) = Some o -> fst (lookup name' st') = Some o)
  /\ (name' <> name -> fst (lookup name' st') = fst (lookup name' st)).
Proof.
  intros Hwf Hh Hrun. pose proof Hwf as (Hha & _).
  pose proof (well_formed_intern _ _ _ _ _ _ Hwf Hh Hrun) as Hwf'.
  pose proof (intern_frame_intern _ _ _ _ _ _ Hrun) as (Hsh & _).
  destruct (intern_strings _ _ _ _ _ _ Hha Hh Hrun) as [Hkeep Hnew].
  rewrite !lookup_result, Hsh.
  destruct (shared_lookup _ _ _); [auto|].
  assert (Hmono : forall o, fst (do_lookup name' (local_hash name' st) st) = Some o ->
            fst (do_lookup name' (local_hash name' st') st') = Some o).
  { intros o Hf. apply (lookup_local_iff st name' o Hwf) in Hf as (Hv & wh & Hl & Ho).
    apply (lookup_local_iff st' name' o Hwf'). split; [exact Hv|].
    exists wh. apply Hkeep; assumption. }
  split; [exact Hmono|]. intros Hne. apply option_eq. intros o. split; [|apply Hmono].
  intros Hf. apply (lookup_local_iff st' name' o Hwf') in Hf as (Hv & wh & Hl & Ho).
  apply (lookup_local_iff st name' o Hwf). split; [exact Hv|].
  destruct (Hnew wh o Hl Ho) as [[Hl0 Ho0]|Hv0]; [eauto|]. congruence.
Qed.

(** X16. Interning does not disturb what is interned: after [intern] of
    some contents, a [lookup] that found a string before finds the same
    string, and a [lookup] of any other contents answers what it answered
    before. *)
Theorem intern_keeps_answers
    (fuel : nat) (h : option oop) (name name' : list jchar)
    (st st' : StringTable) (r : option oop) :
  well_formed st ->
  (forall s, h = Some s -> oop_value s = name) ->
  intern fuel h name st = Some (r, st') ->
  (forall o, fst (lookup name' st) = Some o -> fst (lookup name' st') = Some o)
  /\ (name' <> name -> fst (lookup name' st') = fst (lookup name' st)).
Proof. apply intern_answers. Qed.

(** X17. A string the collector has cleared is forgotten: once the
    referent of a linked node is gone, a [lookup] of its contents misses
    (the archived table not holding them either), although the dead node is
    still linked and counted; and an [intern] of these contents adopts the
    string offered with it as the interned one. *)
Theorem collected_string_is_forgotten
    (fuel : nat) (st : StringTable) (wh : WeakHandle) (o s : oop) :
  well_formed st -> pending_exception st = false ->
  linked st wh -> storage_peek (oop_storage st) wh = Some o ->
  shared_lookup (shared_table st) (oop_value o) (String_hash_code (oop_value o)) = None ->
  oop_value s = oop_value o ->
  let st' := set_oop_storage (storage_clear wh (oop_storage st)) st in
  fst (lookup (oop_value o) st') = None
  /\ linked st' wh
  /\ items_count st' = items_count st
  /\ exists st'', intern (S fuel) (Some s) (oop_value o) st' = Some (Some s, st'').
Proof.
  intros Hwf Hpend Hl Ho Hmiss Hs. cbv zeta.
  pose proof (well_formed_collect wh st Hwf) as Hwf'.
  set (st' := set_oop_storage _ st) in *.
  assert (Hf : local_table st' = local_table st /\ items_count st' = items_count st
               /\ shared_table st' = shared_table st
               /\ pending_exception st' = pending_exception st
               /\ oop_storage st' = storage_clear wh (oop_storage st))
    by (subst st'; destruct st; cbn; auto 10).
  destruct Hf as (Ht & Hi & Hsh & Hp & Hst).
  assert (Hlook : fst (lookup (oop_value o) st') = None).
  { rewrite lookup_result, Hsh, Hmiss.
    destruct (fst (do_lookup _ _ st')) as [o'|] eqn:Hf; [|reflexivity]. exfalso.
    apply (lookup_local_iff st' _ o' Hwf') in Hf as (Hv & wh' & Hl' & Ho').
    rewrite Hst, storage_peek_clear in Ho'.
    destruct (decide (wh' = wh)) as [->|Hne]; [discriminate|].
    apply Hne. apply (well_formed_unique st wh' wh o' o Hwf); try assumption.
    destruct Hl' as [j Hin]. exists j. rewrite <- Ht. exact Hin. }
  split; [exact Hlook|].
  split; [destruct Hl as [j Hin]; exists j; rewrite Ht; exact Hin|].
  split; [exact Hi|].
  destruct Hwf' as (Hha' & _).
  destruct (intern_miss_spec fuel (Some s) (oop_value o) st' Hha')
    as [(Hn & _) | (_ & st'' & Hrun & _)]; try assumption.
  - congruence.
  - intros s0 Hs0. inversion Hs0; subst. exact Hs.
  - discriminate.
  - exists st''. exact Hrun.
Qed.

End Stability.

(** ** The archived table and the concurrent table *)

Section TwoTables.
Context `{Collaborators}.

Lemma intern_shared_hit fuel h name st r st' s :
  shared_lookup (shared_table st) name (String_hash_code name) = Some s ->
  intern fuel h name st = Some (r, st') ->
  local_table st' = local_table st /\ oop_storage st' = oop_storage st.
Proof.
  intros Hhit. rewrite intern_unfold. cbv zeta. rewrite Hhit.
  intros Hr. inversion Hr; subst. destruct st; split; reflexivity.
Qed.

Lemma archive_disjoint_same st st' :
  same_strings st st' -> archive_disjoint st -> archive_disjoint st'.
Proof.
  intros [Hsh Hsame] Hd wh o Hl Ho. rewrite Hsh.
  destruct (proj2 (Hsame wh o) (conj Hl Ho)) as [Hl0 Ho0]. exact (Hd wh o Hl0 Ho0).
Qed.

Lemma archive_disjoint_intern fuel h name st r st' :
  handles_allocated st -> (forall s, h = Some s -> oop_value s = name) ->
  intern fuel h name st = Some (r, st') ->
  archive_disjoint st -> archive_disjoint st'.
Proof.
  intros Hwf Hh Hrun Hd wh o Hl Ho.
  pose proof (intern_frame_intern _ _ _ _ _ _ Hrun) as (Hsh & _). rewrite Hsh.
  destruct (intern_strings _ _ _ _ _ _ Hwf Hh Hrun) as [_ Hnew].
  destruct (Hnew wh o Hl Ho) as [[Hl0 Ho0]|Hv]; [exact (Hd wh o Hl0 Ho0)|].
  rewrite Hv.
  destruct (shared_lookup (shared_table st) name (String_hash_code name)) as [s|] eqn:Hhit;
    [|reflexivity].
  exfalso. destruct (intern_shared_hit _ _ _ _ _ _ _ Hhit Hrun) as [Ht Hs].
  assert (Hl0 : linked st wh) by (destruct Hl as [j Hin]; exists j; rewrite <- Ht; exact Hin).
  rewrite Hs in Ho. pose proof (Hd wh o Hl0 Ho) as Hmiss. rewrite Hv in Hmiss. congruence.
Qed.

Lemma archive_disjoint_fields st st' :
  shared_table st' = shared_table st -> local_table st' = local_table st ->
  oop_storage st' = oop_storage st ->
  archive_disjoint st -> archive_disjoint st'.
Proof. unfold archive_disjoint, linked. intros -> -> ->. auto. Qed.

Lemma archive_disjoint_intern_symbol fuel symbol st r st' :
  handles_allocated st -> intern_symbol fuel symbol st = Some (r, st') ->
  archive_disjoint st -> archive_disjoint st'.
Proof.
  intros Hwf. destruct symbol as [sym|]; simpl.
  - intros Hr. apply check_null_state in Hr as [res0 Hr].
    eapply archive_disjoint_intern; [exact Hwf| |exact Hr]. discriminate.
  - intros Hr. inversion Hr; subst. auto.
Qed.

Lemma archive_disjoint_intern_utf8 fuel u st r st' :
  handles_allocated st -> intern_utf8 fuel u st = Some (r, st') ->
  archive_disjoint st -> archive_disjoint st'.
Proof.
  intros Hwf. destruct u as [u|]; simpl.
  - intros Hr. apply check_null_state in Hr as [res0 Hr].
    eapply archive_disjoint_intern; [exact Hwf| |exact Hr]. discriminate.
  - intros Hr. inversion Hr; subst. auto.
Qed.

Lemma try_allocate_tables st :
  shared_table (snd (try_allocate st)) = shared_table st
  /\ local_table (snd (try_allocate st)) = local_table st
  /\ oop_storage (snd (try_allocate st)) = oop_storage st
  /\ items_count (snd (try_allocate st)) = items_count st.
Proof.
  unfold try_allocate. destruct (alloc_budget st) as [[|k]|]; destruct st; repeat split.
Qed.

(** A call of [intern] on a string that returns with no exception pending
    is the call of the inner [intern] with the contents of that string. *)
Lemma intern_oop_inner fuel s st r st' :
  intern_oop fuel (Some s) st = Some (r, st') -> pending_exception st' = false ->
  pending_exception (snd (try_allocate st)) = false
  /\ exists r0, intern fuel (Some s) (oop_value s) (snd (try_allocate st)) = Some (r0, st').
Proof.
  cbn [intern_oop]. unfold as_unicode_string. intros Hrun Hp.
  destruct (try_allocate_cases st) as [(Hok & _ & Hst)|(Hok & _)];
    destruct (try_allocate st) as [ok st0]; cbn [fst snd] in *; subst ok.
  - subst st0.
    replace (pending_exception (set_pending_exception true st)) with true in Hrun
      by (destruct st; reflexivity).
    inversion Hrun; subst. destruct st; discriminate.
  - destruct (pending_exception st0) eqn:Hp0.
    + inversion Hrun; subst. congruence.
    + split; [reflexivity|]. apply check_null_state in Hrun. exact Hrun.
Qed.

Lemma archive_disjoint_intern_oop fuel string st r st' :
  handles_allocated st -> intern_oop fuel string st = Some (r, st') ->
  archive_disjoint st -> archive_disjoint st'.
Proof.
  intros Hwf Hrun Hd. destruct string as [s|];
    [|cbn in Hrun; inversion Hrun; subst; exact Hd].
  destruct (try_allocate_tables st) as (Hsh0 & Ht0 & Hs0 & Hi0).
  assert (Hd0 : archive_disjoint (snd (try_allocate st)))
    by (eapply archive_disjoint_fields; eassumption).
  assert (Hwf0 : handles_allocated (snd (try_allocate st)))
    by (eapply handles_allocated_fields; eassumption).
  cbn [intern_oop] in Hrun. unfold as_unicode_string in Hrun.
  destruct (try_allocate_cases st) as [(Hok & _ & Hst)|(Hok & _)];
    destruct (try_allocate st) as [ok st0]; cbn [fst snd] in *; subst ok.
  - subst st0.
    replace (pending_exception (set_pending_exception true st)) with true in Hrun
      by (destruct st; reflexivity).
    inversion Hrun; subst. exact Hd0.
  - destruct (pending_exception st0).
    + inversion Hrun; subst. exact Hd0.
    + apply check_null_state in Hrun as [r0 Hrun].
      eapply archive_disjoint_intern; [exact Hwf0| |exact Hrun|exact Hd0].
      intros s0 Hs. inversion Hs; subst. reflexivity.
Qed.

Lemma shared_iterate_shared_table fuel entries st st' :
  shared_iterate fuel entries st = Some st' -> shared_table st' = shared_table st.
Proof.
  revert st. induction entries as [|e rest IH]; intros st; cbn [shared_iterate].
  - intros Hr. inversion Hr; subst. reflexivity.
  - unfold SharedStringTransfer_do_value.
    destruct (intern_oop fuel (Some (snd e)) st) as [[r st1]|] eqn:Hrun; [|discriminate].
    pose proof (intern_oop_frame _ _ _ _ _ Hrun) as (Hsh & _).
    set (st2 := if pending_exception st1 then set_vm_exited true st1 else st1).
    assert (Hsh2 : shared_table st2 = shared_table st)
      by (subst st2; destruct (pending_exception st1); [destruct st1|]; exact Hsh).
    destruct (vm_exited st2).
    + intros Hr. inversion Hr; subst. exact Hsh2.
    + intros Hr. rewrite (IH _ Hr). exact Hsh2.
Qed.

Lemma exec_archive_disjoint o st st' :
  exec o st = Some st' -> well_formed st -> archive_disjoint st -> archive_disjoint st'.
Proof.
  intros Hexec Hwf. pose proof Hwf as (Hha & Hrg & _). revert Hexec.
  destruct o; cbn [exec].
  - intros Hr. inversion Hr; subst.
    destruct (lookup_tables_unchanged name st) as (Hsh & Ht & Hs).
    eapply archive_disjoint_fields; eassumption.
  - destruct (intern_symbol _ _ _) as [[r st1]|] eqn:Hi; [|discriminate].
    intros Hr. inversion Hr; subst. eapply archive_disjoint_intern_symbol; eassumption.
  - destruct (intern_oop _ _ _) as [[r st1]|] eqn:Hi; [|discriminate].
    intros Hr. inversion Hr; subst. eapply archive_disjoint_intern_oop; eassumption.
  - destruct (intern_utf8 _ _ _) as [[r st1]|] eqn:Hi; [|discriminate].
    intros Hr. inversion Hr; subst. eapply archive_disjoint_intern_utf8; eassumption.
  - intros Hr. inversion Hr; subst. apply archive_disjoint_fields;
      unfold gc_notification, trigger_concurrent_work;
      destruct (has_work st); try reflexivity; destruct (_ || _); try reflexivity;
      destruct st; reflexivity.
  - intros Hr. inversion Hr; subst. apply archive_disjoint_same.
    apply same_strings_do_concurrent_work. exact Hwf.
  - intros Hr. inversion Hr; subst. apply archive_disjoint_same.
    apply same_strings_rehash_table. exact Hwf.
  - unfold transfer_shared_strings_to_local_table. intros Hrun _ wh o _ _.
    rewrite (shared_iterate_shared_table _ _ _ _ Hrun).
    replace (shared_table (set_shared_table [] st)) with (@nil (Z * oop))
      by (destruct st; reflexivity).
    reflexivity.
  - intros Hr. inversion Hr; subst. intros Hd wh' o [j Hin] Ho.
    replace (shared_table (set_oop_storage (storage_clear wh (oop_storage st)) st))
      with (shared_table st) by (destruct st; reflexivity).
    replace (oop_storage (set_oop_storage (storage_clear wh (oop_storage st)) st))
      with (storage_clear wh (oop_storage st)) in Ho by (destruct st; reflexivity).
    replace (local_table (set_oop_storage (storage_clear wh (oop_storage st)) st))
      with (local_table st) in Hin by (destruct st; reflexivity).
    rewrite storage_peek_clear in Ho. destruct (decide (wh' = wh)); [discriminate|].
    apply (Hd wh' o); [exists j; exact Hin | exact Ho].
  - intros Hr. inversion Hr; subst. apply archive_disjoint_same.
    apply same_strings_fields; intros; destruct st as [a t]; destruct t; reflexivity.
Qed.

Lemma run_archive_disjoint ops st st' :
  run ops st = Some st' -> well_formed st -> archive_disjoint st -> archive_disjoint st'.
Proof.
  revert st. induction ops as [|o rest IH]; intros st; cbn [run].
  - intros Hr. inversion Hr; subst. auto.
  - destruct (exec o st) as [st1|] eqn:He; [|discriminate].
    intros Hrun Hwf Hd. eapply IH; [exact Hrun| |].
    + eapply exec_well_formed; eassumption.
    + eapply exec_archive_disjoint; eassumption.
Qed.

Lemma shared_lookup_cons e t name hash :
  shared_lookup (e :: t) name hash
  = if (fst e =? hash) && String_equals_chars (snd e) name then Some (snd e)
    else shared_lookup t name hash.
Proof.
  unfold shared_lookup. cbn [find].
  destruct ((fst e =? hash) && String_equals_chars (snd e) name); reflexivity.
Qed.

(** While the drain runs, what a lookup will answer is fixed: a string the
    concurrent table holds already, and otherwise the first entry still to
    come that has the contents asked for. *)
Lemma shared_iterate_answers fuel entries st st' :
  well_formed st -> shared_table st = [] -> archive_hashed entries ->
  shared_iterate fuel entries st = Some st' -> vm_exited st' = false ->
  forall name,
    fst (lookup name st')
    = match fst (lookup name st) with
      | Some x => Some x
      | None => shared_lookup entries name (String_hash_code name)
      end.
Proof.
  revert st. induction entries as [|e rest IH]; intros st Hwf Hempty Hhashed;
    cbn [shared_iterate].
  - intros Hr _ name. inversion Hr; subst. destruct (fst (lookup name st')); reflexivity.
  - unfold SharedStringTransfer_do_value.
    destruct (intern_oop fuel (Some (snd e)) st) as [[r st1]|] eqn:Hrun; [|discriminate].
    destruct (pending_exception st1) eqn:Hp1.
    { replace (vm_exited (set_vm_exited true st1)) with true by (destruct st1; reflexivity).
      intros Hr Hv. inversion Hr; subst. destruct st1; discriminate. }
    destruct (vm_exited st1) eqn:Hv1; [intros Hr Hv; inversion Hr; subst; congruence|].
    intros Hiter Hv name.
    destruct (intern_oop_inner _ _ _ _ _ Hrun Hp1) as [Hpend0 [r0 Hinner]].
    set (st0 := snd (try_allocate st)) in *.
    pose proof (well_formed_try_allocate st Hwf) as Hwf0. fold st0 in Hwf0.
    destruct (try_allocate_tables st) as (Hsh0 & Ht0 & Hs0 & _). fold st0 in Hsh0, Ht0, Hs0.
    assert (Hfr0 : intern_frame st st0) by apply intern_frame_try_allocate.
    assert (Hl0 : forall n, fst (lookup n st0) = fst (lookup n st)).
    { intros n. rewrite !lookup_result, Hsh0, (local_hash_frame n _ _ Hfr0).
      destruct (shared_lookup _ _ _); [reflexivity|].
      apply do_lookup_same_tables; assumption. }
    assert (Hcontents : forall s0, Some (snd e) = Some s0 -> oop_value s0 = oop_value (snd e))
      by (intros s0 Hs; inversion Hs; subst; reflexivity).
    pose proof (well_formed_intern _ _ _ _ _ _ Hwf0 Hcontents Hinner) as Hwf1.
    pose proof (intern_frame_intern _ _ _ _ _ _ Hinner) as Hfr1.
    assert (Hempty1 : shared_table st1 = [])
      by (destruct Hfr1 as (Hsh1 & _); rewrite Hsh1, Hsh0; exact Hempty).
    assert (Hhashed' : archive_hashed rest)
      by (intros e' He'; apply Hhashed; by apply list_elem_of_further).
    rewrite (IH st1 Hwf1 Hempty1 Hhashed' Hiter Hv name).
    destruct (intern_answers fuel (Some (snd e)) (oop_value (snd e)) name st0 st1 r0
                Hwf0 Hcontents Hinner) as [Hmono Hother].
    rewrite shared_lookup_cons, <- Hl0.
    destruct (decide (name = oop_value (snd e))) as [->|Hne].
    + rewrite (Hhashed e) by apply list_elem_of_here. rewrite Z.eqb_refl.
      unfold String_equals_chars. rewrite bool_decide_eq_true_2 by reflexivity.
      cbn [andb].
      destruct (fst (lookup (oop_value (snd e)) st0)) as [x|] eqn:Hbefore.
      * rewrite (Hmono x eq_refl). reflexivity.
      * destruct Hwf0 as (Hha0 & _).
        destruct (intern_miss_spec (pred fuel) (Some (snd e)) (oop_value (snd e)) st0
                    Hha0 Hpend0 Hcontents Hbefore)
          as [(Hn & _) | (_ & st'' & Hrun' & _)]; [discriminate|].
        cbn [default] in Hrun'.
        destruct fuel as [|fuel'].
        { exfalso. clear -Hinner Hbefore Hha0. revert Hinner. rewrite intern_unfold. cbv zeta.
          rewrite lookup_result in Hbefore.
          destruct (shared_lookup _ _ _); [discriminate|].
          set (st1' := log_event _ st0).
          assert (Hsame : fst (do_lookup (oop_value (snd e))
                                 (local_hash (oop_value (snd e)) st0) st1') = None).
          { rewrite <- Hbefore. apply do_lookup_same_tables; subst st1'; destruct st0; reflexivity. }
          destruct (do_lookup _ _ st1') as [[x|] st2]; cbn [fst] in Hsame; [discriminate|].
          cbn. discriminate. }
        cbn [pred] in Hrun'. rewrite Hrun' in Hinner. inversion Hinner; subst r0 st''.
        destruct (intern_finds _ _ _ _ _ _ Hha0 Hcontents Hrun') as [_ Hf]. rewrite Hf.
        reflexivity.
    + rewrite (Hother Hne).
      unfold String_equals_chars. rewrite bool_decide_eq_false_2 by congruence.
      rewrite andb_false_r. reflexivity.
Qed.

(** X18. The forced drain of the archived table is invisible to lookups.
    In a well-formed state in which every archived entry is filed under the
    default hash of its contents and no string is alive in both tables, a
    drain that does not run out of memory leaves every answer of [lookup]
    as it was: an archived string is afterwards answered, the same string,
    by the concurrent table. *)
Theorem transfer_keeps_lookups (fuel : nat) (st st' : StringTable) (name : list jchar) :
  well_formed st -> archive_hashed (shared_table st) -> archive_disjoint st ->
  transfer_shared_strings_to_local_table fuel st = Some st' -> vm_exited st' = false ->
  fst (lookup name st') = fst (lookup name st).
Proof.
  intros Hwf Hhashed Hdis. unfold transfer_shared_strings_to_local_table.
  set (st0 := set_shared_table [] st). intros Hrun Hv.
  assert (Hf : shared_table st0 = [] /\ local_table st0 = local_table st
               /\ oop_storage st0 = oop_storage st /\ items_count st0 = items_count st
               /\ current_size st0 = current_size st /\ alt_hash st0 = alt_hash st
               /\ alt_hash_seed st0 = alt_hash_seed st /\ rehashed st0 = rehashed st)
    by (subst st0; destruct st; cbn; auto 10).
  destruct Hf as (Hsh0 & Ht0 & Hs0 & Hi0 & Hc0 & Ha0 & Hseed0 & Hre0).
  assert (Hwf0 : well_formed st0) by (eapply well_formed_fields; eassumption).
  rewrite (shared_iterate_answers fuel (shared_table st) st0 st' Hwf0 Hsh0 Hhashed Hrun Hv).
  rewrite !lookup_result, Hsh0. cbn [shared_lookup find fmap option_fmap option_map].
  assert (Hlocal : fst (do_lookup name (local_hash name st0) st0)
                   = fst (do_lookup name (local_hash name st) st)).
  { unfold local_hash. rewrite Ha0, Hseed0. apply do_lookup_same_tables; assumption. }
  change (snd <$> @None (Z * oop)) with (@None oop). rewrite Hlocal.
  destruct (fst (do_lookup name (local_hash name st) st)) as [x|] eqn:Hf.
  - apply (lookup_local_iff st name x Hwf) in Hf as (Hvx & wh & Hl & Ho).
    pose proof (Hdis wh x Hl Ho) as Hmiss. rewrite Hvx in Hmiss. rewrite Hmiss. reflexivity.
  - destruct (shared_lookup _ _ _); reflexivity.
Qed.

(** X19. No string is alive in both tables.  In every state reachable from
    the start of the VM, the archived table does not answer for the
    contents of any live node of the concurrent table: [intern] links a
    node only after the archived table has missed. *)
Theorem reachable_tables_disjoint
    (ops : list op) (StringTableSize : Z) (archived : SharedStringTable)
    (top : nat) (budget : option nat) (st' : StringTable) :
  StringTableSize <= 2 ^ Z.of_nat END_SIZE ->
  run ops (create_table StringTableSize (static_init archived top budget)) = Some st' ->
  archive_disjoint st'.
Proof.
  intros Hn Hrun.
  eapply run_archive_disjoint; [exact Hrun | apply create_table_well_formed; exact Hn|].
  intros wh o [j Hin] _. exfalso.
  change (local_table (create_table StringTableSize (static_init archived top budget)))
    with (new_table (Z.to_nat (Z.log2_up StringTableSize))) in Hin.
  rewrite get_bucket_new_table in Hin. by apply elem_of_nil in Hin.
Qed.

End TwoTables.

(** ** No handle is released twice *)

Section ReleaseSafe.
Context `{Collaborators}.

Lemma do_intern_body_miss_log fuel hash s st :
  handles_allocated st ->
  fst (do_lookup (oop_value s) hash st) = None ->
  exists st',
    do_intern_loop (S fuel) (StringTableLookupOop hash s) s (notify_intern s st)
      = Some (Some s, st')
    /\ release_log (oop_storage st') = release_log (oop_storage st).
Proof.
  intros Hwf Hmiss.
  destruct (notify_intern_fields s st) as (Ht & Hs & Hi).
  assert (Hwf0 : handles_allocated (notify_intern s st))
    by (eapply handles_allocated_fields; eassumption).
  destruct (do_intern_loop_spec fuel (StringTableLookupOop hash s) s _ Hwf0)
    as (r & st' & Hrun & _ & _ & _ & Hcase).
  cbn [lookup_get_hash] in Hcase. rewrite Ht, Hs, Hi in Hcase.
  rewrite (do_lookup_none_get_node (oop_value s) hash st (StringTableLookupOop hash s)
             Hmiss eq_refl) in Hcase.
  destruct Hcase as (Hr & _ & _ & Hlog & _). subst r.
  exists st'. split; [exact Hrun | exact Hlog].
Qed.

(** [intern] gives no handle back to the storage. *)
Lemma intern_release_log fuel h name st r st' :
  handles_allocated st -> (forall s, h = Some s -> oop_value s = name) ->
  intern fuel h name st = Some (r, st') ->
  release_log (oop_storage st') = release_log (oop_storage st).
Proof.
  intros Hwf Hh. rewrite intern_unfold. cbv zeta.
  set (st1 := log_event (EvSharedLookup (String_hash_code name) name) st).
  assert (Hf1 : local_table st1 = local_table st /\ oop_storage st1 = oop_storage st
                /\ items_count st1 = items_count st)
    by (subst st1; destruct st; repeat split).
  destruct Hf1 as (Ht1 & Hs1 & Hi1).
  destruct (shared_lookup _ _ _).
  { intros Hr. inversion Hr; subst. rewrite Hs1. reflexivity. }
  destruct (do_lookup_fields name (local_hash name st) st1) as (Ht2 & Hs2 & Hi2 & _).
  cbv zeta in *.
  destruct (do_lookup name (local_hash name st) st1) as [[o|] st2] eqn:Hlook; cbn [snd] in *.
  { intros Hr. inversion Hr; subst. rewrite Hs2, Hs1. reflexivity. }
  assert (Hwf2 : handles_allocated st2)
    by (eapply handles_allocated_fields; [| | |exact Hwf]; congruence).
  assert (Hmiss2 : fst (do_lookup name (local_hash name st) st2) = None).
  { rewrite (do_lookup_same_tables name _ st2 st1 Ht2 Hs2), Hlook. reflexivity. }
  assert (Hbody : forall s st0, oop_value s = name ->
            local_table st0 = local_table st2 -> oop_storage st0 = oop_storage st2 ->
            items_count st0 = items_count st2 ->
            do_intern_loop fuel (StringTableLookupOop (local_hash name st) s) s
              (notify_intern s st0) = Some (r, st') ->
            release_log (oop_storage st') = release_log (oop_storage st)).
  { intros s st0 Hv Ht0 Hs0 Hi0 Hrun. destruct fuel as [|fuel]; [discriminate|].
    assert (Hwf0 : handles_allocated st0) by (eapply handles_allocated_fields; eassumption).
    assert (Hmiss0 : fst (do_lookup (oop_value s) (local_hash name st) st0) = None).
    { rewrite Hv, (do_lookup_same_tables name _ st0 st2 Ht0 Hs0). exact Hmiss2. }
    destruct (do_intern_body_miss_log fuel _ s st0 Hwf0 Hmiss0) as (st'' & Hrun' & Hlog).
    rewrite Hrun' in Hrun. inversion Hrun; subst. rewrite Hlog, Hs0, Hs2, Hs1. reflexivity. }
  unfold do_intern. destruct h as [s|].
  - apply Hbody; auto.
  - unfold create_from_unicode.
    destruct (try_allocate_tables st2) as (_ & Ht0 & Hs0 & Hi0).
    destruct (try_allocate st2) as [ok st0]; cbn [fst snd] in *. destruct ok.
    + destruct (pending_exception (set_heap_top (S (heap_top st0)) st0)).
      * intros Hr. inversion Hr; subst.
        replace (oop_storage (set_heap_top (S (heap_top st0)) st0)) with (oop_storage st0)
          by (destruct st0; reflexivity).
        rewrite Hs0, Hs2, Hs1. reflexivity.
      * apply Hbody; [reflexivity|..]; destruct st0; assumption.
    + destruct (pending_exception st0); intros Hr; inversion Hr; subst;
        rewrite Hs0, Hs2, Hs1; reflexivity.
Qed.

Lemma release_safe_transfer st st' :
  (forall i, get_bucket (local_table st') i = get_bucket (local_table st) i) ->
  size_log2 (local_table st') = size_log2 (local_table st) ->
  release_log (oop_storage st') = release_log (oop_storage st) ->
  (forall wh, storage_peek (oop_storage st) wh = None ->
     storage_peek (oop_storage st') wh = None) ->
  release_safe st -> release_safe st'.
Proof.
  intros Hb Hsz Hlog Hpk (Hnd & Hnodes & Hrel).
  unfold release_safe. rewrite Hlog, (all_nodes_ext _ _ Hsz Hb).
  split; [exact Hnd|]. split; [exact Hnodes|].
  intros wh Hin. destruct (Hrel wh Hin) as [Hnl Hp]. split; [|auto].
  intros [j Hj]. apply Hnl. exists j. rewrite <- Hb. exact Hj.
Qed.

Lemma release_safe_fields st st' :
  local_table st' = local_table st -> oop_storage st' = oop_storage st ->
  release_safe st -> release_safe st'.
Proof. unfold release_safe, linked. intros -> ->. auto. Qed.

Lemma release_safe_intern fuel h name st r st' :
  well_formed st -> (forall s, h = Some s -> oop_value s = name) ->
  intern fuel h name st = Some (r, st') ->
  release_safe st -> release_safe st'.
Proof.
  intros Hwf Hh Hrun (Hnd & Hnodes & Hrel). pose proof Hwf as (Hha & Hrg & _).
  pose proof (intern_release_log _ _ _ _ _ _ Hha Hh Hrun) as Hlog.
  destruct (intern_effect _ _ _ _ _ _ Hha Hh Hrun) as [_ [(Ht & Hc & _)|Hl]].
  - unfold release_safe, linked. rewrite Hlog, Ht. split; [exact Hnd|]. split; [exact Hnodes|].
    intros wh Hin. unfold storage_peek. rewrite Hc. exact (Hrel wh Hin).
  - destruct Hl as (s & _ & _ & _ & Ht' & Hnew & Hold & _).
    destruct Hha as (Hbk & Hlg & _).
    set (i := bucket_index (size_log2 (local_table st)) (local_hash name st)) in *.
    set (wh := next_cell (oop_storage st)) in *.
    assert (Hperm : all_nodes (local_table st') ≡ₚ wh :: all_nodes (local_table st))
      by (rewrite Ht'; apply all_nodes_link, bucket_index_range).
    unfold release_safe. rewrite Hlog, Hperm.
    split; [exact Hnd|]. split.
    + apply NoDup_cons. split; [|exact Hnodes]. intros Hin.
      apply elem_of_all_nodes in Hin as (j & _ & Hin). pose proof (Hbk _ _ Hin). lia.
    + intros x Hx. destruct (Hrel x Hx) as [Hnl Hp]. pose proof (Hlg x Hx) as Hlt.
      split; [|rewrite Hold by exact Hlt; exact Hp].
      intros [j Hj]. rewrite Ht' in Hj. apply Hnl.
      destruct (decide (i = j)) as [<-|Hne].
      * rewrite get_bucket_set_bucket_eq in Hj. apply elem_of_cons in Hj as [->|Hj].
        -- subst wh. lia.
        -- exists i. exact Hj.
      * rewrite get_bucket_set_bucket_ne in Hj by exact Hne. exists j. exact Hj.
Qed.

(** A structural task that reclaims the nodes of the table and leaves the
    live ones linked keeps the handles safe. *)
Lemma release_safe_reclaim st st' :
  in_range st -> in_range st' ->
  reclaimed (all_nodes (local_table st)) st (set_local_table (local_table st) st') ->
  all_nodes (local_table st')
  ≡ₚ filter (fun wh => is_Some (storage_peek (oop_storage st) wh)) (all_nodes (local_table st)) ->
  release_safe st -> release_safe st'.
Proof.
  intros Hrg Hrg' Hrec Hperm (Hnd & Hnodes & Hrel).
  assert (Hf : oop_storage (set_local_table (local_table st) st') = oop_storage st')
    by (destruct st'; reflexivity).
  destruct Hrec as (_ & Hpk & _ & Hlog & _). cbv zeta in Hlog. rewrite Hf in Hpk, Hlog.
  unfold release_safe. rewrite Hlog, Hperm.
  split; [|split].
  - apply NoDup_app. split; [|split; [|exact Hnd]].
    + apply NoDup_ListNoDup. apply NoDup_rev. apply NoDup_ListNoDup.
      apply NoDup_filter. exact Hnodes.
    + intros x Hx Hold. apply elem_of_rev, list_elem_of_filter in Hx as [_ Hx].
      destruct (Hrel x Hold) as [Hnl _]. apply Hnl. apply linked_all_nodes; assumption.
  - apply NoDup_filter. exact Hnodes.
  - intros x Hx. rewrite Hpk. apply elem_of_app in Hx as [Hx|Hx].
    + apply elem_of_rev, list_elem_of_filter in Hx as [Hdead Hx]. split.
      * intros Hl. apply (linked_all_nodes st' x Hrg') in Hl. rewrite Hperm in Hl.
        apply list_elem_of_filter in Hl as [Hlive _]. contradiction.
      * destruct (storage_peek (oop_storage st) x); [|reflexivity].
        exfalso. apply Hdead. eauto.
    + destruct (Hrel x Hx) as [Hnl Hp]. split; [|exact Hp].
      intros Hl. apply (linked_all_nodes st' x Hrg') in Hl. rewrite Hperm in Hl.
      apply list_elem_of_filter in Hl as [_ Hl]. apply Hnl.
      apply linked_all_nodes; assumption.
Qed.

Lemma reclaimed_set_local_table nodes st x t :
  reclaimed nodes st x ->
  reclaimed nodes st (set_local_table (local_table st) (set_local_table t x)).
Proof. unfold reclaimed, maintenance_frame. destruct st, x. cbn. tauto. Qed.

Lemma release_safe_move_all n st :
  (n <= 32)%nat ->
  handles_allocated st -> in_range st -> counted st -> NoDup (live_contents st) ->
  release_safe st ->
  let mv := move_nodes (all_nodes (local_table st)) (new_table n) st in
  release_safe (set_local_table (fst mv) (snd mv)).
Proof.
  intros Hn Hha Hrg Hcnt Hnd Hsafe. cbv zeta.
  destruct (move_all_spec n st Hn Hha Hrg Hcnt Hnd) as (_ & Hrg' & _ & _ & _ & _ & Hrec & _).
  destruct (move_nodes_spec (all_nodes (local_table st)) (new_table n) st)
    as (_ & Hperm & _).
  rewrite all_nodes_new_table, app_nil_r in Hperm. cbv zeta in *.
  set (mv := move_nodes _ _ st) in *.
  apply (release_safe_reclaim st); try assumption.
  - apply reclaimed_set_local_table. exact Hrec.
  - replace (local_table (set_local_table (fst mv) (snd mv))) with (fst mv)
      by (destruct (snd mv); reflexivity).
    exact Hperm.
Qed.

Lemma release_safe_grow st : well_formed st -> release_safe st -> release_safe (grow st).
Proof.
  intros (Hha & Hrg & Hpl & Hcnt & Hsd & Hep & Hnd) Hsafe. rewrite grow_unfold. cbv zeta.
  destruct (grow_prepare (local_table st)); [|exact Hsafe].
  assert (Hmax : (S (size_log2 (local_table st)) <= 32)%nat).
  { destruct Hsd as [_ Hle]. unfold END_SIZE in Hle. lia. }
  pose proof (release_safe_move_all _ st Hmax Hha Hrg Hcnt Hnd Hsafe) as Hs. cbv zeta in Hs.
  eapply release_safe_fields; [| |exact Hs];
    destruct (set_local_table _ _); reflexivity.
Qed.

Lemma release_safe_clean_dead_entries st :
  well_formed st -> release_safe st -> release_safe (clean_dead_entries st).
Proof.
  intros Hwf Hsafe. pose proof Hwf as (_ & Hrg & _).
  pose proof (well_formed_clean_dead_entries st Hwf) as (_ & Hrg' & _).
  destruct (try_resize_lock (local_table st)) eqn:Hlock.
  - destruct (clean_dead_entries_spec st Hrg Hlock) as (_ & _ & _ & _ & Hall & Hrec).
    apply (release_safe_reclaim st); try assumption. rewrite Hall. reflexivity.
  - unfold clean_dead_entries. rewrite Hlock. exact Hsafe.
Qed.

Lemma release_safe_do_concurrent_work st :
  well_formed st -> release_safe st -> release_safe (do_concurrent_work st).
Proof.
  intros Hwf Hsafe. unfold do_concurrent_work. cbv zeta. destruct (_ && _).
  - eapply release_safe_fields; [| |exact (release_safe_grow st Hwf Hsafe)];
      destruct (grow st); reflexivity.
  - eapply release_safe_fields; [| |exact (release_safe_clean_dead_entries st Hwf Hsafe)];
      destruct (clean_dead_entries st); reflexivity.
Qed.

Lemma release_safe_rehash_table seed st :
  well_formed st -> release_safe st -> release_safe (rehash_table seed st).
Proof.
  intros Hwf Hsafe.
  destruct (growth_preferred st) eqn:Hgrow.
  { unfold rehash_table. unfold growth_preferred in Hgrow. rewrite Hgrow.
    eapply release_safe_fields; [| |exact Hsafe]; destruct st; reflexivity. }
  destruct (rehashed st) eqn:Hre.
  { unfold rehash_table. unfold growth_preferred in Hgrow. rewrite Hgrow, Hre.
    eapply release_safe_fields; [| |exact Hsafe]; destruct st; reflexivity. }
  rewrite (rehash_table_unfold seed st Hre Hgrow). cbv zeta.
  rewrite (do_rehash_unfold (set_alt_hash_seed seed st)). cbv zeta.
  pose proof Hwf as (Hha & Hrg & Hpl & Hcnt & Hsd & Hep & Hnd).
  destruct (negb (is_safepoint_safe _)); cbn [fst snd].
  { eapply release_safe_fields; [| |exact Hsafe]; destruct st; reflexivity. }
  destruct (negb (try_resize_lock _)); cbn [fst snd].
  { eapply release_safe_fields; [| |exact Hsafe]; destruct st; reflexivity. }
  set (st2 := set_alt_hash true (set_alt_hash_seed seed st)).
  assert (Hf2 : local_table st2 = local_table st /\ oop_storage st2 = oop_storage st
                /\ items_count st2 = items_count st)
    by (subst st2; destruct st; cbn; auto).
  destruct Hf2 as (Ht2 & Hs2 & Hi2).
  replace (local_table (set_alt_hash_seed seed st)) with (local_table st2)
    by (subst st2; destruct st; reflexivity).
  destruct (consistent_transfer st st2) as (Hrg2 & Hcnt2 & Hnd2);
    [rewrite Ht2; reflexivity | intros i; rewrite Ht2; reflexivity
     | intros wh; rewrite Hs2; reflexivity | exact Hi2 | auto |].
  assert (Hha2 : handles_allocated st2) by (eapply handles_allocated_fields; eassumption).
  assert (Hsafe2 : release_safe st2) by (eapply release_safe_fields; eassumption).
  assert (Hn : (size_log2 (local_table st2) <= 32)%nat).
  { rewrite Ht2. destruct Hsd as [_ Hle]. unfold END_SIZE in Hle. lia. }
  pose proof (release_safe_move_all _ st2 Hn Hha2 Hrg2 Hcnt2 Hnd2 Hsafe2) as Hs.
  cbv zeta in Hs. set (mv := move_nodes _ _ st2) in *.
  eapply release_safe_fields; [| |exact Hs]; destruct (snd mv); reflexivity.
Qed.

Lemma release_safe_intern_oop fuel string st r st' :
  well_formed st -> intern_oop fuel string st = Some (r, st') ->
  release_safe st -> release_safe st'.
Proof.
  intros Hwf Hrun Hsafe. destruct string as [s|];
    [|cbn in Hrun; inversion Hrun; subst; exact Hsafe].
  destruct (try_allocate_tables st) as (_ & Ht0 & Hs0 & _).
  assert (Hsafe0 : release_safe (snd (try_allocate st)))
    by (eapply release_safe_fields; eassumption).
  pose proof (well_formed_try_allocate st Hwf) as Hwf0.
  cbn [intern_oop] in Hrun. unfold as_unicode_string in Hrun.
  destruct (try_allocate_cases st) as [(Hok & _ & Hst)|(Hok & _)];
    destruct (try_allocate st) as [ok st0]; cbn [fst snd] in *; subst ok.
  - subst st0.
    replace (pending_exception (set_pending_exception true st)) with true in Hrun
      by (destruct st; reflexivity).
    inversion Hrun; subst. exact Hsafe0.
  - destruct (pending_exception st0).
    + inversion Hrun; subst. exact Hsafe0.
    + apply check_null_state in Hrun as [r0 Hrun].
      eapply release_safe_intern; [exact Hwf0| |exact Hrun|exact Hsafe0].
      intros s0 Hs. inversion Hs; subst. reflexivity.
Qed.

Lemma release_safe_shared_iterate fuel entries st st' :
  well_formed st -> shared_iterate fuel entries st = Some st' ->
  release_safe st -> release_safe st'.
Proof.
  revert st. induction entries as [|e rest IH]; intros st Hwf; cbn [shared_iterate].
  - intros Hr. inversion Hr; subst. auto.
  - unfold SharedStringTransfer_do_value.
    destruct (intern_oop fuel (Some (snd e)) st) as [[r st1]|] eqn:Hrun; [|discriminate].
    intros Hiter Hsafe.
    pose proof (well_formed_intern_oop _ _ _ _ _ Hwf Hrun) as Hwf1.
    pose proof (release_safe_intern_oop _ _ _ _ _ Hwf Hrun Hsafe) as Hsafe1.
    set (st2 := if pending_exception st1 then set_vm_exited true st1 else st1) in *.
    assert (Hwf2 : well_formed st2).
    { subst st2. destruct (pending_exception st1); [|exact Hwf1].
      eapply well_formed_fields; [..|exact Hwf1]; destruct st1; reflexivity. }
    assert (Hsafe2 : release_safe st2).
    { subst st2. destruct (pending_exception st1); [|exact Hsafe1].
      eapply release_safe_fields; [| |exact Hsafe1]; destruct st1; reflexivity. }
    destruct (vm_exited st2).
    + inversion Hiter; subst. exact Hsafe2.
    + exact (IH st2 Hwf2 Hiter Hsafe2).
Qed.

Lemma exec_release_safe o st st' :
  exec o st = Some st' -> well_formed st -> release_safe st -> release_safe st'.
Proof.
  intros Hexec Hwf. revert Hexec. destruct o; cbn [exec].
  - intros Hr. inversion Hr; subst.
    destruct (lookup_tables_unchanged name st) as (_ & Ht & Hs).
    apply release_safe_fields; assumption.
  - destruct symbol as [sym|]; cbn [intern_symbol].
    + destruct (check_null _) as [[r st1]|] eqn:Hi; [|discriminate].
      intros Hr. inversion Hr; subst. apply check_null_state in Hi as [r0 Hi].
      eapply release_safe_intern; [exact Hwf| |exact Hi]. discriminate.
    + intros Hr. inversion Hr; subst. auto.
  - destruct (intern_oop _ _ _) as [[r st1]|] eqn:Hi; [|discriminate].
    intros Hr. inversion Hr; subst. eapply release_safe_intern_oop; eassumption.
  - destruct utf8_string as [u|]; cbn [intern_utf8].
    + destruct (check_null _) as [[r st1]|] eqn:Hi; [|discriminate].
      intros Hr. inversion Hr; subst. apply check_null_state in Hi as [r0 Hi].
      eapply release_safe_intern; [exact Hwf| |exact Hi]. discriminate.
    + intros Hr. inversion Hr; subst. auto.
  - intros Hr. inversion Hr; subst. apply release_safe_fields;
      unfold gc_notification, trigger_concurrent_work;
      destruct (has_work st); try reflexivity; destruct (_ || _); try reflexivity;
      destruct st; reflexivity.
  - intros Hr. inversion Hr; subst. apply release_safe_do_concurrent_work. exact Hwf.
  - intros Hr. inversion Hr; subst. apply release_safe_rehash_table. exact Hwf.
  - unfold transfer_shared_strings_to_local_table. intros Hrun Hsafe.
    eapply release_safe_shared_iterate; [|exact Hrun|].
    + eapply well_formed_fields; [..|exact Hwf]; destruct st; reflexivity.
    + eapply release_safe_fields; [| |exact Hsafe]; destruct st; reflexivity.
  - intros Hr. inversion Hr; subst. apply release_safe_transfer; try (destruct st; reflexivity).
    intros x.
    replace (oop_storage (set_oop_storage (storage_clear wh (oop_storage st)) st))
      with (storage_clear wh (oop_storage st)) by (destruct st; reflexivity).
    rewrite storage_peek_clear. destruct (decide (x = wh)); auto.
  - intros Hr. inversion Hr; subst.
    apply release_safe_transfer; try (destruct st as [a t]; destruct t; reflexivity).
    destruct st. auto.
Qed.

Lemma run_release_safe ops st st' :
  run ops st = Some st' -> well_formed st -> release_safe st -> release_safe st'.
Proof.
  revert st. induction ops as [|o rest IH]; intros st; cbn [run].
  - intros Hr. inversion Hr; subst. auto.
  - destruct (exec o st) as [st1|] eqn:He; [|discriminate].
    intros Hrun Hwf Hd. eapply IH; [exact Hrun| |].
    + eapply exec_well_formed; eassumption.
    + eapply exec_release_safe; eassumption.
Qed.

(** X20. The life of a weak handle ends once.  In every state reachable
    from the start of the VM no handle went back to the weak storage twice,
    no handle is linked into the table twice, and a handle that went back is
    neither linked nor resolved any more. *)
Theorem reachable_handles_released_once
    (ops : list op) (StringTableSize : Z) (archived : SharedStringTable)
    (top : nat) (budget : option nat) (st' : StringTable) :
  StringTableSize <= 2 ^ Z.of_nat END_SIZE ->
  run ops (create_table StringTableSize (static_init archived top budget)) = Some st' ->
  release_safe st'.
Proof.
  intros Hn Hrun.
  eapply run_release_safe; [exact Hrun | apply create_table_well_formed; exact Hn|].
  set (st0 := create_table StringTableSize (static_init archived top budget)).
  assert (Hf : local_table st0 = new_table (Z.to_nat (Z.log2_up StringTableSize))
               /\ oop_storage st0 = mk_storage ∅ 0 []) by (split; reflexivity).
  destruct Hf as [Ht Hs]. unfold release_safe. rewrite Ht, Hs, all_nodes_new_table.
  split; [constructor|]. split; [constructor|].
  intros wh Hin. by apply elem_of_nil in Hin.
Qed.

End ReleaseSafe.

(** ** The size of the table *)

Section TableSize.
Context `{Collaborators}.

Lemma shared_iterate_size fuel entries st st' :
  shared_iterate fuel entries st = Some st' ->
  size_log2 (local_table st') = size_log2 (local_table st).
Proof.
  revert st. induction entries as [|e rest IH]; intros st; cbn [shared_iterate].
  - intros Hr. inversion Hr; subst. reflexivity.
  - unfold SharedStringTransfer_do_value.
    destruct (intern_oop fuel (Some (snd e)) st) as [[r st1]|] eqn:Hrun; [|discriminate].
    pose proof (intern_oop_frame _ _ _ _ _ Hrun) as (_ & _ & _ & _ & _ & _ & _ & Hsz & _).
    set (st2 := if pending_exception st1 then set_vm_exited true st1 else st1).
    assert (Hsz2 : size_log2 (local_table st2) = size_log2 (local_table st))
      by (subst st2; destruct (pending_exception st1); [destruct st1|]; exact Hsz).
    destruct (vm_exited st2).
    + intros Hr. inversion Hr; subst. exact Hsz2.
    + intros Hr. rewrite (IH _ Hr). exact Hsz2.
Qed.

Lemma exec_size o st st' :
  exec o st = Some st' ->
  size_log2 (local_table st') = size_log2 (local_table st)
  \/ (o = OpDoConcurrentWork
      /\ size_log2 (local_table st') = S (size_log2 (local_table st))
      /\ (size_log2 (local_table st) < END_SIZE)%nat).
Proof.
  destruct o; cbn [exec].
  - intros Hr. inversion Hr; subst. left.
    destruct (lookup_frame name st) as (_ & _ & _ & _ & _ & _ & _ & Hsz & _). exact Hsz.
  - destruct (intern_symbol _ _ _) as [[r st1]|] eqn:Hi; [|discriminate].
    intros Hr. inversion Hr; subst. left.
    destruct (intern_symbol_frame _ _ _ _ _ Hi) as (_ & _ & _ & _ & _ & _ & _ & Hsz & _).
    exact Hsz.
  - destruct (intern_oop _ _ _) as [[r st1]|] eqn:Hi; [|discriminate].
    intros Hr. inversion Hr; subst. left.
    destruct (intern_oop_frame _ _ _ _ _ Hi) as (_ & _ & _ & _ & _ & _ & _ & Hsz & _).
    exact Hsz.
  - destruct (intern_utf8 _ _ _) as [[r st1]|] eqn:Hi; [|discriminate].
    intros Hr. inversion Hr; subst. left.
    destruct (intern_utf8_frame _ _ _ _ _ Hi) as (_ & _ & _ & _ & _ & _ & _ & Hsz & _).
    exact Hsz.
  - intros Hr. inversion Hr; subst. left.
    unfold gc_notification, trigger_concurrent_work.
    destruct (has_work st); [reflexivity|]. destruct (_ || _); [|reflexivity].
    destruct st; reflexivity.
  - intros Hr. inversion Hr; subst. unfold do_concurrent_work. cbv zeta.
    destruct (_ && _).
    + replace (local_table (set_has_work false (grow st))) with (local_table (grow st))
        by (destruct (grow st); reflexivity).
      rewrite grow_unfold. cbv zeta.
      destruct (grow_prepare (local_table st)) eqn:Hprep; [|left; reflexivity].
      right. split; [reflexivity|].
      destruct (move_nodes_spec (all_nodes (local_table st))
                  (new_table (S (size_log2 (local_table st)))) st) as (_ & _ & _ & Hsz).
      cbn [size_log2 new_table] in Hsz. split.
      * destruct (snd (move_nodes _ _ _)); exact Hsz.
      * unfold grow_prepare, is_max_size_reached in Hprep.
        apply andb_true_iff in Hprep as [_ Hm]. apply negb_true_iff in Hm.
        apply bool_decide_eq_false in Hm. lia.
    + left.
      replace (local_table (set_has_work false (clean_dead_entries st)))
        with (local_table (clean_dead_entries st))
        by (destruct (clean_dead_entries st); reflexivity).
      unfold clean_dead_entries. destruct (negb _); [reflexivity|].
      apply (bulk_delete_spec _ st (NoDup_bucket_indices _)).
  - intros Hr. inversion Hr; subst. left.
    destruct (growth_preferred st) eqn:Hgrow.
    { unfold rehash_table. unfold growth_preferred in Hgrow. rewrite Hgrow.
      destruct st; reflexivity. }
    destruct (rehashed st) eqn:Hre.
    { unfold rehash_table. unfold growth_preferred in Hgrow. rewrite Hgrow, Hre.
      destruct st; reflexivity. }
    rewrite (rehash_table_unfold seed st Hre Hgrow). cbv zeta.
    rewrite (do_rehash_unfold (set_alt_hash_seed seed st)). cbv zeta.
    destruct (negb (is_safepoint_safe _)); cbn [fst snd]; [destruct st; reflexivity|].
    destruct (negb (try_resize_lock _)); cbn [fst snd]; [destruct st; reflexivity|].
    destruct (move_nodes_spec (all_nodes (local_table (set_alt_hash_seed seed st)))
                (new_table (size_log2 (local_table (set_alt_hash_seed seed st))))
                (set_alt_hash true (set_alt_hash_seed seed st))) as (_ & _ & _ & Hsz).
    cbn [size_log2 new_table] in Hsz.
    destruct (snd (move_nodes _ _ _)). cbn. rewrite Hsz. destruct st; reflexivity.
  - unfold transfer_shared_strings_to_local_table. intros Hrun. left.
    rewrite (shared_iterate_size _ _ _ _ Hrun). destruct st; reflexivity.
  - intros Hr. inversion Hr; subst. left. destruct st; reflexivity.
  - intros Hr. inversion Hr; subst. left. destruct st as [a t]; destruct t; reflexivity.
Qed.

(** X21. The table never shrinks.  Over any history the number of buckets
    does not go down; one call changes it only when it is the concurrent
    work growing a table below its largest size, and then it doubles. *)
Theorem table_never_shrinks (ops : list op) (st st' : StringTable) :
  run ops st = Some st' ->
  (size_log2 (local_table st) <= size_log2 (local_table st'))%nat
  /\ forall o st1, exec o st' = Some st1 ->
       size_log2 (local_table st1) = size_log2 (local_table st')
       \/ (o = OpDoConcurrentWork
           /\ size_log2 (local_table st1) = S (size_log2 (local_table st'))
           /\ (size_log2 (local_table st') < END_SIZE)%nat).
Proof.
  intros Hrun. split; [|intros o st1; apply exec_size].
  revert st Hrun. induction ops as [|o rest IH]; intros st; cbn [run].
  - intros Hr. inversion Hr; subst. lia.
  - destruct (exec o st) as [st1|] eqn:He; [|discriminate].
    intros Hrun. specialize (IH st1 Hrun).
    destruct (exec_size o st st1 He) as [Heq|(_ & Heq & _)]; lia.
Qed.

End TableSize.

(** ** Archived strings as offsets *)

Lemma wrap_intx_small z : - 2 ^ 63 <= z < 2 ^ 63 -> wrap_intx z = z.
Proof. intros Hz. unfold wrap_intx. rewrite Z.mod_small by lia. lia. Qed.

(** X22. The offsets of archived strings decode to where the strings are.
    For a string that lies at most [0xffffffff] bytes above the start of
    the dump-time heap, [compute_delta] returns its offset, a [u4], and
    [read_string_from_compact_hashtable], given the same start as the
    recorded start of the heap, decodes that offset to the address of the
    string moved by the relocation of the mapped heap.  A string further up
    is fatal, and the offset is zero only for a string at the very start of
    the heap. *)
Theorem shared_string_offset_round_trip
    (start s mapped_heap_delta : Z) (decode_from_archive : Z -> Z) :
  0 <= start -> start <= s -> s < 2 ^ 63 ->
  - 2 ^ 63 <= s + mapped_heap_delta < 2 ^ 63 ->
  (s - start <= 4294967295 ->
   exists offset,
     compute_delta start s = Some offset
     /\ 0 <= offset <= 4294967295
     /\ (offset = 0 <-> s = start)
     /\ read_string_from_compact_hashtable false decode_from_archive
          start mapped_heap_delta offset
        = wrap_size_t (s + mapped_heap_delta))
  /\ (4294967295 < s - start -> compute_delta start s = None).
Proof.
  intros Hstart Hle Hs Hrel.
  assert (Hoff : wrap_intx (s - start) = s - start) by (apply wrap_intx_small; lia).
  unfold compute_delta. cbv zeta. rewrite Hoff. split.
  - intros Hsmall. destruct (Z.ltb_spec 4294967295 (s - start)) as [Hbig|_]; [lia|].
    assert (Hu : wrap_uint (s - start) = s - start)
      by (unfold wrap_uint; apply Z.mod_small; lia).
    exists (s - start). rewrite Hu. split; [reflexivity|]. split; [lia|]. split; [lia|].
    unfold read_string_from_compact_hashtable.
    replace (s - start + start) with s by ring.
    rewrite (wrap_intx_small s) by lia. rewrite wrap_intx_small by lia. reflexivity.
  - intros Hbig. destruct (Z.ltb_spec 4294967295 (s - start)) as [_|Hsmall]; [reflexivity|lia].
Qed.

(** A string 4096 bytes into a heap that is mapped 65536 bytes lower. *)
Lemma shared_string_offset_round_trip_witness :
  compute_delta 1048576 1052672 = Some 4096
  /\ read_string_from_compact_hashtable false (fun n => n) 1048576 (-65536) 4096 = 987136.
Proof.
  destruct (shared_string_offset_round_trip 1048576 1052672 (-65536) (fun n => n))
    as [Hround _]; try lia.
  destruct Hround as (offset & Hdelta & _ & _ & Hread); [lia|].
  assert (Hoffset : offset = 4096) by (vm_compute in Hdelta; congruence).
  subst offset. split; [exact Hdelta|]. rewrite Hread. reflexivity.
Defined.

(** ** The entry points together *)

Section Together.
Context `{Collaborators}.

Lemma check_null_some r o st' :
  check_null r = Some (Some o, st') ->
  r = Some (Some o, st') /\ pending_exception st' = false.
Proof.
  destruct r as [[res0 st0]|]; cbn [check_null]; [|discriminate].
  intros Hr. inversion Hr as [[Hres Hst]]. subst st0.
  destruct (pending_exception st') eqn:Hp; [discriminate|]. subst res0. auto.
Qed.

Lemma lookup_hit_intern_checked fuel h name st o :
  fst (lookup name st) = Some o -> pending_exception st = false ->
  exists st', check_null (intern fuel h name st) = Some (Some o, st').
Proof.
  intros Hf Hp. destruct (lookup_hit_intern fuel h name st o Hf)
    as (st' & Hrun & _ & _ & _ & (_ & Hp' & _)).
  exists st'. rewrite Hrun. cbn [check_null]. rewrite Hp', Hp. reflexivity.
Qed.

(** X23. The three public [intern] calls agree: a string returned for a
    symbol is what [lookup] on that symbol answers afterwards, and what
    interning a UTF-8 string or a heap string of the same contents returns,
    the latter provided the copy of its characters can be allocated. *)
Theorem intern_entry_points_agree
    (fuel fuel2 : nat) (symbol : Symbol) (utf8_string : list Z) (string r : oop)
    (st st1 : StringTable) :
  handles_allocated st ->
  intern_symbol fuel (Some symbol) st = Some (Some r, st1) ->
  UTF8_convert_to_unicode utf8_string = Symbol_as_unicode symbol ->
  oop_value string = Symbol_as_unicode symbol ->
  fst (lookup_symbol symbol st1) = Some r
  /\ (exists st2, intern_utf8 fuel2 (Some utf8_string) st1 = Some (Some r, st2))
  /\ (alloc_budget st1 <> Some 0%nat ->
      exists st2, intern_oop fuel2 (Some string) st1 = Some (Some r, st2)).
Proof.
  intros Hwf Hrun Hu Hs. cbn [intern_symbol] in Hrun.
  apply check_null_some in Hrun as [Hrun Hp1].
  assert (Hnone : forall s0, @None oop = Some s0 -> oop_value s0 = Symbol_as_unicode symbol)
    by discriminate.
  destruct (intern_finds _ _ _ _ _ _ Hwf Hnone Hrun) as [_ Hf].
  split; [exact Hf|]. split.
  - cbn [intern_utf8]. rewrite Hu. apply lookup_hit_intern_checked; assumption.
  - intros Hb. cbn [intern_oop]. unfold as_unicode_string.
    destruct (try_allocate_cases st1)
      as [(_ & Hz & _)|(Hok & _ & _ & Ht0 & Hs0 & _ & Hp0 & Hfr0)]; [contradiction|].
    destruct (try_allocate st1) as [ok st0]. cbn [fst snd] in *. subst ok.
    rewrite Hp0, Hp1, Hs.
    apply lookup_hit_intern_checked; [|congruence].
    rewrite <- Hf. unfold lookup_symbol.
    rewrite !lookup_result, (local_hash_frame _ _ _ Hfr0).
    destruct Hfr0 as (Hsh & _). rewrite Hsh.
    destruct (shared_lookup _ _ _); [reflexivity|].
    apply do_lookup_same_tables; assumption.
Qed.

Lemma intern_oop_total fuel string st :
  handles_allocated st -> exists r st', intern_oop (S fuel) string st = Some (r, st').
Proof.
  intros Hwf. destruct string as [s|]; cbn [intern_oop]; [|eauto].
  unfold as_unicode_string.
  destruct (try_allocate_tables st) as (_ & Ht0 & Hs0 & Hi0).
  destruct (try_allocate st) as [ok st0]. cbn [snd] in *.
  destruct (pending_exception st0); [eauto|].
  assert (Hwf0 : handles_allocated st0) by (eapply handles_allocated_fields; eassumption).
  destruct (intern_total fuel (Some s) (if ok then oop_value s else []) st0 Hwf0)
    as (r & st' & Hrun).
  rewrite Hrun. cbn [check_null]. eauto.
Qed.

Lemma shared_iterate_total fuel entries st :
  well_formed st -> exists st', shared_iterate (S fuel) entries st = Some st'.
Proof.
  revert st. induction entries as [|e rest IH]; intros st Hwf; cbn [shared_iterate]; [eauto|].
  unfold SharedStringTransfer_do_value. pose proof Hwf as (Hha & _).
  destruct (intern_oop_total fuel (Some (snd e)) st Hha) as (r & st1 & Hrun).
  rewrite Hrun. pose proof (well_formed_intern_oop _ _ _ _ _ Hwf Hrun) as Hwf1.
  set (st2 := if pending_exception st1 then set_vm_exited true st1 else st1).
  assert (Hwf2 : well_formed st2).
  { subst st2. destruct (pending_exception st1); [|exact Hwf1].
    eapply well_formed_fields; [..|exact Hwf1]; destruct st1; reflexivity. }
  destruct (vm_exited st2); [eauto|]. apply IH. exact Hwf2.
Qed.

Lemma exec_total o st :
  well_formed st -> positive_fuel o = true -> exists st', exec o st = Some st'.
Proof.
  intros Hwf Hfuel. pose proof Hwf as (Hha & _).
  destruct o; cbn [exec positive_fuel] in *; try (eexists; reflexivity).
  - destruct fuel as [|fuel]; [discriminate|].
    destruct symbol as [sym|]; cbn [intern_symbol]; [|eexists; reflexivity].
    destruct (intern_total fuel None (Symbol_as_unicode sym) st Hha) as (r & st' & Hrun).
    rewrite Hrun. cbn. eauto.
  - destruct fuel as [|fuel]; [discriminate|].
    destruct (intern_oop_total fuel string st Hha) as (r & st' & Hrun).
    rewrite Hrun. cbn. eauto.
  - destruct fuel as [|fuel]; [discriminate|].
    destruct utf8_string as [u|]; cbn [intern_utf8]; [|eexists; reflexivity].
    destruct (intern_total fuel None (UTF8_convert_to_unicode u) st Hha) as (r & st' & Hrun).
    rewrite Hrun. cbn. eauto.
  - destruct fuel as [|fuel]; [discriminate|].
    unfold transfer_shared_strings_to_local_table. apply shared_iterate_total.
    eapply well_formed_fields; [..|exact Hwf]; destruct st; reflexivity.
Qed.

(** X24. Every call returns.  From a well-formed state, a history whose
    interning calls are given at least one turn of the retry loop of
    [do_intern] runs to its end: without interference from another thread
    the loop needs no second turn. *)
Theorem histories_return (ops : list op) (st : StringTable) :
  well_formed st -> forallb positive_fuel ops = true ->
  exists st', run ops st = Some st'.
Proof.
  revert st. induction ops as [|o rest IH]; intros st Hwf Hfuel; cbn [run]; [eauto|].
  cbn [forallb] in Hfuel. apply andb_true_iff in Hfuel as [Ho Hrest].
  destruct (exec_total o st Hwf Ho) as (st1 & He). rewrite He.
  apply IH; [|exact Hrest]. eapply exec_well_formed; eassumption.
Qed.

End Together.

(** ** Interned strings stay interned *)

Lemma no_string_offered (name : list jchar) :
  forall s, @None oop = Some s -> oop_value s = name.
Proof. discriminate. Qed.

Lemma string_offered (s : oop) : forall s0, Some s = Some s0 -> oop_value s0 = oop_value s.
Proof. intros s0 Hs. inversion Hs; subst. reflexivity. Qed.

Section Persistence.
Context `{Collaborators}.

Lemma shared_iterate_vm_exited fuel entries st st' :
  shared_iterate fuel entries st = Some st' -> vm_exited st = true -> vm_exited st' = true.
Proof.
  revert st. induction entries as [|e rest IH]; intros st; cbn [shared_iterate].
  - intros Hr. inversion Hr; subst. auto.
  - unfold SharedStringTransfer_do_value.
    destruct (intern_oop fuel (Some (snd e)) st) as [[r st1]|] eqn:Hrun; [|discriminate].
    pose proof (intern_oop_frame _ _ _ _ _ Hrun) as (_ & _ & _ & _ & _ & _ & Hv & _).
    set (st2 := if pending_exception st1 then set_vm_exited true st1 else st1).
    intros Hiter Hexit.
    assert (Hv2 : vm_exited st2 = true).
    { subst st2. destruct (pending_exception st1); [destruct st1; reflexivity|].
      rewrite Hv. exact Hexit. }
    rewrite Hv2 in Hiter. inversion Hiter; subst. exact Hv2.
Qed.

Lemma exec_vm_exited o st st' :
  exec o st = Some st' -> vm_exited st = true -> vm_exited st' = true.
Proof.
  destruct o; cbn [exec].
  - intros Hr. inversion Hr; subst.
    destruct (lookup_frame name st) as (_ & _ & _ & _ & _ & _ & Hv & _). congruence.
  - destruct (intern_symbol _ _ _) as [[r st1]|] eqn:Hi; [|discriminate].
    intros Hr. inversion Hr; subst.
    destruct (intern_symbol_frame _ _ _ _ _ Hi) as (_ & _ & _ & _ & _ & _ & Hv & _).
    congruence.
  - destruct (intern_oop _ _ _) as [[r st1]|] eqn:Hi; [|discriminate].
    intros Hr. inversion Hr; subst.
    destruct (intern_oop_frame _ _ _ _ _ Hi) as (_ & _ & _ & _ & _ & _ & Hv & _).
    congruence.
  - destruct (intern_utf8 _ _ _) as [[r st1]|] eqn:Hi; [|discriminate].
    intros Hr. inversion Hr; subst.
    destruct (intern_utf8_frame _ _ _ _ _ Hi) as (_ & _ & _ & _ & _ & _ & Hv & _).
    congruence.
  - intros Hr. inversion Hr; subst. unfold gc_notification, trigger_concurrent_work.
    destruct (has_work st); [auto|]. destruct (_ || _); [|auto]. destruct st; auto.
  - intros Hr. inversion Hr; subst. unfold do_concurrent_work. cbv zeta. destruct (_ && _).
    + destruct (grow_frame st) as (_ & _ & _ & _ & _ & _ & _ & _ & _ & Hv & _).
      destruct (grow st); cbn in *. congruence.
    + destruct (clean_dead_entries_frame st) as (_ & _ & _ & _ & _ & _ & _ & _ & _ & Hv & _).
      destruct (clean_dead_entries st); cbn in *. congruence.
  - intros Hr. inversion Hr; subst.
    destruct (growth_preferred st) eqn:Hgrow.
    { unfold rehash_table. unfold growth_preferred in Hgrow. rewrite Hgrow.
      destruct st; auto. }
    destruct (rehashed st) eqn:Hre.
    { unfold rehash_table. unfold growth_preferred in Hgrow. rewrite Hgrow, Hre.
      destruct st; auto. }
    rewrite (rehash_table_unfold seed st Hre Hgrow). cbv zeta.
    rewrite (do_rehash_unfold (set_alt_hash_seed seed st)). cbv zeta.
    destruct (negb (is_safepoint_safe _)); cbn [fst snd]; [destruct st; auto|].
    destruct (negb (try_resize_lock _)); cbn [fst snd]; [destruct st; auto|].
    pose proof (move_nodes_frame (all_nodes (local_table (set_alt_hash_seed seed st)))
                  (new_table (size_log2 (local_table (set_alt_hash_seed seed st))))
                  (set_alt_hash true (set_alt_hash_seed seed st)))
      as (_ & _ & _ & _ & _ & _ & _ & _ & _ & Hv & _).
    destruct (snd (move_nodes _ _ _)); cbn in *. rewrite Hv. destruct st; auto.
  - unfold transfer_shared_strings_to_local_table. intros Hrun Hexit.
    apply (shared_iterate_vm_exited _ _ _ _ Hrun). destruct st; exact Hexit.
  - intros Hr. inversion Hr; subst. destruct st; auto.
  - intros Hr. inversion Hr; subst. destruct st; auto.
Qed.

Lemma run_vm_exited ops st st' :
  run ops st = Some st' -> vm_exited st = true -> vm_exited st' = true.
Proof.
  revert st. induction ops as [|o rest IH]; intros st; cbn [run].
  - intros Hr. inversion Hr; subst. auto.
  - destruct (exec o st) as [st1|] eqn:He; [|discriminate].
    intros Hrun Hexit. apply (IH st1 Hrun). exact (exec_vm_exited _ _ _ He Hexit).
Qed.

Lemma exec_archive_hashed o st st' :
  exec o st = Some st' -> archive_hashed (shared_table st) ->
  archive_hashed (shared_table st').
Proof.
  assert (Hnil : archive_hashed []) by (intros e He; by apply elem_of_nil in He).
  destruct o; cbn [exec].
  - intros Hr. inversion Hr; subst.
    destruct (lookup_frame name st) as (Hsh & _). rewrite Hsh. auto.
  - destruct (intern_symbol _ _ _) as [[r st1]|] eqn:Hi; [|discriminate].
    intros Hr. inversion Hr; subst.
    destruct (intern_symbol_frame _ _ _ _ _ Hi) as (Hsh & _). rewrite Hsh. auto.
  - destruct (intern_oop _ _ _) as [[r st1]|] eqn:Hi; [|discriminate].
    intros Hr. inversion Hr; subst.
    destruct (intern_oop_frame _ _ _ _ _ Hi) as (Hsh & _). rewrite Hsh. auto.
  - destruct (intern_utf8 _ _ _) as [[r st1]|] eqn:Hi; [|discriminate].
    intros Hr. inversion Hr; subst.
    destruct (intern_utf8_frame _ _ _ _ _ Hi) as (Hsh & _). rewrite Hsh. auto.
  - intros Hr. inversion Hr; subst. unfold gc_notification, trigger_concurrent_work.
    destruct (has_work st); [auto|]. destruct (_ || _); [|auto]. destruct st; auto.
  - intros Hr. inversion Hr; subst. unfold do_concurrent_work. cbv zeta. destruct (_ && _).
    + destruct (grow_frame st) as (Hsh & _). destruct (grow st); cbn in *. rewrite Hsh. auto.
    + destruct (clean_dead_entries_frame st) as (Hsh & _).
      destruct (clean_dead_entries st); cbn in *. rewrite Hsh. auto.
  - intros Hr Hh. inversion Hr; subst.
    replace (shared_table (rehash_table seed st)) with (shared_table st); [exact Hh|].
    symmetry. destruct (growth_preferred st) eqn:Hgrow.
    { unfold rehash_table. unfold growth_preferred in Hgrow. rewrite Hgrow.
      destruct st; auto. }
    destruct (rehashed st) eqn:Hre.
    { unfold rehash_table. unfold growth_preferred in Hgrow. rewrite Hgrow, Hre.
      destruct st; auto. }
    rewrite (rehash_table_unfold seed st Hre Hgrow). cbv zeta.
    rewrite (do_rehash_unfold (set_alt_hash_seed seed st)). cbv zeta.
    destruct (negb (is_safepoint_safe _)); cbn [fst snd]; [destruct st; auto|].
    destruct (negb (try_resize_lock _)); cbn [fst snd]; [destruct st; auto|].
    pose proof (move_nodes_frame (all_nodes (local_table (set_alt_hash_seed seed st)))
                  (new_table (size_log2 (local_table (set_alt_hash_seed seed st))))
                  (set_alt_hash true (set_alt_hash_seed seed st))) as (Hsh & _).
    destruct (snd (move_nodes _ _ _)); cbn in *. rewrite Hsh. destruct st; auto.
  - unfold transfer_shared_strings_to_local_table. intros Hrun _.
    rewrite (shared_iterate_shared_table _ _ _ _ Hrun).
    replace (shared_table (set_shared_table [] st)) with (@nil (Z * oop))
      by (destruct st; reflexivity).
    exact Hnil.
  - intros Hr. inversion Hr; subst. destruct st; auto.
  - intros Hr. inversion Hr; subst. destruct st; auto.
Qed.

Lemma lookup_fields name st st' :
  shared_table st' = shared_table st -> local_table st' = local_table st ->
  oop_storage st' = oop_storage st -> alt_hash st' = alt_hash st ->
  alt_hash_seed st' = alt_hash_seed st ->
  fst (lookup name st') = fst (lookup name st).
Proof.
  intros Hsh Ht Hs Ha Hseed. rewrite !lookup_result, Hsh.
  destruct (shared_lookup _ _ _); [reflexivity|].
  unfold local_hash. rewrite Ha, Hseed. apply do_lookup_same_tables; assumption.
Qed.

(** One call, other than the collector clearing a referent, keeps every
    string that [lookup] answers. *)
Lemma exec_keeps_answer o st st' name x :
  well_formed st -> archive_hashed (shared_table st) -> archive_disjoint st ->
  is_collect o = false -> exec o st = Some st' -> vm_exited st' = false ->
  fst (lookup name st) = Some x -> fst (lookup name st') = Some x.
Proof.
  intros Hwf Hhashed Hdis Hnc Hexec Hv Hx. pose proof Hwf as (Hha & _).
  destruct o; cbn [exec is_collect] in *; try discriminate.
  - inversion Hexec; subst. rewrite <- Hx.
    destruct (lookup_tables_unchanged name0 st) as (Hsh & Ht & Hs).
    destruct (lookup_frame name0 st) as (_ & _ & Ha & Hseed & _).
    apply lookup_fields; assumption.
  - destruct symbol as [sym|]; cbn [intern_symbol] in Hexec;
      [|inversion Hexec; subst; exact Hx].
    destruct (check_null _) as [[r st1]|] eqn:Hi; [|discriminate].
    inversion Hexec; subst. apply check_null_state in Hi as [r0 Hi].
    eapply (intern_answers _ _ _ name _ _ _ Hwf (no_string_offered _) Hi). exact Hx.
  - destruct string as [s|]; cbn [intern_oop] in Hexec;
      [|inversion Hexec; subst; exact Hx].
    unfold as_unicode_string in Hexec.
    pose proof (well_formed_try_allocate st Hwf) as Hwf0.
    destruct (try_allocate_tables st) as (Hsh0 & Ht0 & Hs0 & _).
    pose proof (intern_frame_try_allocate st) as (_ & _ & Ha0 & Hseed0 & _).
    assert (Hx0 : fst (lookup name (snd (try_allocate st))) = Some x)
      by (rewrite <- Hx; apply lookup_fields; assumption).
    destruct (try_allocate_cases st) as [(Hok & _ & Hst)|(Hok & _)];
      destruct (try_allocate st) as [ok st0]; cbn [fst snd] in *; subst ok.
    + subst st0.
      replace (pending_exception (set_pending_exception true st)) with true in Hexec
        by (destruct st; reflexivity).
      cbn in Hexec. inversion Hexec; subst. exact Hx0.
    + destruct (pending_exception st0).
      * cbn in Hexec. inversion Hexec; subst. exact Hx0.
      * destruct (check_null _) as [[r st1]|] eqn:Hi; [|discriminate].
        cbn in Hexec. inversion Hexec; subst. apply check_null_state in Hi as [r0 Hi].
        eapply (intern_answers _ _ _ name _ _ _ Hwf0 (string_offered s) Hi). exact Hx0.
  - destruct utf8_string as [u|]; cbn [intern_utf8] in Hexec;
      [|inversion Hexec; subst; exact Hx].
    destruct (check_null _) as [[r st1]|] eqn:Hi; [|discriminate].
    inversion Hexec; subst. apply check_null_state in Hi as [r0 Hi].
    eapply (intern_answers _ _ _ name _ _ _ Hwf (no_string_offered _) Hi). exact Hx.
  - inversion Hexec; subst. rewrite <- Hx. apply lookup_fields;
      unfold gc_notification, trigger_concurrent_work;
      destruct (has_work st); try reflexivity; destruct (_ || _); try reflexivity;
      destruct st; reflexivity.
  - inversion Hexec; subst. rewrite <- Hx. apply same_strings_lookup; [exact Hwf| |].
    + apply well_formed_do_concurrent_work. exact Hwf.
    + apply same_strings_do_concurrent_work. exact Hwf.
  - inversion Hexec; subst. rewrite <- Hx. apply same_strings_lookup; [exact Hwf| |].
    + apply well_formed_rehash_table. exact Hwf.
    + apply same_strings_rehash_table. exact Hwf.
  - unfold transfer_shared_strings_to_local_table in Hexec.
    set (st0 := set_shared_table [] st) in *.
    assert (Hf : shared_table st0 = [] /\ local_table st0 = local_table st
                 /\ oop_storage st0 = oop_storage st /\ items_count st0 = items_count st
                 /\ current_size st0 = current_size st /\ alt_hash st0 = alt_hash st
                 /\ alt_hash_seed st0 = alt_hash_seed st /\ rehashed st0 = rehashed st)
      by (subst st0; destruct st; cbn; auto 10).
    destruct Hf as (Hsh0 & Ht0 & Hs0 & Hi0 & Hc0 & Ha0 & Hseed0 & Hre0).
    assert (Hwf0 : well_formed st0) by (eapply well_formed_fields; eassumption).
    rewrite (shared_iterate_answers fuel (shared_table st) st0 st' Hwf0 Hsh0 Hhashed Hexec Hv).
    rewrite lookup_result in Hx. rewrite lookup_result, Hsh0.
    change (shared_lookup [] name (String_hash_code name)) with (@None oop).
    assert (Hlocal : fst (do_lookup name (local_hash name st0) st0)
                     = fst (do_lookup name (local_hash name st) st)).
    { unfold local_hash. rewrite Ha0, Hseed0. apply do_lookup_same_tables; assumption. }
    rewrite Hlocal.
    destruct (fst (do_lookup name (local_hash name st) st)) as [y|] eqn:Hf.
    + apply (lookup_local_iff st name y Hwf) in Hf as (Hvy & wh & Hl & Ho).
      pose proof (Hdis wh y Hl Ho) as Hmiss. rewrite Hvy in Hmiss. rewrite Hmiss in Hx.
      exact Hx.
    + destruct (shared_lookup _ _ _); [exact Hx | discriminate].
  - inversion Hexec; subst. rewrite <- Hx. apply same_strings_lookup; [exact Hwf| |].
    + apply well_formed_resize_lock. exact Hwf.
    + apply same_strings_fields; intros; destruct st as [a t]; destruct t; reflexivity.
Qed.

(** X25. Interned strings stay interned.  From a well-formed state in
    which every archived entry is filed under the default hash of its
    contents and no string is alive in both tables, a string that [lookup]
    answers is answered, the same string, after any history of lookups,
    interns, collector notifications, concurrent work, rehashes, drains and
    lock changes, as long as the collector clears no referent and the VM
    does not exit. *)
Theorem interned_strings_persist
    (ops : list op) (st st' : StringTable) (name : list jchar) (x : oop) :
  well_formed st -> archive_hashed (shared_table st) -> archive_disjoint st ->
  forallb (fun o => negb (is_collect o)) ops = true ->
  run ops st = Some st' -> vm_exited st' = false ->
  fst (lookup name st) = Some x -> fst (lookup name st') = Some x.
Proof.
  revert st. induction ops as [|o rest IH]; intros st Hwf Hhashed Hdis Hnc; cbn [run].
  - intros Hr _ Hx. inversion Hr; subst. exact Hx.
  - cbn [forallb] in Hnc. apply andb_true_iff in Hnc as [Ho Hrest].
    apply negb_true_iff in Ho.
    destruct (exec o st) as [st1|] eqn:He; [|discriminate].
    intros Hrun Hv Hx.
    assert (Hv1 : vm_exited st1 = false).
    { destruct (vm_exited st1) eqn:Hv1; [|reflexivity].
      rewrite (run_vm_exited _ _ _ Hrun Hv1) in Hv. discriminate. }
    apply (IH st1); try assumption.
    + eapply exec_well_formed; eassumption.
    + eapply exec_archive_hashed; eassumption.
    + eapply exec_archive_disjoint; eassumption.
    + eapply exec_keeps_answer; eassumption.
Qed.

End Persistence.

(** ** The further properties at work *)

Lemma example_plain_well_formed : @well_formed example_collaborators example_plain.
Proof. apply (@create_table_well_formed example_collaborators). vm_compute. discriminate. Qed.

Lemma example_interned_run :
  @run example_collaborators [OpInternOop 1 (Some heap_ab)] example_plain
  = Some example_interned.
Proof. reflexivity. Qed.

Lemma example_interned_well_formed : @well_formed example_collaborators example_interned.
Proof.
  exact (@run_well_formed example_collaborators _ _ _ example_interned_run
           example_plain_well_formed).
Qed.

(** "ab" is interned from the heap and then looked up. *)
Lemma intern_then_lookup_witness :
  oop_value heap_ab = chars_ab
  /\ fst (@lookup example_collaborators chars_ab example_interned) = Some heap_ab.
Proof.
  apply (@intern_then_lookup example_collaborators 1 (Some heap_ab) chars_ab
           example_plain example_interned heap_ab).
  - exact example_plain_allocated.
  - intros s Hs. inversion Hs. reflexivity.
  - reflexivity.
Defined.

(** A second "ab", created by the call if need be, is answered with the
    first. *)
Lemma intern_is_canonical_witness :
  exists st'',
    @intern example_collaborators 1 None chars_ab example_interned = Some (Some heap_ab, st'')
    /\ local_table st'' = local_table example_interned
    /\ oop_storage st'' = oop_storage example_interned
    /\ items_count st'' = items_count example_interned
    /\ heap_top st'' = heap_top example_interned
    /\ alloc_budget st'' = alloc_budget example_interned.
Proof.
  apply (@intern_is_canonical example_collaborators 1 1 (Some heap_ab) None chars_ab
           example_plain example_interned heap_ab).
  - exact example_plain_allocated.
  - intros s Hs. inversion Hs. reflexivity.
  - reflexivity.
Defined.

(** With an allocation budget of nothing, interning contents that no table
    holds returns [nullptr]. *)
Lemma intern_null_iff_allocation_fails_witness :
  exists r st',
    @intern example_collaborators 1 None chars_ab
      (set_alloc_budget (Some 0%nat) example_plain) = Some (r, st')
    /\ r = None.
Proof.
  destruct (@intern_null_iff_allocation_fails example_collaborators 0 None chars_ab
              (set_alloc_budget (Some 0%nat) example_plain))
    as (r & st' & Hrun & Hiff & _).
  - apply (handles_allocated_fields example_plain);
      [reflexivity..|exact example_plain_allocated].
  - reflexivity.
  - discriminate.
  - exists r, st'. split; [exact Hrun|]. apply Hiff. repeat split.
Defined.

(** "ab" offered from the heap becomes the interned string. *)
Lemma intern_miss_links_one_node_witness :
  exists st',
    @intern example_collaborators 1 (Some heap_ab) chars_ab example_plain
    = Some (Some heap_ab, st')
    /\ items_count st' = wrap_size_t (items_count example_plain + 1).
Proof.
  destruct (@intern_miss_links_one_node example_collaborators 0 (Some heap_ab) chars_ab
              example_plain)
    as (st' & Hrun & (s & _ & _ & _ & _ & _ & _ & Hcount) & _).
  - exact example_plain_allocated.
  - reflexivity.
  - intros s Hs. inversion Hs. reflexivity.
  - reflexivity.
  - left. discriminate.
  - exists st'. split; [exact Hrun | exact Hcount].
Defined.

(** The example history ends in a well-formed state. *)
Lemma reachable_states_well_formed_witness :
  @well_formed example_collaborators
    (default example_plain (@run example_collaborators example_history example_plain)).
Proof.
  apply (@reachable_states_well_formed example_collaborators example_history 2 [] 10 None).
  - vm_compute. discriminate.
  - reflexivity.
Defined.



Lemma example_interned_linked : linked example_interned 0%nat.
Proof. exists 1. vm_compute. apply list_elem_of_here. Qed.

(** The node of "ab" is found. *)
Lemma lookup_finds_live_node_witness :
  fst (@lookup example_collaborators (oop_value heap_ab) example_interned) = Some heap_ab.
Proof.
  apply (@lookup_finds_live_node example_collaborators example_interned 0%nat heap_ab).
  - exact example_interned_well_formed.
  - exact example_interned_linked.
  - reflexivity.
  - reflexivity.
Defined.

(** Concurrent work on the table of one string. *)
Lemma concurrent_work_keeps_lookups_witness :
  fst (@lookup example_collaborators chars_ab
         (@do_concurrent_work example_collaborators example_interned))
  = fst (@lookup example_collaborators chars_ab example_interned).
Proof.
  apply (@concurrent_work_keeps_lookups example_collaborators example_interned chars_ab).
  exact example_interned_well_formed.
Defined.

(** A rehash of the table of one string. *)
Lemma rehash_table_keeps_lookups_witness :
  fst (@lookup example_collaborators chars_ab
         (@rehash_table example_collaborators 7 example_interned))
  = fst (@lookup example_collaborators chars_ab example_interned).
Proof.
  apply (@rehash_table_keeps_lookups example_collaborators 7 example_interned chars_ab).
  exact example_interned_well_formed.
Defined.

(** Cleaning after the collector cleared the node of "ab" releases that
    node and leaves the chain empty. *)
Lemma clean_dead_entries_removes_dead_witness :
  get_bucket (local_table (@clean_dead_entries example_collected)) 1 = []
  /\ release_log (oop_storage (@clean_dead_entries example_collected)) = [0%nat]
  /\ items_count (@clean_dead_entries example_collected) = 0.
Proof.
  destruct (clean_dead_entries_removes_dead example_collected)
    as (Hb & _ & Hlog & Hitems & _).
  - destruct (@well_formed_collect example_collaborators 0%nat example_interned
                example_interned_well_formed) as (_ & Hrg & _). exact Hrg.
  - change (items_count example_collected) with 1. unfold size_t_max. lia.
  - reflexivity.
  - split; [rewrite Hb; reflexivity|]. split; [rewrite Hlog; reflexivity|].
    rewrite Hitems. reflexivity.
Defined.

(** Growing the table of one string gives four buckets. *)
Lemma grow_doubles_table_witness :
  size_log2 (local_table (@grow example_collaborators example_interned)) = 2%nat
  /\ current_size (@grow example_collaborators example_interned) = 4.
Proof.
  destruct (@grow_doubles_table example_collaborators example_interned) as [_ Hgrow].
  - change (items_count example_interned) with 1. unfold size_t_max. lia.
  - destruct (Hgrow eq_refl) as (Hsz & Hcs & _). split; [exact Hsz | exact Hcs].
Defined.

(** After the collector cleared the node of "ab", a second "ab" from the
    heap becomes the interned one. *)
Lemma collected_string_is_forgotten_witness :
  fst (@lookup example_collaborators chars_ab example_collected) = None
  /\ exists st'',
       @intern example_collaborators 1 (Some (mk_oop 12 chars_ab)) chars_ab example_collected
       = Some (Some (mk_oop 12 chars_ab), st'').
Proof.
  destruct (@collected_string_is_forgotten example_collaborators 0 example_interned 0%nat
              heap_ab (mk_oop 12 chars_ab))
    as (Hlook & _ & _ & Hrun).
  - exact example_interned_well_formed.
  - reflexivity.
  - exact example_interned_linked.
  - reflexivity.
  - reflexivity.
  - reflexivity.
  - split; [exact Hlook | exact Hrun].
Defined.

(** Interning "abc" leaves the answer for "ab" alone. *)
Lemma intern_keeps_answers_witness :
  fst (@lookup example_collaborators chars_ab
         (state_after example_interned
            (@intern example_collaborators 1 None chars_abc example_interned)))
  = fst (@lookup example_collaborators chars_ab example_interned).
Proof.
  apply (@intern_keeps_answers example_collaborators 1 None chars_abc chars_ab
           example_interned _ (Some (mk_oop 10 chars_abc))).
  - exact example_interned_well_formed.
  - discriminate.
  - reflexivity.
  - discriminate.
Defined.

Lemma example_start_well_formed : @well_formed example_collaborators example_start.
Proof. apply (@create_table_well_formed example_collaborators). vm_compute. discriminate. Qed.

Lemma example_archive_hashed : @archive_hashed example_collaborators example_archive.
Proof.
  intros e He. unfold example_archive in He.
  apply elem_of_cons in He as [->|He]; [reflexivity|].
  apply elem_of_cons in He as [->|He]; [reflexivity|]. by apply elem_of_nil in He.
Qed.

Lemma example_start_disjoint : @archive_disjoint example_collaborators example_start.
Proof.
  intros wh o [j Hin] _. exfalso.
  change (local_table example_start) with (new_table 1) in Hin.
  rewrite get_bucket_new_table in Hin. by apply elem_of_nil in Hin.
Qed.

(** After the drain the archived "hi" is answered as before. *)
Lemma transfer_keeps_lookups_witness :
  fst (@lookup example_collaborators chars_hi
         (default example_start
            (@transfer_shared_strings_to_local_table example_collaborators 1 example_start)))
  = Some archived_hi.
Proof.
  rewrite (@transfer_keeps_lookups example_collaborators 1 example_start _ chars_hi).
  - reflexivity.
  - exact example_start_well_formed.
  - exact example_archive_hashed.
  - exact example_start_disjoint.
  - reflexivity.
  - reflexivity.
Defined.

(** With "hi" and "yo" archived, the example history leaves the tables
    disjoint. *)
Lemma reachable_tables_disjoint_witness :
  @archive_disjoint example_collaborators
    (default example_start (@run example_collaborators example_history example_start)).
Proof.
  apply (@reachable_tables_disjoint example_collaborators example_history 2
           example_archive 10 None).
  - vm_compute. discriminate.
  - reflexivity.
Defined.

(** The example history, which cleans one dead node, released it once. *)
Lemma reachable_handles_released_once_witness :
  release_safe
    (default example_plain (@run example_collaborators example_history example_plain))
  /\ release_log (oop_storage
       (default example_plain (@run example_collaborators example_history example_plain)))
     = [0%nat].
Proof.
  split; [|reflexivity].
  apply (@reachable_handles_released_once example_collaborators example_history 2 [] 10 None).
  - vm_compute. discriminate.
  - reflexivity.
Defined.

(** The example history grows nothing: the table keeps its two buckets. *)
Lemma table_never_shrinks_witness :
  (size_log2 (local_table example_plain)
   <= size_log2 (local_table
        (default example_plain (@run example_collaborators example_history example_plain))))%nat.
Proof.
  apply (@table_never_shrinks example_collaborators example_history example_plain).
  reflexivity.
Defined.

(** A lookup of "hi" in between changes no answer for "ab". *)
Lemma lookup_is_read_only_witness :
  fst (@lookup example_collaborators chars_ab
         (snd (@lookup example_collaborators chars_hi example_interned)))
  = fst (@lookup example_collaborators chars_ab example_interned).
Proof.
  apply (@lookup_is_read_only example_collaborators chars_hi chars_ab example_interned).
Defined.

(** With work outstanding three more reports of the collector notify
    nobody. *)
Lemma gc_notifications_coalesce_witness :
  foldl (fun s num_dead => gc_notification num_dead s)
    (trigger_concurrent_work example_plain) [3; 0; 7]
  = trigger_concurrent_work example_plain.
Proof.
  apply (proj1 (gc_notifications_coalesce [3; 0; 7] (trigger_concurrent_work example_plain))).
  reflexivity.
Defined.

(** "ab" interned as a symbol is what the other two calls return. *)
Lemma intern_entry_points_agree_witness :
  exists st2,
    @intern_utf8 example_collaborators 1 (Some chars_ab)
      (state_after example_plain
         (@intern_symbol example_collaborators 1 (Some chars_ab) example_plain))
    = Some (Some (mk_oop 10 chars_ab), st2).
Proof.
  apply (@intern_entry_points_agree example_collaborators 1 1 chars_ab chars_ab heap_ab
           (mk_oop 10 chars_ab) example_plain).
  - exact example_plain_allocated.
  - reflexivity.
  - reflexivity.
  - reflexivity.
Defined.

(** The example history runs to its end. *)
Lemma histories_return_witness :
  exists st', @run example_collaborators example_history example_plain = Some st'.
Proof.
  apply (@histories_return example_collaborators example_history example_plain).
  - exact example_plain_well_formed.
  - reflexivity.
Defined.

(** After the collector cleared the node of "ab", concurrent work leaves an
    empty table. *)
Lemma concurrent_work_drops_dead_witness :
  items_count (@do_concurrent_work example_collaborators example_collected)
  = wrap_size_t (Z.of_nat (length
      (live_contents (@do_concurrent_work example_collaborators example_collected)))).
Proof.
  apply (@concurrent_work_drops_dead example_collaborators example_collected).
  - exact (@well_formed_collect example_collaborators 0%nat example_interned
             example_interned_well_formed).
  - reflexivity.
Defined.

(** The archived "hi" is answered as before after a drain, concurrent work
    and a rehash. *)
Lemma interned_strings_persist_witness :
  fst (@lookup example_collaborators chars_hi
         (default example_start
            (@run example_collaborators
               [OpTransferShared 1; OpInternOop 1 (Some heap_ab); OpDoConcurrentWork;
                OpRehashTable 7] example_start)))
  = Some archived_hi.
Proof.
  apply (@interned_strings_persist example_collaborators
           [OpTransferShared 1; OpInternOop 1 (Some heap_ab); OpDoConcurrentWork;
            OpRehashTable 7] example_start).
  - exact example_start_well_formed.
  - exact example_archive_hashed.
  - exact example_start_disjoint.
  - reflexivity.
  - reflexivity.
  - reflexivity.
  - reflexivity.
Defined.
